(** * The stylesheet pipeline of [packages/vite/src/node/plugins/css.ts]

    A shallow embedding of the CSS plugin pair ([vite:css], [vite:css-post])
    and of the helpers they rest on, followed by the properties of the
    pipeline that the specification states.

    Conventions.
    - A JavaScript string is a [string]; every [ascii] stands for one code
      unit, so the character classes below are the restriction of the
      source's classes to code units under 256.
    - A [Set<string>] is a duplicate-free list in insertion order
      ([set_add]); a [Map<string, _>] whose order is never observed is a
      [gmap]; the bundle object, which is iterated, is an association list.
    - A function that can throw returns a [result]. *)

From stdpp Require Import base option list strings gmap.
From Stdlib Require Import Ascii Lia.

Local Open Scope string_scope.
Local Open Scope list_scope.

(* ================================================================== *)
(** * JavaScript strings *)
(* ================================================================== *)

Module Js.

Abbreviation chars := (list ascii).

Definition of_string : string -> chars := String.list_ascii_of_string.
Definition to_string : chars -> string := String.string_of_list_ascii.

Definition code (c : ascii) : nat := nat_of_ascii c.

(** [a.startsWith(p)] on code-unit lists. *)
Fixpoint starts_with (p s : chars) : bool :=
  match p, s with
  | [], _ => true
  | _ :: _, [] => false
  | a :: p', b :: s' => Ascii.eqb a b && starts_with p' s'
  end.

(** [s.includes(p)]. *)
Fixpoint includes_chars (p s : chars) : bool :=
  starts_with p s ||
  match s with
  | [] => false
  | _ :: s' => includes_chars p s'
  end.

Definition startsWith (s p : string) : bool :=
  starts_with (of_string p) (of_string s).

Definition includes (s p : string) : bool :=
  includes_chars (of_string p) (of_string s).

(** [s[0]], [undefined] on the empty string. *)
Definition first (s : string) : option ascii :=
  match s with
  | EmptyString => None
  | String c _ => Some c
  end.

(** [s.slice(1, -1)]: the first and the last code unit are dropped; a
    string of length at most two gives the empty string. *)
Definition slice_1_m1 (s : string) : string :=
  to_string (removelast (tl (of_string s))).

(** [''.padEnd(n)] for a JavaScript number [n], here an integer: the
    empty string padded with spaces to length [n], and left empty when
    [n] is not positive. *)
Definition padEnd_empty (n : Z) : string :=
  to_string (repeat " "%char (Z.to_nat n)).

(** Truthiness of a string: only [''] is falsy. *)
Definition truthy (s : string) : bool :=
  match s with
  | EmptyString => false
  | String _ _ => true
  end.

(** [path.posix.basename(p)]: trailing slashes are ignored, and what
    follows the last remaining slash is returned. *)
Fixpoint drop_slashes (r : chars) : chars :=
  match r with
  | "/"%char :: r' => drop_slashes r'
  | _ => r
  end.

Fixpoint take_segment (r : chars) : chars :=
  match r with
  | [] => []
  | "/"%char :: _ => []
  | c :: r' => c :: take_segment r'
  end.

Definition basename (p : string) : string :=
  to_string (rev (take_segment (drop_slashes (rev (of_string p))))).

(** A [Set]: [add] keeps the first insertion of a value. *)
Definition set_has (x : string) (s : list string) : bool :=
  bool_decide (x ∈ s).

Definition set_add (x : string) (s : list string) : list string :=
  if set_has x s then s else s ++ [x].

Definition set_add_all (xs s : list string) : list string :=
  foldl (fun acc x => set_add x acc) s xs.

End Js.

(* ================================================================== *)
(** * Results of code that can throw *)
(* ================================================================== *)

(** A JavaScript [Error]: its message, its [code] property when it has
    one, and its stack. *)
Record JsError := mkJsError {
  err_message : string;
  err_code : option string;
  err_stack : string
}.

Inductive result (A : Type) :=
| Ok (a : A)
| Throw (e : JsError).
Arguments Ok {A} a.
Arguments Throw {A} e.

#[global] Instance result_ret : MRet result := fun _ a => Ok a.

#[global] Instance result_bind : MBind result := fun _ _ f m =>
  match m with
  | Ok a => f a
  | Throw e => Throw e
  end.

(* ================================================================== *)
(** * Regular expressions *)
(* ================================================================== *)

(** A backtracking matcher for the fragment of ECMAScript regular
    expressions that the plugin uses: classes, sequence, ordered
    alternation, greedy repetition, capture groups, [^], [$], [\b] and
    lookbehind. *)
Module Re.

Inductive regex :=
| Eps
| Chr (p : ascii -> bool)
| Seq (r1 r2 : regex)
| Alt (r1 r2 : regex)
| Star (r : regex)
| Group (i : nat) (r : regex)
| Bol
| Eol
| WordB
| LookBehind (r : regex).

(** The matcher state: the text before the position (nearest code unit
    first), the text after it, and the captures made so far. *)
Record mstate := mk_mstate {
  prev : Js.chars;
  rest : Js.chars;
  caps : list (nat * string)
}.

Definition is_word (c : ascii) : bool :=
  let n := Js.code c in
  (((48 <=? n) && (n <=? 57)) || ((65 <=? n) && (n <=? 90)) ||
   ((97 <=? n) && (n <=? 122)) || (n =? 95))%nat.

Definition is_space (c : ascii) : bool :=
  let n := Js.code c in
  (((9 <=? n) && (n <=? 13)) || (n =? 32) || (n =? 160))%nat.

Definition is_digit (c : ascii) : bool :=
  let n := Js.code c in ((48 <=? n) && (n <=? 57))%nat.

Definition head_is_word (l : Js.chars) : bool :=
  match l with
  | [] => false
  | c :: _ => is_word c
  end.

(** One code unit read in direction [fwd] (forwards) or backwards. *)
Definition step_chr (fwd : bool) (p : ascii -> bool) (s : mstate)
  : option mstate :=
  if fwd then
    match rest s with
    | c :: r => if p c then Some (mk_mstate (c :: prev s) r (caps s)) else None
    | [] => None
    end
  else
    match prev s with
    | c :: r => if p c then Some (mk_mstate r (c :: rest s) (caps s)) else None
    | [] => None
    end.

(** What remains to be read in direction [fwd]. *)
Definition ahead (fwd : bool) (s : mstate) : Js.chars :=
  if fwd then rest s else prev s.

Definition consumed (fwd : bool) (s0 s1 : mstate) : Js.chars :=
  let t := take (length (ahead fwd s0) - length (ahead fwd s1)) (ahead fwd s0) in
  if fwd then t else rev t.

Definition set_cap (i : nat) (v : string) (s : mstate) : mstate :=
  mk_mstate (prev s) (rest s) ((i, v) :: caps s).

Fixpoint mt (r : regex) (fwd : bool) (k : mstate -> option mstate)
  (s : mstate) {struct r} : option mstate :=
  match r with
  | Eps => k s
  | Chr p =>
      match step_chr fwd p s with
      | Some s' => k s'
      | None => None
      end
  | Seq r1 r2 =>
      if fwd then mt r1 fwd (mt r2 fwd k) s
      else mt r2 fwd (mt r1 fwd k) s
  | Alt r1 r2 =>
      match mt r1 fwd k s with
      | Some e => Some e
      | None => mt r2 fwd k s
      end
  | Star r1 =>
      (fix loop (n : nat) (s : mstate) {struct n} : option mstate :=
         match n with
         | O => k s
         | S n' =>
             match
               mt r1 fwd
                 (fun s' =>
                    if (length (ahead fwd s') <? length (ahead fwd s))%nat
                    then loop n' s' else None) s
             with
             | Some e => Some e
             | None => k s
             end
         end) (length (ahead fwd s)) s
  | Group i r1 =>
      mt r1 fwd
        (fun s' => k (set_cap i (Js.to_string (consumed fwd s s')) s')) s
  | Bol => match prev s with [] => k s | _ => None end
  | Eol => match rest s with [] => k s | _ => None end
  | WordB =>
      if xorb (head_is_word (prev s)) (head_is_word (rest s))
      then k s else None
  | LookBehind r1 =>
      match mt r1 false Some s with
      | Some e => k (mk_mstate (prev s) (rest s) (caps e))
      | None => None
      end
  end.

(** A successful match: the text before it, the matched text, the text
    after it and the captures. *)
Record rmatch := mk_rmatch {
  m_before : Js.chars;
  m_text : Js.chars;
  m_after : Js.chars;
  m_caps : list (nat * string)
}.

Definition match_here (r : regex) (before ahead_ : Js.chars) : option rmatch :=
  match mt r true Some (mk_mstate before ahead_ []) with
  | Some e =>
      Some (mk_rmatch before
              (take (length ahead_ - length (rest e)) ahead_)
              (rest e) (caps e))
  | None => None
  end.

(** The leftmost match at or after the current position. [skipped]
    collects, nearest first, the code units passed over. *)
Fixpoint search (r : regex) (before skipped ahead_ : Js.chars)
  : option (Js.chars * rmatch) :=
  match match_here r before ahead_ with
  | Some m => Some (skipped, m)
  | None =>
      match ahead_ with
      | [] => None
      | c :: ahead' => search r (c :: before) (c :: skipped) ahead'
      end
  end.

(** [re.exec(s)] for a regular expression without the [g] flag. *)
Definition exec (r : regex) (s : string) : option rmatch :=
  match search r [] [] (Js.of_string s) with
  | Some (_, m) => Some m
  | None => None
  end.

(** [re.test(s)]. *)
Definition test (r : regex) (s : string) : bool :=
  match exec r s with Some _ => true | None => false end.

(** Capture [i] of a match, [undefined] when the group took no part. *)
Definition group (i : nat) (m : rmatch) : option string :=
  snd <$> List.find (fun p => Nat.eqb (fst p) i) (m_caps m).

(** The pieces of [s.replace(re, f)] for a [g] regular expression: the
    text is cut into gaps and matches, left to right; after an empty
    match the next code unit is passed over. *)
Inductive piece :=
| Gap (t : Js.chars)
| Hit (m : rmatch).

Fixpoint pieces_from (r : regex) (n : nat) (before ahead_ : Js.chars)
  : list piece :=
  match n with
  | O => [Gap ahead_]
  | S n' =>
      match search r before [] ahead_ with
      | None => [Gap ahead_]
      | Some (skipped, m) =>
          match m_text m, m_after m with
          | [], [] => [Gap (rev skipped); Hit m]
          | [], c :: after' =>
              Gap (rev skipped) :: Hit m :: Gap [c] ::
              pieces_from r n' (c :: skipped ++ before) after'
          | t, after_ =>
              Gap (rev skipped) :: Hit m ::
              pieces_from r n' (rev t ++ skipped ++ before) after_
          end
      end
  end.

Definition pieces (r : regex) (s : string) : list piece :=
  pieces_from r (S (String.length s)) [] (Js.of_string s).

Definition piece_text (p : piece) : Js.chars :=
  match p with Gap t => t | Hit m => m_text m end.

(** The matches among the pieces, left to right. *)
Definition hits (ps : list piece) : list rmatch :=
  omap (fun p => match p with Hit m => Some m | Gap _ => None end) ps.

Definition render (f : rmatch -> string) (p : piece) : Js.chars :=
  match p with
  | Gap t => t
  | Hit m => Js.of_string (f m)
  end.

(** [s.replace(re, f)] with the [g] flag. *)
Definition replace_all (r : regex) (f : rmatch -> string) (s : string)
  : string :=
  Js.to_string (concat (map (render f) (pieces r s))).

Definition matched (m : rmatch) : string := Js.to_string (m_text m).

(** ** Notation for writing the source's expressions *)

Definition chr (c : ascii) : regex := Chr (Ascii.eqb c).
Definition not_in (cs : string) : regex :=
  Chr (fun c => negb (bool_decide (c ∈ Js.of_string cs))).

Fixpoint lit_chars (l : Js.chars) : regex :=
  match l with
  | [] => Eps
  | [c] => chr c
  | c :: l' => Seq (chr c) (lit_chars l')
  end.

Definition lit (s : string) : regex := lit_chars (Js.of_string s).

Definition plus (r : regex) : regex := Seq r (Star r).
Definition opt (r : regex) : regex := Alt r Eps.

Fixpoint alts (rs : list regex) : regex :=
  match rs with
  | [] => Eps
  | [r] => r
  | r :: rs' => Alt r (alts rs')
  end.

Definition space : regex := Chr is_space.

(** The text a matcher state lies in. *)
Definition whole (s : mstate) : Js.chars := rev (prev s) ++ rest s.

(** From [s] the matcher has moved to [s'] in direction [fwd]. *)
Definition adv (fwd : bool) (s s' : mstate) : Prop :=
  whole s' = whole s /\ length (ahead fwd s') <= length (ahead fwd s).

(** What a match of [r] does to the matcher state. *)
Inductive sem : regex -> bool -> mstate -> mstate -> Prop :=
| sem_eps fwd s : sem Eps fwd s s
| sem_chr p fwd s s' : step_chr fwd p s = Some s' -> sem (Chr p) fwd s s'
| sem_seq_fwd r1 r2 s s1 s' :
    sem r1 true s s1 -> sem r2 true s1 s' -> sem (Seq r1 r2) true s s'
| sem_seq_bwd r1 r2 s s1 s' :
    sem r2 false s s1 -> sem r1 false s1 s' -> sem (Seq r1 r2) false s s'
| sem_alt_l r1 r2 fwd s s' : sem r1 fwd s s' -> sem (Alt r1 r2) fwd s s'
| sem_alt_r r1 r2 fwd s s' : sem r2 fwd s s' -> sem (Alt r1 r2) fwd s s'
| sem_star_stop r fwd s : sem (Star r) fwd s s
| sem_star_more r fwd s s1 s' :
    sem r fwd s s1 -> sem (Star r) fwd s1 s' -> sem (Star r) fwd s s'
| sem_group i r fwd s s1 :
    sem r fwd s s1 ->
    sem (Group i r) fwd s (set_cap i (Js.to_string (consumed fwd s s1)) s1)
| sem_bol fwd s : sem Bol fwd s s
| sem_eol fwd s : sem Eol fwd s s
| sem_wordb fwd s : sem WordB fwd s s
| sem_behind r fwd s e : sem (LookBehind r) fwd s (mk_mstate (prev s) (rest s) (caps e)).

(** Reading forwards: the text [t] is taken from what lies ahead, and
    the captures stay. *)
Definition reads (s s' : mstate) (t : Js.chars) : Prop :=
  rest s = t ++ rest s' /\ caps s' = caps s.

End Re.

(* ================================================================== *)
(** * The regular expressions of css.ts *)
(* ================================================================== *)

Module CssRe.
Import Re.

Definition dquote : ascii := ascii_of_nat 34.
Definition squote : ascii := "'"%char.
Definition dq : string := String dquote EmptyString.

Fixpoint seqs (rs : list regex) : regex :=
  match rs with
  | [] => Eps
  | [r] => r
  | r :: rs' => Seq r (seqs rs')
  end.

(** [cssLangs = `\\.(css|less|sass|scss|styl|stylus|pcss|postcss)($|\\?)`] *)
Definition cssLangs : regex :=
  seqs [chr ".";
        Group 1 (alts [lit "css"; lit "less"; lit "sass"; lit "scss";
                       lit "styl"; lit "stylus"; lit "pcss"; lit "postcss"]);
        Group 2 (Alt Eol (chr "?"))].

Definition cssLangRE : regex := cssLangs.
Definition cssModuleRE : regex := Seq (lit ".module") cssLangs.

Definition query_flag (name : string) : regex :=
  seqs [Group 1 (Alt (chr "?") (chr "&")); lit name; WordB].

(** [/(\?|&)direct\b/] and its siblings. *)
Definition directRequestRE : regex := query_flag "direct".
Definition htmlProxyRE : regex := query_flag "html-proxy".
Definition inlineRE : regex := query_flag "inline".
Definition inlineCSSRE : regex := query_flag "inline-css".
Definition usedRE : regex := query_flag "used".
(** [/\?commonjs-proxy/] *)
Definition commonjsProxyRE : regex := lit "?commonjs-proxy".

(** [[^\w\-\u0080-￿]] *)
Definition not_ident (c : ascii) : bool :=
  negb (is_word c || Ascii.eqb c "-" || (128 <=? Js.code c)%nat).

Definition quoted (q : ascii) (tail : regex) : regex :=
  seqs [chr q; plus (Chr (fun c => negb (Ascii.eqb c q))); tail; chr q].

Definition unquoted_char (c : ascii) : bool :=
  negb (Ascii.eqb c squote || Ascii.eqb c dquote || Ascii.eqb c ")").

(** [/(?<=^|[^\w\-\u0080-￿])url\(\s*('[^']+'|"[^"]+"|[^'")]+)\s*\)/] *)
Definition cssUrlRE : regex :=
  seqs [LookBehind (Alt Bol (Chr not_ident));
        lit "url("; Star space;
        Group 1 (alts [quoted squote Eps; quoted dquote Eps;
                       plus (Chr unquoted_char)]);
        Star space; chr ")"].

(** [/@import ('[^']+\.css'|"[^"]+\.css"|[^'")]+\.css)/] *)
Definition importCssRE : regex :=
  seqs [lit "@import ";
        Group 1 (alts [quoted squote (lit ".css"); quoted dquote (lit ".css");
                       Seq (plus (Chr unquoted_char)) (lit ".css")])].

(** [/image-set\(([^)]+)\)/] *)
Definition cssImageSetRE : regex :=
  seqs [lit "image-set(";
        Group 1 (plus (Chr (fun c => negb (Ascii.eqb c ")"))));
        chr ")"].

(** [isCSSRequest], [isDirectCSSRequest], [isDirectRequest]. *)
Definition isCSSRequest (request : string) : bool := test cssLangRE request.
Definition isDirectCSSRequest (request : string) : bool :=
  test cssLangRE request && test directRequestRE request.
Definition isDirectRequest (request : string) : bool :=
  test directRequestRE request.

End CssRe.

(* ================================================================== *)
(** * The source text of a regular expression *)
(* ================================================================== *)

(** [new RegExp(source)], without the [u] and [v] flags: the pattern is
    read, character after character, into an expression of [Re]. The
    reader covers the part of the syntax that [Re] has a meaning for:
    characters, [.], classes with ranges, the class escapes [\d], [\w],
    [\s] and their complements, the control escapes, escaped
    punctuation, groups with and without capture, [|], the greedy
    quantifiers [*], [+] and [?], and the assertions [^], [$] and
    [\b]. It answers [Invalid] where every engine throws a
    [SyntaxError], and [Beyond] where the pattern uses anything else
    (braces, a []] or [}] outside a class, lazy quantifiers, [(?]
    other than [(?:], back references, [\B], other escapes of letters
    and digits): what the engine makes of such a pattern is not
    modelled. *)
Module RegExp.
Import Re.

Inductive reading (A : Type) :=
| Read (a : A)
| Invalid (reason : string)
| Beyond.
Arguments Read {A} a.
Arguments Invalid {A} reason.
Arguments Beyond {A}.

Inductive item :=
| Atom (r : regex)
| Quantified (r : regex)
| Assertion (r : regex).

Definition item_regex (i : item) : regex :=
  match i with Atom r | Quantified r | Assertion r => r end.

Record frame := mk_frame {
  f_capture : option nat;
  f_alternatives : list regex;
  f_items : list item
}.

Inductive pending :=
| NoAtom
| OneChar (c : ascii)
| Dash (c : ascii).

Inductive mode :=
| Normal
| Escape
| Open
| OpenQuestion
| Class (negated fresh : bool) (members : ascii -> bool) (p : pending)
| ClassEscape (negated : bool) (members : ascii -> bool) (p : pending).

Record state := mk_state {
  s_mode : mode;
  s_frame : frame;
  s_outer : list frame;
  s_captures : nat
}.

Definition syntax_characters : Js.chars := Js.of_string "^$\.*+?()[]{}|".

Definition is_syntax (c : ascii) : bool := existsb (Ascii.eqb c) syntax_characters.

Definition alternative (items : list item) : regex :=
  CssRe.seqs (rev (map item_regex items)).

Definition disjunction (f : frame) : regex :=
  alts (rev (alternative (f_items f) :: f_alternatives f)).

Definition in_mode (m : mode) (s : state) : state :=
  mk_state m (s_frame s) (s_outer s) (s_captures s).

Definition put (i : item) (s : state) : state :=
  mk_state Normal
    (mk_frame (f_capture (s_frame s)) (f_alternatives (s_frame s))
       (i :: f_items (s_frame s)))
    (s_outer s) (s_captures s).

Definition requantify (r : regex) (items : list item) (s : state) : state :=
  mk_state Normal
    (mk_frame (f_capture (s_frame s)) (f_alternatives (s_frame s))
       (Quantified r :: items))
    (s_outer s) (s_captures s).

Definition nothing_to_repeat : string := "Nothing to repeat".

Definition quantify (q : regex -> regex) (s : state) : reading state :=
  match f_items (s_frame s) with
  | Atom r :: items => Read (requantify (q r) items s)
  | _ => Invalid nothing_to_repeat
  end.

Definition question (s : state) : reading state :=
  match f_items (s_frame s) with
  | Atom r :: items => Read (requantify (opt r) items s)
  | Quantified _ :: _ => Beyond
  | _ => Invalid nothing_to_repeat
  end.

Definition open_group (capture : bool) (s : state) : state :=
  let n := if capture then S (s_captures s) else s_captures s in
  mk_state Normal (mk_frame (if capture then Some n else None) [] [])
    (s_frame s :: s_outer s) n.

Definition close_group (s : state) : reading state :=
  match s_outer s with
  | [] => Invalid "Unmatched ')'"
  | parent :: outer =>
      let r := disjunction (s_frame s) in
      let r := match f_capture (s_frame s) with Some i => Group i r | None => r end in
      Read (mk_state Normal
              (mk_frame (f_capture parent) (f_alternatives parent)
                 (Atom r :: f_items parent))
              outer (s_captures s))
  end.

Definition next_alternative (s : state) : state :=
  mk_state Normal
    (mk_frame (f_capture (s_frame s))
       (alternative (f_items (s_frame s)) :: f_alternatives (s_frame s)) [])
    (s_outer s) (s_captures s).

Definition line_terminator (c : ascii) : bool :=
  ((Js.code c =? 10) || (Js.code c =? 13))%nat.

Definition feed_normal (c : ascii) (s : state) : reading state :=
  if negb (is_syntax c) then Read (put (Atom (chr c)) s)
  else if Ascii.eqb c "\" then Read (in_mode Escape s)
  else if Ascii.eqb c "(" then Read (in_mode Open s)
  else if Ascii.eqb c ")" then close_group s
  else if Ascii.eqb c "[" then Read (in_mode (Class false true (fun _ => false) NoAtom) s)
  else if Ascii.eqb c "|" then Read (next_alternative s)
  else if Ascii.eqb c "*" then quantify Star s
  else if Ascii.eqb c "+" then quantify plus s
  else if Ascii.eqb c "?" then question s
  else if Ascii.eqb c "." then Read (put (Atom (Chr (fun x => negb (line_terminator x)))) s)
  else if Ascii.eqb c "^" then Read (put (Assertion Bol) s)
  else if Ascii.eqb c "$" then Read (put (Assertion Eol) s)
  else Beyond.

Definition class_escape (c : ascii) : option (ascii -> bool) :=
  if Ascii.eqb c "d" then Some is_digit
  else if Ascii.eqb c "D" then Some (fun x => negb (is_digit x))
  else if Ascii.eqb c "w" then Some is_word
  else if Ascii.eqb c "W" then Some (fun x => negb (is_word x))
  else if Ascii.eqb c "s" then Some is_space
  else if Ascii.eqb c "S" then Some (fun x => negb (is_space x))
  else None.

Definition control_escape (c : ascii) : option ascii :=
  if Ascii.eqb c "n" then Some (ascii_of_nat 10)
  else if Ascii.eqb c "t" then Some (ascii_of_nat 9)
  else if Ascii.eqb c "r" then Some (ascii_of_nat 13)
  else if Ascii.eqb c "f" then Some (ascii_of_nat 12)
  else if Ascii.eqb c "v" then Some (ascii_of_nat 11)
  else None.

(** An escaped character that stands for itself: a character of ASCII
    that is no letter, digit or underscore. *)
Definition identity_escape (c : ascii) : bool :=
  negb (is_word c) && (Js.code c <? 128)%nat.

Definition feed_escape (c : ascii) (s : state) : reading state :=
  if Ascii.eqb c "b" then Read (put (Assertion WordB) s)
  else
    match class_escape c with
    | Some p => Read (put (Atom (Chr p)) s)
    | None =>
        match control_escape c with
        | Some x => Read (put (Atom (chr x)) s)
        | None =>
            if identity_escape c then Read (put (Atom (chr c)) s) else Beyond
        end
    end.

Definition add_char (c : ascii) (members : ascii -> bool) : ascii -> bool :=
  fun x => members x || Ascii.eqb x c.

Definition add_range (a b : ascii) (members : ascii -> bool) : ascii -> bool :=
  fun x => members x || ((Js.code a <=? Js.code x) && (Js.code x <=? Js.code b))%nat.

Definition add_class (p : ascii -> bool) (members : ascii -> bool) : ascii -> bool :=
  fun x => members x || p x.

Definition settle (p : pending) (members : ascii -> bool) : ascii -> bool :=
  match p with
  | NoAtom => members
  | OneChar a => add_char a members
  | Dash a => add_char "-" (add_char a members)
  end.

Definition out_of_order : string := "Range out of order in character class".

(** A single character [c] read inside a class. *)
Definition class_char (c : ascii) (negated : bool) (members : ascii -> bool)
  (p : pending) (s : state) : reading state :=
  match p with
  | NoAtom => Read (in_mode (Class negated false members (OneChar c)) s)
  | OneChar a => Read (in_mode (Class negated false (add_char a members) (OneChar c)) s)
  | Dash a =>
      if (Js.code a <=? Js.code c)%nat
      then Read (in_mode (Class negated false (add_range a c members) NoAtom) s)
      else Invalid out_of_order
  end.

Definition feed_class (c : ascii) (negated fresh : bool) (members : ascii -> bool)
  (p : pending) (s : state) : reading state :=
  if fresh && Ascii.eqb c "^" then Read (in_mode (Class true false members p) s)
  else if Ascii.eqb c "]" then
    let all := settle p members in
    Read (put (Atom (Chr (if negated then fun x => negb (all x) else all))) s)
  else if Ascii.eqb c "\" then Read (in_mode (ClassEscape negated members p) s)
  else if Ascii.eqb c "-" then
    match p with
    | OneChar a => Read (in_mode (Class negated false members (Dash a)) s)
    | _ => class_char c negated members p s
    end
  else class_char c negated members p s.

Definition feed_class_escape (c : ascii) (negated : bool) (members : ascii -> bool)
  (p : pending) (s : state) : reading state :=
  match class_escape c with
  | Some q =>
      match p with
      | Dash _ => Beyond
      | _ => Read (in_mode (Class negated false (add_class q (settle p members)) NoAtom) s)
      end
  | None =>
      if Ascii.eqb c "b" then class_char (ascii_of_nat 8) negated members p s
      else
        match control_escape c with
        | Some x => class_char x negated members p s
        | None =>
            if identity_escape c then class_char c negated members p s else Beyond
        end
  end.

Definition feed (c : ascii) (s : state) : reading state :=
  match s_mode s with
  | Normal => feed_normal c s
  | Escape => feed_escape c s
  | Open =>
      if Ascii.eqb c "?" then Read (in_mode OpenQuestion s)
      else feed_normal c (open_group true s)
  | OpenQuestion =>
      if Ascii.eqb c ":" then Read (open_group false s) else Beyond
  | Class negated fresh members p => feed_class c negated fresh members p s
  | ClassEscape negated members p => feed_class_escape c negated members p s
  end.

Fixpoint feed_all (l : Js.chars) (s : state) : reading state :=
  match l with
  | [] => Read s
  | c :: l' =>
      match feed c s with
      | Read s' => feed_all l' s'
      | Invalid reason => Invalid reason
      | Beyond => Beyond
      end
  end.

Definition finish (s : state) : reading regex :=
  match s_mode s with
  | Normal =>
      match s_outer s with
      | [] => Read (disjunction (s_frame s))
      | _ => Invalid "Unterminated group"
      end
  | Escape | ClassEscape _ _ _ => Invalid "\ at end of pattern"
  | Open | OpenQuestion => Invalid "Unterminated group"
  | Class _ _ _ _ => Invalid "Unterminated character class"
  end.

Definition start : state := mk_state Normal (mk_frame None [] []) [] 0.

Definition parse (source : string) : reading regex :=
  match feed_all (Js.of_string source) start with
  | Read s => finish s
  | Invalid reason => Invalid reason
  | Beyond => Beyond
  end.

End RegExp.

(* ================================================================== *)
(** * The PostCSS syntax tree *)
(* ================================================================== *)

(** The part of PostCSS that [AtImportHoistPlugin] drives. A node is an
    object: [nid] stands for its identity, which [removeChild] (through
    [indexOf]) compares. A tree built by the parser has pairwise
    distinct identities ([wf]). *)
Module Postcss.

Inductive kind :=
| AtRule (name params : string)
| Rule (selector : string)
| Decl (prop value : string)
| Comment (text : string).

#[local] Unset Elimination Schemes.
Inductive node :=
| Node (nid : nat) (k : kind) (nodes : list node).
#[local] Set Elimination Schemes.

Definition nid (n : node) : nat := match n with Node i _ _ => i end.
Definition node_kind (n : node) : kind := match n with Node _ k _ => k end.
Definition children (n : node) : list node :=
  match n with Node _ _ ch => ch end.

(** The nodes of a subtree in the order [walk] visits them: a node,
    then its descendants, depth first. *)
Fixpoint walk (n : node) : list node :=
  match n with
  | Node _ _ ch => n :: flat_map walk ch
  end.

Definition walk_nodes (root : list node) : list node := flat_map walk root.

Definition ids (root : list node) : list nat := map nid (walk_nodes root).

Definition wf (root : list node) : Prop := NoDup (ids root).

Definition is_atrule (n : node) : bool :=
  match node_kind n with AtRule _ _ => true | _ => false end.

(** [root.walkAtRules(cb)] with a callback that never returns [false]:
    [cb] runs on every at-rule, in [walk] order. *)
Definition walkAtRules {A} (root : list node) (cb : node -> A -> A) (acc : A)
  : A :=
  foldl (fun a n => if is_atrule n then cb n a else a) acc (walk_nodes root).

(** The node of identity [i], as the tree holds it now. *)
Fixpoint find_node (i : nat) (n : node) : option node :=
  match n with
  | Node j _ ch =>
      if Nat.eqb j i then Some n
      else
        (fix find_in (l : list node) : option node :=
           match l with
           | [] => None
           | c :: l' =>
               match find_node i c with
               | Some r => Some r
               | None => find_in l'
               end
           end) ch
  end.

Fixpoint find_in (i : nat) (l : list node) : option node :=
  match l with
  | [] => None
  | c :: l' =>
      match find_node i c with
      | Some r => Some r
      | None => find_in i l'
      end
  end.

(** The tree without the nodes whose identity satisfies [p]. *)
Fixpoint prune_node (p : nat -> bool) (n : node) : node :=
  match n with
  | Node j k ch =>
      Node j k
        ((fix prune_in (l : list node) : list node :=
            match l with
            | [] => []
            | c :: l' =>
                if p (nid c) then prune_in l'
                else prune_node p c :: prune_in l'
            end) ch)
  end.

Fixpoint prune (p : nat -> bool) (l : list node) : list node :=
  match l with
  | [] => []
  | c :: l' =>
      if p (nid c) then prune p l' else prune_node p c :: prune p l'
  end.

(** [parent.removeChild(n)], for the node of identity [i] wherever its
    parent is. *)
Definition removeChild (i : nat) (root : list node) : list node :=
  prune (Nat.eqb i) root.

(** [root.prepend(n)]: the node leaves its parent and becomes the first
    child of the root. A node that the tree no longer holds is inserted
    as it was recorded. *)
Definition prepend (root : list node) (n : node) : list node :=
  default n (find_in (nid n) root) :: removeChild (nid n) root.

(** [rule.name === 'import'] *)
Definition is_import (n : node) : bool :=
  match node_kind n with
  | AtRule name _ => String.eqb name "import"
  | _ => false
  end.

(** [AtImportHoistPlugin]'s [Once(root)]:
    the imports are recorded with [unshift], then prepended with
    [forEach], first the one recorded last. *)
Definition collect_imports (root : list node) : list node :=
  walkAtRules root (fun rule imports =>
                      if is_import rule then rule :: imports else imports) [].

Definition AtImportHoistPlugin_Once (root : list node) : list node :=
  foldl prepend root (collect_imports root).

(** What the hoist is expected to leave: a tree without import rules. *)
Fixpoint strip (n : node) : node :=
  match n with
  | Node j k ch =>
      Node j k
        ((fix strip_in (l : list node) : list node :=
            match l with
            | [] => []
            | c :: l' =>
                if is_import c then strip_in l' else strip c :: strip_in l'
            end) ch)
  end.

Fixpoint strip_forest (l : list node) : list node :=
  match l with
  | [] => []
  | c :: l' => if is_import c then strip_forest l' else strip c :: strip_forest l'
  end.

(** The [@import] rules of a tree, in [walk] order. *)
Definition imports_of (F : list node) : list node :=
  filter (fun n => is_import n = true) (walk_nodes F).

(** [G] places a part of the tree in the rest of it: looking for a node
    or removing one that is not of the rest happens inside the part. *)
Record framing (G : list node -> list node) : Prop := mk_framing {
  frame_find : forall F i, i ∉ ids (G []) -> find_in i (G F) = find_in i F;
  frame_prune :
    forall F i, i ∉ ids (G []) -> removeChild i (G F) = G (removeChild i F);
  frame_ids : forall F, ids (G F) ≡ₚ ids (G []) ++ ids F
}.

End Postcss.

(* ================================================================== *)
(** * State and exceptions *)
(* ================================================================== *)

(** A computation that reads and writes a state and may throw; what was
    written before a throw stays written. *)
Definition M (S A : Type) : Type := S -> result A * S.

Definition ret {S A} (a : A) : M S A := fun s => (Ok a, s).

Definition bind {S A B} (m : M S A) (f : A -> M S B) : M S B :=
  fun s =>
    match m s with
    | (Ok a, s') => f a s'
    | (Throw e, s') => (Throw e, s')
    end.

Definition throw {S A} (e : JsError) : M S A := fun s => (Throw e, s).
Definition get {S} : M S S := fun s => (Ok s, s).
Definition modify {S} (f : S -> S) : M S unit := fun s => (Ok tt, f s).
Definition lift {S A} (r : result A) : M S A := fun s => (r, s).

(** [try m catch (e) h]. *)
Definition try_catch {S A} (m : M S A) (h : JsError -> M S A) : M S A :=
  fun s =>
    match m s with
    | (Ok a, s') => (Ok a, s')
    | (Throw e, s') => h e s'
    end.

Notation "'let*' x ':=' m 'in' k" := (bind m (fun x => k))
  (at level 10, x name, m at level 100, k at level 200, only parsing).
Notation "m ';;' k" := (bind m (fun _ => k))
  (at level 100, k at level 200, right associativity, only parsing).

(** A relation between the state before and after a computation that
    holds however the computation ends. *)
Definition keeps {S A} (R : S -> S -> Prop) (m : M S A) : Prop :=
  forall s, R s (snd (m s)).

(** [for (const x of xs) body(x)] *)
Fixpoint for_each {S A} (xs : list A) (body : A -> M S unit) : M S unit :=
  match xs with
  | [] => ret tt
  | x :: xs' => body x ;; for_each xs' body
  end.

(* ================================================================== *)
(** * Configuration, collaborators and session state *)
(* ================================================================== *)

Inductive PreprocessLang := Less | Sass | Scss | Styl | Stylus.

#[global] Instance PreprocessLang_eq_dec : EqDecision PreprocessLang.
Proof. solve_decision. Defined.

Definition lang_name (l : PreprocessLang) : string :=
  match l with
  | Less => "less" | Sass => "sass" | Scss => "scss"
  | Styl => "styl" | Stylus => "stylus"
  end.

(** [lang in preProcessors], for a [lang] that is a string. *)
Definition preprocessLang_of (lang : string) : option PreprocessLang :=
  List.find (fun l => String.eqb (lang_name l) lang) [Less; Sass; Scss; Styl; Stylus].

Record ExistingRawSourceMap := mkMap {
  map_file : option string;
  map_mappings : string;
  map_names : list string;
  map_sources : list string;
  map_version : nat
}.

(** The [map] field of a compile result: [null], [undefined] or a map. *)
Inductive SourceMapInput :=
| MapNull
| MapUndefined
| MapOf (m : ExistingRawSourceMap).

Definition map_input (m : option ExistingRawSourceMap) : SourceMapInput :=
  match m with Some x => MapOf x | None => MapUndefined end.

(** A message of a PostCSS result. *)
Inductive Message :=
| MDependency (file : string)
| MDirDependency (dir : string) (glob : option string)
| MWarning (text : string) (line column : nat)
| MOther.

Inductive Command := Build | Serve.

Record BuildOptions := mkBuild {
  cssCodeSplit : bool;
  minify : bool;
  build_ssr : bool;
  sourcemap : bool;
  watch : bool
}.

(** A module of the dev server's module graph, with the two fields
    that the plugin sets: the modules it imports, each named by what
    the plugin asked the graph for, and whether it accepts its own
    updates. The other fields of a module, [importers] among them, are
    the graph's own book-keeping and are not carried. *)
Inductive DepEntry :=
| FileOnlyEntry (file : string)
| UrlEntry (url : string).

Record ModuleNode := mkModuleNode {
  importedModules : list DepEntry;
  isSelfAccepting : bool
}.

Section Pipeline.

(** Values the plugin hands on without looking into them: option bags
    and plugin objects. *)
Context {Any : Type}.

(** [config.css.modules]: absent, [false], or options. *)
Inductive ModulesOption :=
| ModulesUnset
| ModulesFalse
| ModulesSet (o : Any).

(** [config.css.postcss]: a search path, or options with an optional
    [plugins] list; [io_options] is the object without [plugins]. *)
Inductive PostcssInline :=
| InlinePath (p : string)
| InlineObject (io_options : Any) (io_plugins : option (list Any)).

Record CSSOptions := mkCSSOptions {
  css_modules : ModulesOption;
  css_preprocessorOptions : option (PreprocessLang -> option Any);
  css_postcss : option PostcssInline
}.

Record ResolvedConfig := mkConfig {
  config_css : option CSSOptions;
  config_root : string;
  config_base : string;
  config_alias : Any;
  config_command : Command;
  config_build : BuildOptions
}.

Record PostCSSConfigResult := mkPostcssConfig {
  pc_options : Any;
  pc_plugins : list Any
}.

(** The plugins handed to PostCSS. *)
Inductive PostcssPlugin :=
| UserPlugin (p : Any)
| PostcssImport (isHTMLProxy : bool)
| PostcssModules (modulesOptions : ModulesOption)
| UrlRewritePostcssPlugin.

(** [includePaths: ['node_modules']] for the Sass family,
    [paths: ['node_modules']] for the others. *)
Inductive NodePaths := IncludePaths | Paths.

(** The options an adapter receives: the defaults, the user's
    [preprocessorOptions[lang]] spread over them, and [filename]. *)
Record StylePreprocessorOptions := mkOpts {
  o_node_paths : NodePaths;
  o_alias : Any;
  o_user : option Any;
  o_filename : string;
  o_indentedSyntax : bool
}.

Record StylePreprocessorResults := mkPre {
  pre_code : string;
  pre_map : option ExistingRawSourceMap;
  pre_additionalMap : option ExistingRawSourceMap;
  pre_errors : list JsError;
  pre_deps : list string
}.

Definition Modules : Type := list (string * string).

(** What [postcss(plugins).process(code, options)] gives back;
    [pr_json] is what the scoped-class plugin passed to [getJSON]. *)
Record PostcssResult := mkPostcssResult {
  pr_css : string;
  pr_messages : list Message;
  pr_map : ExistingRawSourceMap;
  pr_json : option Modules
}.

Definition StylePreprocessor : Type :=
  string -> string -> StylePreprocessorOptions -> result StylePreprocessorResults.

(** The collaborators outside css.ts: helpers of [../utils], Node's
    [path], the dialect adapters' engines, PostCSS, esbuild, the host
    bundler, the resolution of the dev server's module graph, and
    [RegExp_beyond], the regular expression engine on the patterns that
    [RegExp.parse] does not read: the engine throws, or gives what
    [text.replace(re, f)] makes of a text for a callback [f] of the
    matched text. *)
Record Env := mkEnv {
  cleanUrl : string -> string;
  normalizePath : string -> string;
  isExternalUrl : string -> bool;
  isDataUrl : string -> bool;
  combineSourcemaps :
    string -> ExistingRawSourceMap -> ExistingRawSourceMap -> ExistingRawSourceMap;
  generateCodeFrame : string -> nat -> nat -> string;
  path_resolve : string -> string -> string;
  path_dirname : string -> string;
  decodeURIComponent : string -> string;
  yellow : string -> string;
  glob_sync : string -> list string;
  postcssrc : string -> result PostCSSConfigResult;
  scss_adapter : StylePreprocessor;
  less_adapter : StylePreprocessor;
  styl_adapter : StylePreprocessor;
  postcss_process :
    list PostcssPlugin -> string -> option Any -> string -> result PostcssResult;
  postcss_parse : string -> result (list Postcss.node);
  postcss_stringify : list Postcss.node -> string;
  esbuild_transform : string -> result (string * list string);
  processSrcSet : string -> (string -> result string) -> result string;
  assetUrlRE : Re.regex;
  getAssetFilename : option string -> string;
  emitted_fileName : string -> string -> string;
  generateMap : string -> string -> ExistingRawSourceMap;
  json_stringify : string -> string;
  dep_module_url : string -> string;
  moduleGraph_resolveId : string -> bool -> string;
  RegExp_beyond : string -> result ((string -> string) -> string -> string);
  new_ModuleNode : string -> ModuleNode;
  require_resolve : string -> string -> result string;
  require_module : string -> result Any;
  error_stack : string -> string
}.

(** What a build or dev session carries through [compileCSS]. *)
Record Session := mkSession {
  postcssConfigCache : option (option PostCSSConfigResult);
  globImporters : gmap string (list (string * string));
  warnings : list string
}.

Record CompileResult := mkResult {
  cr_code : string;
  cr_map : SourceMapInput;
  cr_ast : option PostcssResult;
  cr_modules : option Modules;
  cr_deps : option (list string)
}.

End Pipeline.

Arguments ModulesOption : clear implicits.
Arguments PostcssInline : clear implicits.
Arguments CSSOptions : clear implicits.
Arguments ResolvedConfig : clear implicits.
Arguments PostCSSConfigResult : clear implicits.
Arguments PostcssPlugin : clear implicits.
Arguments StylePreprocessorOptions : clear implicits.
Arguments StylePreprocessor : clear implicits.
Arguments Env : clear implicits.
Arguments Session : clear implicits.

(* ================================================================== *)
(** * The stylesheet compiler *)
(* ================================================================== *)

Section Compiler.

Context {Any : Type} (E : Env Any).

Abbreviation St := (Session Any).

(** [preProcessors]: [sass] is [scss] with [indentedSyntax], and both
    [styl] and [stylus] are the Stylus adapter. *)
Definition sass_adapter : StylePreprocessor Any :=
  fun source root options =>
    scss_adapter E source root
      (mkOpts (o_node_paths options) (o_alias options) (o_user options)
         (o_filename options) true).

Definition preProcessors (lang : PreprocessLang) : StylePreprocessor Any :=
  match lang with
  | Less => less_adapter E
  | Sass => sass_adapter
  | Scss => scss_adapter E
  | Styl | Stylus => styl_adapter E
  end.

(** [resolvePostcssConfig]: one resolution per session; a failed search
    that is not "No PostCSS Config found" is thrown and not cached. *)
Definition resolvePostcssConfig (config : ResolvedConfig Any)
  : M St (option (PostCSSConfigResult Any)) :=
  let* s := get in
  match postcssConfigCache s with
  | Some result => ret result
  | None =>
      let inlineOptions :=
        match config_css config with
        | Some c => css_postcss c
        | None => None
        end in
      let* result :=
        match inlineOptions with
        | Some (InlineObject options plugins) =>
            ret (Some (mkPostcssConfig options (default [] plugins)))
        | _ =>
            let searchPath :=
              match inlineOptions with
              | Some (InlinePath p) => p
              | _ => config_root config
              end in
            try_catch
              (let* r := lift (postcssrc E searchPath) in ret (Some r))
              (fun e =>
                 if negb (Js.includes (err_message e) "No PostCSS Config found")
                 then throw e
                 else ret None)
        end in
      modify (fun s => mkSession (Some result) (globImporters s) (warnings s)) ;;
      ret result
  end.

(** [combineSourcemapsIfExists] *)
Definition combineSourcemapsIfExists (filename : string)
  (map1 map2 : option ExistingRawSourceMap) : option ExistingRawSourceMap :=
  match map1, map2 with
  | Some m1, Some m2 => Some (combineSourcemaps E filename m1 m2)
  | _, _ => map1
  end.

(** [formatPostcssSourceMap] *)
Definition formatPostcssSourceMap (rawMap : ExistingRawSourceMap) (file : string)
  : ExistingRawSourceMap :=
  let inputFileDir := path_dirname E file in
  let sources :=
    map (fun source =>
           normalizePath E
             (path_resolve E inputFileDir (cleanUrl E (decodeURIComponent E source))))
      (filter (fun source => source ≠ "<no source>") (map_sources rawMap)) in
  mkMap (Some file) (map_mappings rawMap) (map_names rawMap) sources
    (map_version rawMap).

(** The options of step 2, with [opts.filename = cleanUrl(id)]. *)
Definition preprocessor_opts (config : ResolvedConfig Any)
  (preprocessorOptions : option (PreprocessLang -> option Any))
  (lang : PreprocessLang) (id : string) : StylePreprocessorOptions Any :=
  let user :=
    match preprocessorOptions with
    | Some po => po lang
    | None => None
    end in
  let node_paths :=
    match lang with
    | Scss | Sass => IncludePaths
    | Less | Styl | Stylus => Paths
    end in
  mkOpts node_paths (config_alias config) user (cleanUrl E id) false.

(** The preprocessor's dependencies that are kept: all but the file
    itself. *)
Definition keep_dep (filename dep : string) : bool :=
  negb (String.eqb (normalizePath E dep) (normalizePath E filename)).

Definition preprocessor_deps (filename : string) (reported : list string)
  : list string :=
  Js.set_add_all (filter (fun dep => keep_dep filename dep = true) reported) [].

(** [normalizePath(path.resolve(path.dirname(id), dir)) + `/` + globPattern],
    where [globPattern] defaults to [**]. *)
Definition dir_pattern (id dir : string) (globPattern : option string) : string :=
  normalizePath E (path_resolve E (path_dirname E id) dir) +:+ "/" +:+
  default "**" globPattern.

(** The files that a message adds to the dependencies. *)
Definition message_files (id : string) (message : Message) : list string :=
  match message with
  | MDependency file => [normalizePath E file]
  | MDirDependency dir globPattern => glob_sync E (dir_pattern id dir globPattern)
  | _ => []
  end.

(** One message of the PostCSS result, in the loop of step 3. *)
Definition record_message (id code : string) (config : ResolvedConfig Any)
  (server : bool) (message : Message) (deps : list string)
  : M St (list string) :=
  match message with
  | MDependency file => ret (Js.set_add_all (message_files id message) deps)
  | MDirDependency dir globPattern =>
      let pattern := dir_pattern id dir globPattern in
      (if server then
         modify (fun s =>
           let entry := default [] (globImporters s !! id) in
           mkSession (postcssConfigCache s)
             (<[id := entry ++ [(config_root config, pattern)]]> (globImporters s))
             (warnings s))
       else ret tt) ;;
      ret (Js.set_add_all (message_files id message) deps)
  | MWarning text line column =>
      let msg := "[vite:css] " +:+ text in
      let msg :=
        match line, column with
        | S _, S _ =>
            msg +:+ String (ascii_of_nat 10) (generateCodeFrame E code line column)
        | _, _ => msg
        end in
      modify (fun s =>
        mkSession (postcssConfigCache s) (globImporters s)
          (warnings s ++ [yellow E msg])) ;;
      ret deps
  | MOther => ret deps
  end.

Fixpoint record_messages (id code : string) (config : ResolvedConfig Any)
  (server : bool) (messages : list Message) (deps : list string)
  : M St (list string) :=
  match messages with
  | [] => ret deps
  | m :: ms =>
      let* deps' := record_message id code config server m deps in
      record_messages id code config server ms deps'
  end.

(** [lang = id.match(cssLangRE)?.[1]] *)
Definition lang_of (id : string) : option string :=
  Re.exec CssRe.cssLangRE id ≫= Re.group 1.

Definition is_css (lang : option string) : bool :=
  match lang with
  | Some l => String.eqb l "css"
  | None => false
  end.

(** [isPreProcessor(lang)], with the adapter's key. *)
Definition preprocessor_of (id : string) : option PreprocessLang :=
  lang_of id ≫= preprocessLang_of.

(** [const { modules: modulesOptions, preprocessorOptions } = config.css || {}] *)
Definition modulesOptions_of (config : ResolvedConfig Any) : ModulesOption Any :=
  match config_css config with
  | Some c => css_modules c
  | None => ModulesUnset
  end.

Definition preprocessorOptions_of (config : ResolvedConfig Any)
  : option (PreprocessLang -> option Any) :=
  match config_css config with
  | Some c => css_preprocessorOptions c
  | None => None
  end.

Definition modules_enabled (o : ModulesOption Any) : bool :=
  match o with ModulesFalse => false | _ => true end.

(** [isModule = modulesOptions !== false && cssModuleRE.test(id)] *)
Definition isModule_of (config : ResolvedConfig Any) (id : string) : bool :=
  modules_enabled (modulesOptions_of config) && Re.test CssRe.cssModuleRE id.

(** The plugin chain of step 3: the configured plugins, the import
    inliner in front of them when the source has [@import], the URL
    rewriter last, and the scoped-class plugin first of all. *)
Definition postcss_plugins (config : ResolvedConfig Any)
  (postcssConfig : option (PostCSSConfigResult Any)) (id code : string)
  : list (PostcssPlugin Any) :=
  let postcssPlugins :=
    match postcssConfig with
    | Some c => map UserPlugin (pc_plugins c)
    | None => []
    end in
  let postcssPlugins :=
    if Js.includes code "@import"
    then PostcssImport (Re.test CssRe.htmlProxyRE id) :: postcssPlugins
    else postcssPlugins in
  let postcssPlugins := postcssPlugins ++ [UrlRewritePostcssPlugin] in
  if isModule_of config id
  then PostcssModules (modulesOptions_of config) :: postcssPlugins
  else postcssPlugins.

(** The adapter call of step 2. *)
Definition preprocess (config : ResolvedConfig Any) (lang : PreprocessLang)
  (id code : string) : result StylePreprocessorResults :=
  preProcessors lang code (config_root config)
    (preprocessor_opts config (preprocessorOptions_of config) lang id).

(** [compileCSS(id, code, config, urlReplacer, atImportResolvers, server)].
    The replacer and the resolvers are only handed to PostCSS and the
    adapters, which [E] stands for; [server] tells whether a dev
    server is given. *)
Definition compileCSS (id code : string) (config : ResolvedConfig Any)
  (server : bool) : M St CompileResult :=
  let isModule := isModule_of config id in
  let needInlineImport := Js.includes code "@import" in
  let hasUrl := Re.test CssRe.cssUrlRE code || Re.test CssRe.cssImageSetRE code in
  let* postcssConfig := resolvePostcssConfig config in
  let lang := lang_of id in
  (* 1. plain css that needs no processing *)
  if is_css lang && negb (bool_decide (is_Some postcssConfig)) && negb isModule
     && negb needInlineImport && negb hasUrl
  then ret (mkResult code MapNull None None None)
  else
    (* 2. pre-processors *)
    let* pre :=
      match preprocessor_of id with
      | Some l =>
          let filename := cleanUrl E id in
          let* preprocessResult := lift (preprocess config l id code) in
          match pre_errors preprocessResult with
          | e :: _ => throw e
          | [] =>
              ret (pre_code preprocessResult,
                   combineSourcemapsIfExists filename
                     (pre_map preprocessResult)
                     (pre_additionalMap preprocessResult),
                   preprocessor_deps filename (pre_deps preprocessResult))
          end
      | None => ret (code, None, [])
      end in
    let '(code1, preprocessorMap, deps) := pre in
    (* 3. postcss *)
    let postcssOptions := pc_options <$> postcssConfig in
    let postcssPlugins := postcss_plugins config postcssConfig id code in
    match postcssPlugins with
    | [] => ret (mkResult code1 (map_input preprocessorMap) None None None)
    | _ =>
        let* postcssResult :=
          lift (postcss_process E postcssPlugins code1 postcssOptions (cleanUrl E id)) in
        let* deps' :=
          record_messages id code1 config server (pr_messages postcssResult) deps in
        let postcssMap := formatPostcssSourceMap (pr_map postcssResult) (cleanUrl E id) in
        ret (mkResult (pr_css postcssResult)
               (map_input
                  (combineSourcemapsIfExists (cleanUrl E id) (Some postcssMap)
                     preprocessorMap))
               (Some postcssResult)
               (if isModule then pr_json postcssResult else None)
               (Some deps'))
    end.

End Compiler.

(* ================================================================== *)
(** * URL rewriting *)
(* ================================================================== *)

Section UrlRewrite.

Context {Any : Type} (E : Env Any).

(** [CssUrlReplacer]; the importer is fixed by the caller. *)
Definition CssUrlReplacer : Type := string -> result string.

(** The quote that opens [rawUrl], if any, and the value without its
    first and last code unit in that case. *)
Definition unwrap (rawUrl : string) : string * string :=
  match Js.first rawUrl with
  | Some c =>
      if Ascii.eqb c CssRe.dquote || Ascii.eqb c CssRe.squote
      then (String c EmptyString, Js.slice_1_m1 rawUrl)
      else (EmptyString, rawUrl)
  | None => (EmptyString, rawUrl)
  end.

Definition skipped_url (url : string) : bool :=
  isExternalUrl E url || isDataUrl E url || Js.startsWith url "#".

(** [doUrlReplace] *)
Definition doUrlReplace (rawUrl matched : string) (replacer : CssUrlReplacer)
  : result string :=
  let '(wrap, rawUrl) := unwrap rawUrl in
  if skipped_url rawUrl then Ok matched
  else
    match replacer rawUrl with
    | Ok u => Ok ("url(" +:+ wrap +:+ u +:+ wrap +:+ ")")
    | Throw e => Throw e
    end.

(** [doImportCSSReplace] *)
Definition doImportCSSReplace (rawUrl matched : string) (replacer : CssUrlReplacer)
  : result string :=
  let '(wrap, rawUrl) := unwrap rawUrl in
  if skipped_url rawUrl then Ok matched
  else
    match replacer rawUrl with
    | Ok u => Ok ("@import " +:+ wrap +:+ u +:+ wrap)
    | Throw e => Throw e
    end.

(** The three shapes of the value of a [url()]: in single quotes, in
    double quotes, or bare. [url_value raw wrap url] reads [raw] as the
    URL [url] wrapped in [wrap]. *)
Inductive url_value : string -> string -> string -> Prop :=
| single_quoted url :
    url_value ("'" +:+ url +:+ "'") "'" url
| double_quoted url :
    url_value (CssRe.dq +:+ url +:+ CssRe.dq) CssRe.dq url
| bare url :
    (forall c, Js.first url = Some c -> c <> CssRe.dquote /\ c <> CssRe.squote) ->
    url_value url "" url.

(** [match[1]] of a match whose first group took part. *)
Definition group1 (m : Re.rmatch) : string := default "" (Re.group 1 m).

(** What stands for "the scan never ends". *)
Definition no_progress : JsError :=
  mkJsError "asyncReplace: the expression matches no text" None "".

(** Modelled from the spec: [asyncReplace(input, re, replacer)] of
    [../utils] is not among the sources. The rewrite "scans for
    [url(...)] and [image-set(...)] occurrences" and "substitutes":
    the expression, which has no [g] flag, is run on what remains of
    the text; what stands before the match is kept, the callback's
    answer takes the place of the match, and the scan goes on with the
    text behind the match, until nothing matches. An answer that throws
    ends the scan with its error. A match of no text would be found
    again and again: the scan has no result then, which is
    [no_progress]; [fuel], the length of the input, is used up in no
    other case. *)
Fixpoint asyncReplace_from (fuel : nat) (re : Re.regex)
  (replacer : Re.rmatch -> result string) (remaining rewritten : string)
  : result string :=
  match Re.exec re remaining with
  | None => Ok (rewritten +:+ remaining)
  | Some m =>
      match fuel with
      | O => Throw no_progress
      | S fuel' =>
          match replacer m with
          | Ok answer =>
              asyncReplace_from fuel' re replacer (Js.to_string (Re.m_after m))
                (rewritten +:+ Js.to_string (rev (Re.m_before m)) +:+ answer)
          | Throw e => Throw e
          end
      end
  end.

Definition asyncReplace (input : string) (re : Re.regex)
  (replacer : Re.rmatch -> result string) : result string :=
  asyncReplace_from (String.length input) re replacer input "".

(** [rewriteCssUrls], [rewriteImportCss], [rewriteCssImageSet] *)
Definition rewriteCssUrls (css : string) (replacer : CssUrlReplacer)
  : result string :=
  asyncReplace css CssRe.cssUrlRE
    (fun m => doUrlReplace (group1 m) (Re.matched m) replacer).

Definition rewriteImportCss (css : string) (replacer : CssUrlReplacer)
  : result string :=
  asyncReplace css CssRe.importCssRE
    (fun m => doImportCSSReplace (group1 m) (Re.matched m) replacer).

Definition rewriteCssImageSet (css : string) (replacer : CssUrlReplacer)
  : result string :=
  asyncReplace css CssRe.cssImageSetRE
    (fun m =>
       match processSrcSet E (group1 m)
               (fun url => doUrlReplace url (Re.matched m) replacer) with
       | Ok url => Ok ("image-set(" +:+ url +:+ ")")
       | Throw e => Throw e
       end).

(** What [UrlRewritePostcssPlugin] does to the value of one
    declaration. *)
Definition rewrite_declaration (value : string) (replacer : CssUrlReplacer)
  : result string :=
  let isCssUrl := Re.test CssRe.cssUrlRE value in
  let isCssImageSet := Re.test CssRe.cssImageSetRE value in
  if isCssUrl then rewriteCssUrls value replacer
  else if isCssImageSet then rewriteCssImageSet value replacer
  else Ok value.

End UrlRewrite.

(* ================================================================== *)
(** * Loading a dialect engine *)
(* ================================================================== *)

Section LoadPreprocessor.

Context {Any : Type} (E : Env Any).

(** [loadedPreprocessors] *)
Definition Loaded : Type := PreprocessLang -> option Any.

Definition loaded_set (l : PreprocessLang) (engine : Any) (t : Loaded) : Loaded :=
  fun l' => if decide (l' = l) then Some engine else t l'.

(** [new Error(message)] *)
Definition new_Error (message : string) : JsError :=
  mkJsError message None (error_stack E message).

Definition newline : string := String (ascii_of_nat 10) EmptyString.

Definition not_found_message (lang : PreprocessLang) : string :=
  "Preprocessor dependency " +:+ CssRe.dq +:+ lang_name lang +:+ CssRe.dq +:+
  " not found. Did you install it?".

Definition failed_message (lang : PreprocessLang) (original : string) : string :=
  "Preprocessor dependency " +:+ CssRe.dq +:+ lang_name lang +:+ CssRe.dq +:+
  " failed to load:" +:+ newline +:+ original.

(** [e.code === 'MODULE_NOT_FOUND'] *)
Definition is_module_not_found (e : JsError) : bool :=
  match err_code e with
  | Some c => String.eqb c "MODULE_NOT_FOUND"
  | None => false
  end.

(** The [catch] clause of [loadPreprocessor]. *)
Definition load_failure (lang : PreprocessLang) (e : JsError) : JsError :=
  if is_module_not_found e
  then new_Error (not_found_message lang)
  else
    let message := new_Error (failed_message lang (err_message e)) in
    mkJsError (err_message message) (err_code message)
      (err_stack e +:+ newline +:+ err_stack message).

(** The body of the [try]: the package is resolved from [root], then
    required. *)
Definition load_attempt (lang : PreprocessLang) (root : string) : result Any :=
  match require_resolve E (lang_name lang) root with
  | Ok resolved => require_module E resolved
  | Throw e => Throw e
  end.

(** [loadPreprocessor(lang, root)] *)
Definition loadPreprocessor (lang : PreprocessLang) (root : string)
  : M Loaded Any :=
  let* loadedPreprocessors := get in
  match loadedPreprocessors lang with
  | Some engine => ret engine
  | None =>
      try_catch
        (let* engine := lift (load_attempt lang root) in
         modify (loaded_set lang engine) ;;
         ret engine)
        (fun e => throw (load_failure lang e))
  end.

End LoadPreprocessor.

Arguments Loaded : clear implicits.

(* ================================================================== *)
(** * The plugin [vite:css] *)
(* ================================================================== *)

Section CssPlugin.

Context {Any : Type} (E : Env Any).

(** The closure of [cssPlugin] with what it reaches: [moduleCache]
    (the entry of [cssModulesCache] for this configuration), the files
    given to [addWatchFile], the dev server's module graph and the
    compiler's session. [moduleGraph] is the graph's map from ids to
    modules, the one that [getModuleById] reads. The graph itself
    ([server/moduleGraph.ts]) is not among the sources: of its methods
    the model keeps what they do to this map and to the two fields of
    a module. *)
Record CssState := mkCssState {
  moduleCache : gmap string Modules;
  watchFiles : list string;
  moduleGraph : gmap string ModuleNode;
  session : Session Any
}.

Definition lift_session {A} (m : M (Session Any) A) : M CssState A :=
  fun s =>
    let '(r, se) := m (session s) in
    (r, mkCssState (moduleCache s) (watchFiles s) (moduleGraph s) se).

Definition addWatchFiles (files : list string) : M CssState unit :=
  modify (fun s =>
    mkCssState (moduleCache s) (watchFiles s ++ files) (moduleGraph s) (session s)).

(** [buildStart] *)
Definition css_buildStart : M CssState unit :=
  modify (fun s => mkCssState ∅ (watchFiles s) (moduleGraph s) (session s)).

Definition dep_entry (file : string) : DepEntry :=
  if CssRe.isCSSRequest file then FileOnlyEntry file
  else UrlEntry (dep_module_url E file).

(** [moduleGraph.ensureEntryFromUrl(url, ssr)]: the URL is resolved to
    an id, and a new module is registered under the id when the graph
    has none there; a module that the graph has is left as it is. The
    resolution and what a new module holds are the host's. *)
Definition ensureEntryFromUrl (url : string) (ssr : bool) : M CssState unit :=
  modify (fun s =>
    let resolvedId := moduleGraph_resolveId E url ssr in
    match moduleGraph s !! resolvedId with
    | Some _ => s
    | None =>
        mkCssState (moduleCache s) (watchFiles s)
          (<[resolvedId := new_ModuleNode E url]> (moduleGraph s)) (session s)
    end).

(** The body of the loop that fills [depModules]. A stylesheet gets a
    file-only entry ([createFileOnlyEntry]), which the graph registers
    under the file and not under an id; any other file gets the entry
    of its URL. *)
Definition register_dep (ssr : bool) (file : string) : M CssState unit :=
  if CssRe.isCSSRequest file then ret tt
  else ensureEntryFromUrl (dep_module_url E file) ssr.

(** [transform(raw, id, options)], with [ssr] for [options?.ssr ===
    true]; [None] is the hook's plain [return]. *)
Definition css_transform (config : ResolvedConfig Any) (server ssr : bool)
  (raw id : string) : M CssState (option (string * SourceMapInput)) :=
  if negb (CssRe.isCSSRequest id) || Re.test CssRe.commonjsProxyRE id
  then ret None
  else
    let* r := lift_session (compileCSS E id raw config server) in
    (match cr_modules r with
     | Some modules =>
         modify (fun s =>
           mkCssState (<[id := modules]> (moduleCache s)) (watchFiles s)
             (moduleGraph s) (session s))
     | None => ret tt
     end) ;;
    (match config_command config, watch (config_build config), cr_deps r with
     | Build, true, Some deps => addWatchFiles deps
     | _, _, _ => ret tt
     end) ;;
    (if server then
       let* s := get in
       match moduleGraph s !! id with
       | Some thisModule =>
           let isSelfAccepting :=
             negb (bool_decide (is_Some (cr_modules r)))
             && negb (Re.test CssRe.inlineRE id) in
           match cr_deps r with
           | Some deps =>
               for_each deps (register_dep ssr) ;;
               (* [updateModuleInfo(thisModule, depModules, new Set(),
                  isSelfAccepting, ssr)] *)
               modify (fun s =>
                 mkCssState (moduleCache s) (watchFiles s)
                   (<[id := mkModuleNode (map dep_entry deps) isSelfAccepting]>
                      (moduleGraph s))
                   (session s)) ;;
               addWatchFiles deps
           | None =>
               modify (fun s =>
                 mkCssState (moduleCache s) (watchFiles s)
                   (<[id := mkModuleNode (importedModules thisModule) isSelfAccepting]>
                      (moduleGraph s))
                   (session s))
           end
       | None => ret tt
       end
     else ret tt) ;;
    ret (Some (cr_code r, cr_map r)).

End CssPlugin.

Arguments CssState : clear implicits.

(* ================================================================== *)
(** * The plugin [vite:css-post] *)
(* ================================================================== *)

Record ViteMetadata := mkMeta {
  importedAssets : list string;
  importedCss : list string
}.

Record Chunk := mkChunk {
  fileName : string;
  name : string;
  modules : list string;
  imports : list string;
  code : string;
  viteMetadata : ViteMetadata
}.

Inductive Output :=
| OutChunk (c : Chunk)
| OutAsset (file source : string).

(** The chunk with [viteMetadata.importedCss] holding [css]. *)
Definition with_importedCss (chunk : Chunk) (css : list string) : Chunk :=
  mkChunk (fileName chunk) (name chunk) (modules chunk) (imports chunk) (code chunk)
    (mkMeta (importedAssets (viteMetadata chunk)) css).

(** The output options of one target; [out_id] is the identity of the
    options object, the key of [outputToExtractedCSSMap]. *)
Record OutputOptions := mkOutput {
  out_id : nat;
  format : string;
  skip_asset_emit : bool
}.

Definition Bundle : Type := list (string * Output).

Fixpoint bundle_get (file : string) (bundle : Bundle) : option Output :=
  match bundle with
  | [] => None
  | (k, v) :: b => if String.eqb k file then Some v else bundle_get file b
  end.

Fixpoint bundle_set (file : string) (v : Output) (bundle : Bundle) : Bundle :=
  match bundle with
  | [] => []
  | (k, w) :: b =>
      if String.eqb k file then (k, v) :: b else (k, w) :: bundle_set file v b
  end.

(** [delete bundle[file]] *)
Fixpoint bundle_delete (file : string) (bundle : Bundle) : Bundle :=
  match bundle with
  | [] => []
  | (k, v) :: b =>
      if String.eqb k file then bundle_delete file b
      else (k, v) :: bundle_delete file b
  end.

(** The placeholder written over a removed import:
    [`/* empty css ${''.padEnd(m.length - 15)}*/`]. *)
Definition empty_css_placeholder (m : string) : string :=
  "/* empty css " +:+ Js.padEnd_empty (Z.of_nat (String.length m) - 15) +:+ "*/".

(** [s.replace(/\./g, '\\.')]: a backslash is put before every dot. *)
Definition escape_dots_chars (l : Js.chars) : Js.chars :=
  flat_map (fun c => if Ascii.eqb c "." then ["\"%char; "."%char] else [c]) l.

Definition escape_dots (s : string) : string :=
  Js.to_string (escape_dots_chars (Js.of_string s)).

(** [emptyChunkFiles]: the base names of the pure CSS chunks, joined
    by [|], with the dots escaped. *)
Definition emptyChunkFiles (pureCssChunks : list string) : string :=
  escape_dots (String.concat "|" (map Js.basename pureCssChunks)).

(** The source text of [emptyChunkRE]. *)
Definition emptyChunkRE_source (format files : string) : string :=
  if String.eqb format "es" then
    "\bimport\s*" +:+ CssRe.dq +:+ "[^" +:+ CssRe.dq +:+ "]*(?:" +:+ files +:+ ")" +:+
    CssRe.dq +:+ ";" +:+ newline +:+ "?"
  else
    "\brequire\(\s*" +:+ CssRe.dq +:+ "[^" +:+ CssRe.dq +:+ "]*(?:" +:+ files +:+ ")" +:+
    CssRe.dq +:+ "\);" +:+ newline +:+ "?".

(** A file name in which the dot is the only character that has a
    meaning in a regular expression. *)
Definition literal_char (c : ascii) : bool :=
  negb (RegExp.is_syntax c) || Ascii.eqb c ".".

Definition literal_name (file : string) : bool :=
  forallb literal_char (Js.of_string (Js.basename file)).

(** The expression that [emptyChunkRE] is when the file names are read
    letter for letter: an [import] or [require(] at a word boundary,
    white space, a string in double quotes that ends with the base name
    of one of the files, the end of the statement, and a line feed if
    there is one. *)
Definition import_statement_RE (format : string) (files : list string) : Re.regex :=
  let names := Re.alts (map (fun file => Re.lit (Js.basename file)) files) in
  let not_dq := Re.Chr (fun c => negb (Ascii.eqb c CssRe.dquote)) in
  let nl := Re.opt (Re.chr (ascii_of_nat 10)) in
  let es := String.eqb format "es" in
  CssRe.seqs
    ([Re.WordB] ++
     map Re.chr (Js.of_string (if es then "import" else "require(")) ++
     [Re.Star Re.space; Re.chr CssRe.dquote; Re.Star not_dq; names; Re.chr CssRe.dquote] ++
     map Re.chr (Js.of_string (if es then ";" else ");")) ++
     [nl]).

(** The items that the reader holds when it comes to the file names
    of [emptyChunkRE_source], last read first. *)
Definition before_names (es : bool) : list RegExp.item :=
  [RegExp.Quantified (Re.Star (Re.Chr (fun c => negb (Ascii.eqb c CssRe.dquote))));
   RegExp.Atom (Re.chr CssRe.dquote); RegExp.Quantified (Re.Star Re.space)] ++
  rev (map (fun c => RegExp.Atom (Re.chr c))
         (Js.of_string (if es then "import" else "require("))) ++
  [RegExp.Assertion Re.WordB].

(** What the finalize pass makes of a chunk [c] of [bundle] that stays
    in the output: the imports of pure CSS chunks are gone, the code is
    rewritten by [rewrite], which overwrites the statements that
    [emptyChunkRE] finds, and the CSS files of the pure chunks it
    imported are among its own. *)
Definition relinked (pure : list string) (rewrite : string -> string)
  (bundle : Bundle) (c c' : Chunk) : Prop :=
  fileName c' = fileName c /\ name c' = name c /\ modules c' = modules c /\
  imports c' = filter (fun f => f ∉ pure) (imports c) /\
  code c' = rewrite (code c) /\
  importedAssets (viteMetadata c') = importedAssets (viteMetadata c) /\
  importedCss (viteMetadata c) ⊆ importedCss (viteMetadata c') /\
  forall f p,
    f ∈ imports c -> f ∈ pure -> bundle_get f bundle = Some (OutChunk p) ->
    importedCss (viteMetadata p) ⊆ importedCss (viteMetadata c').

(** The state of the loop over the bundle: an entry whose key is done
    is re-linked, the others are as the host gave them. *)
Definition relinking (pure : list string) (rewrite : string -> string)
  (done : list string) (b0 b : Bundle) : Prop :=
  forall k,
    match bundle_get k b0 with
    | Some (OutChunk c) =>
        exists c',
          bundle_get k b = Some (OutChunk c') /\
          (if decide (k ∈ done) then relinked pure rewrite b0 c c' else c' = c)
    | other => bundle_get k b = other
    end.

(** Every pure CSS chunk that a chunk of the bundle imports is itself a
    chunk of the bundle. *)
Definition imports_present (pure : list string) (b0 : Bundle) : Prop :=
  forall k c f,
    bundle_get k b0 = Some (OutChunk c) -> f ∈ imports c -> f ∈ pure ->
    exists p, bundle_get f b0 = Some (OutChunk p).

Section CssPostPlugin.

Context {Any : Type} (E : Env Any).

(** The closure of [cssPostPlugin] with what it reaches: [styles],
    [pureCssChunks], [outputToExtractedCSSMap], [hasEmitted], the
    assets given to [emitFile], the entry of [removedPureCssFilesCache]
    for this configuration, and the logger. *)
Record PostState := mkPost {
  styles : gmap string string;
  pureCssChunks : list string;
  outputToExtractedCSSMap : gmap nat string;
  hasEmitted : bool;
  emitted : list (string * string);
  removedPureCssFiles : gmap string (option Output);
  logged : list string
}.

(** [buildStart] of [vite:css-post]; [styles] is kept on purpose. *)
Definition post_buildStart : M PostState unit :=
  modify (fun s =>
    mkPost (styles s) [] ∅ false (emitted s) (removedPureCssFiles s) (logged s)).

(** The two states have the same [pureCssChunks]. *)
Definition same_pure (s s' : PostState) : Prop :=
  pureCssChunks s' = pureCssChunks s.

(** [this.emitFile({ name, type: 'asset', source })] *)
Definition emitFile (name source : string) : M PostState unit :=
  modify (fun s =>
    mkPost (styles s) (pureCssChunks s) (outputToExtractedCSSMap s) (hasEmitted s)
      (emitted s ++ [(name, source)]) (removedPureCssFiles s) (logged s)).

Definition warn (msg : string) : M PostState unit :=
  modify (fun s =>
    mkPost (styles s) (pureCssChunks s) (outputToExtractedCSSMap s) (hasEmitted s)
      (emitted s) (removedPureCssFiles s) (logged s ++ [msg])).

Definition join_lines (msgs : list string) : string :=
  match msgs with
  | [] => ""
  | m :: ms => foldl (fun acc x => acc +:+ newline +:+ x) m ms
  end.

(** [minifyCSS] *)
Definition minifyCSS (css : string) : M PostState string :=
  let* r := lift (esbuild_transform E css) in
  let '(code, warnings) := r in
  (match warnings with
   | [] => ret tt
   | _ => warn (yellow E ("warnings when minifying css:" +:+ newline +:+
                          join_lines warnings))
   end) ;;
  ret code.

(** [hoistAtImports] *)
Definition hoistAtImports (css : string) : M PostState string :=
  let* root := lift (postcss_parse E css) in
  ret (postcss_stringify E (Postcss.AtImportHoistPlugin_Once root)).

(** The callback of [css.replace(assetUrlRE, ...)]: the file that is
    recorded, and the text that replaces the placeholder. *)
Definition asset_filename (m : Re.rmatch) : string :=
  getAssetFilename E (Re.group 1 m) +:+ default "" (Re.group 2 m).

Definition asset_url (config : ResolvedConfig Any) (inlined : bool)
  (m : Re.rmatch) : string :=
  let isRelativeBase :=
    String.eqb (config_base config) "" || Js.startsWith (config_base config) "." in
  let filename := asset_filename m in
  if negb isRelativeBase || inlined then config_base config +:+ filename
  else "./" +:+ Js.basename filename.

(** [processChunkCSS(css, { inlined, minify })]; the chunk comes back
    with its [importedAssets] extended. [assetUrlRE] is taken as an
    expression with the [g] flag: every placeholder is replaced. *)
Definition processChunkCSS (config : ResolvedConfig Any) (chunk : Chunk)
  (css : string) (inlined minify_ : bool) : M PostState (string * Chunk) :=
  let found := Re.hits (Re.pieces (assetUrlRE E) css) in
  let meta := viteMetadata chunk in
  let chunk :=
    mkChunk (fileName chunk) (name chunk) (modules chunk) (imports chunk) (code chunk)
      (mkMeta
         (Js.set_add_all (map (fun m => cleanUrl E (asset_filename m)) found)
            (importedAssets meta))
         (importedCss meta)) in
  let css := Re.replace_all (assetUrlRE E) (asset_url config inlined) css in
  let* css := if Js.includes css "@import" then hoistAtImports css else ret css in
  let* css :=
    if minify_ && minify (config_build config) then minifyCSS css else ret css in
  ret (css, chunk).

(** The first loop of [renderChunk]: the chunk's CSS and whether every
    module is a stylesheet that is neither a CSS module nor a CommonJS
    proxy. *)
Definition not_pure_module (id : string) : bool :=
  negb (CssRe.isCSSRequest id) || Re.test CssRe.cssModuleRE id
  || Re.test CssRe.commonjsProxyRE id.

Definition collect_chunk (styles : gmap string string) (ids : list string)
  : string * bool :=
  foldl (fun '(chunkCSS, isPureCssChunk) id =>
           (match styles !! id with
            | Some css => chunkCSS +:+ css
            | None => chunkCSS
            end,
            if not_pure_module id then false else isPureCssChunk))
        ("", true) ids.

Definition add_importedCss (file : string) (chunk : Chunk) : Chunk :=
  with_importedCss chunk (Js.set_add file (importedCss (viteMetadata chunk))).

(** [renderChunk(code, chunk, opts)]: the value returned ([None] for
    [null]) and the chunk as the hook leaves it. *)
Definition renderChunk (config : ResolvedConfig Any) (code_ : string)
  (chunk : Chunk) (opts : OutputOptions)
  : M PostState (option (string * option ExistingRawSourceMap) * Chunk) :=
  let* s := get in
  let '(chunkCSS, isPureCssChunk) := collect_chunk (styles s) (modules chunk) in
  if negb (Js.truthy chunkCSS) then ret (None, chunk)
  else if cssCodeSplit (config_build config) then
    (if isPureCssChunk then
       modify (fun s =>
         mkPost (styles s) (Js.set_add (fileName chunk) (pureCssChunks s))
           (outputToExtractedCSSMap s) (hasEmitted s) (emitted s)
           (removedPureCssFiles s) (logged s))
     else ret tt) ;;
    if String.eqb (format opts) "es" || String.eqb (format opts) "cjs" then
      let* r := processChunkCSS config chunk chunkCSS false true in
      let '(chunkCSS, chunk) := r in
      emitFile (name chunk +:+ ".css") chunkCSS ;;
      ret (None,
           add_importedCss (emitted_fileName E (name chunk +:+ ".css") chunkCSS) chunk)
    else if negb (build_ssr (config_build config)) then
      let* r := processChunkCSS config chunk chunkCSS true true in
      let '(chunkCSS, chunk) := r in
      let style := "__vite_style__" in
      let injectCode :=
        "var " +:+ style +:+ " = document.createElement('style');" +:+
        style +:+ ".innerHTML = " +:+ json_stringify E chunkCSS +:+ ";" +:+
        "document.head.appendChild(" +:+ style +:+ ");" in
      if sourcemap (config_build config) then
        ret (Some (injectCode +:+ code_, Some (generateMap E injectCode code_)), chunk)
      else ret (Some (injectCode +:+ code_, None), chunk)
    else ret (None, chunk)
  else
    let* r := processChunkCSS config chunk chunkCSS false false in
    let '(chunkCSS, chunk) := r in
    modify (fun s =>
      let old := default "" (outputToExtractedCSSMap s !! out_id opts) in
      mkPost (styles s) (pureCssChunks s)
        (<[out_id opts := old +:+ chunkCSS]> (outputToExtractedCSSMap s))
        (hasEmitted s) (emitted s) (removedPureCssFiles s) (logged s)) ;;
    ret (None, chunk).

(** ** The finalize pass *)

(** [generateBundle] works on the plugin's state and on the bundle
    object it is given. *)
Definition Fin : Type := PostState * Bundle.

Definition on_post {A} (m : M PostState A) : M Fin A :=
  fun '(s, b) => let '(r, s') := m s in (r, (s', b)).

Definition get_bundle : M Fin Bundle := fun '(s, b) => (Ok b, (s, b)).

Definition set_output (file : string) (v : Output) : M Fin unit :=
  modify (fun '(s, b) => (s, bundle_set file v b)).

Definition type_error (what : string) : JsError :=
  mkJsError ("Cannot read properties of undefined (reading '" +:+ what +:+ "')")
    None (error_stack E what).

(** The callback of [chunk.imports.filter]: for an import that is a
    pure CSS chunk, the CSS files of that chunk are added to the
    importer's [importedCss] and the import is dropped. Both chunks are
    read from the bundle as it is at that moment. *)
Definition relink_import (pure : list string) (importer file : string)
  : M Fin bool :=
  if Js.set_has file pure then
    let* bundle := get_bundle in
    match bundle_get file bundle with
    | Some (OutChunk removed) =>
        match bundle_get importer bundle with
        | Some (OutChunk chunk) =>
            set_output importer
              (OutChunk
                 (with_importedCss chunk
                    (Js.set_add_all (importedCss (viteMetadata removed))
                       (importedCss (viteMetadata chunk))))) ;;
            ret false
        | _ => ret false
        end
    | Some (OutAsset _ _) => throw (type_error "importedCss")
    | None => throw (type_error "viteMetadata")
    end
  else ret true.

Fixpoint relink_imports (pure : list string) (importer : string)
  (files : list string) : M Fin (list string) :=
  match files with
  | [] => ret []
  | file :: files' =>
      let* keep := relink_import pure importer file in
      let* kept := relink_imports pure importer files' in
      ret (if keep then file :: kept else kept)
  end.

(** A regular expression with the [g] flag, for what the plugin does
    with it: [text.replace(re, f)], with a callback [f] of the matched
    text. *)
Definition GlobalRegExp : Type := (string -> string) -> string -> string.

Definition replacing (r : Re.regex) : GlobalRegExp :=
  fun f text => Re.replace_all r (fun m => f (Re.matched m)) text.

(** [new RegExp(source, 'g')] *)
Definition new_RegExp_g (source : string) : result GlobalRegExp :=
  match RegExp.parse source with
  | RegExp.Read r => Ok (replacing r)
  | RegExp.Invalid reason =>
      Throw (new_Error E ("Invalid regular expression: /" +:+ source +:+ "/: " +:+
                          reason))
  | RegExp.Beyond => RegExp_beyond E source
  end.

(** [emptyChunkRE] *)
Definition emptyChunkRE (format : string) (pureCssChunks : list string)
  : result GlobalRegExp :=
  new_RegExp_g (emptyChunkRE_source format (emptyChunkFiles pureCssChunks)).

(** The body of [for (const file in bundle)]; [rewrite] is
    [code => code.replace(emptyChunkRE, ...)]. *)
Definition relink_chunk (pure : list string) (rewrite : string -> string)
  (file : string) : M Fin unit :=
  let* bundle := get_bundle in
  match bundle_get file bundle with
  | Some (OutChunk chunk0) =>
      let* kept := relink_imports pure file (imports chunk0) in
      let* bundle := get_bundle in
      match bundle_get file bundle with
      | Some (OutChunk chunk) =>
          set_output file
            (OutChunk
               (mkChunk (fileName chunk) (name chunk) (modules chunk) kept
                  (rewrite (code chunk)) (viteMetadata chunk)))
      | _ => ret tt
      end
  | _ => ret tt
  end.

(** [pureCssChunks.forEach(...)]: the chunk is remembered, then
    deleted from the bundle. *)
Definition remove_pure (file : string) : M Fin unit :=
  modify (fun '(s, b) =>
    (mkPost (styles s) (pureCssChunks s) (outputToExtractedCSSMap s) (hasEmitted s)
       (emitted s) (<[file := bundle_get file b]> (removedPureCssFiles s)) (logged s),
     bundle_delete file b)).

Definition set_hasEmitted : M PostState unit :=
  modify (fun s =>
    mkPost (styles s) (pureCssChunks s) (outputToExtractedCSSMap s) true
      (emitted s) (removedPureCssFiles s) (logged s)).

(** The first block of [generateBundle]: when there are pure CSS
    chunks, the expression for the statements that import them is
    made, their importers are re-linked, then they are removed. *)
Definition prune_pure_chunks (opts : OutputOptions) : M Fin unit :=
  let* st := get in
  let pure := pureCssChunks (fst st) in
  match pure with
  | [] => ret tt
  | _ =>
      let* emptyChunkRE_ := lift (emptyChunkRE (format opts) pure) in
      for_each (map fst (snd st))
        (relink_chunk pure (emptyChunkRE_ empty_css_placeholder)) ;;
      for_each pure remove_pure
  end.

(** The second block: the aggregated CSS of this output target is
    emitted, unless some aggregated CSS was emitted before. *)
Definition emit_extracted (config : ResolvedConfig Any) (opts : OutputOptions)
  : M Fin unit :=
  let* st := get in
  match outputToExtractedCSSMap (fst st) !! out_id opts with
  | Some extractedCss =>
      if Js.truthy extractedCss && negb (hasEmitted (fst st)) then
        on_post set_hasEmitted ;;
        let* extractedCss :=
          if minify (config_build config)
          then on_post (minifyCSS extractedCss)
          else ret extractedCss in
        on_post (emitFile "style.css" extractedCss)
      else ret tt
  | None => ret tt
  end.

(** [generateBundle(opts, bundle)] *)
Definition generateBundle (config : ResolvedConfig Any) (opts : OutputOptions)
  : M Fin unit :=
  if skip_asset_emit opts then ret tt
  else prune_pure_chunks opts ;; emit_extracted config opts.

(** The output target has no aggregated CSS to emit. *)
Definition nothing_to_emit (st : PostState) (opts : OutputOptions) : Prop :=
  skip_asset_emit opts = true \/
  match outputToExtractedCSSMap st !! out_id opts with
  | Some css => Js.truthy css = false
  | None => True
  end.

(** One finalize pass, on the bundle of its output target; the bundle
    comes back as the pass leaves it. *)
Definition finalize_pass (config : ResolvedConfig Any)
  (pass : OutputOptions * Bundle) : M PostState Bundle :=
  fun s =>
    let '(r, (s', bundle')) := generateBundle config (fst pass) (s, snd pass) in
    (match r with Ok _ => Ok bundle' | Throw e => Throw e end, s').

(** The finalize passes of a build, one output after the other; a pass
    that throws ends the build. *)
Fixpoint finalize_passes (config : ResolvedConfig Any)
  (passes : list (OutputOptions * Bundle)) : M PostState (list Bundle) :=
  match passes with
  | [] => ret []
  | pass :: passes' =>
      let* bundle' := finalize_pass config pass in
      let* bundles := finalize_passes config passes' in
      ret (bundle' :: bundles)
  end.

End CssPostPlugin.

(* ================================================================== *)
(** * A sample environment *)
(* ================================================================== *)

(** Concrete collaborators, small enough to run, on which the
    properties below are exercised. *)
Module Sample.

Fixpoint before_query (l : Js.chars) : Js.chars :=
  match l with
  | [] => []
  | c :: l' =>
      if Ascii.eqb c "?" || Ascii.eqb c "#" then [] else c :: before_query l'
  end.

Definition clean_url (url : string) : string :=
  Js.to_string (before_query (Js.of_string url)).

Definition is_external (url : string) : bool :=
  Re.test (CssRe.seqs [Re.Bol;
                       Re.opt (CssRe.seqs [Re.lit "http"; Re.opt (Re.lit "s"); Re.lit ":"]);
                       Re.lit "//"]) url.

Definition is_data (url : string) : bool :=
  Re.test (CssRe.seqs [Re.Bol; Re.Star Re.space; Re.lit "data:"]) url.

Definition no_map : ExistingRawSourceMap := mkMap None "" [] [] 3.

Definition failure (message : string) (code : option string) : JsError :=
  mkJsError message code ("Error: " +:+ message).

(** An adapter that fails on [@error] and otherwise reports the file
    itself and one partial as dependencies. *)
Definition adapter : StylePreprocessor unit :=
  fun source root options =>
    if Js.includes source "@error"
    then Ok (mkPre "" None None
               [failure "compile failed" None; failure "second" None] [])
    else Ok (mkPre source None None [] [o_filename options; "/src/_vars.scss"]).

(** A toolchain in which a configured plugin announces the directory
    of the stylesheet as a dependency, and in which the image of a
    [url(img.png)] is announced as the dependency [/src/img.png]. *)
Definition process (plugins : list (PostcssPlugin unit)) (code : string)
  (options : option unit) (from : string) : result PostcssResult :=
  Ok (mkPostcssResult code
        ((if existsb (fun p => match p with UserPlugin _ => true | _ => false end) plugins
          then [MDirDependency "." None] else []) ++
         (if Js.includes code "url(img.png)" then [MDependency "/src/img.png"] else []))
        no_map None).

(** An installation with [less] missing and a [stylus] whose own
    dependency is missing. *)
Definition resolve (request root : string) : result string :=
  if String.eqb request "less"
  then Throw (failure "Cannot find module 'less'" (Some "MODULE_NOT_FOUND"))
  else Ok (root +:+ "/node_modules/" +:+ request).

Definition load (resolved : string) : result unit :=
  if Js.includes resolved "stylus"
  then Throw (failure "Cannot find module 'glob'" (Some "MODULE_NOT_FOUND"))
  else if Js.includes resolved "sass"
  then Throw (failure "Unexpected token" None)
  else Ok tt.

(** A printer and a parser for the one stylesheet of the examples. *)
Fixpoint print_node (n : Postcss.node) : string :=
  match n with
  | Postcss.Node _ k ch =>
      let body :=
        (fix print_nodes (l : list Postcss.node) : string :=
           match l with
           | [] => ""
           | c :: l' => print_node c +:+ print_nodes l'
           end) ch in
      match k with
      | Postcss.AtRule name params =>
          "@" +:+ name +:+ " " +:+ params +:+
          match ch with
          | [] => ";"
          | _ => "{" +:+ body +:+ "}"
          end
      | Postcss.Rule selector => selector +:+ "{" +:+ body +:+ "}"
      | Postcss.Decl prop value => prop +:+ ":" +:+ value +:+ ";"
      | Postcss.Comment text => "/*" +:+ text +:+ "*/"
      end
  end.

Definition print (root : list Postcss.node) : string :=
  foldr (fun n acc => print_node n +:+ acc) "" root.

(** A stylesheet with an import after a rule and one inside a block. *)
Definition stylesheet : list Postcss.node :=
  [Postcss.Node 1 (Postcss.Rule "a") [Postcss.Node 2 (Postcss.Decl "color" "red") []];
   Postcss.Node 3 (Postcss.AtRule "import" "'x.css'") [];
   Postcss.Node 4 (Postcss.AtRule "media" "print")
     [Postcss.Node 5 (Postcss.AtRule "import" "'y.css'") [];
      Postcss.Node 6 (Postcss.Rule "b") []];
   Postcss.Node 7 (Postcss.AtRule "import" "'z.css'") []].

Definition stylesheet_text : string :=
  "a{color:red;}@import 'x.css';@media print{@import 'y.css';b{}}@import 'z.css';".

Definition parse (css : string) : result (list Postcss.node) :=
  if String.eqb css stylesheet_text then Ok stylesheet else Ok [].

Definition env : Env unit :=
  {| cleanUrl := clean_url;
     normalizePath := fun p => p;
     isExternalUrl := is_external;
     isDataUrl := is_data;
     combineSourcemaps := fun _ m1 _ => m1;
     generateCodeFrame := fun code _ _ => code;
     path_resolve := fun dir p => if String.eqb p "." then dir else dir +:+ "/" +:+ p;
     path_dirname := fun p =>
       let r := rev (Js.of_string p) in
       Js.to_string (rev (drop (S (length (Js.take_segment r))) r));
     decodeURIComponent := fun s => s;
     yellow := fun s => s;
     glob_sync := fun pattern =>
       if String.eqb pattern "/src/**" then ["/src/a.scss"; "/src/b.scss"] else [];
     postcssrc := fun _ => Throw (failure "No PostCSS Config found in: /" None);
     scss_adapter := adapter;
     less_adapter := adapter;
     styl_adapter := adapter;
     postcss_process := process;
     postcss_parse := parse;
     postcss_stringify := print;
     esbuild_transform := fun css => Ok (css, []);
     processSrcSet := fun srcs _ => Ok srcs;
     assetUrlRE := Re.lit "__VITE_ASSET__";
     getAssetFilename := fun h => default "" h;
     emitted_fileName := fun name _ => "assets/" +:+ name;
     generateMap := fun _ _ => no_map;
     json_stringify := fun s => s;
     dep_module_url := fun f => f;
     moduleGraph_resolveId := fun url _ => url;
     RegExp_beyond := fun source =>
       Throw (failure ("Invalid regular expression: /" +:+ source +:+ "/") None);
     new_ModuleNode := fun _ => mkModuleNode [] false;
     require_resolve := resolve;
     require_module := load;
     error_stack := fun m => "Error: " +:+ m
  |}.

Definition build : BuildOptions := mkBuild true true false false false.

Definition config : ResolvedConfig unit :=
  mkConfig None "/" "/" tt Build build.

(** The same project with a PostCSS plugin configured inline. *)
Definition config_with_plugin : ResolvedConfig unit :=
  mkConfig (Some (mkCSSOptions ModulesUnset None (Some (InlineObject tt (Some [tt])))))
    "/" "/" tt Build build.

Definition session : Session unit := mkSession None ∅ [].

Definition css_state : CssState unit := mkCssState ∅ [] ∅ session.

Definition post_state : PostState := mkPost ∅ [] ∅ false [] ∅ [].

Definition es : OutputOptions := mkOutput 1 "es" false.
Definition cjs : OutputOptions := mkOutput 2 "cjs" false.
Definition legacy : OutputOptions := mkOutput 3 "system" true.

(** A build without code splitting. *)
Definition config_single : ResolvedConfig unit :=
  mkConfig None "/" "/" tt Build (mkBuild false false false false false).

(** Both output targets of a build have their aggregated CSS. *)
Definition two_buffers : PostState :=
  mkPost ∅ [] (<[1 := "a{}"]> (<[2 := "a{}"]> ∅)) false [] ∅ [].

Definition chunk_of (file : string) (ids imports_ : list string) (code_ : string)
  (css : list string) : Chunk :=
  mkChunk file file ids imports_ code_ (mkMeta [] css).

(** A graph of two chunks: [ui] holds stylesheets only, [main.js]
    imports it. *)
Definition ui_chunk : Chunk :=
  chunk_of "ui" ["/src/ui.css"] [] "" ["assets/ui.css"].

Definition main_code : string :=
  "import" +:+ CssRe.dq +:+ "./ui" +:+ CssRe.dq +:+ ";console.log(1)".

Definition main_chunk : Chunk :=
  chunk_of "main.js" ["/src/main.js"] ["ui"] main_code [].

Definition bundle : Bundle :=
  [("ui", OutChunk ui_chunk); ("main.js", OutChunk main_chunk)].

Definition pruning : PostState := mkPost ∅ ["ui"] ∅ false [] ∅ [].

(** The same graph with a pure CSS chunk whose file name holds a [+]. *)
Definition plus_chunk : Chunk :=
  chunk_of "assets/a+b.js" ["/src/a+b.css"] [] "" ["assets/a+b.css"].

Definition plus_main : Chunk :=
  chunk_of "main.js" ["/src/main.js"] ["assets/a+b.js"]
    ("import" +:+ CssRe.dq +:+ "./a+b.js" +:+ CssRe.dq +:+ ";" +:+
     "import" +:+ CssRe.dq +:+ "./aab.js" +:+ CssRe.dq +:+ ";console.log(1)") [].

Definition plus_bundle : Bundle :=
  [("assets/a+b.js", OutChunk plus_chunk); ("main.js", OutChunk plus_main)].

Definition plus_pruning : PostState := mkPost ∅ ["assets/a+b.js"] ∅ false [] ∅ [].


(** Chunks given to [renderChunk]. *)
Definition with_styles : PostState :=
  mkPost (<["/src/a.module.css" := ".a{}"]> (<["/src/b.css" := ".b{}"]>
         (<["/src/empty.css" := ""]> ∅))) [] ∅ false [] ∅ [].

Definition module_chunk : Chunk := chunk_of "m.js" ["/src/a.module.css"] [] "" [].
Definition plain_chunk : Chunk := chunk_of "b.js" ["/src/b.css"] [] "" [].
Definition empty_chunk : Chunk := chunk_of "e.js" ["/src/empty.css"] [] "" [].

(** The same stylesheet after the hoist. *)
Definition hoisted_stylesheet : list Postcss.node :=
  [Postcss.Node 3 (Postcss.AtRule "import" "'x.css'") [];
   Postcss.Node 5 (Postcss.AtRule "import" "'y.css'") [];
   Postcss.Node 7 (Postcss.AtRule "import" "'z.css'") [];
   Postcss.Node 1 (Postcss.Rule "a") [Postcss.Node 2 (Postcss.Decl "color" "red") []];
   Postcss.Node 4 (Postcss.AtRule "media" "print")
     [Postcss.Node 6 (Postcss.Rule "b") []]].

(** An import rule with a block of its own, between two rules: the
    tree of [a{}@import 'o.css'{@import 'i.css';c{}}b{}]. *)
Definition nested_stylesheet : list Postcss.node :=
  [Postcss.Node 1 (Postcss.Rule "a") [];
   Postcss.Node 2 (Postcss.AtRule "import" "'o.css'")
     [Postcss.Node 3 (Postcss.AtRule "import" "'i.css'") [];
      Postcss.Node 4 (Postcss.Rule "c") []];
   Postcss.Node 5 (Postcss.Rule "b") []].

(** An import rule spelled in capitals after a rule: the tree of
    [a{}@IMPORT 'x.css';]. *)
Definition capital_stylesheet : list Postcss.node :=
  [Postcss.Node 1 (Postcss.Rule "a") [];
   Postcss.Node 2 (Postcss.AtRule "IMPORT" "'x.css'") []].

(** A declaration value with a quoted URL, and its match. *)
Definition logo_value : string := "no-repeat url('./logo.png')".

Definition logo_match : Re.rmatch :=
  Eval vm_compute in
    default (Re.mk_rmatch [] [] [] []) (Re.exec CssRe.cssUrlRE logo_value).

End Sample.

(* ================================================================== *)
(** * The specification's sentences, as they are written *)
(* ================================================================== *)

(** The sentences that the code does not satisfy as written are stated
    here word for word; each is refuted on a run of the code, and the
    statement that does hold is proved in its place. *)
Module Stated.

(** "Compiling the same module id twice within one build session
    returns the cached record": the second transform of [id] gives
    what the first one gave. *)
Definition second_compile_is_cached {Any} (E : Env Any)
  (config : ResolvedConfig Any) (server ssr : bool) (id : string)
  (st : CssState Any) : Prop :=
  forall raw1 raw2 out1 out2 st1 st2,
    css_transform E config server ssr raw1 id st = (Ok (Some out1), st1) ->
    css_transform E config server ssr raw2 id st1 = (Ok (Some out2), st2) ->
    out2 = out1.

(** "The dependency set returned by compileCSS never contains the
    module's own file", for a module that goes through an adapter. *)
Definition deps_never_contain_self {Any} (E : Env Any)
  (config : ResolvedConfig Any) (server : bool) (id code : string)
  (s : Session Any) : Prop :=
  forall l r s' deps,
    preprocessor_of id = Some l ->
    compileCSS E id code config server s = (Ok r, s') ->
    cr_deps r = Some deps ->
    forall d, d ∈ deps ->
      normalizePath E d <> normalizePath E (cleanUrl E id).

(** "When the engine is found but throws during load, the raised error
    wraps the original message with the dialect name". *)
Definition found_but_failing_is_wrapped {Any} (E : Env Any)
  (lang : PreprocessLang) (root : string) (t : Loaded Any) : Prop :=
  forall resolved e,
    t lang = None ->
    require_resolve E (lang_name lang) root = Ok resolved ->
    require_module E resolved = Throw e ->
    exists raised t',
      loadPreprocessor E lang root t = (Throw raised, t') /\
      err_message raised = failed_message lang (err_message e).

(** "The aggregated CSS buffer is emitted exactly once per distinct
    output target, never skipped for a target that has an unemitted
    buffer": after the finalize passes of two targets that each have a
    buffer, each buffer has been emitted. *)
Definition emitted_once_per_target {Any} (E : Env Any)
  (config : ResolvedConfig Any) (o1 o2 : OutputOptions) (b1 b2 : Bundle)
  (st : PostState) : Prop :=
  forall css1 css2 r st',
    out_id o1 <> out_id o2 ->
    hasEmitted st = false ->
    skip_asset_emit o1 = false -> skip_asset_emit o2 = false ->
    outputToExtractedCSSMap st !! out_id o1 = Some css1 -> Js.truthy css1 = true ->
    outputToExtractedCSSMap st !! out_id o2 = Some css2 -> Js.truthy css2 = true ->
    finalize_passes E config [(o1, b1); (o2, b2)] st = (Ok r, st') ->
    exists e1 e2, emitted st' = emitted st ++ [e1; e2].

(** "A chunk is flagged as pure CSS if and only if every module id in
    the chunk is a stylesheet module." *)
Definition pure_iff_all_stylesheets {Any} (E : Env Any)
  (config : ResolvedConfig Any) (code_ : string) (chunk : Chunk)
  (opts : OutputOptions) (st : PostState) : Prop :=
  fileName chunk ∉ pureCssChunks st ->
  fileName chunk ∈ pureCssChunks (snd (renderChunk E config code_ chunk opts st)) <->
  (forall id, id ∈ modules chunk -> CssRe.isCSSRequest id = true).

(** "After the finalize pass, every pure-CSS chunk is absent from the
    output bundle." *)
Definition pure_chunks_absent {Any} (E : Env Any)
  (config : ResolvedConfig Any) (opts : OutputOptions) (st : PostState)
  (bundle : Bundle) : Prop :=
  forall file,
    file ∈ pureCssChunks st ->
    bundle_get file (snd (snd (generateBundle E config opts (st, bundle)))) = None.

(** "Each matched import/require statement in the importer's code is
    replaced by a comment placeholder of the same character length as
    the matched text." *)
Definition placeholders_keep_length (opts : OutputOptions) (pure : list string)
  (code_ : string) : Prop :=
  forall m,
    m ∈ Re.hits (Re.pieces (import_statement_RE (format opts) pure) code_) ->
    String.length (empty_css_placeholder (Re.matched m)) =
    String.length (Re.matched m).

(** "Hoisting @import rules produces a string in which every @import
    rule appears before every non-@import rule": in the tree that is
    printed, read in the order of the text, a rule that comes before
    an [@import] rule is an [@import] rule itself. What counts as an
    [@import] rule is [import_rule]. *)
Definition is_rule (n : Postcss.node) : bool :=
  match Postcss.node_kind n with
  | Postcss.AtRule _ _ | Postcss.Rule _ => true
  | _ => false
  end.

Definition imports_come_first (import_rule : Postcss.node -> bool)
  (root : list Postcss.node) : Prop :=
  forall before n after,
    Postcss.walk_nodes root = before ++ n :: after ->
    import_rule n = true ->
    forall m, m ∈ before -> is_rule m = true -> import_rule m = true.

(** The name of an at-rule read as CSS reads it, without regard to the
    case of its letters. *)
Definition lower (c : ascii) : ascii :=
  let n := Js.code c in
  if ((65 <=? n) && (n <=? 90))%nat then ascii_of_nat (n + 32) else c.

Definition is_at_import (n : Postcss.node) : bool :=
  match Postcss.node_kind n with
  | Postcss.AtRule name _ =>
      String.eqb (Js.to_string (map lower (Js.of_string name))) "import"
  | _ => false
  end.

(** "B's executable code contains no literal import/require reference
    to A's removed filename": after the finalize pass, the code of a
    chunk that imported a pure CSS chunk no longer holds the base name
    of that chunk. *)
Definition no_import_is_left {Any} (E : Env Any)
  (config : ResolvedConfig Any) (opts : OutputOptions) (st : PostState)
  (bundle : Bundle) : Prop :=
  forall k c c' removed,
    bundle_get k bundle = Some (OutChunk c) ->
    removed ∈ imports c -> removed ∈ pureCssChunks st ->
    bundle_get k (snd (snd (generateBundle E config opts (st, bundle)))) =
      Some (OutChunk c') ->
    Js.includes (code c') (Js.basename removed) = false.

End Stated.

(* ================================================================== *)
(** * What a match asks of the text *)
(* ================================================================== *)

(** The states that a match of an expression relates, with what the
    assertions [^], [$], [\b] and the lookbehind ask of the position. *)
Module ReExact.
Import Re.

Inductive matches : regex -> bool -> mstate -> mstate -> Prop :=
| m_eps fwd s : matches Eps fwd s s
| m_chr p fwd s s' : step_chr fwd p s = Some s' -> matches (Chr p) fwd s s'
| m_seq_fwd r1 r2 s s1 s' :
    matches r1 true s s1 -> matches r2 true s1 s' -> matches (Seq r1 r2) true s s'
| m_seq_bwd r1 r2 s s1 s' :
    matches r2 false s s1 -> matches r1 false s1 s' -> matches (Seq r1 r2) false s s'
| m_alt_l r1 r2 fwd s s' : matches r1 fwd s s' -> matches (Alt r1 r2) fwd s s'
| m_alt_r r1 r2 fwd s s' : matches r2 fwd s s' -> matches (Alt r1 r2) fwd s s'
| m_star_stop r fwd s : matches (Star r) fwd s s
| m_star_more r fwd s s1 s' :
    matches r fwd s s1 -> matches (Star r) fwd s1 s' -> matches (Star r) fwd s s'
| m_group i r fwd s s1 :
    matches r fwd s s1 ->
    matches (Group i r) fwd s (set_cap i (Js.to_string (consumed fwd s s1)) s1)
| m_bol fwd s : prev s = [] -> matches Bol fwd s s
| m_eol fwd s : rest s = [] -> matches Eol fwd s s
| m_wordb fwd s :
    xorb (head_is_word (prev s)) (head_is_word (rest s)) = true ->
    matches WordB fwd s s
| m_behind r fwd s e :
    matches r false s e ->
    matches (LookBehind r) fwd s (mk_mstate (prev s) (rest s) (caps e)).

(** The text [t] lies at the position [gap] of [s]: this is how
    [exec] finds a match, and what [test] answers for. *)
Definition found_at (r : regex) (s : string) (gap : Js.chars) (m : rmatch) : Prop :=
  exists a,
    Js.of_string s = gap ++ a /\ m_before m = rev gap /\
    match_here r (rev gap) a = Some m.

(** Reading forwards from [s] to [s'] passes over the text [t]. *)
Definition moves (s s' : mstate) (t : Js.chars) : Prop :=
  rest s = t ++ rest s' /\ prev s' = rev t ++ prev s /\ caps s' = caps s.

End ReExact.

(** The extensions of [cssLangs]. *)
Definition style_extensions : list string :=
  ["css"; "less"; "sass"; "scss"; "styl"; "stylus"; "pcss"; "postcss"].

(** The query flags that the plugins look for, each with the
    expression that finds it. *)
Definition request_flags : list (Re.regex * string) :=
  [(CssRe.directRequestRE, "direct"); (CssRe.htmlProxyRE, "html-proxy");
   (CssRe.inlineRE, "inline"); (CssRe.inlineCSSRE, "inline-css");
   (CssRe.usedRE, "used")].

(* ================================================================== *)
(** * The search for a PostCSS configuration *)
(* ================================================================== *)

Section PostcssSearch.

Context {Any : Type}.

(** Where [resolvePostcssConfig] searches: nowhere when the
    configuration holds the PostCSS options inline, in the given
    directory when [css.postcss] is a string, and from the project
    root otherwise. *)
Definition postcss_search_path (config : ResolvedConfig Any) : option string :=
  match config_css config ≫= css_postcss with
  | Some (InlineObject _ _) => None
  | Some (InlinePath p) => Some p
  | None => Some (config_root config)
  end.

End PostcssSearch.

(* ================================================================== *)
(** * What a compilation may do to its session *)
(* ================================================================== *)

Section SessionEffects.

Context {Any : Type}.

(** The session after a compilation of [id], compared with the session
    before it: glob importers are registered for [id] only, and only
    when a dev server is given; warnings are appended; a resolved
    PostCSS configuration stays. *)
Definition session_step (id : string) (server : bool) (s s' : Session Any) : Prop :=
  (server = false -> globImporters s' = globImporters s) /\
  (forall id', id' <> id -> globImporters s' !! id' = globImporters s !! id') /\
  (exists ws, warnings s' = warnings s ++ ws) /\
  (forall r, postcssConfigCache s = Some r -> postcssConfigCache s' = Some r).

End SessionEffects.

(* ================================================================== *)
(** * What a transform of [vite:css] may do to the plugin's state *)
(* ================================================================== *)

Section CssStateEffects.

Context {Any : Type} (E : Env Any).

(** The module graph [g'] holds the modules of [g] as they were, and
    beside them only new modules. *)
Definition graph_grows (g g' : gmap string ModuleNode) : Prop :=
  forall id',
    match g !! id' with
    | Some node => g' !! id' = Some node
    | None => g' !! id' = None \/ exists url, g' !! id' = Some (new_ModuleNode E url)
    end.


End CssStateEffects.

(* ================================================================== *)
(** * The transform of [vite:css-post] *)
(* ================================================================== *)

(** [moduleSideEffects] of the hook's result: [false] or
    ['no-treeshake']. *)
Inductive SideEffects := SideEffectsFalse | NoTreeshake.

(** What the hook returns when it returns something: a string, or
    [{ code, map: { mappings: '' }, moduleSideEffects }]. *)
Inductive Transformed :=
| TCode (code : string)
| TModule (code : string) (moduleSideEffects : SideEffects).

(** The collaborators of the hook outside css.ts: [dataToEsm] with
    the options the hook gives it, [parseRequest] of [../utils], the
    text of [Number.parseInt(x)] in a template, the combined source
    map of the module being transformed, [injectSourcesContent] (the
    map as it leaves it, and what it tells the logger),
    [getCodeWithSourcemap('css', ...)], and
    [path.posix.join(base, CLIENT_PUBLIC_PATH)]. *)
Record Host := mkHost {
  dataToEsm : Modules -> string;
  parseRequest : string -> option (gmap string string);
  parseInt_text : option string -> string;
  getCombinedSourcemap : string -> ExistingRawSourceMap;
  injectSourcesContent :
    ExistingRawSourceMap -> string -> result (ExistingRawSourceMap * list string);
  getCodeWithSourcemap : string -> ExistingRawSourceMap -> string;
  client_public_path : string -> string
}.

Section PostTransform.

Context {Any : Type} (E : Env Any) (host : Host).

(** The plugin's state, and the calls made to
    [addToHTMLProxyTransformResult]. *)
Definition TrState : Type := PostState * list (string * string).

Definition in_post {A} (m : M PostState A) : M TrState A :=
  fun '(s, h) => let '(r, s') := m s in (r, (s', h)).

Definition addToHTMLProxyTransformResult (key css : string) : M TrState unit :=
  modify (fun '(s, h) => (s, h ++ [(key, css)])).

(** [styles.set(id, css)] *)
Definition styles_set (id css : string) : M TrState unit :=
  modify (fun '(s, h) =>
    (mkPost (<[id := css]> (styles s)) (pureCssChunks s) (outputToExtractedCSSMap s)
       (hasEmitted s) (emitted s) (removedPureCssFiles s) (logged s), h)).

(** [a || b] for a string [a] that may be [undefined]. *)
Definition or_else (a : option string) (b : string) : string :=
  match a with
  | Some x => if Js.truthy x then x else b
  | None => b
  end.

Definition export_default (value : string) : string := "export default " +:+ value.

Definition null_index_error : JsError :=
  mkJsError "Cannot read properties of null (reading 'index')" None
    (error_stack E "index").

(** The module that the dev server gets for a stylesheet. *)
Definition dev_module (config : ResolvedConfig Any) (modulesCode : option string)
  (id cssContent : string) : string :=
  join_lines
    ["import { updateStyle as __vite__updateStyle, removeStyle as __vite__removeStyle } from "
       +:+ json_stringify E (client_public_path host (config_base config));
     "const __vite__id = " +:+ json_stringify E id;
     "const __vite__css = " +:+ json_stringify E cssContent;
     "__vite__updateStyle(__vite__id, __vite__css)";
     or_else modulesCode
       ("import.meta.hot.accept()" +:+ newline +:+ "export default __vite__css");
     "import.meta.hot.prune(() => __vite__removeStyle(__vite__id))"].

(** [transform(css, id, options)] of [vite:css-post]. [cache] is the
    entry of [cssModulesCache] for this configuration, which
    [vite:css] sets at [buildStart]; [ssr] is [options?.ssr]. *)
Definition post_transform (config : ResolvedConfig Any)
  (cache : gmap string Modules) (ssr : bool) (css id : string)
  : M TrState (option Transformed) :=
  if negb (CssRe.isCSSRequest id) || Re.test CssRe.commonjsProxyRE id
  then ret None
  else
    let inlined := Re.test CssRe.inlineRE id in
    let modules := cache !! id in
    let modulesCode := dataToEsm host <$> modules in
    match config_command config with
    | Serve =>
        if CssRe.isDirectCSSRequest id then ret (Some (TCode css))
        else if ssr then
          ret (Some (TCode (or_else modulesCode (export_default (json_stringify E css)))))
        else if inlined then
          ret (Some (TCode (export_default (json_stringify E css))))
        else
          let sourcemap := getCombinedSourcemap host id in
          let* injected := lift (injectSourcesContent host sourcemap (cleanUrl E id)) in
          let '(sourcemap, told) := injected in
          in_post (for_each told warn) ;;
          let cssContent := getCodeWithSourcemap host css sourcemap in
          ret (Some (TCode (dev_module config modulesCode id cssContent)))
    | Build =>
        let inlineCSS := Re.test CssRe.inlineCSSRE id in
        let query := parseRequest host id in
        let isHTMLProxy := Re.test CssRe.htmlProxyRE id in
        if inlineCSS && isHTMLProxy then
          match query with
          | None => throw null_index_error
          | Some q =>
              addToHTMLProxyTransformResult
                (cleanUrl E id +:+ "_" +:+ parseInt_text host (q !! "index")) css ;;
              ret (Some (TCode "export default ''"))
          end
        else
          (if inlined then ret tt else styles_set id css) ;;
          let otherwise : M TrState string :=
            if Re.test CssRe.usedRE id then
              let* text := if inlined then in_post (minifyCSS E css) else ret css in
              ret (export_default (json_stringify E text))
            else ret "export default ''" in
          let* code :=
            match modulesCode with
            | Some c => if Js.truthy c then ret c else otherwise
            | None => otherwise
            end in
          ret (Some (TModule code (if inlined then SideEffectsFalse else NoTreeshake)))
    end.

End PostTransform.

(* ================================================================== *)
(** * What the hooks of [vite:css-post] leave alone *)
(* ================================================================== *)

(** Only the logger has been told something. *)
Definition told_only (s s' : PostState) : Prop :=
  styles s' = styles s /\ pureCssChunks s' = pureCssChunks s /\
  outputToExtractedCSSMap s' = outputToExtractedCSSMap s /\
  hasEmitted s' = hasEmitted s /\ emitted s' = emitted s /\
  removedPureCssFiles s' = removedPureCssFiles s /\
  exists msgs, logged s' = logged s ++ msgs.

(** The same, for the state of the transform: nothing was handed to
    the HTML plugin. *)
Definition tr_told (a b : TrState) : Prop :=
  told_only (fst a) (fst b) /\ snd b = snd a.

(** The state after the logger has been told [msgs]. *)
Definition said (s : PostState) (msgs : list string) : PostState :=
  mkPost (styles s) (pureCssChunks s) (outputToExtractedCSSMap s) (hasEmitted s)
    (emitted s) (removedPureCssFiles s) (logged s ++ msgs).

(** A computation that reads nothing of the state: whatever the
    state, it comes to [r] and tells the logger [msgs]. *)
Definition tells {A} (m : M PostState A) (r : result A) (msgs : list string) : Prop :=
  forall s, m s = (r, said s msgs).

(** Between two states of a build, the aggregated stylesheet has been
    emitted at most once, and not at all if it had been emitted
    before; what the transforms and the chunk rendering recorded is
    as it was. *)
Definition emits_at_most_once (s s' : PostState) : Prop :=
  styles s' = styles s /\ pureCssChunks s' = pureCssChunks s /\
  outputToExtractedCSSMap s' = outputToExtractedCSSMap s /\
  (hasEmitted s = true -> hasEmitted s' = true /\ emitted s' = emitted s) /\
  (emitted s' = emitted s \/
   hasEmitted s' = true /\ exists css, emitted s' = emitted s ++ [("style.css", css)]).

(** The same, for the state of a finalize pass. *)
Definition fin_emits (a b : Fin) : Prop := emits_at_most_once (fst a) (fst b).

(* ================================================================== *)
(** * The nodes of a stylesheet *)
(* ================================================================== *)

(** Every node of a tree with what it is: its identity and its kind,
    in [walk] order. *)
Definition node_labels (root : list Postcss.node) : list (nat * Postcss.kind) :=
  map (fun n => (Postcss.nid n, Postcss.node_kind n)) (Postcss.walk_nodes root).

(* ================================================================== *)
(** * The URL rewriter as a PostCSS plugin *)
(* ================================================================== *)

Section UrlRewritePlugin.

Context {Any : Type} (E : Env Any).

(** [opts.replacer(rawUrl, importer)] *)
Definition Replacer : Type := string -> option string -> result string.

(** The callback of [root.walkDecls]: the value of a declaration that
    holds a [url()] or an [image-set()] is rewritten, the file of the
    declaration's source being the importer; every other node stays. *)
Definition rewrite_kind (replacer : Replacer) (importer : option string)
  (k : Postcss.kind) : result Postcss.kind :=
  match k with
  | Postcss.Decl prop value =>
      match rewrite_declaration E value (fun rawUrl => replacer rawUrl importer) with
      | Ok v => Ok (Postcss.Decl prop v)
      | Throw e => Throw e
      end
  | _ => Ok k
  end.

(** The walk over a subtree, with the rewritings awaited together: the
    tree with every value rewritten, or the failure of a rewriting
    (here the first one in [walk] order). [input_file] gives
    [node.source?.input.file] for the node of an identity. *)
Fixpoint rewrite_urls (replacer : Replacer) (input_file : nat -> option string)
  (n : Postcss.node) : result Postcss.node :=
  match n with
  | Postcss.Node i k ch =>
      match rewrite_kind replacer (input_file i) k with
      | Throw e => Throw e
      | Ok k' =>
          match
            (fix rewrite_in (l : list Postcss.node) : result (list Postcss.node) :=
               match l with
               | [] => Ok []
               | c :: l' =>
                   match rewrite_urls replacer input_file c with
                   | Throw e => Throw e
                   | Ok c' =>
                       match rewrite_in l' with
                       | Throw e => Throw e
                       | Ok l'' => Ok (c' :: l'')
                       end
                   end
               end) ch
          with
          | Throw e => Throw e
          | Ok ch' => Ok (Postcss.Node i k' ch')
          end
      end
  end.

Fixpoint rewrite_urls_forest (replacer : Replacer) (input_file : nat -> option string)
  (l : list Postcss.node) : result (list Postcss.node) :=
  match l with
  | [] => Ok []
  | c :: l' =>
      match rewrite_urls replacer input_file c with
      | Throw e => Throw e
      | Ok c' =>
          match rewrite_urls_forest replacer input_file l' with
          | Throw e => Throw e
          | Ok l'' => Ok (c' :: l'')
          end
      end
  end.

(** [UrlRewritePostcssPlugin(opts)] and its [Once(root)]: without
    options the plugin cannot be made. *)
Definition UrlRewritePostcssPlugin_Once (opts : option Replacer)
  (input_file : nat -> option string) (root : list Postcss.node)
  : result (list Postcss.node) :=
  match opts with
  | None => Throw (new_Error E "base or replace is required")
  | Some replacer => rewrite_urls_forest replacer input_file root
  end.

End UrlRewritePlugin.

(** A node that the rewriter has to look into: a declaration whose
    value holds a [url()] or an [image-set()]. *)
Definition holds_url (n : Postcss.node) : bool :=
  match Postcss.node_kind n with
  | Postcss.Decl _ value =>
      Re.test CssRe.cssUrlRE value || Re.test CssRe.cssImageSetRE value
  | _ => false
  end.

(** A node without the value of its declaration. *)
Definition kind_shape (k : Postcss.kind) : Postcss.kind :=
  match k with
  | Postcss.Decl prop _ => Postcss.Decl prop ""
  | _ => k
  end.

Definition node_shapes (root : list Postcss.node) : list (nat * Postcss.kind) :=
  map (fun n => (Postcss.nid n, kind_shape (Postcss.node_kind n)))
    (Postcss.walk_nodes root).

(* ================================================================== *)
(** * Rebasing the URLs of an imported file *)
(* ================================================================== *)

(** The [find] of an alias entry: a string or a regular expression
    (without the [g] flag, so that [test] keeps no state). *)
Inductive AliasFind :=
| FindString (s : string)
| FindRegExp (r : Re.regex).

(** What [rebaseUrls] resolves to: [{ file }] or [{ file, contents }]. *)
Record ImporterReturn := mkImporterReturn {
  ir_file : string;
  ir_contents : option string
}.

(** [path.resolve(p)], [path.relative(from, to)] and
    [fs.readFileSync(file, 'utf-8')]. *)
Record Fs := mkFs {
  path_resolve1 : string -> string;
  path_relative : string -> string -> string;
  readFileSync : string -> result string
}.

Section RebaseUrls.

Context {Any : Type} (E : Env Any) (fs : Fs).

Definition alias_matches (url : string) (find : AliasFind) : bool :=
  match find with
  | FindString s => Js.startsWith url s
  | FindRegExp r => Re.test r url
  end.

(** [rebaseFn]: an absolute URL and a URL that an alias matches stay;
    any other is made relative to the directory of the root file. *)
Definition rebaseFn (alias : list AliasFind) (fileDir rootDir url : string) : string :=
  if Js.startsWith url "/" then url
  else if existsb (alias_matches url) alias then url
  else normalizePath E (path_relative fs rootDir (path_resolve E fileDir url)).

(** [rebaseUrls(file, rootFile, alias)] *)
Definition rebaseUrls (file rootFile : string) (alias : list AliasFind)
  : result ImporterReturn :=
  let file := path_resolve1 fs file in
  let fileDir := path_dirname E file in
  let rootDir := path_dirname E rootFile in
  if String.eqb fileDir rootDir then Ok (mkImporterReturn file None)
  else
    match readFileSync fs file with
    | Throw e => Throw e
    | Ok content =>
        let hasUrls := Re.test CssRe.cssUrlRE content in
        let hasImportCss := Re.test CssRe.importCssRE content in
        if negb hasUrls && negb hasImportCss then Ok (mkImporterReturn file None)
        else
          let replacer : CssUrlReplacer :=
            fun url => Ok (rebaseFn alias fileDir rootDir url) in
          match
            (if hasImportCss
             then
               match rewriteImportCss E content replacer with
               | Ok text => Ok (Some text)
               | Throw e => Throw e
               end
             else Ok None)
          with
          | Throw e => Throw e
          | Ok rebased =>
              match
                (if hasUrls
                 then
                   match
                     rewriteCssUrls E
                       (match rebased with
                        | Some text => if Js.truthy text then text else content
                        | None => content
                        end) replacer
                   with
                   | Ok text => Ok (Some text)
                   | Throw e => Throw e
                   end
                 else Ok rebased)
              with
              | Throw e => Throw e
              | Ok rebased => Ok (mkImporterReturn file rebased)
              end
          end
    end.

End RebaseUrls.

(* ================================================================== *)
(** * The dialect adapters *)
(* ================================================================== *)

(** The adapters [scss], [sass], [less] and [styl] of css.ts, over the
    engines they load. The errors of the model carry a message, a code
    and a stack: the location that the adapters attach to an error
    ([id] and [frame] for Sass, [loc] for Less) is not carried. *)
Module Adapters.

(** What [sass.render] calls back with: [result.css.toString()],
    [result.map.toString()] when there is a map, and
    [result.stats.includedFiles]. *)
Record SassResult := mkSassResult {
  sass_css : string;
  sass_map : option string;
  includedFiles : list string
}.

(** What [less.render] resolves to, and the error it rejects with. *)
Record LessRenderOutput := mkLessOutput {
  less_css : string;
  less_map : string;
  less_imports : list string
}.

Record LessRenderError := mkLessError {
  le_message : string;
  le_type : string
}.

(** What the Stylus adapter reads off the renderer: [ref.render()],
    [ref.deps()] and [ref.sourcemap]. *)
Record StylusRun := mkStylusRun {
  stylus_css : string;
  stylus_deps : list string;
  stylus_sourcemap : ExistingRawSourceMap
}.

(** [options.additionalData]: a string, or a function of the source and
    the file name that gives a string or [{ content, map }]. *)
Inductive AdditionalData :=
| DataString (data : string)
| DataFunction
    (f : string -> string -> result (string + string * option ExistingRawSourceMap)).

(** [CSSAtImportResolvers], as far as the adapters call them. *)
Record Resolvers := mkResolvers {
  resolve_sass : string -> string -> result (option string);
  resolve_less : string -> string -> result (option string)
}.

(** What an importer tells Sass through [done]. *)
Inductive ImporterAnswer :=
| DoneWith (data : ImporterReturn)
| DoneError (e : JsError)
| DoneNull
| NeverDone (e : JsError).

Section Adapters.

Context {Any : Type} (E : Env Any) (fs : Fs).

(** An entry of the [importer] array given to Sass: the adapter's own
    importer first, then the user's. *)
Inductive Importer :=
| InternalImporter (run : string -> string -> ImporterAnswer)
| UserImporter (importer : Any).

(** The options given to [sass.render]: the adapter's options with
    [data], [file], [outFile], [importer], [sourceMap: true],
    [omitSourceMapUrl: true] and [sourceMapRoot]. *)
Record SassOptions := mkSassOptions {
  so_options : StylePreprocessorOptions Any;
  so_data : string;
  so_file : string;
  so_outFile : string;
  so_importer : list Importer;
  so_sourceMapRoot : string
}.

(** A plugin given to [less.render]: the adapter's resolver plugin, made
    for the root file, the alias and the resolvers, or a plugin of the
    user. *)
Inductive LessPlugin :=
| ViteLessPlugin (rootFile : string) (alias : list AliasFind) (resolvers : Resolvers)
| UserLessPlugin (plugin : Any).

(** The engines, what the adapters read from their options, and the
    libraries they use: [JSON.parse], [path.join(dir, '*')], and
    [MagicString] (the text and the generated map after
    [appendLeft(0, x)] for each [x] in turn). *)
Record Engines := mkEngines {
  sass_render : Any -> SassOptions -> result SassResult;
  less_render :
    Any -> string -> StylePreprocessorOptions Any -> list LessPlugin ->
    LessRenderError + LessRenderOutput;
  stylus_run :
    Any -> string -> StylePreprocessorOptions Any -> string -> result StylusRun;
  JSON_parse : string -> result ExistingRawSourceMap;
  path_join_star : string -> string;
  magic_appendLeft : string -> list string -> string * ExistingRawSourceMap;
  opt_additionalData : StylePreprocessorOptions Any -> option AdditionalData;
  opt_alias : StylePreprocessorOptions Any -> list AliasFind;
  opt_importer : StylePreprocessorOptions Any -> list Any;
  opt_plugins : StylePreprocessorOptions Any -> list Any;
  opt_imports : StylePreprocessorOptions Any -> option (list string)
}.

Context (G : Engines).

(** [getSource(source, filename, additionalData, sep)] *)
Definition getSource (source filename : string)
  (additionalData : option AdditionalData) (sep : string)
  : result (string * option ExistingRawSourceMap) :=
  match additionalData with
  | None => Ok (source, None)
  | Some (DataFunction f) =>
      match f source filename with
      | Ok (inl newContent) => Ok (newContent, None)
      | Ok (inr newContent) => Ok newContent
      | Throw e => Throw e
      end
  | Some (DataString data) =>
      if negb (Js.truthy data) then Ok (source, None)
      else
        let '(text, map) := magic_appendLeft G source [sep; data] in
        Ok (text,
            Some (mkMap (Some filename) (map_mappings map) (map_names map)
                    [filename] (map_version map)))
  end.

(** The importer that the Sass adapter puts first. *)
Definition internalImporter (options : StylePreprocessorOptions Any)
  (resolvers : Resolvers) (url importer : string) : ImporterAnswer :=
  match resolve_sass resolvers url importer with
  | Throw e => NeverDone e
  | Ok (Some resolved) =>
      match rebaseUrls E fs resolved (o_filename options) (opt_alias G options) with
      | Ok data => DoneWith data
      | Throw e => DoneError e
      end
  | Ok None => DoneNull
  end.

(** What every adapter hands back when its engine fails. *)
Definition failed (e : JsError) : StylePreprocessorResults :=
  mkPre "" None None [e] [].

(** [scss] *)
Definition scss (source root : string) (options : StylePreprocessorOptions Any)
  (resolvers : Resolvers) : M (Loaded Any) StylePreprocessorResults :=
  let* engine := loadPreprocessor E Sass root in
  let importer :=
    InternalImporter (internalImporter options resolvers) ::
    map UserImporter (opt_importer G options) in
  let* src :=
    lift (getSource source (o_filename options) (opt_additionalData G options) "") in
  let '(data, additionalMap) := src in
  let finalOptions :=
    mkSassOptions options data (o_filename options) (o_filename options) importer
      (path_dirname E (o_filename options)) in
  match sass_render G engine finalOptions with
  | Ok result =>
      match
        (match sass_map result with
         | Some text =>
             match JSON_parse G text with
             | Ok map => Ok (Some map)
             | Throw e => Throw e
             end
         | None => Ok None
         end)
      with
      | Ok map => ret (mkPre (sass_css result) map additionalMap [] (includedFiles result))
      | Throw e => ret (failed e)
      end
  | Throw e => ret (failed e)
  end.

(** [sass] *)
Definition sass (source root : string) (options : StylePreprocessorOptions Any)
  (aliasResolver : Resolvers) : M (Loaded Any) StylePreprocessorResults :=
  scss source root
    (mkOpts (o_node_paths options) (o_alias options) (o_user options)
       (o_filename options) true)
    aliasResolver.

(** [loadFile] of the file manager that the Less adapter installs;
    [inherited] is what [super.loadFile] gives. *)
Definition loadFile (rootFile : string) (alias : list AliasFind)
  (resolvers : Resolvers) (filename dir : string)
  (inherited : result (string * string)) : result (string * string) :=
  match resolve_less resolvers filename (path_join_star G dir) with
  | Throw e => Throw e
  | Ok (Some resolved) =>
      match rebaseUrls E fs resolved rootFile alias with
      | Throw e => Throw e
      | Ok result =>
          match
            (match ir_contents result with
             | Some contents => Ok contents
             | None => readFileSync fs resolved
             end)
          with
          | Ok contents => Ok (path_resolve1 fs resolved, contents)
          | Throw e => Throw e
          end
      end
  | Ok None => inherited
  end.

(** [less] *)
Definition less (source root : string) (options : StylePreprocessorOptions Any)
  (resolvers : Resolvers) : M (Loaded Any) StylePreprocessorResults :=
  let* nodeLess := loadPreprocessor E Less root in
  let viteResolverPlugin :=
    ViteLessPlugin (o_filename options) (opt_alias G options) resolvers in
  let* src :=
    lift (getSource source (o_filename options) (opt_additionalData G options) "") in
  let '(content, additionalMap) := src in
  match
    less_render G nodeLess content options
      (viteResolverPlugin :: map UserLessPlugin (opt_plugins G options))
  with
  | inl error =>
      ret (failed (new_Error E (if Js.truthy (le_message error)
                                then le_message error else le_type error)))
  | inr result =>
      let* map := lift (JSON_parse G (less_map result)) in
      ret (mkPre (less_css result) (Some map) additionalMap [] (less_imports result))
  end.

(** [formatStylusSourceMap] *)
Definition formatStylusSourceMap (mapBefore : ExistingRawSourceMap) (root : string)
  : ExistingRawSourceMap :=
  let resolveFromRoot := fun p => normalizePath E (path_resolve E root p) in
  mkMap
    (match map_file mapBefore with
     | Some file => if Js.truthy file then Some (resolveFromRoot file) else Some file
     | None => None
     end)
    (map_mappings mapBefore) (map_names mapBefore)
    (map resolveFromRoot (map_sources mapBefore)) (map_version mapBefore).

(** [styl] *)
Definition styl (source root : string) (options : StylePreprocessorOptions Any)
  : M (Loaded Any) StylePreprocessorResults :=
  let* nodeStylus := loadPreprocessor E Stylus root in
  let* src :=
    lift (getSource source (o_filename options) (opt_additionalData G options)
            newline) in
  let '(content, additionalMap) := src in
  let importsDeps := map (path_resolve1 fs) (default [] (opt_imports G options)) in
  match stylus_run G nodeStylus content options root with
  | Ok run =>
      ret (mkPre (stylus_css run)
             (Some (formatStylusSourceMap (stylus_sourcemap run) root))
             additionalMap [] (stylus_deps run ++ importsDeps))
  | Throw e => ret (failed e)
  end.

(** [preProcessors] *)
Definition preProcessors (lang : PreprocessLang) (source root : string)
  (options : StylePreprocessorOptions Any) (resolvers : Resolvers)
  : M (Loaded Any) StylePreprocessorResults :=
  match lang with
  | Less => less source root options resolvers
  | Sass => sass source root options resolvers
  | Scss => scss source root options resolvers
  | Styl | Stylus => styl source root options
  end.

(** The package that the adapter of a dialect loads. *)
Definition engine_package (lang : PreprocessLang) : PreprocessLang :=
  match lang with
  | Less => Less
  | Sass | Scss => Sass
  | Styl | Stylus => Stylus
  end.

(** The adapters that [compileCSS] is given are the ones above, run
    with the resolvers [resolvers] on the table [t] of loaded
    engines. *)
Definition adapters_of_css_ts (resolvers : Resolvers) (t : Loaded Any) : Prop :=
  scss_adapter E =
    (fun source root options => fst (scss source root options resolvers t)) /\
  less_adapter E =
    (fun source root options => fst (less source root options resolvers t)) /\
  styl_adapter E =
    (fun source root options => fst (styl source root options t)).

End Adapters.

End Adapters.

(* ================================================================== *)
(** * More sample collaborators *)
(* ================================================================== *)

(** A host, a file system and engines, small enough to run, for the
    examples of the properties below. *)
Module Fixture.

Definition host : Host :=
  {| dataToEsm := fun _ => "export default {}";
     parseRequest := fun id => if Js.includes id "?" then Some ∅ else None;
     parseInt_text := fun index => default "NaN" index;
     getCombinedSourcemap := fun _ => Sample.no_map;
     injectSourcesContent := fun map _ => Ok (map, []);
     getCodeWithSourcemap := fun css _ => css;
     client_public_path := fun base => base +:+ "@vite/client"
  |}.

(** The project of the examples, served. *)
Definition serve_config : ResolvedConfig unit :=
  mkConfig None "/" "/" tt Serve Sample.build.

Definition tr_state : TrState := (Sample.post_state, []).

(** A dev server that knows the module [/src/a.scss]. *)
Definition dev_state : CssState unit :=
  mkCssState ∅ [] (<["/src/a.scss" := mkModuleNode [] true]> ∅) Sample.session.

(** A build that is not split, with the styles of one module. *)
Definition single_state : PostState :=
  mkPost (<["/src/b.css" := ".b{}"]> ∅) [] ∅ false [] ∅ [].

(** The output of a legacy build. *)
Definition system : OutputOptions := mkOutput 4 "system" false.

Definition fs : Fs :=
  {| path_resolve1 := fun p => p;
     path_relative := fun _ to => to;
     readFileSync := fun _ => Ok "a { background: url(./a.png) }"
  |}.

Definition resolvers : Adapters.Resolvers :=
  {| Adapters.resolve_sass := fun url _ => Ok (Some url);
     Adapters.resolve_less := fun url _ => Ok (Some url)
  |}.

(** Engines that fail on [@error] and otherwise give the source back. *)
Definition engines : Adapters.Engines (Any := unit) :=
  {| Adapters.sass_render := fun _ options =>
       if Js.includes (Adapters.so_data options) "@error"
       then Throw (Sample.failure "Undefined variable" None)
       else Ok (Adapters.mkSassResult (Adapters.so_data options) None
                  [Adapters.so_file options]);
     Adapters.less_render := fun _ content _ _ =>
       if Js.includes content "@error"
       then inl (Adapters.mkLessError "" "Syntax")
       else inr (Adapters.mkLessOutput content "{}" []);
     Adapters.stylus_run := fun _ content _ _ =>
       if Js.includes content "@error"
       then Throw (Sample.failure "ParseError" None)
       else Ok (Adapters.mkStylusRun content [] Sample.no_map);
     Adapters.JSON_parse := fun _ => Ok Sample.no_map;
     Adapters.path_join_star := fun dir => dir +:+ "/*";
     Adapters.magic_appendLeft := fun source _ => (source, Sample.no_map);
     Adapters.opt_additionalData := fun _ => None;
     Adapters.opt_alias := fun _ => [];
     Adapters.opt_importer := fun _ => [];
     Adapters.opt_plugins := fun _ => [];
     Adapters.opt_imports := fun _ => None
  |}.

(** An installation in which only [less] is loaded. *)
Definition loaded : Loaded unit :=
  fun lang => match lang with Less => Some tt | _ => None end.

(** The sample environment with the adapters of css.ts in the place of
    the sample adapter. *)
Definition env : Env unit :=
  {| cleanUrl := cleanUrl Sample.env;
     normalizePath := normalizePath Sample.env;
     isExternalUrl := isExternalUrl Sample.env;
     isDataUrl := isDataUrl Sample.env;
     combineSourcemaps := combineSourcemaps Sample.env;
     generateCodeFrame := generateCodeFrame Sample.env;
     path_resolve := path_resolve Sample.env;
     path_dirname := path_dirname Sample.env;
     decodeURIComponent := decodeURIComponent Sample.env;
     yellow := yellow Sample.env;
     glob_sync := glob_sync Sample.env;
     postcssrc := postcssrc Sample.env;
     scss_adapter := fun source root options =>
       fst (Adapters.scss Sample.env fs engines source root options resolvers loaded);
     less_adapter := fun source root options =>
       fst (Adapters.less Sample.env engines source root options resolvers loaded);
     styl_adapter := fun source root options =>
       fst (Adapters.styl Sample.env fs engines source root options loaded);
     postcss_process := postcss_process Sample.env;
     postcss_parse := postcss_parse Sample.env;
     postcss_stringify := postcss_stringify Sample.env;
     esbuild_transform := esbuild_transform Sample.env;
     processSrcSet := processSrcSet Sample.env;
     assetUrlRE := assetUrlRE Sample.env;
     getAssetFilename := getAssetFilename Sample.env;
     emitted_fileName := emitted_fileName Sample.env;
     generateMap := generateMap Sample.env;
     json_stringify := json_stringify Sample.env;
     dep_module_url := dep_module_url Sample.env;
     moduleGraph_resolveId := moduleGraph_resolveId Sample.env;
     RegExp_beyond := RegExp_beyond Sample.env;
     new_ModuleNode := new_ModuleNode Sample.env;
     require_resolve := require_resolve Sample.env;
     require_module := require_module Sample.env;
     error_stack := error_stack Sample.env
  |}.

End Fixture.

(* ================================================================== *)
(** * Properties of the compiler *)
(* ================================================================== *)

Section CompilerFacts.

Context {Any : Type} (E : Env Any).

Lemma set_add_elem (x y : string) (s : list string) :
  y ∈ Js.set_add x s <-> y ∈ s \/ y = x.
Proof.
  unfold Js.set_add, Js.set_has. case_bool_decide as Hx.
  - split; [auto | intros [H | ->]; assumption].
  - rewrite elem_of_app, list_elem_of_singleton. tauto.
Qed.

Lemma set_add_all_elem (xs : list string) (y : string) (s : list string) :
  y ∈ Js.set_add_all xs s <-> y ∈ s \/ y ∈ xs.
Proof.
  unfold Js.set_add_all. revert s.
  induction xs as [| x xs IH]; intros s; simpl.
  - rewrite elem_of_nil. tauto.
  - rewrite IH, set_add_elem, elem_of_cons. tauto.
Qed.

Lemma preprocessor_deps_elem (filename d : string) (reported : list string) :
  d ∈ preprocessor_deps E filename reported <->
  d ∈ reported /\ normalizePath E d <> normalizePath E filename.
Proof.
  unfold preprocessor_deps. rewrite set_add_all_elem, elem_of_nil.
  rewrite list_elem_of_filter. unfold keep_dep.
  rewrite negb_true_iff, String.eqb_neq. tauto.
Qed.

(** The loop over the messages always ends, and adds the files of the
    messages, in their order, to the dependencies. *)
Lemma record_messages_deps id code config server messages deps s :
  exists s',
    record_messages E id code config server messages deps s =
    (Ok (Js.set_add_all (flat_map (message_files E id) messages) deps), s').
Proof.
  revert deps s. induction messages as [| m ms IH]; intros deps s.
  - exists s. reflexivity.
  - assert (exists s1, record_message E id code config server m deps s =
                       (Ok (Js.set_add_all (message_files E id m) deps), s1))
      as [s1 H1].
    { destruct m as [file | dir g | text line column |]; simpl;
        try (eexists; reflexivity).
      destruct server; eexists; reflexivity. }
    destruct (IH (Js.set_add_all (message_files E id m) deps) s1) as [s' H'].
    exists s'. simpl. unfold bind at 1. rewrite H1, H'.
    unfold Js.set_add_all. simpl. rewrite foldl_app. reflexivity.
Qed.

Lemma css_is_no_preprocessor lang :
  is_css lang = true -> lang ≫= preprocessLang_of = None.
Proof.
  destruct lang as [l |]; simpl; [| reflexivity].
  intros H. apply String.eqb_eq in H. subst l. reflexivity.
Qed.

(** C1. A plain stylesheet — language [css], no PostCSS configuration
    resolved, not named as a CSS module, no [@import] substring, no
    [url()] and no [image-set()] — is returned by [compileCSS] as it
    came: the code unchanged, a [null] map, no dependency set. *)
Theorem compileCSS_fast_path id code config server s s' :
  lang_of id = Some "css" ->
  resolvePostcssConfig E config s = (Ok None, s') ->
  Re.test CssRe.cssModuleRE id = false ->
  Js.includes code "@import" = false ->
  Re.test CssRe.cssUrlRE code = false ->
  Re.test CssRe.cssImageSetRE code = false ->
  compileCSS E id code config server s =
  (Ok (mkResult code MapNull None None None), s').
Proof.
  intros Hlang Hcfg Hmod Himp Hurl Hset.
  unfold compileCSS, bind. rewrite Hcfg, Hlang. unfold isModule_of.
  rewrite Hmod, Himp, Hurl, Hset, andb_false_r. reflexivity.
Qed.

(** C7. When the adapter of a module's dialect returns a non-empty
    [errors] array, [compileCSS] throws the first error of the array
    and returns no code, map or dependencies for the module. *)
Theorem compileCSS_preprocessor_error id code config server s s' pc l r e es :
  resolvePostcssConfig E config s = (Ok pc, s') ->
  preprocessor_of id = Some l ->
  preprocess E config l id code = Ok r ->
  pre_errors r = e :: es ->
  compileCSS E id code config server s = (Throw e, s').
Proof.
  intros Hcfg Hl Hpre Herr.
  unfold compileCSS, bind. rewrite Hcfg.
  destruct (is_css (lang_of id)) eqn:Hcss.
  { apply css_is_no_preprocessor in Hcss. unfold preprocessor_of in Hl. congruence. }
  simpl. rewrite Hl. unfold lift, bind. rewrite Hpre, Herr. reflexivity.
Qed.

(** C10 (amended). For a module that goes through an adapter, every
    dependency the adapter reports is in the returned set unless its
    normalized path is that of the module's own file, and a member of
    the returned set with the module's own normalized path was
    announced by a PostCSS message, not by the adapter. *)
Theorem compileCSS_deps_self_filtered id code config server s s' pc l r pr :
  resolvePostcssConfig E config s = (Ok pc, s') ->
  preprocessor_of id = Some l ->
  preprocess E config l id code = Ok r ->
  pre_errors r = [] ->
  postcss_process E (postcss_plugins config pc id code) (pre_code r)
    (pc_options <$> pc) (cleanUrl E id) = Ok pr ->
  exists res s'' deps,
    compileCSS E id code config server s = (Ok res, s'') /\
    cr_deps res = Some deps /\
    (forall d, d ∈ pre_deps r ->
       normalizePath E d <> normalizePath E (cleanUrl E id) -> d ∈ deps) /\
    (forall d, d ∈ deps ->
       normalizePath E d = normalizePath E (cleanUrl E id) ->
       d ∈ flat_map (message_files E id) (pr_messages pr)).
Proof.
  intros Hcfg Hl Hpre Herr Hpost.
  destruct (record_messages_deps id (pre_code r) config server (pr_messages pr)
              (preprocessor_deps E (cleanUrl E id) (pre_deps r)) s') as [s'' Hrec].
  assert (Hne : postcss_plugins config pc id code <> []).
  { unfold postcss_plugins. destruct (isModule_of config id); [discriminate |].
    intros H. apply app_eq_nil in H as [_ H]. discriminate. }
  eexists _, s'', _. split.
  { unfold compileCSS, bind. rewrite Hcfg.
    destruct (is_css (lang_of id)) eqn:Hcss.
    { apply css_is_no_preprocessor in Hcss. unfold preprocessor_of in Hl. congruence. }
    simpl. rewrite Hl. unfold lift, bind. rewrite Hpre, Herr. unfold ret.
    destruct (postcss_plugins config pc id code) eqn:Hp; [congruence |].
    rewrite Hpost, Hrec. reflexivity. }
  split; [reflexivity |]. split.
  - intros d Hd Hn. apply set_add_all_elem. left.
    apply preprocessor_deps_elem. auto.
  - intros d Hd Hn. apply set_add_all_elem in Hd as [Hd | Hd]; [| exact Hd].
    apply preprocessor_deps_elem in Hd as [_ Hd]. contradiction.
Qed.

End CompilerFacts.

Lemma compileCSS_fast_path_witness :
  compileCSS Sample.env "/src/a.css" "a { color: red }" Sample.config false
    Sample.session =
  (Ok (mkResult "a { color: red }" MapNull None None None),
   mkSession (Some None) ∅ []).
Proof. apply compileCSS_fast_path; vm_compute; reflexivity. Defined.

Lemma compileCSS_preprocessor_error_witness :
  compileCSS Sample.env "/src/a.scss" "a { @error }" Sample.config false
    Sample.session =
  (Throw (Sample.failure "compile failed" None), mkSession (Some None) ∅ []).
Proof.
  apply (compileCSS_preprocessor_error Sample.env "/src/a.scss" "a { @error }"
           Sample.config false Sample.session (mkSession (Some None) ∅ []) None Scss
           (mkPre "" None None
              [Sample.failure "compile failed" None; Sample.failure "second" None] [])
           (Sample.failure "compile failed" None) [Sample.failure "second" None]);
    vm_compute; reflexivity.
Defined.

Lemma compileCSS_deps_self_filtered_witness :
  exists res s'' deps,
    compileCSS Sample.env "/src/a.scss" "a { color: red }" Sample.config_with_plugin
      false Sample.session = (Ok res, s'') /\
    cr_deps res = Some deps /\
    (forall d, d ∈ ["/src/a.scss"; "/src/_vars.scss"] ->
       d <> Sample.clean_url "/src/a.scss" -> d ∈ deps) /\
    (forall d, d ∈ deps -> d = Sample.clean_url "/src/a.scss" ->
       d ∈ ["/src/a.scss"; "/src/b.scss"]).
Proof.
  apply (compileCSS_deps_self_filtered Sample.env "/src/a.scss" "a { color: red }"
           Sample.config_with_plugin false Sample.session
           (mkSession (Some (Some (mkPostcssConfig tt [tt]))) ∅ [])
           (Some (mkPostcssConfig tt [tt])) Scss
           (mkPre "a { color: red }" None None [] ["/src/a.scss"; "/src/_vars.scss"])
           (mkPostcssResult "a { color: red }" [MDirDependency "." None]
              Sample.no_map None));
    vm_compute; reflexivity.
Defined.

(** C10, as written, fails: with a PostCSS plugin that announces the
    stylesheet's directory, the set returned for [/src/a.scss] holds
    [/src/a.scss] itself. *)
Lemma deps_may_contain_self :
  ~ Stated.deps_never_contain_self Sample.env Sample.config_with_plugin false
      "/src/a.scss" "a { color: red }" Sample.session.
Proof.
  intros H.
  apply (H Scss
           (mkResult "a { color: red }"
              (MapOf (mkMap (Some "/src/a.scss") "" [] [] 3))
              (Some (mkPostcssResult "a { color: red }" [MDirDependency "." None]
                       Sample.no_map None))
              None (Some ["/src/_vars.scss"; "/src/a.scss"; "/src/b.scss"]))
           (mkSession (Some (Some (mkPostcssConfig tt [tt]))) ∅ [])
           ["/src/_vars.scss"; "/src/a.scss"; "/src/b.scss"]
           ltac:(vm_compute; reflexivity) ltac:(vm_compute; reflexivity) eq_refl
           "/src/a.scss").
  - apply list_elem_of_In. simpl. auto.
  - vm_compute. reflexivity.
Qed.

(* ================================================================== *)
(** * Properties of [vite:css] *)
(* ================================================================== *)

Section CssPluginFacts.

Context {Any : Type} (E : Env Any).

Lemma graph_grows_refl (g : gmap string ModuleNode) : graph_grows E g g.
Proof. intros id'. destruct (g !! id'); [reflexivity | left; reflexivity]. Qed.

Lemma graph_grows_trans (g1 g2 g3 : gmap string ModuleNode) :
  graph_grows E g1 g2 -> graph_grows E g2 g3 -> graph_grows E g1 g3.
Proof.
  intros H12 H23 id'. specialize (H12 id'). specialize (H23 id').
  destruct (g1 !! id') as [n |].
  - rewrite H12 in H23. exact H23.
  - destruct H12 as [H12 | [url H12]]; rewrite H12 in H23; [exact H23 |].
    right. exists url. exact H23.
Qed.

(** Registering the dependencies leaves everything but the module
    graph alone, and the graph keeps its modules and gains new ones. *)
Lemma register_deps_run ssr deps :
  forall st : CssState Any,
    exists g',
      for_each deps (register_dep E ssr) st =
      (Ok tt, mkCssState (moduleCache st) (watchFiles st) g' (session st)) /\
      graph_grows E (moduleGraph st) g'.
Proof.
  induction deps as [| file deps IH]; intros st.
  - exists (moduleGraph st). split; [destruct st; reflexivity | apply graph_grows_refl].
  - cbn [for_each]. unfold bind at 1.
    assert (Hone : exists g1,
              register_dep E ssr file st =
              (Ok tt, mkCssState (moduleCache st) (watchFiles st) g1 (session st)) /\
              graph_grows E (moduleGraph st) g1).
    { unfold register_dep. destruct (CssRe.isCSSRequest file).
      - exists (moduleGraph st). split; [destruct st; reflexivity | apply graph_grows_refl].
      - unfold ensureEntryFromUrl, modify.
        destruct (moduleGraph st !! moduleGraph_resolveId E (dep_module_url E file) ssr)
          as [n |] eqn:Hn.
        + exists (moduleGraph st). split; [destruct st; reflexivity | apply graph_grows_refl].
        + eexists. split; [reflexivity |]. intros id'.
          destruct (decide (id' = moduleGraph_resolveId E (dep_module_url E file) ssr))
            as [-> | Hne].
          * rewrite Hn. right. eexists. apply lookup_insert_eq.
          * rewrite lookup_insert_ne by congruence.
            destruct (moduleGraph st !! id'); [reflexivity | left; reflexivity]. }
    destruct Hone as (g1 & -> & Hg1).
    destruct (IH (mkCssState (moduleCache st) (watchFiles st) g1 (session st)))
      as (g' & -> & Hg').
    exists g'. split; [reflexivity |]. eapply graph_grows_trans; eassumption.
Qed.

(** C9 (amended). Every transform of a stylesheet module compiles the
    source it is given: its result is that of [compileCSS] on this
    source, whatever was compiled for the id before. The module cache
    then holds, for this id, the scoped-class exports of this
    compilation when it produced some and the former entry otherwise,
    and the entry of every other id is as it was. *)
Theorem css_transform_recompiles config server ssr raw id st r se' :
  CssRe.isCSSRequest id = true ->
  Re.test CssRe.commonjsProxyRE id = false ->
  compileCSS E id raw config server (session st) = (Ok r, se') ->
  exists st',
    css_transform E config server ssr raw id st =
    (Ok (Some (cr_code r, cr_map r)), st') /\
    moduleCache st' !! id =
      match cr_modules r with
      | Some exports => Some exports
      | None => moduleCache st !! id
      end /\
    (forall id', id' <> id -> moduleCache st' !! id' = moduleCache st !! id').
Proof.
  intros Hcss Hproxy Hc.
  unfold css_transform. rewrite Hcss, Hproxy. simpl.
  unfold bind at 1. unfold lift_session. rewrite Hc.
  destruct (cr_modules r) as [exports |];
    destruct (config_command config), (watch (config_build config)),
      (cr_deps r) as [deps |], server;
    unfold bind, modify, ret, get, addWatchFiles; simpl;
    try (destruct (moduleGraph st !! id) as [thisModule |]; simpl);
    try match goal with
        | |- context [for_each ?deps _ ?s] =>
            let H := fresh in
            destruct (register_deps_run ssr deps s) as (g' & H & _);
            rewrite H; simpl
        end;
    (eexists; split; [reflexivity | split; simpl;
       [ try apply lookup_insert_eq; reflexivity
       | intros id' Hne; try rewrite lookup_insert_ne by congruence; reflexivity ]]).
Qed.

End CssPluginFacts.

Lemma css_transform_recompiles_witness :
  exists st',
    css_transform Sample.env Sample.config false false "b {}" "/src/a.css"
      (mkCssState ∅ [] ∅ (mkSession (Some None) ∅ [])) =
    (Ok (Some ("b {}", MapNull)), st') /\
    moduleCache st' !! "/src/a.css" = (∅ : gmap string Modules) !! "/src/a.css" /\
    (forall id', id' <> "/src/a.css" ->
       moduleCache st' !! id' = (∅ : gmap string Modules) !! id').
Proof.
  exact (css_transform_recompiles Sample.env Sample.config false false "b {}" "/src/a.css"
           (mkCssState ∅ [] ∅ (mkSession (Some None) ∅ []))
           (mkResult "b {}" MapNull None None None) (mkSession (Some None) ∅ [])
           ltac:(vm_compute; reflexivity) ltac:(vm_compute; reflexivity)
           ltac:(vm_compute; reflexivity)).
Defined.

(** C9, as written, fails: in one session, [/src/a.css] is transformed
    with the source [a {}] and then with [b {}]; the second result is
    the compilation of [b {}], not the record of the first. *)
Lemma second_compile_is_not_cached :
  ~ Stated.second_compile_is_cached Sample.env Sample.config false false "/src/a.css"
      Sample.css_state.
Proof.
  intros H.
  specialize (H "a {}" "b {}" ("a {}", MapNull) ("b {}", MapNull)
                (mkCssState ∅ [] ∅ (mkSession (Some None) ∅ []))
                (mkCssState ∅ [] ∅ (mkSession (Some None) ∅ []))
                ltac:(vm_compute; reflexivity) ltac:(vm_compute; reflexivity)).
  discriminate H.
Qed.

(* ================================================================== *)
(** * Properties of the URL rewriter *)
(* ================================================================== *)

Section UrlRewriteFacts.

Context {Any : Type} (E : Env Any).

Lemma of_string_app (a b : string) :
  Js.of_string (a +:+ b) = Js.of_string a ++ Js.of_string b.
Proof. induction a as [| c a IH]; simpl; [reflexivity | f_equal; exact IH]. Qed.

Lemma to_of_string (s : string) : Js.to_string (Js.of_string s) = s.
Proof. apply String.string_of_list_ascii_of_string. Qed.

Lemma of_to_string (l : Js.chars) : Js.of_string (Js.to_string l) = l.
Proof. apply String.list_ascii_of_string_of_list_ascii. Qed.

Lemma append_assoc (a b c : string) : (a +:+ b) +:+ c = a +:+ b +:+ c.
Proof.
  induction a as [| x a IH]; [reflexivity |].
  change (String x ((a +:+ b) +:+ c) = String x (a +:+ b +:+ c)). rewrite IH. reflexivity.
Qed.

Lemma append_empty_r (a : string) : a +:+ "" = a.
Proof.
  induction a as [| x a IH]; [reflexivity |].
  change (String x (a +:+ "") = String x a). rewrite IH. reflexivity.
Qed.

Lemma slice_quoted (q q' : ascii) (url : string) :
  Js.slice_1_m1 (String q (url +:+ String q' EmptyString)) = url.
Proof.
  unfold Js.slice_1_m1. simpl. rewrite of_string_app. simpl.
  rewrite removelast_last. apply to_of_string.
Qed.

Lemma unwrap_value raw wrap url :
  url_value raw wrap url -> unwrap raw = (wrap, url).
Proof.
  intros [u | u | u Hu]; unfold unwrap.
  - simpl Js.first. cbn [Ascii.eqb]. simpl. f_equal. apply (slice_quoted "'" "'").
  - simpl Js.first. unfold CssRe.dq. simpl. f_equal.
    apply (slice_quoted CssRe.dquote CssRe.dquote).
  - destruct (Js.first u) as [c |] eqn:Hc; [| reflexivity].
    destruct (Hu c eq_refl) as [Hd Hs].
    apply Ascii.eqb_neq in Hd, Hs. rewrite Hd, Hs. reflexivity.
Qed.

(** What [doUrlReplace] makes of a value of one of the three shapes. *)
Lemma doUrlReplace_value raw wrap url matched (replacer : CssUrlReplacer) :
  url_value raw wrap url ->
  (isExternalUrl E url = true \/ isDataUrl E url = true \/
   Js.startsWith url "#" = true ->
   doUrlReplace E raw matched replacer = Ok matched) /\
  (isExternalUrl E url = false -> isDataUrl E url = false ->
   Js.startsWith url "#" = false ->
   forall answer, replacer url = Ok answer ->
     doUrlReplace E raw matched replacer =
     Ok ("url(" +:+ wrap +:+ answer +:+ wrap +:+ ")")).
Proof.
  intros Hv. unfold doUrlReplace. rewrite (unwrap_value _ _ _ Hv).
  unfold skipped_url. split.
  - intros [H | [H | H]]; rewrite H; rewrite ?orb_true_r; reflexivity.
  - intros H1 H2 H3 answer Ha. rewrite H1, H2, H3, Ha. reflexivity.
Qed.

End UrlRewriteFacts.

Lemma doUrlReplace_value_examples :
  doUrlReplace Sample.env "'./logo.png'" "url('./logo.png')"
    (fun _ => Ok "/assets/logo.png") = Ok "url('/assets/logo.png')" /\
  doUrlReplace Sample.env "#clip" "url(#clip)"
    (fun _ => Ok "/assets/clip") = Ok "url(#clip)".
Proof.
  split.
  - exact (proj2 (doUrlReplace_value Sample.env "'./logo.png'" "'" "./logo.png"
                    "url('./logo.png')" (fun _ => Ok "/assets/logo.png")
                    (single_quoted "./logo.png"))
             ltac:(vm_compute; reflexivity) ltac:(vm_compute; reflexivity)
             ltac:(vm_compute; reflexivity) "/assets/logo.png" eq_refl).
  - apply (proj1 (doUrlReplace_value Sample.env "#clip" "" "#clip"
                    "url(#clip)" (fun _ => Ok "/assets/clip")
                    (bare "#clip" ltac:(intros c [= <-]; split; discriminate)))).
    right. right. vm_compute. reflexivity.
Qed.

(* ================================================================== *)
(** * Properties of the engine loader *)
(* ================================================================== *)

Section LoaderFacts.

Context {Any : Type} (E : Env Any).

Lemma not_found_names_dialect lang :
  Js.includes (not_found_message lang) (lang_name lang) = true.
Proof. destruct lang; reflexivity. Qed.

Lemma failed_names_dialect lang original :
  Js.includes (failed_message lang original) (lang_name lang) = true.
Proof. destruct lang; reflexivity. Qed.

Lemma failed_keeps_original lang original :
  exists head, failed_message lang original = head +:+ original.
Proof.
  exists ("Preprocessor dependency " +:+ CssRe.dq +:+ lang_name lang +:+ CssRe.dq +:+
          " failed to load:" +:+ newline).
  unfold failed_message. destruct lang; reflexivity.
Qed.

Lemma messages_distinct lang original :
  not_found_message lang <> failed_message lang original.
Proof. destruct lang; discriminate. Qed.

(** C8 (amended). For a dialect whose engine is not loaded yet:
    - a load (resolution, then [require]) that succeeds returns the
      engine and caches it, after which every call returns the cached
      engine without resolving or requiring anything, whatever the
      installation has become;
    - a load that throws an error of code [MODULE_NOT_FOUND] raises the
      "not found" error, whose message names the dialect package and
      differs from every "failed to load" message;
    - a load that throws any other error raises an error whose message
      is the dialect name followed by the original message, and whose
      stack begins with the original stack.
    Nothing is cached when the load throws. *)
Theorem loadPreprocessor_outcomes lang root (t : Loaded Any) :
  t lang = None ->
  match load_attempt E lang root with
  | Ok engine =>
      exists t',
        loadPreprocessor E lang root t = (Ok engine, t') /\
        t' lang = Some engine /\
        (forall (E' : Env Any) root',
           loadPreprocessor E' lang root' t' = (Ok engine, t'))
  | Throw e =>
      exists raised,
        loadPreprocessor E lang root t = (Throw raised, t) /\
        if is_module_not_found e then
          err_message raised = not_found_message lang /\
          Js.includes (err_message raised) (lang_name lang) = true /\
          (forall original, err_message raised <> failed_message lang original)
        else
          err_message raised = failed_message lang (err_message e) /\
          Js.includes (err_message raised) (lang_name lang) = true /\
          (exists head, err_message raised = head +:+ err_message e) /\
          (exists tail, err_stack raised = err_stack e +:+ tail)
  end.
Proof.
  intros Hnone.
  destruct (load_attempt E lang root) as [engine | e] eqn:Hload.
  - exists (loaded_set lang engine t). split; [| split].
    + unfold loadPreprocessor, bind, get, try_catch, lift, modify, ret.
      rewrite Hnone, Hload. reflexivity.
    + unfold loaded_set. rewrite decide_True by reflexivity. reflexivity.
    + intros E' root'. unfold loadPreprocessor, bind, get, ret, loaded_set.
      rewrite decide_True by reflexivity. reflexivity.
  - exists (load_failure E lang e). split.
    + unfold loadPreprocessor, bind, get, try_catch, lift, throw.
      rewrite Hnone, Hload. reflexivity.
    + unfold load_failure. destruct (is_module_not_found e); simpl.
      * split; [reflexivity |]. split; [apply not_found_names_dialect |].
        apply messages_distinct.
      * split; [reflexivity |]. split; [apply failed_names_dialect |].
        split; [apply failed_keeps_original |]. eexists. reflexivity.
Qed.

End LoaderFacts.

Lemma loadPreprocessor_outcomes_witness :
  exists raised,
    loadPreprocessor Sample.env Sass "/" (fun _ => None) =
    (Throw raised, fun _ => None) /\
    err_message raised = failed_message Sass "Unexpected token" /\
    Js.includes (err_message raised) "sass" = true /\
    (exists head, err_message raised = head +:+ "Unexpected token") /\
    (exists tail, err_stack raised = "Error: Unexpected token" +:+ tail).
Proof.
  exact (loadPreprocessor_outcomes Sample.env Sass "/" (fun _ => None) eq_refl).
Defined.

(** C8, as written, fails: [stylus] is found, and throws while it is
    loaded because a module it requires is missing; the error raised is
    the "not found" one, and the original message is lost. *)
Lemma found_but_failing_is_not_wrapped :
  ~ Stated.found_but_failing_is_wrapped Sample.env Stylus "/" (fun _ => None).
Proof.
  intros H.
  destruct (H "//node_modules/stylus"
              (Sample.failure "Cannot find module 'glob'" (Some "MODULE_NOT_FOUND"))
              eq_refl eq_refl eq_refl) as (raised & t' & Hrun & Hmsg).
  vm_compute in Hrun. injection Hrun as <- _.
  vm_compute in Hmsg. discriminate Hmsg.
Qed.

(* ================================================================== *)
(** * Properties of [vite:css-post] *)
(* ================================================================== *)

Section Keeps.

Context {S : Type} (R : S -> S -> Prop).
Hypothesis R_refl : forall s, R s s.
Hypothesis R_trans : forall s1 s2 s3, R s1 s2 -> R s2 s3 -> R s1 s3.

Lemma keeps_ret {A} (a : A) : keeps R (ret a).
Proof. intros s. apply R_refl. Qed.

Lemma keeps_throw {A} (e : JsError) : keeps R (@throw S A e).
Proof. intros s. apply R_refl. Qed.

Lemma keeps_lift {A} (r : result A) : keeps R (lift r).
Proof. intros s. apply R_refl. Qed.

Lemma keeps_get : keeps R get.
Proof. intros s. apply R_refl. Qed.

Lemma keeps_modify (f : S -> S) : (forall s, R s (f s)) -> keeps R (modify f).
Proof. intros H s. apply H. Qed.

Lemma keeps_bind {A B} (m : M S A) (f : A -> M S B) :
  keeps R m -> (forall a, keeps R (f a)) -> keeps R (bind m f).
Proof.
  intros Hm Hf s. unfold bind. specialize (Hm s).
  destruct (m s) as [[a | e] s1]; simpl in *; [| exact Hm].
  eapply R_trans; [exact Hm | apply Hf].
Qed.

Lemma keeps_for_each {A} (xs : list A) (body : A -> M S unit) :
  (forall x, keeps R (body x)) -> keeps R (for_each xs body).
Proof.
  intros Hb. induction xs as [| x xs IH]; simpl.
  - apply keeps_ret.
  - apply keeps_bind; [apply Hb | intros _; exact IH].
Qed.

End Keeps.

Section RenderChunkFacts.

Context {Any : Type} (E : Env Any).

Lemma same_pure_refl s : same_pure s s.
Proof. reflexivity. Qed.

Lemma same_pure_trans s1 s2 s3 : same_pure s1 s2 -> same_pure s2 s3 -> same_pure s1 s3.
Proof. unfold same_pure. congruence. Qed.

Ltac keeps_pure :=
  repeat first
    [ apply (keeps_bind same_pure same_pure_trans); [| intros ? ]
    | apply (keeps_ret same_pure same_pure_refl)
    | apply (keeps_lift same_pure same_pure_refl)
    | apply (keeps_modify same_pure); intros ?; reflexivity ].

Lemma minifyCSS_same_pure css : keeps same_pure (minifyCSS E css).
Proof.
  unfold minifyCSS. keeps_pure.
  destruct a as [code_ ws]. keeps_pure.
  destruct ws; unfold warn; keeps_pure.
Qed.

Lemma processChunkCSS_same_pure config chunk css inlined minify_ :
  keeps same_pure (processChunkCSS E config chunk css inlined minify_).
Proof.
  unfold processChunkCSS. keeps_pure.
  - match goal with |- keeps _ (if ?b then _ else _) => destruct b end;
      unfold hoistAtImports; keeps_pure.
  - match goal with |- keeps _ (if ?b then _ else _) => destruct b end;
      [apply minifyCSS_same_pure | keeps_pure].
Qed.

Lemma collect_chunk_from (recorded : gmap string string) ids css0 pure0 :
  snd (foldl (fun '(chunkCSS, isPureCssChunk) id =>
                (match recorded !! id with
                 | Some css => chunkCSS +:+ css
                 | None => chunkCSS
                 end,
                 if not_pure_module id then false else isPureCssChunk))
         (css0, pure0) ids) =
  pure0 && forallb (fun id => negb (not_pure_module id)) ids.
Proof.
  revert css0 pure0. induction ids as [| id ids IH]; intros css0 pure0; simpl.
  - rewrite andb_true_r. reflexivity.
  - rewrite IH. destruct (not_pure_module id), pure0; reflexivity.
Qed.

Lemma collect_chunk_pure (recorded : gmap string string) ids :
  snd (collect_chunk recorded ids) =
  forallb (fun id => negb (not_pure_module id)) ids.
Proof. unfold collect_chunk. apply collect_chunk_from. Qed.

Lemma renderChunk_pureCssChunks config code_ chunk opts st :
  pureCssChunks (snd (renderChunk E config code_ chunk opts st)) =
  if cssCodeSplit (config_build config)
     && Js.truthy (fst (collect_chunk (styles st) (modules chunk)))
     && forallb (fun id => negb (not_pure_module id)) (modules chunk)
  then Js.set_add (fileName chunk) (pureCssChunks st)
  else pureCssChunks st.
Proof.
  rewrite <- (collect_chunk_pure (styles st)).
  unfold renderChunk. unfold bind at 1. unfold get.
  destruct (collect_chunk (styles st) (modules chunk)) as [chunkCSS isPure]. simpl.
  destruct (Js.truthy chunkCSS); simpl;
    [| rewrite andb_false_r; reflexivity].
  destruct (cssCodeSplit (config_build config)); simpl.
  - set (st1 := if isPure
                then mkPost (styles st) (Js.set_add (fileName chunk) (pureCssChunks st))
                       (outputToExtractedCSSMap st) (hasEmitted st) (emitted st)
                       (removedPureCssFiles st) (logged st)
                else st).
    assert (Hst1 : pureCssChunks st1 =
                   if isPure then Js.set_add (fileName chunk) (pureCssChunks st)
                   else pureCssChunks st)
      by (subst st1; destruct isPure; reflexivity).
    rewrite <- Hst1.
    assert (Hstep : forall k : M PostState (option (string * option ExistingRawSourceMap) * Chunk),
               keeps same_pure k ->
               pureCssChunks
                 (snd (bind (if isPure
                             then modify (fun s =>
                                    mkPost (styles s)
                                      (Js.set_add (fileName chunk) (pureCssChunks s))
                                      (outputToExtractedCSSMap s) (hasEmitted s) (emitted s)
                                      (removedPureCssFiles s) (logged s))
                             else ret tt) (fun _ => k) st)) = pureCssChunks st1).
    { intros k Hk. unfold bind. subst st1. destruct isPure; simpl; apply Hk. }
    apply Hstep.
    destruct (String.eqb (format opts) "es" || String.eqb (format opts) "cjs").
    + apply (keeps_bind same_pure same_pure_trans);
        [apply processChunkCSS_same_pure | intros [css' chunk']].
      unfold emitFile. keeps_pure.
    + destruct (negb (build_ssr (config_build config))); [| keeps_pure].
      apply (keeps_bind same_pure same_pure_trans);
        [apply processChunkCSS_same_pure | intros [css' chunk']].
      destruct (sourcemap (config_build config)); keeps_pure.
  - assert (Hk : keeps same_pure
                   (let* r := processChunkCSS E config chunk chunkCSS false false in
                    let '(chunkCSS0, chunk0) := r in
                    modify (fun s =>
                      let old := default "" (outputToExtractedCSSMap s !! out_id opts) in
                      mkPost (styles s) (pureCssChunks s)
                        (<[out_id opts := old +:+ chunkCSS0]> (outputToExtractedCSSMap s))
                        (hasEmitted s) (emitted s) (removedPureCssFiles s) (logged s)) ;;
                    ret (@None (string * option ExistingRawSourceMap), chunk0))).
    { apply (keeps_bind same_pure same_pure_trans);
        [apply processChunkCSS_same_pure | intros [css' chunk']].
      keeps_pure. }
    apply Hk.
Qed.

(** C3 (amended). [renderChunk] flags a chunk as pure CSS exactly when
    code splitting is on, the chunk has some CSS recorded for its
    modules, and every module id of the chunk is a stylesheet request
    that is neither a CSS module nor a CommonJS proxy. *)
Theorem renderChunk_pure_flag config code_ chunk opts st :
  fileName chunk ∈ pureCssChunks (snd (renderChunk E config code_ chunk opts st)) <->
  fileName chunk ∈ pureCssChunks st \/
  (cssCodeSplit (config_build config) = true /\
   Js.truthy (fst (collect_chunk (styles st) (modules chunk))) = true /\
   forall id, id ∈ modules chunk ->
     CssRe.isCSSRequest id = true /\
     Re.test CssRe.cssModuleRE id = false /\
     Re.test CssRe.commonjsProxyRE id = false).
Proof.
  rewrite renderChunk_pureCssChunks.
  assert (Hall : forallb (fun id => negb (not_pure_module id)) (modules chunk) = true <->
                 forall id, id ∈ modules chunk ->
                   CssRe.isCSSRequest id = true /\
                   Re.test CssRe.cssModuleRE id = false /\
                   Re.test CssRe.commonjsProxyRE id = false).
  { rewrite forallb_forall. split; intros H id Hin.
    - apply list_elem_of_In in Hin. specialize (H id Hin). unfold not_pure_module in H.
      rewrite negb_true_iff, !orb_false_iff, negb_false_iff in H. tauto.
    - apply list_elem_of_In in Hin. specialize (H id Hin). unfold not_pure_module.
      destruct H as (-> & -> & ->). reflexivity. }
  destruct (cssCodeSplit (config_build config)); simpl.
  - destruct (Js.truthy _); simpl.
    + destruct (forallb _ _) eqn:Hf.
      * rewrite set_add_elem. split; [intros _ | tauto].
        right. split; [reflexivity |]. split; [reflexivity |]. apply Hall. reflexivity.
      * split; [tauto |]. intros [H | (_ & _ & H)]; [exact H |].
        apply Hall in H. discriminate.
    + split; [tauto |]. intros [H | (_ & H & _)]; [exact H | discriminate].
  - split; [tauto |]. intros [H | (H & _)]; [exact H | discriminate].
Qed.

End RenderChunkFacts.

(** C3, as written, fails three ways: a chunk whose only module is a
    CSS module is made of stylesheets and is not flagged; neither is a
    chunk of stylesheets when code splitting is off, nor one whose
    stylesheets are empty. *)
Lemma pure_flag_is_narrower :
  ~ Stated.pure_iff_all_stylesheets Sample.env Sample.config "" Sample.module_chunk
      Sample.es Sample.with_styles /\
  ~ Stated.pure_iff_all_stylesheets Sample.env Sample.config_single ""
      Sample.plain_chunk Sample.es Sample.with_styles /\
  ~ Stated.pure_iff_all_stylesheets Sample.env Sample.config "" Sample.empty_chunk
      Sample.es Sample.with_styles.
Proof.
  assert (Hno : forall x : string, x ∉ @nil string) by (intros x H; inversion H).
  assert (Hall : forall file : string,
             CssRe.isCSSRequest file = true ->
             forall id, id ∈ [file] -> CssRe.isCSSRequest id = true)
    by (intros file Hf id Hin; apply list_elem_of_singleton in Hin as ->; exact Hf).
  repeat split; intros H.
  - apply (Hno "m.js").
    exact (proj2 (H (Hno _)) (Hall "/src/a.module.css" ltac:(vm_compute; reflexivity))).
  - apply (Hno "b.js").
    exact (proj2 (H (Hno _)) (Hall "/src/b.css" ltac:(vm_compute; reflexivity))).
  - apply (Hno "e.js").
    exact (proj2 (H (Hno _)) (Hall "/src/empty.css" ltac:(vm_compute; reflexivity))).
Qed.

Section EmissionFacts.

Context {Any : Type} (E : Env Any).

(** A pass of a build without pure CSS chunks that has nothing to emit,
    or that comes after the emission, changes nothing. *)
Lemma finalize_pass_idle config opts bundle st :
  pureCssChunks st = [] ->
  nothing_to_emit st opts \/ hasEmitted st = true ->
  finalize_pass E config (opts, bundle) st = (Ok bundle, st).
Proof.
  intros Hpure Hidle.
  unfold finalize_pass, generateBundle. simpl.
  destruct (skip_asset_emit opts) eqn:Hskip; [reflexivity |].
  unfold prune_pure_chunks, emit_extracted, bind, get, ret. simpl.
  rewrite Hpure. simpl.
  destruct (outputToExtractedCSSMap st !! out_id opts) as [css |] eqn:Hmap;
    [| reflexivity].
  destruct Hidle as [[Hs | Hn] | Hem].
  - congruence.
  - rewrite Hmap in Hn. rewrite Hn. reflexivity.
  - rewrite Hem, andb_false_r. reflexivity.
Qed.

Lemma finalize_passes_idle config passes st :
  pureCssChunks st = [] ->
  hasEmitted st = true ->
  finalize_passes E config passes st = (Ok (map snd passes), st).
Proof.
  intros Hpure Hem. induction passes as [| [opts bundle] passes IH]; [reflexivity |].
  simpl. unfold bind at 1.
  rewrite finalize_pass_idle by auto.
  unfold bind. rewrite IH. reflexivity.
Qed.

(** The pass that emits: the flag is raised, and the buffer of its
    target, minified when the build minifies, becomes [style.css]. *)
Lemma finalize_pass_emits config opts bundle st css css' :
  pureCssChunks st = [] ->
  hasEmitted st = false ->
  skip_asset_emit opts = false ->
  outputToExtractedCSSMap st !! out_id opts = Some css ->
  Js.truthy css = true ->
  (if minify (config_build config)
   then exists ws, esbuild_transform E css = Ok (css', ws)
   else css' = css) ->
  exists st',
    finalize_pass E config (opts, bundle) st = (Ok bundle, st') /\
    pureCssChunks st' = [] /\
    hasEmitted st' = true /\
    emitted st' = emitted st ++ [("style.css", css')].
Proof.
  intros Hpure Hem Hskip Hmap Htruthy Hmin.
  unfold finalize_pass, generateBundle. simpl. rewrite Hskip.
  unfold prune_pure_chunks, emit_extracted, bind, get, ret. simpl.
  rewrite Hpure. simpl. rewrite Hmap, Htruthy, Hem. simpl.
  destruct (minify (config_build config)).
  - destruct Hmin as [ws Hws]. unfold minifyCSS, bind, lift. rewrite Hws.
    destruct ws as [| w ws]; simpl; eexists; (split; [reflexivity |]);
      simpl; auto.
  - subst css'. simpl. eexists. split; [reflexivity |]. simpl. auto.
Qed.

(** C2 (amended). In a build whose CSS is not split, the aggregated CSS
    is emitted once for the whole build and not once per output target:
    of the finalize passes of the build, the first one that is not
    skipped and whose target has a non-empty buffer emits that buffer
    as [style.css], and the passes after it emit nothing, whatever
    buffers their own targets have. *)
Theorem aggregated_css_emitted_once config before opts bundle after st css css' :
  pureCssChunks st = [] ->
  hasEmitted st = false ->
  Forall (fun pass => nothing_to_emit st (fst pass)) before ->
  skip_asset_emit opts = false ->
  outputToExtractedCSSMap st !! out_id opts = Some css ->
  Js.truthy css = true ->
  (if minify (config_build config)
   then exists ws, esbuild_transform E css = Ok (css', ws)
   else css' = css) ->
  exists st',
    finalize_passes E config (before ++ (opts, bundle) :: after) st =
    (Ok (map snd (before ++ (opts, bundle) :: after)), st') /\
    hasEmitted st' = true /\
    emitted st' = emitted st ++ [("style.css", css')].
Proof.
  intros Hpure Hem Hbefore Hskip Hmap Htruthy Hmin.
  induction Hbefore as [| [o b] before Hidle _ IH].
  - destruct (finalize_pass_emits config opts bundle st css css')
      as (st' & Hrun & Hpure' & Hem' & Hout); auto.
    exists st'. split; [| auto]. simpl. unfold bind at 1. rewrite Hrun.
    unfold bind. rewrite finalize_passes_idle by assumption. reflexivity.
  - destruct IH as (st' & Hrun & Hem' & Hout).
    exists st'. split; [| auto]. simpl. unfold bind at 1.
    rewrite finalize_pass_idle by auto.
    unfold bind. simpl in Hrun. rewrite Hrun. reflexivity.
Qed.

End EmissionFacts.

Lemma aggregated_css_emitted_once_witness :
  exists st',
    finalize_passes Sample.env Sample.config_single
      ([(Sample.legacy, [])] ++ (Sample.es, []) :: [(Sample.cjs, [])])
      Sample.two_buffers =
    (Ok (map snd ([(Sample.legacy, [])] ++ (Sample.es, []) :: [(Sample.cjs, [])])), st') /\
    hasEmitted st' = true /\
    emitted st' = emitted Sample.two_buffers ++ [("style.css", "a{}")].
Proof.
  apply (aggregated_css_emitted_once Sample.env Sample.config_single
           [(Sample.legacy, [])] Sample.es [] [(Sample.cjs, [])]
           Sample.two_buffers "a{}" "a{}");
    try (vm_compute; reflexivity).
  repeat constructor.
Defined.

(** C2, as written, fails: both output targets of a build have their
    buffer, the finalize pass runs for each, and a single asset is
    emitted; the buffer of the second target is never emitted. *)
Lemma emitted_once_per_build_only :
  ~ Stated.emitted_once_per_target Sample.env Sample.config_single
      Sample.es Sample.cjs [] [] Sample.two_buffers.
Proof.
  intros H.
  destruct (H "a{}" "a{}" [[]; []]
              (mkPost ∅ [] (<[1 := "a{}"]> (<[2 := "a{}"]> ∅)) true
                 [("style.css", "a{}")] ∅ [])
              ltac:(discriminate) eq_refl eq_refl eq_refl
              ltac:(vm_compute; reflexivity) eq_refl
              ltac:(vm_compute; reflexivity) eq_refl
              ltac:(vm_compute; reflexivity)) as (e1 & e2 & Hout).
  discriminate Hout.
Qed.

(* ================================================================== *)
(** * Properties of the matcher *)
(* ================================================================== *)

Section ReFacts.

Import Re.

Lemma adv_refl fwd s : adv fwd s s.
Proof. split; [reflexivity | lia]. Qed.

Lemma adv_trans fwd s1 s2 s3 : adv fwd s1 s2 -> adv fwd s2 s3 -> adv fwd s1 s3.
Proof. intros [H1 L1] [H2 L2]. split; [congruence | lia]. Qed.

Lemma step_chr_adv fwd p s s' : step_chr fwd p s = Some s' -> adv fwd s s'.
Proof.
  unfold step_chr, adv, whole. destruct fwd; unfold ahead.
  - destruct (rest s) as [| c r] eqn:Hr; [discriminate |].
    destruct (p c); [| discriminate]. intros [= <-]. simpl.
    rewrite <- app_assoc. simpl. split; [reflexivity | lia].
  - destruct (prev s) as [| c r] eqn:Hp; [discriminate |].
    destruct (p c); [| discriminate]. intros [= <-]. simpl.
    rewrite <- app_assoc. simpl. split; [reflexivity | lia].
Qed.

(** A match calls its continuation on a state of the same text, not
    behind the state it started from. *)
Lemma mt_reach r :
  forall fwd k s e,
    mt r fwd k s = Some e -> exists s', adv fwd s s' /\ k s' = Some e.
Proof.
  induction r as [| p | r1 IH1 r2 IH2 | r1 IH1 r2 IH2 | r1 IH1 | i r1 IH1 | | | | r1 IH1];
    intros fwd k s e H; simpl in H.
  - exists s. split; [apply adv_refl | exact H].
  - destruct (step_chr fwd p s) as [s' |] eqn:Hs; [| discriminate].
    exists s'. split; [eapply step_chr_adv; eauto | exact H].
  - destruct fwd.
    + apply IH1 in H as (s1 & A1 & H). apply IH2 in H as (s2 & A2 & H).
      exists s2. split; [eapply adv_trans; eauto | exact H].
    + apply IH2 in H as (s1 & A1 & H). apply IH1 in H as (s2 & A2 & H).
      exists s2. split; [eapply adv_trans; eauto | exact H].
  - destruct (mt r1 fwd k s) as [e1 |] eqn:H1.
    + injection H as <-. apply IH1 in H1. exact H1.
    + apply IH2 in H. exact H.
  - revert H. generalize (length (ahead fwd s)) at 1. intros n. revert s.
    induction n as [| n IHn]; intros s H.
    + exists s. split; [apply adv_refl | exact H].
    + match type of H with
      | match ?m with _ => _ end = _ => destruct m as [e1 |] eqn:Hm
      end.
      * injection H as <-. apply IH1 in Hm as (s1 & A1 & Hm).
        destruct (length (ahead fwd s1) <? length (ahead fwd s))%nat; [| discriminate].
        apply IHn in Hm as (s2 & A2 & Hm).
        exists s2. split; [eapply adv_trans; eauto | exact Hm].
      * exists s. split; [apply adv_refl | exact H].
  - apply IH1 in H as (s1 & A1 & H).
    exists (set_cap i (Js.to_string (consumed fwd s s1)) s1).
    split; [exact A1 | exact H].
  - destruct (prev s) eqn:Hp; [| discriminate].
    exists s. split; [apply adv_refl | exact H].
  - destruct (rest s) eqn:Hr; [| discriminate].
    exists s. split; [apply adv_refl | exact H].
  - destruct (xorb _ _); [| discriminate].
    exists s. split; [apply adv_refl | exact H].
  - destruct (mt r1 false Some s) as [e1 |]; [| discriminate].
    exists (mk_mstate (prev s) (rest s) (caps e1)).
    split; [| exact H].
    split; [reflexivity | destruct fwd; simpl; lia].
Qed.

Lemma suffix_split {A} (a b c d : list A) :
  a ++ b = c ++ d -> length b <= length d ->
  take (length d - length b) d ++ b = d.
Proof.
  intros Heq Hle.
  assert (Hlen : length a + length b = length c + length d)
    by (rewrite <- !length_app; congruence).
  assert (Hd : d = drop (length c) a ++ b).
  { rewrite <- drop_app_le by lia. rewrite Heq. symmetry. apply drop_app_length. }
  rewrite Hd, length_app.
  replace (length (drop (length c) a) + length b - length b)
    with (length (drop (length c) a)) by lia.
  rewrite take_app_length. reflexivity.
Qed.

(** A match at a position takes a prefix of what lies ahead. *)
Lemma match_here_split r before ahead_ m :
  match_here r before ahead_ = Some m ->
  m_text m ++ m_after m = ahead_.
Proof.
  unfold match_here.
  destruct (mt r true Some (mk_mstate before ahead_ [])) as [e |] eqn:Hm;
    [| discriminate].
  intros [= <-]. simpl.
  apply mt_reach in Hm as (s' & [Hw Hl] & [= ->]).
  unfold whole in Hw. simpl in Hw, Hl.
  eapply suffix_split; eauto.
Qed.

Lemma search_split r :
  forall ahead_ before skipped sk m,
    search r before skipped ahead_ = Some (sk, m) ->
    exists gap, sk = rev gap ++ skipped /\ ahead_ = gap ++ m_text m ++ m_after m.
Proof.
  induction ahead_ as [| c ahead_ IH]; intros before skipped sk m H; simpl in H.
  - destruct (match_here r before []) as [m0 |] eqn:Hm; [| discriminate].
    injection H as <- <-. exists []. split; [reflexivity |].
    symmetry. eapply match_here_split; eauto.
  - destruct (match_here r before (c :: ahead_)) as [m0 |] eqn:Hm.
    + injection H as <- <-. exists []. split; [reflexivity |].
      symmetry. eapply match_here_split; eauto.
    + apply IH in H as (gap & -> & ->). exists (c :: gap). split.
      * simpl. rewrite <- app_assoc. reflexivity.
      * reflexivity.
Qed.

(** The pieces of a replacement, read one after the other, are the
    text. *)
Lemma pieces_from_concat r :
  forall n before ahead_,
    concat (map piece_text (pieces_from r n before ahead_)) = ahead_.
Proof.
  induction n as [| n IH]; intros before ahead_; simpl.
  - apply app_nil_r.
  - destruct (search r before [] ahead_) as [[sk m] |] eqn:Hs; simpl.
    + apply search_split in Hs as (gap & -> & ->).
      rewrite app_nil_r, rev_involutive.
      destruct (m_text m) as [| t ts] eqn:Ht; [destruct (m_after m) as [| c rest_] eqn:Ha |];
        simpl; rewrite ?Ht; simpl.
      * reflexivity.
      * rewrite IH. reflexivity.
      * rewrite IH. reflexivity.
    + apply app_nil_r.
Qed.

Lemma pieces_concat r s :
  concat (map piece_text (pieces r s)) = Js.of_string s.
Proof. apply pieces_from_concat. Qed.

Lemma string_length_chars (s : string) : String.length s = length (Js.of_string s).
Proof. induction s as [| c s IH]; simpl; [reflexivity | f_equal; exact IH]. Qed.

Lemma string_length_app (a b : string) :
  String.length (a +:+ b) = String.length a + String.length b.
Proof. rewrite !string_length_chars, of_string_app, length_app. reflexivity. Qed.

(** A replacement whose callback keeps the length of every match keeps
    the length of the text. *)
Lemma replace_all_length r (f : rmatch -> string) s :
  (forall m, m ∈ hits (pieces r s) -> String.length (f m) = length (m_text m)) ->
  String.length (replace_all r f s) = String.length s.
Proof.
  intros Hf. unfold replace_all.
  rewrite !string_length_chars, of_to_string, <- (pieces_concat r s).
  rewrite !length_concat. f_equal.
  revert Hf. unfold hits. induction (pieces r s) as [| p ps IH]; intros Hf;
    [reflexivity |].
  simpl. rewrite IH.
  - f_equal. destruct p as [t | m]; [reflexivity |]. simpl.
    rewrite <- string_length_chars. apply Hf. simpl. left.
  - intros m Hm. apply Hf. destruct p; simpl; [exact Hm | right; exact Hm].
Qed.

(** The placeholder is as long as the text it replaces, from fifteen
    code units on; it is never shorter than fifteen. *)
Lemma placeholder_length (m : string) :
  String.length (empty_css_placeholder m) = Nat.max 15 (String.length m).
Proof.
  unfold empty_css_placeholder, Js.padEnd_empty.
  rewrite !string_length_app. simpl String.length.
  rewrite string_length_chars, of_to_string, repeat_length. lia.
Qed.

Lemma mt_sound r :
  forall fwd k s e,
    mt r fwd k s = Some e -> exists s', sem r fwd s s' /\ k s' = Some e.
Proof.
  induction r as [| p | r1 IH1 r2 IH2 | r1 IH1 r2 IH2 | r1 IH1 | i r1 IH1 | | | | r1 IH1];
    intros fwd k s e H; simpl in H.
  - exists s. split; [constructor | exact H].
  - destruct (step_chr fwd p s) as [s' |] eqn:Hs; [| discriminate].
    exists s'. split; [constructor; exact Hs | exact H].
  - destruct fwd.
    + apply IH1 in H as (s1 & A1 & H). apply IH2 in H as (s2 & A2 & H).
      exists s2. split; [econstructor; eauto | exact H].
    + apply IH2 in H as (s1 & A1 & H). apply IH1 in H as (s2 & A2 & H).
      exists s2. split; [econstructor; eauto | exact H].
  - destruct (mt r1 fwd k s) as [e1 |] eqn:H1.
    + injection H as <-. apply IH1 in H1 as (s' & A & H1).
      exists s'. split; [apply sem_alt_l; exact A | exact H1].
    + apply IH2 in H as (s' & A & H).
      exists s'. split; [apply sem_alt_r; exact A | exact H].
  - revert H. generalize (length (ahead fwd s)) at 1. intros n. revert s.
    induction n as [| n IHn]; intros s H.
    + exists s. split; [constructor | exact H].
    + match type of H with
      | match ?m with _ => _ end = _ => destruct m as [e1 |] eqn:Hm
      end.
      * injection H as <-. apply IH1 in Hm as (s1 & A1 & Hm).
        destruct (length (ahead fwd s1) <? length (ahead fwd s))%nat; [| discriminate].
        apply IHn in Hm as (s2 & A2 & Hm).
        exists s2. split; [eapply sem_star_more; eauto | exact Hm].
      * exists s. split; [constructor | exact H].
  - apply IH1 in H as (s1 & A1 & H).
    eexists. split; [apply sem_group; exact A1 | exact H].
  - destruct (prev s) eqn:Hp; [| discriminate].
    exists s. split; [constructor | exact H].
  - destruct (rest s) eqn:Hr; [| discriminate].
    exists s. split; [constructor | exact H].
  - destruct (xorb _ _); [| discriminate].
    exists s. split; [constructor | exact H].
  - destruct (mt r1 false Some s) as [e1 |]; [| discriminate].
    eexists. split; [apply (sem_behind r1 fwd s e1) | exact H].
Qed.

Lemma sem_chr_reads p s s' :
  sem (Chr p) true s s' -> exists c, p c = true /\ reads s s' [c].
Proof.
  intros H. inversion H as [| ? ? ? ? Hs | | | | | | | | | | |]; subst.
  unfold step_chr in Hs. destruct (rest s) as [| c r] eqn:Hr; [discriminate |].
  destruct (p c) eqn:Hp; [| discriminate]. injection Hs as <-.
  exists c. split; [exact Hp |]. split; [exact Hr | reflexivity].
Qed.

Lemma sem_star_chr_reads p s s' :
  sem (Star (Chr p)) true s s' ->
  exists t, Forall (fun c => p c = true) t /\ reads s s' t.
Proof.
  remember (Star (Chr p)) as r eqn:Hr. remember true as fwd eqn:Hf.
  intros H. induction H; try discriminate.
  - exists []. split; [constructor | split; reflexivity].
  - injection Hr as ->. subst fwd.
    apply sem_chr_reads in H as (c & Hc & [Hrest Hcaps]).
    destruct (IHsem2 eq_refl eq_refl) as (t & Ht & [Hrest' Hcaps']).
    exists (c :: t). split; [constructor; assumption |].
    split; [rewrite Hrest, Hrest'; reflexivity | congruence].
Qed.

Lemma sem_plus_chr_reads p s s' :
  sem (plus (Chr p)) true s s' ->
  exists c t, p c = true /\ Forall (fun c => p c = true) t /\ reads s s' (c :: t).
Proof.
  intros H. inversion H as [| | ? ? ? s1 ? H1 H2 | | | | | | | | | |]; subst.
  apply sem_chr_reads in H1 as (c & Hc & [Hrest Hcaps]).
  apply sem_star_chr_reads in H2 as (t & Ht & [Hrest' Hcaps']).
  exists c, t. split; [exact Hc |]. split; [exact Ht |].
  split; [rewrite Hrest, Hrest'; reflexivity | congruence].
Qed.

Lemma reads_consumed s s' t : reads s s' t -> consumed true s s' = t.
Proof.
  intros [Hrest _]. unfold consumed, ahead. rewrite Hrest, length_app.
  replace (length t + length (rest s') - length (rest s')) with (length t) by lia.
  apply take_app_length.
Qed.

Lemma sem_quoted_reads q s s' :
  sem (CssRe.quoted q Eps) true s s' ->
  exists c t, reads s s' (q :: (c :: t) ++ [q]).
Proof.
  unfold CssRe.quoted, CssRe.seqs. intros H.
  inversion H as [| | ? ? ? s1 ? H1 H2 | | | | | | | | | |]; subst.
  inversion H2 as [| | ? ? ? s2 ? H3 H4 | | | | | | | | | |]; subst.
  inversion H4 as [| | ? ? ? s3 ? H5 H6 | | | | | | | | | |]; subst.
  inversion H5; subst.
  apply sem_chr_reads in H1 as (c1 & Hc1 & [Hr1 Hcaps1]).
  apply Ascii.eqb_eq in Hc1. subst c1.
  apply sem_plus_chr_reads in H3 as (c & t & _ & _ & [Hr3 Hcaps3]).
  apply sem_chr_reads in H6 as (c6 & Hc6 & [Hr6 Hcaps6]).
  apply Ascii.eqb_eq in Hc6. subst c6.
  exists c, t. split; [| congruence].
  rewrite Hr1, Hr3, Hr6. simpl. rewrite <- app_assoc. reflexivity.
Qed.

Lemma to_string_app (a b : Js.chars) :
  Js.to_string (a ++ b) = Js.to_string a +:+ Js.to_string b.
Proof. induction a as [| c a IH]; simpl; [reflexivity | rewrite IH; reflexivity]. Qed.

Lemma reads_trans s1 s2 s3 t u : reads s1 s2 t -> reads s2 s3 u -> reads s1 s3 (t ++ u).
Proof.
  intros [H1 C1] [H2 C2]. split; [rewrite H1, H2, app_assoc; reflexivity | congruence].
Qed.

Lemma search_match_here r :
  forall ahead_ before skipped sk m,
    search r before skipped ahead_ = Some (sk, m) ->
    exists b a, match_here r b a = Some m.
Proof.
  induction ahead_ as [| c ahead_ IH]; intros before skipped sk m H; simpl in H.
  - destruct (match_here r before []) as [m0 |] eqn:Hm; [| discriminate].
    injection H as <- <-. eauto.
  - destruct (match_here r before (c :: ahead_)) as [m0 |] eqn:Hm.
    + injection H as <- <-. eauto.
    + eapply IH; eauto.
Qed.

(** The first group of a match of [cssUrlRE] is a value in single
    quotes, in double quotes, or bare. *)
Lemma cssUrlRE_value css m :
  exec CssRe.cssUrlRE css = Some m ->
  exists raw wrap url, group 1 m = Some raw /\ url_value raw wrap url.
Proof.
  unfold exec. destruct (search _ _ _ _) as [[sk m0] |] eqn:Hs; [| discriminate].
  intros [= ->]. apply search_match_here in Hs as (b & a & Hm).
  unfold match_here in Hm.
  destruct (mt CssRe.cssUrlRE true Some _) as [e |] eqn:Hmt; [| discriminate].
  injection Hm as <-. unfold group. cbn [m_caps].
  apply mt_sound in Hmt as (s' & Hsem & [= ->]).
  unfold CssRe.cssUrlRE, CssRe.seqs in Hsem.
  inversion Hsem as [| | ? ? ? s1 ? _ H1 | | | | | | | | | |]; subst.
  inversion H1 as [| | ? ? ? s2 ? _ H2 | | | | | | | | | |]; subst.
  inversion H2 as [| | ? ? ? s3 ? _ H3 | | | | | | | | | |]; subst.
  inversion H3 as [| | ? ? ? s4 ? Hg H4 | | | | | | | | | |]; subst.
  inversion H4 as [| | ? ? ? s5 ? H5 H6 | | | | | | | | | |]; subst.
  apply sem_star_chr_reads in H5 as (t5 & _ & [_ C5]).
  apply sem_chr_reads in H6 as (c6 & _ & [_ C6]).
  inversion Hg as [| | | | | | | | ? ? ? ? s3' Hx | | | |]; subst.
  rewrite C6, C5. cbn [set_cap caps List.find fst snd Nat.eqb fmap option_fmap option_map].
  exists (Js.to_string (consumed true s3 s3')).
  cbn [alts] in Hx.
  inversion Hx as [| | | | ? ? ? ? ? Hq1 | ? ? ? ? ? Hrest | | | | | | |]; subst.
  - apply sem_quoted_reads in Hq1 as (c & t & Hr).
    rewrite (reads_consumed _ _ _ Hr).
    exists "'", (Js.to_string (c :: t)). split; [reflexivity |].
    cbn [Js.to_string String.string_of_list_ascii]. unfold Js.to_string.
    change (String.string_of_list_ascii ((c :: t) ++ [CssRe.squote]))
      with (Js.to_string ((c :: t) ++ [CssRe.squote])).
    rewrite to_string_app. apply (single_quoted (Js.to_string (c :: t))).
  - inversion Hrest as [| | | | ? ? ? ? ? Hq2 | ? ? ? ? ? Hp3 | | | | | | |]; subst.
    + apply sem_quoted_reads in Hq2 as (c & t & Hr).
      rewrite (reads_consumed _ _ _ Hr).
      exists CssRe.dq, (Js.to_string (c :: t)). split; [reflexivity |].
      cbn [Js.to_string String.string_of_list_ascii]. unfold Js.to_string.
      change (String.string_of_list_ascii ((c :: t) ++ [CssRe.dquote]))
        with (Js.to_string ((c :: t) ++ [CssRe.dquote])).
      rewrite to_string_app. apply (double_quoted (Js.to_string (c :: t))).
    + apply sem_plus_chr_reads in Hp3 as (c & t & Hc & _ & Hr).
      rewrite (reads_consumed _ _ _ Hr).
      exists "", (Js.to_string (c :: t)). split; [reflexivity |].
      apply bare. intros c0 [= <-].
      unfold CssRe.unquoted_char in Hc.
      rewrite negb_true_iff, !orb_false_iff in Hc. destruct Hc as [[Hs Hd] _].
      apply Ascii.eqb_neq in Hs, Hd. split; assumption.
Qed.

End ReFacts.

(* ================================================================== *)
(** * Properties of the pattern reader *)
(* ================================================================== *)

Section ReaderFacts.
Import Re RegExp.

Lemma feed_all_app a b s :
  feed_all (a ++ b) s =
  match feed_all a s with
  | Read s' => feed_all b s'
  | Invalid reason => Invalid reason
  | Beyond => Beyond
  end.
Proof.
  revert s. induction a as [| c a IH]; intros s; [reflexivity |].
  cbn [app feed_all]. destruct (feed c s); [apply IH | reflexivity ..].
Qed.

Lemma seqs_chr l : CssRe.seqs (map chr l) = lit_chars l.
Proof.
  induction l as [| c l IH]; [reflexivity |].
  destruct l as [| d l]; [reflexivity |].
  cbn [map CssRe.seqs lit_chars] in *. rewrite IH. reflexivity.
Qed.

Lemma feed_name l :
  forallb literal_char l = true ->
  forall cap alts_ items outer n,
    feed_all (escape_dots_chars l) (mk_state Normal (mk_frame cap alts_ items) outer n) =
    Read (mk_state Normal
            (mk_frame cap alts_ (rev (map (fun c => Atom (chr c)) l) ++ items))
            outer n).
Proof.
  induction l as [| c l IH]; intros Hl cap alts_ items outer n; [reflexivity |].
  cbn [forallb] in Hl. apply andb_true_iff in Hl as [Hc Hl].
  unfold escape_dots_chars. cbn [flat_map]. fold (escape_dots_chars l).
  destruct (Ascii.eqb c ".") eqn:Hdot.
  - apply Ascii.eqb_eq in Hdot. subst c.
    cbn [app feed_all]. 
    change (feed "\" (mk_state Normal (mk_frame cap alts_ items) outer n))
      with (Read (mk_state Escape (mk_frame cap alts_ items) outer n)).
    cbn iota.
    change (feed "." (mk_state Escape (mk_frame cap alts_ items) outer n))
      with (Read (mk_state Normal (mk_frame cap alts_ (Atom (chr ".") :: items)) outer n)).
    cbn iota. rewrite IH by exact Hl.
    cbn [map rev]. rewrite <- app_assoc. reflexivity.
  - unfold literal_char in Hc. rewrite Hdot, orb_false_r in Hc.
    cbn [app feed_all]. unfold feed at 1. cbn [s_mode]. unfold feed_normal.
    rewrite Hc. unfold put. cbn [s_frame s_outer s_captures f_capture f_alternatives f_items].
    rewrite IH by exact Hl.
    cbn [map rev]. rewrite <- app_assoc. reflexivity.
Qed.

Lemma alternative_name l :
  alternative (rev (map (fun c => Atom (chr c)) l) ++ []) = lit_chars l.
Proof.
  unfold alternative. rewrite app_nil_r, map_rev, rev_involutive, map_map.
  cbn [item_regex]. apply seqs_chr.
Qed.

Lemma escape_dots_app a b :
  escape_dots_chars (a ++ b) = escape_dots_chars a ++ escape_dots_chars b.
Proof. apply flat_map_app. Qed.

Lemma feed_names names :
  names <> [] ->
  Forall (fun x => forallb literal_char (Js.of_string x) = true) names ->
  forall cap alts0 outer n,
    exists f,
      feed_all (escape_dots_chars (Js.of_string (String.concat "|" names)))
        (mk_state Normal (mk_frame cap alts0 []) outer n) =
      Read (mk_state Normal f outer n) /\
      f_capture f = cap /\
      disjunction f = alts (rev alts0 ++ map lit names).
Proof.
  induction names as [| x names IH]; intros Hne Hall cap alts0 outer n; [contradiction |].
  apply Forall_cons in Hall as [Hx Hall].
  destruct names as [| y names].
  - cbn [String.concat]. rewrite (feed_name _ Hx).
    eexists. split; [reflexivity |]. split; [reflexivity |].
    unfold disjunction. cbn [f_items f_alternatives].
    rewrite alternative_name. cbn [rev map]. reflexivity.
  - change (String.concat "|" (x :: y :: names))
      with (x +:+ "|" +:+ String.concat "|" (y :: names)).
    rewrite !of_string_app, !escape_dots_app, !feed_all_app.
    rewrite (feed_name _ Hx). cbn iota.
    change (escape_dots_chars (Js.of_string "|")) with ["|"%char].
    cbn [app feed_all]. unfold feed at 1. cbn [s_mode].
    match goal with
    | |- context [feed_normal "|" ?s] =>
        change (feed_normal "|" s) with (Read (next_alternative s))
    end.
    cbn iota. unfold next_alternative.
    cbn [s_frame s_outer s_captures f_capture f_alternatives f_items].
    rewrite alternative_name.
    destruct (IH ltac:(discriminate) Hall cap (lit_chars (Js.of_string x) :: alts0) outer n)
      as (f & Hrun & Hcap & Hd).
    rewrite Hrun. exists f. split; [reflexivity |]. split; [exact Hcap |].
    rewrite Hd. cbn [rev map]. rewrite <- app_assoc. reflexivity.
Qed.

End ReaderFacts.

Section SourceFacts.
Import Re RegExp.

Lemma literal_names_chars pure :
  forallb literal_name pure = true ->
  Forall (fun x => forallb literal_char (Js.of_string x) = true) (map Js.basename pure).
Proof.
  intros H. apply Forall_map, Forall_forall. intros f Hf.
  rewrite forallb_forall in H. apply H. apply list_elem_of_In. exact Hf.
Qed.

(** What is read before the file names, and what the rest of the
    pattern makes of the names [f] once they are read. *)
Lemma feed_before_names (es : bool) :
  feed_all
    (Js.of_string
       (if es
        then "\bimport\s*" +:+ CssRe.dq +:+ "[^" +:+ CssRe.dq +:+ "]*(?:"
        else "\brequire\(\s*" +:+ CssRe.dq +:+ "[^" +:+ CssRe.dq +:+ "]*(?:"))
    start =
  Read (mk_state Normal (mk_frame None [] []) [mk_frame None [] (before_names es)] 0).
Proof. destruct es; reflexivity. Qed.

Lemma feed_after_names (es : bool) (f : frame) items :
  feed_all
    (Js.of_string
       (if es
        then ")" +:+ CssRe.dq +:+ ";" +:+ newline +:+ "?"
        else ")" +:+ CssRe.dq +:+ "\);" +:+ newline +:+ "?"))
    (mk_state Normal f [mk_frame None [] items] 0) =
  Read (mk_state Normal
          (mk_frame None []
             ([Quantified (opt (chr (ascii_of_nat 10)))] ++
              rev (map (fun c => Atom (chr c)) (Js.of_string (if es then ";" else ");"))) ++
              [Atom (chr CssRe.dquote);
               Atom (match f_capture f with
                     | Some i => Group i (disjunction f)
                     | None => disjunction f
                     end)] ++ items))
          [] 0).
Proof. destruct es; reflexivity. Qed.

(** The source text of [emptyChunkRE] for file names that are read
    letter for letter is the text of [import_statement_RE]. *)
Lemma parse_emptyChunkRE_source format pure :
  pure <> [] ->
  forallb literal_name pure = true ->
  parse (emptyChunkRE_source format (emptyChunkFiles pure)) =
  Read (import_statement_RE format pure).
Proof.
  intros Hne Hlit.
  assert (Hnames : map Js.basename pure <> [])
    by (destruct pure; [contradiction | discriminate]).
  pose proof (literal_names_chars pure Hlit) as Hall.
  set (names := escape_dots_chars
                  (Js.of_string (String.concat "|" (map Js.basename pure)))).
  set (es := String.eqb format "es").
  assert (Hsource :
    Js.of_string (emptyChunkRE_source format (emptyChunkFiles pure)) =
    Js.of_string
      (if es
       then "\bimport\s*" +:+ CssRe.dq +:+ "[^" +:+ CssRe.dq +:+ "]*(?:"
       else "\brequire\(\s*" +:+ CssRe.dq +:+ "[^" +:+ CssRe.dq +:+ "]*(?:") ++
    names ++
    Js.of_string
      (if es
       then ")" +:+ CssRe.dq +:+ ";" +:+ newline +:+ "?"
       else ")" +:+ CssRe.dq +:+ "\);" +:+ newline +:+ "?")).
  { unfold emptyChunkRE_source, emptyChunkFiles, escape_dots. fold names. fold es.
    destruct es; rewrite !of_string_app, of_to_string; reflexivity. }
  unfold parse. rewrite Hsource, feed_all_app, feed_before_names. cbn iota.
  rewrite feed_all_app.
  destruct (feed_names _ Hnames Hall None [] [mk_frame None [] (before_names es)] 0)
    as (f & Hrun & Hcap & Hd).
  fold names in Hrun. rewrite Hrun. cbn iota.
  rewrite feed_after_names, Hcap, Hd. cbn [rev app]. rewrite map_map.
  unfold import_statement_RE. fold es.
  destruct es; reflexivity.
Qed.

End SourceFacts.

(* ================================================================== *)
(** * Properties of the finalize pass *)
(* ================================================================== *)

Section PruningFacts.

Context {Any : Type} (E : Env Any).

Lemma bundle_get_set k k' v (b : Bundle) :
  bundle_get k' (bundle_set k v b) =
  if String.eqb k k'
  then match bundle_get k b with Some _ => Some v | None => None end
  else bundle_get k' b.
Proof.
  induction b as [| [k0 w] b IH]; simpl.
  - destruct (String.eqb k k'); reflexivity.
  - destruct (String.eqb_spec k0 k) as [-> | Hk0]; simpl.
    + destruct (String.eqb_spec k k') as [-> | Hk]; [reflexivity |].
      reflexivity.
    + rewrite IH.
      destruct (String.eqb_spec k k') as [-> | Hk].
      * destruct (String.eqb_spec k0 k'); [contradiction | reflexivity].
      * reflexivity.
Qed.

Lemma bundle_get_set_same k v (b : Bundle) :
  bundle_get k b = Some v -> bundle_set k v b = b.
Proof.
  induction b as [| [k0 w] b IH]; simpl; [reflexivity |].
  destruct (String.eqb_spec k0 k) as [-> | Hk0].
  - intros [= ->]. reflexivity.
  - intros H. rewrite IH by exact H. reflexivity.
Qed.

Lemma bundle_set_set k v v' (b : Bundle) :
  bundle_set k v' (bundle_set k v b) = bundle_set k v' b.
Proof.
  induction b as [| [k0 w] b IH]; simpl; [reflexivity |].
  destruct (String.eqb_spec k0 k) as [-> | Hk0]; simpl.
  - rewrite String.eqb_refl. reflexivity.
  - destruct (String.eqb_spec k0 k); [contradiction |]. rewrite IH. reflexivity.
Qed.

Lemma bundle_get_delete k k' (b : Bundle) :
  bundle_get k' (bundle_delete k b) =
  if String.eqb k k' then None else bundle_get k' b.
Proof.
  induction b as [| [k0 w] b IH]; simpl.
  - destruct (String.eqb k k'); reflexivity.
  - destruct (String.eqb_spec k0 k) as [-> | Hk0]; simpl.
    + rewrite IH. destruct (String.eqb_spec k k'); reflexivity.
    + rewrite IH.
      destruct (String.eqb_spec k k') as [-> | Hk]; [| reflexivity].
      destruct (String.eqb_spec k0 k'); [contradiction | reflexivity].
Qed.

Lemma bundle_get_key k v (b : Bundle) :
  bundle_get k b = Some v -> k ∈ map fst b.
Proof.
  induction b as [| [k0 w] b IH]; simpl; [discriminate |].
  destruct (String.eqb_spec k0 k) as [-> | Hk0].
  - intros _. left.
  - intros H. right. apply IH, H.
Qed.

Lemma with_importedCss_same c :
  with_importedCss c (importedCss (viteMetadata c)) = c.
Proof. destruct c as [? ? ? ? ? [? ?]]. reflexivity. Qed.

Lemma with_importedCss_twice c css css' :
  with_importedCss (with_importedCss c css) css' = with_importedCss c css'.
Proof. reflexivity. Qed.

Lemma set_has_true x (s : list string) : Js.set_has x s = true <-> x ∈ s.
Proof. unfold Js.set_has. apply bool_decide_eq_true. Qed.

Lemma set_has_false x (s : list string) : Js.set_has x s = false <-> x ∉ s.
Proof. unfold Js.set_has. apply bool_decide_eq_false. Qed.

Lemma set_add_all_incl (xs s : list string) :
  s ⊆ Js.set_add_all xs s /\ xs ⊆ Js.set_add_all xs s.
Proof. split; intros x Hx; apply set_add_all_elem; auto. Qed.

(** One import of the importer: the bundle changes at the importer
    only, whose CSS files grow by those of the pure chunk imported. *)
Lemma relink_import_run pure importer file s (b : Bundle) chunk :
  bundle_get importer b = Some (OutChunk chunk) ->
  (file ∈ pure -> exists p, bundle_get file b = Some (OutChunk p)) ->
  exists css',
    relink_import E pure importer file (s, b) =
    (Ok (negb (Js.set_has file pure)),
     (s, bundle_set importer (OutChunk (with_importedCss chunk css')) b)) /\
    importedCss (viteMetadata chunk) ⊆ css' /\
    (forall p, file ∈ pure -> bundle_get file b = Some (OutChunk p) ->
       importedCss (viteMetadata p) ⊆ css').
Proof.
  intros Himp Hpresent. unfold relink_import.
  destruct (Js.set_has file pure) eqn:Hhas.
  - apply set_has_true in Hhas. destruct (Hpresent Hhas) as [p Hp].
    exists (Js.set_add_all (importedCss (viteMetadata p)) (importedCss (viteMetadata chunk))).
    split; [| split].
    + unfold bind, get_bundle, set_output, modify, ret. simpl.
      rewrite Hp, Himp. reflexivity.
    + apply set_add_all_incl.
    + intros p' _ Hp'. rewrite Hp in Hp'. injection Hp' as <-. apply set_add_all_incl.
  - apply set_has_false in Hhas.
    exists (importedCss (viteMetadata chunk)). split; [| split].
    + rewrite with_importedCss_same, bundle_get_set_same by exact Himp. reflexivity.
    + reflexivity.
    + intros p Hin. contradiction.
Qed.

Lemma relink_imports_run pure importer :
  forall files s (b : Bundle) chunk,
    bundle_get importer b = Some (OutChunk chunk) ->
    (forall f, f ∈ files -> f ∈ pure -> exists p, bundle_get f b = Some (OutChunk p)) ->
    exists css',
      relink_imports E pure importer files (s, b) =
      (Ok (filter (fun f => f ∉ pure) files),
       (s, bundle_set importer (OutChunk (with_importedCss chunk css')) b)) /\
      importedCss (viteMetadata chunk) ⊆ css' /\
      (forall f p, f ∈ files -> f ∈ pure -> bundle_get f b = Some (OutChunk p) ->
         importedCss (viteMetadata p) ⊆ css').
Proof.
  induction files as [| file files IH]; intros s b chunk Himp Hpresent.
  - exists (importedCss (viteMetadata chunk)). split; [| split].
    + simpl. rewrite with_importedCss_same, bundle_get_set_same by exact Himp.
      reflexivity.
    + reflexivity.
    + intros f p Hin. inversion Hin.
  - destruct (relink_import_run pure importer file s b chunk Himp) as (css1 & Hrun1 & Hsub1 & Hp1).
    { intros Hin. apply (Hpresent file); [left | exact Hin]. }
    set (chunk1 := with_importedCss chunk css1).
    set (b1 := bundle_set importer (OutChunk chunk1) b).
    assert (Himp1 : bundle_get importer b1 = Some (OutChunk chunk1)).
    { subst b1. rewrite bundle_get_set, String.eqb_refl, Himp. reflexivity. }
    destruct (IH s b1 chunk1 Himp1) as (css' & Hrun & Hsub & Hp).
    { intros f Hf Hpure. subst b1. rewrite bundle_get_set.
      destruct (String.eqb_spec importer f) as [<- | Hne].
      - rewrite Himp. eauto.
      - apply Hpresent; [right; exact Hf | exact Hpure]. }
    exists css'. split; [| split].
    + simpl. unfold bind at 1. rewrite Hrun1. fold chunk1 b1.
      unfold bind at 1. rewrite Hrun. unfold ret.
      subst b1 chunk1. rewrite bundle_set_set, with_importedCss_twice.
      rewrite filter_cons. unfold Js.set_has.
      destruct (decide (file ∉ pure)) as [Hn | Hn].
      * rewrite bool_decide_eq_false_2 by exact Hn. reflexivity.
      * rewrite bool_decide_eq_true_2 by (destruct (decide (file ∈ pure)); tauto).
        reflexivity.
    + etransitivity; [exact Hsub1 | exact Hsub].
    + intros f p Hf Hpure Hget.
      apply elem_of_cons in Hf as [-> | Hf].
      * etransitivity; [apply (Hp1 p Hpure Hget) | exact Hsub].
      * destruct (String.eqb_spec importer f) as [<- | Hne].
        -- rewrite Himp in Hget. injection Hget as <-.
           etransitivity; [exact Hsub1 | exact Hsub].
        -- apply (Hp f p Hf Hpure). subst b1. rewrite bundle_get_set.
           destruct (String.eqb_spec importer f); [contradiction | exact Hget].
Qed.

(** The body of the loop re-links the chunk at [k] against the bundle as
    it is, and touches no other entry. *)
Lemma relink_chunk_run pure rw k s (b : Bundle) :
  (forall c f, bundle_get k b = Some (OutChunk c) -> f ∈ imports c -> f ∈ pure ->
     exists p, bundle_get f b = Some (OutChunk p)) ->
  exists b',
    relink_chunk E pure rw k (s, b) = (Ok tt, (s, b')) /\
    match bundle_get k b with
    | Some (OutChunk c) =>
        exists c', b' = bundle_set k (OutChunk c') b /\ relinked pure rw b c c'
    | _ => b' = b
    end.
Proof.
  intros Hpresent. unfold relink_chunk.
  unfold bind at 1. unfold get_bundle at 1.
  destruct (bundle_get k b) as [[c | file source] |] eqn:Hk;
    [| exists b; split; reflexivity | exists b; split; reflexivity].
  destruct (relink_imports_run pure k (imports c) s b c Hk
              (fun f => Hpresent c f eq_refl))
    as (css' & Hrun & Hsub & Hp).
  eexists. split.
  - unfold bind at 1. rewrite Hrun. unfold bind, get_bundle.
    rewrite bundle_get_set, String.eqb_refl, Hk.
    unfold set_output, modify. rewrite bundle_set_set. reflexivity.
  - eexists. split; [reflexivity |].
    repeat split; simpl; auto.
Qed.

Lemma relinking_css pure rw done b0 b k c :
  relinking pure rw done b0 b ->
  bundle_get k b0 = Some (OutChunk c) ->
  exists c', bundle_get k b = Some (OutChunk c') /\
             importedCss (viteMetadata c) ⊆ importedCss (viteMetadata c').
Proof.
  intros Hinv Hk. specialize (Hinv k). rewrite Hk in Hinv.
  destruct Hinv as (c' & Hget & Hrel). exists c'. split; [exact Hget |].
  destruct (decide (k ∈ done)); [apply Hrel | subst c'; reflexivity].
Qed.

Lemma relink_loop pure rw b0 :
  imports_present pure b0 ->
  forall keys done s b,
    NoDup keys ->
    (forall k, k ∈ keys -> k ∉ done) ->
    relinking pure rw done b0 b ->
    exists b',
      for_each keys (relink_chunk E pure rw) (s, b) = (Ok tt, (s, b')) /\
      relinking pure rw (rev keys ++ done) b0 b'.
Proof.
  intros Hpresent. induction keys as [| k keys IH]; intros done s b Hnd Hfresh Hinv.
  - exists b. split; [reflexivity | exact Hinv].
  - apply NoDup_cons in Hnd as [Hk Hnd].
    assert (Hkd : k ∉ done) by (apply Hfresh; left).
    destruct (relink_chunk_run pure rw k s b) as (b1 & Hrun1 & Hb1).
    { intros c f Hget Hf Hpure.
      pose proof (Hinv k) as Hik.
      destruct (bundle_get k b0) as [[c0 | ? ?] |] eqn:Hk0;
        [| rewrite Hik in Hget; discriminate | rewrite Hik in Hget; discriminate].
      destruct Hik as (c' & Hget' & Hrel). rewrite decide_False in Hrel by exact Hkd.
      rewrite Hget in Hget'. injection Hget' as <-. subst c0.
      destruct (Hpresent k c f Hk0 Hf Hpure) as [p0 Hp0].
      destruct (relinking_css pure rw done b0 b f p0 Hinv Hp0) as (p' & Hp' & _).
      eauto. }
    destruct (IH (k :: done) s b1 Hnd) as (b' & Hrun & Hinv').
    { intros k' Hk' Hin. apply elem_of_cons in Hin as [-> | Hin]; [contradiction |].
      apply (Hfresh k'); [right; exact Hk' | exact Hin]. }
    { intros k'. pose proof (Hinv k') as Hik'.
      destruct (String.eqb_spec k k') as [<- | Hne].
      - destruct (bundle_get k b0) as [[c0 | ? ?] |] eqn:Hk0.
        + destruct Hik' as (c' & Hget' & Hrel).
          rewrite decide_False in Hrel by exact Hkd. subst c'.
          rewrite Hget' in Hb1. destruct Hb1 as (c1 & -> & Hrel1).
          exists c1. split.
          * rewrite bundle_get_set, String.eqb_refl, Hget'. reflexivity.
          * rewrite decide_True by left.
            destruct Hrel1 as (H1 & H2 & H3 & H4 & H5 & H6 & H7 & H8).
            repeat split; auto.
            intros f p0 Hf Hpure Hp0.
            destruct (relinking_css pure rw done b0 b f p0 Hinv Hp0) as (p' & Hp' & Hsub).
            etransitivity; [exact Hsub | exact (H8 f p' Hf Hpure Hp')].
        + rewrite Hik' in Hb1. subst b1. exact Hik'.
        + rewrite Hik' in Hb1. subst b1. exact Hik'.
      - assert (Hsame : bundle_get k' b1 = bundle_get k' b).
        { destruct (bundle_get k b) as [[c | ? ?] |]; [| subst b1; reflexivity ..].
          destruct Hb1 as (c1 & -> & _). rewrite bundle_get_set.
          destruct (String.eqb_spec k k'); [contradiction | reflexivity]. }
        rewrite Hsame.
        destruct (bundle_get k' b0) as [[c0 | ? ?] |]; [| exact Hik' ..].
        destruct Hik' as (c' & Hget' & Hrel). exists c'. split; [exact Hget' |].
        destruct (decide (k' ∈ done)) as [Hd | Hd].
        + rewrite decide_True by (right; exact Hd). exact Hrel.
        + rewrite decide_False; [exact Hrel |].
          intros Hin. apply elem_of_cons in Hin as [-> | Hin]; contradiction. }
    exists b'. split.
    + simpl. unfold bind. rewrite Hrun1. exact Hrun.
    + simpl. rewrite <- app_assoc. exact Hinv'.
Qed.

(** The removal of the pure chunks. *)
Lemma remove_loop :
  forall files s (b : Bundle),
    exists s',
      for_each files remove_pure (s, b) =
      (Ok tt, (s', foldl (fun acc f => bundle_delete f acc) b files)) /\
      outputToExtractedCSSMap s' = outputToExtractedCSSMap s /\
      hasEmitted s' = hasEmitted s /\
      emitted s' = emitted s.
Proof.
  induction files as [| f files IH]; intros s b.
  - exists s. repeat split.
  - simpl. unfold bind. unfold remove_pure at 1. unfold modify.
    match goal with
    | |- context [for_each files _ (?s1, ?b1)] => destruct (IH s1 b1) as (s' & Hrun & H1 & H2 & H3)
    end.
    exists s'. rewrite Hrun. repeat split; assumption.
Qed.

Lemma bundle_get_deleted files :
  forall (b : Bundle) k,
    bundle_get k (foldl (fun acc f => bundle_delete f acc) b files) =
    if decide (k ∈ files) then None else bundle_get k b.
Proof.
  induction files as [| f files IH]; intros b k; cbn [foldl].
  - destruct (decide (k ∈ [])) as [H | H]; [inversion H | reflexivity].
  - rewrite IH, bundle_get_delete.
    destruct (decide (k ∈ files)) as [Hin | Hin].
    + rewrite decide_True by (right; exact Hin). reflexivity.
    + destruct (String.eqb_spec f k) as [-> | Hne].
      * rewrite decide_True by left. reflexivity.
      * rewrite decide_False; [reflexivity |].
        intros H. apply elem_of_cons in H as [-> | H]; contradiction.
Qed.

(** For file names that are read letter for letter, [emptyChunkRE] is
    made, and is [import_statement_RE]. *)
Lemma emptyChunkRE_literal format pure :
  pure <> [] ->
  forallb literal_name pure = true ->
  emptyChunkRE E format pure = Ok (replacing (import_statement_RE format pure)).
Proof.
  intros Hne Hlit. unfold emptyChunkRE, new_RegExp_g.
  rewrite parse_emptyChunkRE_source by assumption. reflexivity.
Qed.

Lemma prune_pure_chunks_run opts s (b : Bundle) R :
  NoDup (map fst b) ->
  imports_present (pureCssChunks s) b ->
  (pureCssChunks s <> [] -> emptyChunkRE E (format opts) (pureCssChunks s) = Ok R) ->
  exists s' b',
    prune_pure_chunks E opts (s, b) = (Ok tt, (s', b')) /\
    outputToExtractedCSSMap s' = outputToExtractedCSSMap s /\
    hasEmitted s' = hasEmitted s /\
    emitted s' = emitted s /\
    (forall file, file ∈ pureCssChunks s -> bundle_get file b' = None) /\
    (forall k c,
       bundle_get k b = Some (OutChunk c) -> k ∉ pureCssChunks s ->
       pureCssChunks s <> [] ->
       exists c',
         bundle_get k b' = Some (OutChunk c') /\
         relinked (pureCssChunks s) (R empty_css_placeholder) b c c').
Proof.
  intros Hnd Hpresent Hmade. unfold prune_pure_chunks. unfold bind at 1, get.
  cbn [fst snd].
  destruct (pureCssChunks s) as [| f0 pure0] eqn:Hpure.
  - exists s, b. repeat split; try reflexivity.
    + intros file Hin. inversion Hin.
    + intros k c _ _ Hne. contradiction.
  - set (pure := f0 :: pure0) in *.
    unfold bind at 1, lift. rewrite (Hmade ltac:(discriminate)).
    unfold bind. cbn [fst snd].
    destruct (relink_loop pure (R empty_css_placeholder) b
                Hpresent (map fst b) [] s b Hnd)
      as (b1 & Hrun1 & Hinv).
    { intros k _ Hin. inversion Hin. }
    { intros k. destruct (bundle_get k b) as [[c | ? ?] |]; [| reflexivity ..].
      exists c. split; [reflexivity |].
      destruct (decide (k ∈ [])) as [Hin | _]; [inversion Hin | reflexivity]. }
    destruct (remove_loop pure s b1) as (s' & Hrun2 & H1 & H2 & H3).
    exists s', (foldl (fun acc f => bundle_delete f acc) b1 pure).
    rewrite Hrun1, Hrun2. repeat split; try assumption.
    + intros file Hin. rewrite bundle_get_deleted, decide_True by exact Hin. reflexivity.
    + intros k c Hk Hnot _. rewrite bundle_get_deleted, decide_False by exact Hnot.
      specialize (Hinv k). rewrite Hk in Hinv. destruct Hinv as (c' & Hget & Hrel).
      exists c'. split; [exact Hget |].
      rewrite decide_True in Hrel; [exact Hrel |].
      rewrite app_nil_r. apply list_elem_of_In.
      apply (proj1 (in_rev _ _)). apply list_elem_of_In.
      eapply bundle_get_key; eauto.
Qed.

Lemma emit_extracted_bundle config opts s (b : Bundle) :
  snd (snd (emit_extracted E config opts (s, b))) = b.
Proof.
  unfold emit_extracted, bind, get. cbn [fst snd].
  destruct (outputToExtractedCSSMap s !! out_id opts) as [css |]; [| reflexivity].
  destruct (Js.truthy css && negb (hasEmitted s)); [| reflexivity].
  unfold on_post, set_hasEmitted, modify. cbn.
  destruct (minify (config_build config)); [| reflexivity].
  unfold minifyCSS, bind, lift.
  destruct (esbuild_transform E css) as [[code_ ws] | e]; [| reflexivity].
  destruct ws; reflexivity.
Qed.

(** C4 (amended). After a finalize pass that is not skipped, on a
    bundle in which every pure CSS chunk that a chunk imports is a chunk
    of the bundle, and when the base names of the pure CSS chunks hold
    no character with a meaning in a regular expression other than the
    dot: the expression made from the names is the one that finds the
    statements importing a file of one of these names; no pure CSS
    chunk is left in the bundle; and for a chunk that stays and
    imported a removed chunk, the CSS files of the removed chunk are
    among the importer's [importedCss], the removed file is no longer
    among its imports, and its code is the old code cut at the matches
    of that expression with every match overwritten by the
    placeholder, which is as long as the match from fifteen code units
    on, so that the code keeps its length when no match is shorter.
    The pass ends normally when the output target has no aggregated
    CSS to emit. *)
Theorem generateBundle_prunes config opts st (bundle : Bundle) :
  skip_asset_emit opts = false ->
  NoDup (map fst bundle) ->
  imports_present (pureCssChunks st) bundle ->
  forallb literal_name (pureCssChunks st) = true ->
  let pure := pureCssChunks st in
  let re := import_statement_RE (format opts) pure in
  let out := generateBundle E config opts (st, bundle) in
  let bundle' := snd (snd out) in
  (pure <> [] -> emptyChunkRE E (format opts) pure = Ok (replacing re)) /\
  (outputToExtractedCSSMap st !! out_id opts = None -> fst out = Ok tt) /\
  (forall file, file ∈ pure -> bundle_get file bundle' = None) /\
  (forall k c removed,
     bundle_get k bundle = Some (OutChunk c) -> k ∉ pure ->
     removed ∈ imports c -> removed ∈ pure ->
     exists c',
       bundle_get k bundle' = Some (OutChunk c') /\
       (forall p, bundle_get removed bundle = Some (OutChunk p) ->
          importedCss (viteMetadata p) ⊆ importedCss (viteMetadata c')) /\
       (removed ∉ imports c') /\
       let ps := Re.pieces re (code c) in
       Js.of_string (code c) = concat (map Re.piece_text ps) /\
       Js.of_string (code c') =
         concat (map (Re.render (fun m => empty_css_placeholder (Re.matched m))) ps) /\
       (forall m, m ∈ Re.hits ps -> (15 <= length (Re.m_text m))%nat ->
          String.length (empty_css_placeholder (Re.matched m)) = length (Re.m_text m)) /\
       ((forall m, m ∈ Re.hits ps -> (15 <= length (Re.m_text m))%nat) ->
        String.length (code c') = String.length (code c))).
Proof.
  intros Hskip Hnd Hpresent Hlit pure re out bundle'.
  split; [intros Hne; apply emptyChunkRE_literal; assumption |].
  destruct (prune_pure_chunks_run opts st bundle (replacing re) Hnd Hpresent)
    as (s1 & b1 & Hrun & Hmap & Hem & Hout & Hgone & Hrel).
  { intros Hne. apply emptyChunkRE_literal; assumption. }
  assert (Hb' : bundle' = b1).
  { subst bundle' out. unfold generateBundle. rewrite Hskip. unfold bind.
    rewrite Hrun. apply emit_extracted_bundle. }
  split; [| split].
  - intros Hnone. subst out. unfold generateBundle. rewrite Hskip. unfold bind.
    rewrite Hrun. unfold emit_extracted, bind, get. cbn [fst snd].
    rewrite Hmap, Hnone. reflexivity.
  - intros file Hin. rewrite Hb'. apply Hgone, Hin.
  - intros k c removed Hk Hnot Himp Hpure. rewrite Hb'.
    destruct (Hrel k c Hk Hnot) as (c' & Hget & Hc').
    { intros Hnil. fold pure in Hnil. rewrite Hnil in Hpure. inversion Hpure. }
    destruct Hc' as (_ & _ & _ & Himports & Hcode & _ & _ & Hcss).
    assert (Hlen : forall m, (15 <= length (Re.m_text m))%nat ->
               String.length (empty_css_placeholder (Re.matched m)) =
               length (Re.m_text m)).
    { intros m Hlen. rewrite placeholder_length.
      unfold Re.matched. rewrite string_length_chars, of_to_string. lia. }
    exists c'. split; [exact Hget |]. split; [| split; [| split; [| split; [| split]]]].
    + intros p Hp. exact (Hcss removed p Himp Hpure Hp).
    + rewrite Himports. intros Hin. apply list_elem_of_filter in Hin as [Hn _].
      contradiction.
    + symmetry. apply pieces_concat.
    + rewrite Hcode. unfold Re.replace_all. apply of_to_string.
    + intros m _. apply Hlen.
    + intros Hall. rewrite Hcode. apply replace_all_length.
      intros m Hm. apply Hlen, Hall, Hm.
Qed.

End PruningFacts.

Lemma sample_keys_distinct : NoDup (map fst Sample.bundle).
Proof.
  simpl. apply NoDup_cons. split.
  - intros H. apply list_elem_of_singleton in H. discriminate H.
  - apply NoDup_singleton.
Qed.

Lemma sample_imports_present : imports_present ["ui"] Sample.bundle.
Proof.
  intros k c f Hget Hf Hpure. apply list_elem_of_singleton in Hpure as ->.
  exists Sample.ui_chunk. reflexivity.
Qed.

Lemma generateBundle_prunes_witness :
  let bundle' :=
    snd (snd (generateBundle Sample.env Sample.config Sample.es
                (Sample.pruning, Sample.bundle))) in
  bundle_get "ui" bundle' = None /\
  exists c',
    bundle_get "main.js" bundle' = Some (OutChunk c') /\
    ["assets/ui.css"] ⊆ importedCss (viteMetadata c') /\
    "ui" ∉ imports c'.
Proof.
  intros bundle'.
  destruct (generateBundle_prunes Sample.env Sample.config Sample.es Sample.pruning
              Sample.bundle eq_refl sample_keys_distinct sample_imports_present eq_refl)
    as (_ & _ & Hgone & Hrelinked).
  split.
  - apply Hgone. left.
  - destruct (Hrelinked "main.js" Sample.main_chunk "ui" eq_refl
                ltac:(intros H; apply list_elem_of_singleton in H; discriminate H)
                ltac:(left) ltac:(left))
      as (c' & Hget & Hcss & Himports & _).
    exists c'. split; [exact Hget |]. split; [| exact Himports].
    exact (Hcss Sample.ui_chunk eq_refl).
Defined.

(** C4, as written, fails three times: a pass with the skip flag of
    the legacy build leaves the pure chunk [ui] in the bundle; the
    statement that imports [./ui], thirteen code units long, is
    overwritten by a placeholder of fifteen; and for the pure chunk
    [assets/a+b.js], whose name reads as a pattern, the statement that
    imports it stays in the importer's code while the one that imports
    [./aab.js] is overwritten. *)
Lemma pruning_has_exceptions :
  ~ Stated.pure_chunks_absent Sample.env Sample.config Sample.legacy Sample.pruning
      Sample.bundle /\
  ~ Stated.placeholders_keep_length Sample.es ["ui"] Sample.main_code /\
  ~ Stated.no_import_is_left Sample.env Sample.config Sample.es Sample.plus_pruning
      Sample.plus_bundle.
Proof.
  split; [| split]; intros H.
  - specialize (H "ui" ltac:(left)). vm_compute in H. discriminate H.
  - unfold Stated.placeholders_keep_length in H.
    remember (Re.hits (Re.pieces (import_statement_RE (format Sample.es) ["ui"])
                         Sample.main_code)) as found eqn:Hfound.
    vm_compute in Hfound. subst found.
    specialize (H _ ltac:(left)). vm_compute in H. discriminate H.
  - specialize (H "main.js" Sample.plus_main
                  (mkChunk "main.js" "main.js" ["/src/main.js"] []
                     ("import" +:+ CssRe.dq +:+ "./a+b.js" +:+ CssRe.dq +:+
                      ";/* empty css   */console.log(1)")
                     (mkMeta [] ["assets/a+b.css"]))
                  "assets/a+b.js"
                  eq_refl ltac:(left) ltac:(left) ltac:(vm_compute; reflexivity)).
    vm_compute in H. discriminate H.
Qed.

(* ================================================================== *)
(** * Properties of the hoist *)
(* ================================================================== *)

Section HoistFacts.

Import Postcss.

Lemma walk_nodes_cons c F : walk_nodes (c :: F) = walk c ++ walk_nodes F.
Proof. reflexivity. Qed.

Lemma walk_node i k ch : walk (Node i k ch) = Node i k ch :: walk_nodes ch.
Proof. reflexivity. Qed.

Lemma walk_nodes_app A B : walk_nodes (A ++ B) = walk_nodes A ++ walk_nodes B.
Proof. unfold walk_nodes. apply flat_map_app. Qed.

Lemma ids_app A B : ids (A ++ B) = ids A ++ ids B.
Proof. unfold ids. rewrite walk_nodes_app, map_app. reflexivity. Qed.

Lemma ids_cons i k ch F : ids (Node i k ch :: F) = i :: ids ch ++ ids F.
Proof. unfold ids. rewrite walk_nodes_cons, walk_node. simpl. rewrite map_app. reflexivity. Qed.

Lemma forest_ind (P : list node -> Prop) :
  P [] ->
  (forall i k ch F, P ch -> P F -> P (Node i k ch :: F)) ->
  forall F, P F.
Proof.
  intros Hnil Hcons F.
  remember (length (walk_nodes F)) as n eqn:Hn.
  revert F Hn. induction n as [n IH] using lt_wf_ind. intros F Hn.
  destruct F as [| [i k ch] F]; [exact Hnil |].
  rewrite walk_nodes_cons, walk_node in Hn. simpl in Hn. rewrite length_app in Hn.
  apply Hcons.
  - apply (IH (length (walk_nodes ch))); [lia | reflexivity].
  - apply (IH (length (walk_nodes F))); [lia | reflexivity].
Qed.

Lemma find_node_eq i j k ch :
  find_node i (Node j k ch) =
  if Nat.eqb j i then Some (Node j k ch) else find_in i ch.
Proof.
  simpl. destruct (Nat.eqb j i); [reflexivity |].
  induction ch as [| c ch IH]; simpl; [reflexivity |].
  destruct (find_node i c); [reflexivity | exact IH].
Qed.

Lemma prune_node_eq p j k ch : prune_node p (Node j k ch) = Node j k (prune p ch).
Proof.
  simpl. f_equal. induction ch as [| c ch IH]; simpl; [reflexivity |].
  rewrite IH. reflexivity.
Qed.

Lemma strip_eq j k ch : strip (Node j k ch) = Node j k (strip_forest ch).
Proof. reflexivity. Qed.

Lemma find_in_cons i j k ch F :
  find_in i (Node j k ch :: F) =
  if Nat.eqb j i then Some (Node j k ch)
  else match find_in i ch with Some r => Some r | None => find_in i F end.
Proof.
  cbn [find_in]. rewrite find_node_eq. destruct (Nat.eqb j i); reflexivity.
Qed.

Lemma prune_cons p j k ch F :
  prune p (Node j k ch :: F) =
  if p j then prune p F else Node j k (prune p ch) :: prune p F.
Proof. cbn [prune nid]. rewrite prune_node_eq. reflexivity. Qed.

Lemma strip_forest_cons j k ch F :
  strip_forest (Node j k ch :: F) =
  if is_import (Node j k ch) then strip_forest F
  else Node j k (strip_forest ch) :: strip_forest F.
Proof. cbn [strip_forest]. rewrite strip_eq. reflexivity. Qed.

Lemma find_in_app i A B :
  find_in i (A ++ B) =
  match find_in i A with Some r => Some r | None => find_in i B end.
Proof.
  induction A as [| c A IH]; simpl; [reflexivity |].
  destruct (find_node i c); [reflexivity | exact IH].
Qed.

Lemma prune_app p A B : prune p (A ++ B) = prune p A ++ prune p B.
Proof.
  induction A as [| c A IH]; simpl; [reflexivity |].
  rewrite IH. destruct (p (nid c)); reflexivity.
Qed.

Lemma strip_forest_app A B : strip_forest (A ++ B) = strip_forest A ++ strip_forest B.
Proof.
  induction A as [| c A IH]; simpl; [reflexivity |].
  rewrite IH. destruct (is_import c); reflexivity.
Qed.

Lemma find_in_absent i F : i ∉ ids F -> find_in i F = None.
Proof.
  induction F as [| j k ch F IHch IHF] using forest_ind; intros Hi; [reflexivity |].
  rewrite ids_cons in Hi. rewrite find_in_cons.
  apply not_elem_of_cons in Hi as [Hne Hi]. apply not_elem_of_app in Hi as [Hch HF].
  destruct (Nat.eqb_spec j i); [congruence |].
  rewrite IHch, IHF by assumption. reflexivity.
Qed.

Lemma prune_absent i F : i ∉ ids F -> removeChild i F = F.
Proof.
  unfold removeChild.
  induction F as [| j k ch F IHch IHF] using forest_ind; intros Hi; [reflexivity |].
  rewrite ids_cons in Hi. rewrite prune_cons.
  apply not_elem_of_cons in Hi as [Hne Hi]. apply not_elem_of_app in Hi as [Hch HF].
  destruct (Nat.eqb_spec i j); [congruence |].
  rewrite IHch, IHF by assumption. reflexivity.
Qed.

Lemma imps_cons i k ch F :
  imports_of (Node i k ch :: F) =
  (if is_import (Node i k ch) then [Node i k ch] else []) ++ imports_of ch ++ imports_of F.
Proof.
  unfold imports_of. rewrite walk_nodes_cons, walk_node, filter_app, filter_cons.
  destruct (is_import (Node i k ch)) eqn:Himp.
  - rewrite decide_True by reflexivity. reflexivity.
  - rewrite decide_False by discriminate. reflexivity.
Qed.

Lemma ids_strip F :
  ids (map strip (imports_of F)) ++ ids (strip_forest F) ≡ₚ ids F.
Proof.
  induction F as [| i k ch F IHch IHF] using forest_ind; [reflexivity |].
  rewrite imps_cons, strip_forest_cons, ids_cons.
  destruct (is_import (Node i k ch)).
  - rewrite !map_app. cbn [map]. rewrite strip_eq, !ids_app, ids_cons.
    change (ids []) with (@nil nat). rewrite app_nil_r. cbn [app].
    constructor. rewrite <- IHch, <- IHF. solve_Permutation.
  - rewrite !map_app, !ids_app, ids_cons. cbn [app].
    rewrite <- IHch, <- IHF. solve_Permutation.
Qed.

Lemma framing_id : framing (fun X => X).
Proof.
  split; intros; try reflexivity.
Qed.

Lemma framing_absent G F i :
  framing G -> i ∉ ids (G F) -> (i ∉ ids (G [])) /\ (i ∉ ids F).
Proof.
  intros HG Hi. rewrite (frame_ids G HG F) in Hi.
  apply not_elem_of_app in Hi. exact Hi.
Qed.

(** Nodes put in front of the tree. *)
Lemma framing_front G H : framing G -> framing (fun X => H ++ G X).
Proof.
  intros HG. split.
  - intros F i Hi. rewrite ids_app in Hi. apply not_elem_of_app in Hi as [HiH HiG].
    rewrite find_in_app, find_in_absent by exact HiH. apply (frame_find G HG), HiG.
  - intros F i Hi. rewrite ids_app in Hi. apply not_elem_of_app in Hi as [HiH HiG].
    unfold removeChild. rewrite prune_app.
    fold (removeChild i H). fold (removeChild i (G F)).
    rewrite prune_absent by exact HiH. rewrite (frame_prune G HG) by exact HiG. reflexivity.
  - intros F. rewrite !ids_app, (frame_ids G HG F). rewrite app_assoc. reflexivity.
Qed.

(** Siblings before the hole. *)
Lemma framing_after G A : framing G -> framing (fun X => G (A ++ X)).
Proof.
  intros HG. split.
  - intros F i Hi. rewrite app_nil_r in Hi.
    destruct (framing_absent G A i HG Hi) as [HiG HiA].
    rewrite (frame_find G HG) by exact HiG.
    rewrite find_in_app, find_in_absent by exact HiA. reflexivity.
  - intros F i Hi. rewrite app_nil_r in Hi.
    destruct (framing_absent G A i HG Hi) as [HiG HiA].
    rewrite (frame_prune G HG) by exact HiG. unfold removeChild. rewrite prune_app.
    fold (removeChild i A). rewrite prune_absent by exact HiA. reflexivity.
  - intros F. rewrite app_nil_r, (frame_ids G HG (A ++ F)), (frame_ids G HG A), ids_app.
    rewrite app_assoc. reflexivity.
Qed.

(** Siblings after the hole. *)
Lemma framing_before G B : framing G -> framing (fun X => G (X ++ B)).
Proof.
  intros HG. split.
  - intros F i Hi. cbn [app] in Hi.
    destruct (framing_absent G B i HG Hi) as [HiG HiB].
    rewrite (frame_find G HG) by exact HiG.
    rewrite find_in_app, (find_in_absent i B) by exact HiB.
    destruct (find_in i F); reflexivity.
  - intros F i Hi. cbn [app] in Hi.
    destruct (framing_absent G B i HG Hi) as [HiG HiB].
    rewrite (frame_prune G HG) by exact HiG. unfold removeChild. rewrite prune_app.
    fold (removeChild i B). rewrite prune_absent by exact HiB. reflexivity.
  - intros F. cbn [app]. rewrite (frame_ids G HG (F ++ B)), (frame_ids G HG B), ids_app.
    rewrite <- !app_assoc. apply Permutation_app_head, Permutation_app_comm.
Qed.

(** The hole inside a node. *)
Lemma framing_down G j k : framing G -> framing (fun X => G [Node j k X]).
Proof.
  intros HG. split.
  - intros F i Hi.
    destruct (framing_absent G _ i HG Hi) as [HiG Hij].
    rewrite ids_cons in Hij. apply not_elem_of_cons in Hij as [Hne _].
    rewrite (frame_find G HG) by exact HiG. rewrite find_in_cons.
    destruct (Nat.eqb_spec j i); [congruence |].
    destruct (find_in i F); reflexivity.
  - intros F i Hi.
    destruct (framing_absent G _ i HG Hi) as [HiG Hij].
    rewrite ids_cons in Hij. apply not_elem_of_cons in Hij as [Hne _].
    rewrite (frame_prune G HG) by exact HiG. unfold removeChild. rewrite prune_cons.
    destruct (Nat.eqb_spec i j); [congruence |]. reflexivity.
  - intros F. rewrite (frame_ids G HG [Node j k F]), (frame_ids G HG [Node j k []]), !ids_cons.
    change (ids []) with (@nil nat). rewrite !app_nil_r. cbn [app].
    rewrite <- app_assoc. reflexivity.
Qed.

Lemma foldl_prepend_app root A B :
  foldl prepend root (A ++ B) = foldl prepend (foldl prepend root A) B.
Proof. apply foldl_app. Qed.

(** The hoist, seen from a part of the tree: the imports of the part
    come to the front of the root in their order, and the part is left
    without them. *)
Lemma hoist_part :
  forall F G,
    framing G -> NoDup (ids (G F)) ->
    foldl prepend (G F) (rev (imports_of F)) = map strip (imports_of F) ++ G (strip_forest F).
Proof.
  induction F as [| i k ch F IHch IHF] using forest_ind; intros G HG Hnd.
  - reflexivity.
  - rewrite imps_cons, strip_forest_cons.
    rewrite !rev_app_distr, !foldl_prepend_app.
    (* the imports of the later siblings *)
    pose proof (IHF (fun X => G ([Node i k ch] ++ X))
                  (framing_after G [Node i k ch] HG) Hnd) as H1.
    cbn beta in H1. cbn [app] in H1. rewrite H1. clear H1.
    (* the imports below the node *)
    set (H := map strip (imports_of F)).
    set (B := strip_forest F).
    assert (HG2 : framing (fun X => H ++ G ([Node i k X] ++ B))).
    { apply framing_front. apply (framing_down (fun Y => G (Y ++ B))), framing_before, HG. }
    assert (Hperm : forall X, ids (map strip (imports_of ch)) ++ ids X ≡ₚ ids ch ->
               ids (map strip (imports_of ch)) ++ ids (H ++ G (Node i k X :: B))
               ≡ₚ ids (G (Node i k ch :: F))).
    { intros X HX.
      rewrite ids_app, (frame_ids G HG (Node i k X :: B)), (frame_ids G HG (Node i k ch :: F)).
      rewrite !ids_cons. rewrite <- (ids_strip F). fold H B. rewrite <- HX.
      solve_Permutation. }
    assert (Hnd2 : NoDup (ids (H ++ G (Node i k ch :: B)))).
    { assert (Hp : ids (H ++ G (Node i k ch :: B)) ≡ₚ ids (G (Node i k ch :: F))).
      { rewrite ids_app, (frame_ids G HG (Node i k ch :: B)), (frame_ids G HG (Node i k ch :: F)).
        rewrite !ids_cons. rewrite <- (ids_strip F). fold H B. solve_Permutation. }
      rewrite Hp. exact Hnd. }
    pose proof (IHch (fun X => H ++ G ([Node i k X] ++ B)) HG2 Hnd2) as H2.
    cbn beta in H2. cbn [app] in H2. rewrite H2. clear H2.
    (* the node itself *)
    set (H' := map strip (imports_of ch)).
    destruct (is_import (Node i k ch)) eqn:Himp; cbn [rev app foldl map].
    + assert (HG4 : framing (fun X => H' ++ H ++ G (X ++ B))).
      { apply framing_front, framing_front, framing_before, HG. }
      assert (Hnd4 : NoDup (ids (H' ++ H ++ G (Node i k (strip_forest ch) :: B)))).
      { rewrite ids_app. subst H'. rewrite (Hperm (strip_forest ch) (ids_strip ch)).
        exact Hnd. }
      assert (Hi : i ∉ ids (H' ++ H ++ G ([] ++ B))).
      { pose proof (frame_ids _ HG4 [Node i k (strip_forest ch)]) as Hp.
        cbn beta in Hp. cbn [app] in Hp.
        rewrite Hp in Hnd4. rewrite ids_cons in Hnd4.
        apply NoDup_app in Hnd4 as (_ & Hdisj & _).
        intros Hin. apply (Hdisj i Hin). left. }
      unfold prepend. cbn [nid].
      pose proof (frame_find _ HG4 [Node i k (strip_forest ch)] i Hi) as Hf.
      cbn beta in Hf. cbn [app] in Hf.
      rewrite Hf. rewrite find_in_cons, Nat.eqb_refl. cbn [default].
      pose proof (frame_prune _ HG4 [Node i k (strip_forest ch)] i Hi) as Hp.
      cbn beta in Hp. cbn [app] in Hp. rewrite Hp.
      unfold removeChild. rewrite prune_cons, Nat.eqb_refl. cbn [prune app].
      rewrite strip_eq. rewrite map_app. fold H H'.
      rewrite <- app_assoc. reflexivity.
    + rewrite map_app. fold H H'.
      rewrite <- app_assoc. reflexivity.
Qed.

Lemma collect_imports_rev root : collect_imports root = rev (imports_of root).
Proof.
  unfold collect_imports, walkAtRules, imports_of.
  assert (Hgen : forall l acc,
             foldl (fun a n => if is_atrule n
                               then (if is_import n then n :: a else a) else a) acc l =
             rev (filter (fun n => is_import n = true) l) ++ acc).
  { induction l as [| n l IH]; intros acc; [reflexivity |].
    cbn [foldl]. rewrite IH, filter_cons.
    destruct (is_import n) eqn:Himp.
    - rewrite decide_True by reflexivity.
      assert (Hat : is_atrule n = true).
      { unfold is_import, is_atrule in *. destruct (node_kind n); congruence. }
      rewrite Hat. cbn [rev]. rewrite <- app_assoc. reflexivity.
    - rewrite decide_False by discriminate.
      destruct (is_atrule n); reflexivity. }
  rewrite Hgen. apply app_nil_r.
Qed.

Lemma strip_keeps n : nid (strip n) = nid n /\ is_import (strip n) = is_import n.
Proof. destruct n as [i k ch]. rewrite strip_eq. split; reflexivity. Qed.

Lemma strip_forest_clean F :
  Forall (fun n => is_import n = false) (walk_nodes (strip_forest F)).
Proof.
  induction F as [| i k ch F IHch IHF] using forest_ind; [constructor |].
  rewrite strip_forest_cons.
  destruct (is_import (Node i k ch)) eqn:Himp; [exact IHF |].
  rewrite walk_nodes_cons, walk_node. constructor; [exact Himp |].
  apply Forall_app. split; assumption.
Qed.

(** The hoist on the tree. *)
Lemma hoist_tree root :
  wf root ->
  let found := imports_of root in
  AtImportHoistPlugin_Once root = map strip found ++ strip_forest root /\
  Forall (fun n => is_import n = true) (map strip found) /\
  Forall (fun n => is_import n = false) (walk_nodes (strip_forest root)) /\
  map nid (map strip found) = map nid found.
Proof.
  intros Hwf found. split; [| split; [| split]].
  - unfold AtImportHoistPlugin_Once. rewrite collect_imports_rev.
    apply (hoist_part root (fun X => X) framing_id Hwf).
  - apply Forall_map, Forall_forall. intros n Hn.
    apply list_elem_of_filter in Hn as [Hn _].
    rewrite (proj2 (strip_keeps n)). exact Hn.
  - apply strip_forest_clean.
  - rewrite map_map. apply map_ext. intros n. apply strip_keeps.
Qed.

End HoistFacts.

Lemma sample_stylesheet_wf : Postcss.wf Sample.stylesheet.
Proof. apply (bool_decide_unpack _). vm_compute. exact I. Qed.

Section HoistAtImportsFacts.

Context {Any : Type} (E : Env Any).

Lemma walk_leaves (l : list Postcss.node) :
  Forall (fun n => Postcss.children n = []) l -> Postcss.walk_nodes l = l.
Proof.
  induction 1 as [| [i k ch] l Hn _ IH]; [reflexivity |].
  cbn [Postcss.children] in Hn. subst ch.
  unfold Postcss.walk_nodes in *. cbn. rewrite IH. reflexivity.
Qed.

(** C5 (amended). For a stylesheet that PostCSS parses into a tree of
    distinct nodes, [hoistAtImports] returns the text of the tree that
    [AtImportHoistPlugin] leaves: as the children of the root, first
    every rule named [import] of the input, in the order in which the
    rules stand in the input, then the other rules, none of which
    holds a rule named [import] any more. When no such rule has a block
    of its own, the text therefore has every one of them before every
    other rule; a hoisted rule that has a block keeps what the block
    holds, apart from the rules named [import] in it. *)
Theorem hoistAtImports_imports_first css root st :
  postcss_parse E css = Ok root ->
  Postcss.wf root ->
  let found := Postcss.imports_of root in
  let hoisted := map Postcss.strip found in
  let others := Postcss.strip_forest root in
  hoistAtImports E css st = (Ok (postcss_stringify E (hoisted ++ others)), st) /\
  Postcss.AtImportHoistPlugin_Once root = hoisted ++ others /\
  Forall (fun n => Postcss.is_import n = true) hoisted /\
  Forall (fun n => Postcss.is_import n = false) (Postcss.walk_nodes others) /\
  map Postcss.nid hoisted = map Postcss.nid found /\
  (Forall (fun n => Postcss.children n = []) found ->
   hoisted = found /\
   Postcss.walk_nodes (hoisted ++ others) = found ++ Postcss.walk_nodes others /\
   Stated.imports_come_first Postcss.is_import (hoisted ++ others)).
Proof.
  intros Hparse Hwf found hoisted others.
  destruct (hoist_tree root Hwf) as (Hrun & Himports & Hclean & Hids).
  split; [| split; [| split; [| split; [| split]]]]; try assumption.
  - unfold hoistAtImports, bind, lift, ret. rewrite Hparse, Hrun. reflexivity.
  - intros Hleaves.
    assert (Hsame : hoisted = found).
    { subst hoisted. clear -Hleaves. induction Hleaves as [| [i k ch] l Hn _ IH];
        [reflexivity |].
      cbn [Postcss.children] in Hn. subst ch. cbn [map]. rewrite IH. reflexivity. }
    assert (Hwalk : Postcss.walk_nodes (hoisted ++ others) =
                    found ++ Postcss.walk_nodes others).
    { rewrite Hsame. unfold Postcss.walk_nodes. rewrite flat_map_app.
      fold (Postcss.walk_nodes found). rewrite (walk_leaves found Hleaves).
      reflexivity. }
    split; [exact Hsame |]. split; [exact Hwalk |].
    intros before n after Hsplit Hn m Hm _.
    rewrite Hwalk in Hsplit.
    assert (Himp' : Forall (fun n => Postcss.is_import n = true) found)
      by (rewrite <- Hsame; exact Himports).
    clear -Hsplit Hm Hn Hclean Himp'.
    (* [n] is an import, so it stands among [found]; [m] stands before it *)
    revert before Hsplit Hm. induction Himp' as [| x found' Hx _ IH]; intros before Hsplit Hm.
    + cbn [app] in Hsplit. exfalso.
      assert (Hin : n ∈ Postcss.walk_nodes others).
      { rewrite Hsplit. apply elem_of_app. right. left. }
      rewrite Forall_forall in Hclean. rewrite (Hclean n Hin) in Hn. discriminate.
    + destruct before as [| y before'].
      * inversion Hm.
      * cbn [app] in Hsplit. injection Hsplit as <- Hsplit.
        apply elem_of_cons in Hm as [-> | Hm]; [exact Hx |].
        exact (IH before' Hsplit Hm).
Qed.

End HoistAtImportsFacts.

Lemma hoistAtImports_imports_first_witness :
  hoistAtImports Sample.env Sample.stylesheet_text Sample.post_state =
  (Ok "@import 'x.css';@import 'y.css';@import 'z.css';a{color:red;}@media print{b{}}",
   Sample.post_state) /\
  Postcss.AtImportHoistPlugin_Once Sample.stylesheet = Sample.hoisted_stylesheet.
Proof.
  destruct (hoistAtImports_imports_first Sample.env Sample.stylesheet_text
              Sample.stylesheet Sample.post_state eq_refl sample_stylesheet_wf)
    as (Hrun & Htree & _).
  split.
  - rewrite Hrun. vm_compute. reflexivity.
  - rewrite Htree. vm_compute. reflexivity.
Defined.

(** C5, as written, fails twice. In [a{}@import 'o.css'{@import
    'i.css';c{}}b{}] the hoisted rule [@import 'o.css'] keeps its rule
    [c], which then stands before [@import 'i.css'] in the text; and
    the rule [@IMPORT 'x.css'], whose name is not [import] letter for
    letter, stays behind the rule [a]. *)
Lemma hoist_keeps_blocks_and_capitals :
  (Postcss.AtImportHoistPlugin_Once Sample.nested_stylesheet =
     [Postcss.Node 2 (Postcss.AtRule "import" "'o.css'")
        [Postcss.Node 4 (Postcss.Rule "c") []];
      Postcss.Node 3 (Postcss.AtRule "import" "'i.css'") [];
      Postcss.Node 1 (Postcss.Rule "a") [];
      Postcss.Node 5 (Postcss.Rule "b") []] /\
   Sample.print (Postcss.AtImportHoistPlugin_Once Sample.nested_stylesheet) =
     "@import 'o.css'{c{}}@import 'i.css';a{}b{}" /\
   ~ Stated.imports_come_first Postcss.is_import
       (Postcss.AtImportHoistPlugin_Once Sample.nested_stylesheet)) /\
  (Postcss.AtImportHoistPlugin_Once Sample.capital_stylesheet =
     Sample.capital_stylesheet /\
   ~ Stated.imports_come_first Stated.is_at_import
       (Postcss.AtImportHoistPlugin_Once Sample.capital_stylesheet)).
Proof.
  split; [split; [| split] | split]; try (vm_compute; reflexivity).
  - intros H.
    specialize (H [Postcss.Node 2 (Postcss.AtRule "import" "'o.css'")
                     [Postcss.Node 4 (Postcss.Rule "c") []];
                   Postcss.Node 4 (Postcss.Rule "c") []]
                  (Postcss.Node 3 (Postcss.AtRule "import" "'i.css'") [])
                  [Postcss.Node 1 (Postcss.Rule "a") [];
                   Postcss.Node 5 (Postcss.Rule "b") []]
                  eq_refl eq_refl
                  (Postcss.Node 4 (Postcss.Rule "c") [])
                  ltac:(right; left) eq_refl).
    discriminate H.
  - intros H.
    specialize (H [Postcss.Node 1 (Postcss.Rule "a") []]
                  (Postcss.Node 2 (Postcss.AtRule "IMPORT" "'x.css'") [])
                  [] eq_refl eq_refl
                  (Postcss.Node 1 (Postcss.Rule "a") [])
                  ltac:(left) eq_refl).
    discriminate H.
Qed.

(* ================================================================== *)
(** * Properties of the request patterns *)
(* ================================================================== *)

Section RequestFacts.

Import Re ReExact.

Lemma mt_exact r :
  forall fwd k s e,
    mt r fwd k s = Some e -> exists s', matches r fwd s s' /\ k s' = Some e.
Proof.
  induction r as [| p | r1 IH1 r2 IH2 | r1 IH1 r2 IH2 | r1 IH1 | i r1 IH1 | | | | r1 IH1];
    intros fwd k s e H; simpl in H.
  - exists s. split; [constructor | exact H].
  - destruct (step_chr fwd p s) as [s' |] eqn:Hs; [| discriminate].
    exists s'. split; [constructor; exact Hs | exact H].
  - destruct fwd.
    + apply IH1 in H as (s1 & A1 & H). apply IH2 in H as (s2 & A2 & H).
      exists s2. split; [econstructor; eauto | exact H].
    + apply IH2 in H as (s1 & A1 & H). apply IH1 in H as (s2 & A2 & H).
      exists s2. split; [econstructor; eauto | exact H].
  - destruct (mt r1 fwd k s) as [e1 |] eqn:H1.
    + injection H as <-. apply IH1 in H1 as (s' & A & H1).
      exists s'. split; [apply m_alt_l; exact A | exact H1].
    + apply IH2 in H as (s' & A & H).
      exists s'. split; [apply m_alt_r; exact A | exact H].
  - revert H. generalize (length (ahead fwd s)) at 1. intros n. revert s.
    induction n as [| n IHn]; intros s H.
    + exists s. split; [constructor | exact H].
    + match type of H with
      | match ?m with _ => _ end = _ => destruct m as [e1 |] eqn:Hm
      end.
      * injection H as <-. apply IH1 in Hm as (s1 & A1 & Hm).
        destruct (length (ahead fwd s1) <? length (ahead fwd s))%nat; [| discriminate].
        apply IHn in Hm as (s2 & A2 & Hm).
        exists s2. split; [eapply m_star_more; eauto | exact Hm].
      * exists s. split; [constructor | exact H].
  - apply IH1 in H as (s1 & A1 & H).
    eexists. split; [apply m_group; exact A1 | exact H].
  - destruct (prev s) eqn:Hp; [| discriminate].
    exists s. split; [constructor; exact Hp | exact H].
  - destruct (rest s) eqn:Hr; [| discriminate].
    exists s. split; [constructor; exact Hr | exact H].
  - destruct (xorb _ _) eqn:Hx; [| discriminate].
    exists s. split; [constructor; exact Hx | exact H].
  - destruct (mt r1 false Some s) as [e1 |] eqn:H1; [| discriminate].
    apply IH1 in H1 as (s1 & A1 & [= ->]).
    eexists. split; [apply (m_behind r1 fwd s e1); exact A1 | exact H].
Qed.

(** Where [search] finds its match. *)
Lemma search_at r :
  forall ahead_ before skipped sk m,
    search r before skipped ahead_ = Some (sk, m) ->
    exists gap a,
      ahead_ = gap ++ a /\ m_before m = rev gap ++ before /\
      match_here r (rev gap ++ before) a = Some m.
Proof.
  induction ahead_ as [| c ahead_ IH]; intros before skipped sk m H; simpl in H.
  - destruct (match_here r before []) as [m0 |] eqn:Hm; [| discriminate].
    injection H as <- <-. exists [], []. repeat split; [| exact Hm].
    unfold match_here in Hm. destruct (mt _ _ _ _); [| discriminate].
    injection Hm as <-. reflexivity.
  - destruct (match_here r before (c :: ahead_)) as [m0 |] eqn:Hm.
    + injection H as <- <-. exists [], (c :: ahead_). repeat split; [| exact Hm].
      unfold match_here in Hm. destruct (mt _ _ _ _); [| discriminate].
      injection Hm as <-. reflexivity.
    + apply IH in H as (gap & a & -> & Hb & Hm').
      exists (c :: gap), a. simpl. rewrite <- !app_assoc. simpl.
      repeat split; assumption.
Qed.

(** A match somewhere means that [search] finds one. *)
Lemma search_finds r :
  forall gap before skipped a,
    match_here r (rev gap ++ before) a <> None ->
    search r before skipped (gap ++ a) <> None.
Proof.
  induction gap as [| c gap IH]; intros before skipped a H.
  - simpl in *. destruct a; simpl; destruct (match_here r before _); congruence.
  - simpl. destruct (match_here r before (c :: gap ++ a)); [discriminate |].
    apply IH. simpl in H. rewrite <- app_assoc in H. exact H.
Qed.

Lemma exec_found r s m :
  exec r s = Some m -> exists gap, found_at r s gap m.
Proof.
  unfold exec. destruct (search r [] [] (Js.of_string s)) as [[sk m0] |] eqn:Hs;
    [| discriminate].
  intros [= ->]. apply search_at in Hs as (gap & a & Ha & Hb & Hm).
  rewrite app_nil_r in Hb, Hm. exists gap, a. repeat split; assumption.
Qed.

Lemma test_true r s :
  test r s = true -> exists gap m, found_at r s gap m.
Proof.
  unfold test. destruct (exec r s) as [m |] eqn:He; [| discriminate].
  intros _. apply exec_found in He as [gap H]. eauto.
Qed.

Lemma test_intro r s gap a :
  Js.of_string s = gap ++ a ->
  match_here r (rev gap) a <> None ->
  test r s = true.
Proof.
  intros Hs Hm. unfold test, exec. rewrite Hs.
  pose proof (search_finds r gap [] [] a) as H. rewrite app_nil_r in H.
  specialize (H Hm). destruct (search r [] [] (gap ++ a)) as [[sk m] |]; congruence.
Qed.

Lemma match_here_exact r b a m :
  match_here r b a = Some m ->
  exists e,
    matches r true (mk_mstate b a []) e /\
    m_caps m = caps e /\ m_after m = rest e /\ m_before m = b.
Proof.
  unfold match_here. destruct (mt r true Some _) as [e |] eqn:Hmt; [| discriminate].
  intros [= <-]. apply mt_exact in Hmt as (s' & Hm & [= ->]).
  exists e. repeat split. exact Hm.
Qed.

Lemma moves_nil s : moves s s [].
Proof. repeat split. Qed.

Lemma moves_trans s1 s2 s3 t u : moves s1 s2 t -> moves s2 s3 u -> moves s1 s3 (t ++ u).
Proof.
  intros (R1 & P1 & C1) (R2 & P2 & C2). repeat split.
  - rewrite R1, R2, app_assoc. reflexivity.
  - rewrite P2, P1, rev_app_distr, app_assoc. reflexivity.
  - congruence.
Qed.

Lemma matches_chr p s s' :
  matches (Chr p) true s s' -> exists c, p c = true /\ moves s s' [c].
Proof.
  intros H. inversion H as [| ? ? ? ? Hs | | | | | | | | | | |]; subst.
  unfold step_chr in Hs. destruct (rest s) as [| c r] eqn:Hr; [discriminate |].
  destruct (p c) eqn:Hp; [| discriminate]. injection Hs as <-.
  exists c. split; [exact Hp |]. repeat split. exact Hr.
Qed.

Lemma matches_the_chr c s s' : matches (chr c) true s s' -> moves s s' [c].
Proof.
  intros H. apply matches_chr in H as (c' & Hc & H).
  apply Ascii.eqb_eq in Hc. subst c'. exact H.
Qed.

Lemma matches_lit_chars l :
  forall s s', matches (lit_chars l) true s s' -> moves s s' l.
Proof.
  induction l as [| c l IH]; intros s s' H.
  - inversion H; subst. apply moves_nil.
  - destruct l as [| c' l].
    + apply matches_the_chr. exact H.
    + cbn [lit_chars] in H.
      inversion H as [| | ? ? ? s1 ? H1 H2 | | | | | | | | | |]; subst.
      apply matches_the_chr in H1. apply IH in H2.
      apply (moves_trans _ _ _ [c] _ H1 H2).
Qed.

Lemma matches_lit t s s' : matches (lit t) true s s' -> moves s s' (Js.of_string t).
Proof. apply matches_lit_chars. Qed.

Lemma matches_alts rs fwd s s' :
  rs <> [] -> matches (alts rs) fwd s s' -> exists r, r ∈ rs /\ matches r fwd s s'.
Proof.
  induction rs as [| r rs IH]; intros Hne H; [congruence |].
  destruct rs as [| r' rs].
  - exists r. split; [left | exact H].
  - cbn [alts] in H.
    inversion H as [| | | | ? ? ? ? ? Hl | ? ? ? ? ? Hr | | | | | | |]; subst.
    + exists r. split; [left | exact Hl].
    + destruct (IH ltac:(discriminate) Hr) as (r0 & Hin & Hm).
      exists r0. split; [right; exact Hin | exact Hm].
Qed.

Lemma moves_consumed s s' t : moves s s' t -> consumed true s s' = t.
Proof.
  intros (Hrest & _ & _). unfold consumed, ahead. rewrite Hrest, length_app.
  replace (length t + length (rest s') - length (rest s')) with (length t) by lia.
  apply take_app_length.
Qed.

(** A match of [cssLangs]: a dot, one of the extensions, and then the
    end of the text or a question mark. *)
Lemma matches_cssLangs s e :
  matches CssRe.cssLangs true s e ->
  exists ext post,
    ext ∈ style_extensions /\
    rest s = "."%char :: Js.of_string ext ++ post /\
    (post = [] \/ exists q, post = "?"%char :: q) /\
    List.find (fun p => Nat.eqb (fst p) 1) (caps e) = Some (1, ext).
Proof.
  unfold CssRe.cssLangs, CssRe.seqs. intros H.
  inversion H as [| | ? ? ? s1 ? H1 H2 | | | | | | | | | |]; subst.
  inversion H2 as [| | ? ? ? s2 ? H3 H4 | | | | | | | | | |]; subst.
  apply matches_the_chr in H1 as (R1 & P1 & C1).
  inversion H3 as [| | | | | | | | ? ? ? ? s3 Hx | | | |]; subst.
  apply (matches_alts (map lit style_extensions)) in Hx as (r & Hin & Hr);
    [| discriminate].
  apply list_elem_of_fmap in Hin as (ext & -> & Hext).
  apply matches_lit in Hr. pose proof Hr as (R3 & P3 & C3).
  rewrite (moves_consumed _ _ _ Hr) in H4.
  exists ext, (rest s3). split; [exact Hext |].
  split; [rewrite R1, R3; reflexivity |].
  inversion H4 as [| | | | | | | | ? ? ? ? s4 Hy | | | |]; subst.
  split.
  - inversion Hy as [| | | | ? ? ? ? ? Hl | ? ? ? ? ? Hq | | | | | | |]; subst.
    + inversion Hl; subst. left. assumption.
    + apply matches_the_chr in Hq as (Rq & _ & _). right. eexists. exact Rq.
  - assert (caps s4 = (1, Js.to_string (Js.of_string ext)) :: caps s3) as Hc.
    { inversion Hy as [| | | | ? ? ? ? ? Hl | ? ? ? ? ? Hq | | | | | | |]; subst.
      - inversion Hl; subst. reflexivity.
      - apply matches_the_chr in Hq as (_ & _ & Cq). exact Cq. }
    cbn [set_cap caps]. rewrite Hc. cbn [List.find fst Nat.eqb].
    unfold Js.to_string, Js.of_string.
    rewrite String.string_of_list_ascii_of_string. reflexivity.
Qed.

Lemma cssLangs_here b ext post :
  ext ∈ style_extensions ->
  post = [] \/ (exists q, post = "?"%char :: q) ->
  match_here CssRe.cssLangRE b ("."%char :: Js.of_string ext ++ post) <> None.
Proof.
  intros Hext Hpost. unfold style_extensions in Hext.
  repeat (apply elem_of_cons in Hext as [-> | Hext]);
    try (apply elem_of_nil in Hext; contradiction);
    destruct Hpost as [-> | [q ->]]; vm_compute; discriminate.
Qed.

Lemma starts_with_question post :
  Js.startsWith post "?" = true -> exists q, Js.of_string post = "?"%char :: q.
Proof.
  unfold Js.startsWith. destruct post as [| c post]; [discriminate |].
  change (Js.of_string (String c post)) with (c :: Js.of_string post).
  change (Js.of_string "?") with ["?"%char].
  cbn [Js.starts_with]. rewrite andb_true_r.
  intros H. apply Ascii.eqb_eq in H. subst c. eexists. reflexivity.
Qed.

Lemma css_request_shape id :
  CssRe.isCSSRequest id = true <->
  exists pre ext post,
    id = pre +:+ "." +:+ ext +:+ post /\ ext ∈ style_extensions /\
    (post = "" \/ Js.startsWith post "?" = true).
Proof.
  unfold CssRe.isCSSRequest. split.
  - intros H. apply test_true in H as (gap & m & a & Hid & _ & Hm).
    apply match_here_exact in Hm as (e & Hm & _).
    apply matches_cssLangs in Hm as (ext & post & Hext & Hrest & Hpost & _).
    cbn [rest] in Hrest. subst a.
    exists (Js.to_string gap), ext, (Js.to_string post).
    split; [| split; [exact Hext |]].
    + rewrite <- (to_of_string id), Hid.
      change ("."%char :: Js.of_string ext ++ post)
        with (Js.of_string "." ++ Js.of_string ext ++ post).
      rewrite !to_string_app, !to_of_string. reflexivity.
    + destruct Hpost as [-> | [q ->]]; [left; reflexivity | right; reflexivity].
  - intros (pre & ext & post & -> & Hext & Hpost).
    apply (test_intro _ _ (Js.of_string pre)
             ("."%char :: Js.of_string ext ++ Js.of_string post)).
    + rewrite !of_string_app. reflexivity.
    + apply cssLangs_here; [exact Hext |].
      destruct Hpost as [-> | Hq]; [left; reflexivity |].
      right. apply starts_with_question. exact Hq.
Qed.

(** X1. [isCSSRequest] answers [true] exactly for the requests that
    hold a dot, one of the eight style extensions, and then either
    nothing more or a question mark. *)
Theorem isCSSRequest_iff id :
  CssRe.isCSSRequest id = true <->
  exists pre ext post,
    id = pre +:+ "." +:+ ext +:+ post /\ ext ∈ style_extensions /\
    (post = "" \/ Js.startsWith post "?" = true).
Proof. apply css_request_shape. Qed.

(** X2. The language that [compileCSS] reads off a request is defined
    exactly for the requests that [isCSSRequest] accepts; it is the
    extension found in the request, and the adapter chosen for it is
    the one of that name, [css], [pcss] and [postcss] having none. *)
Theorem lang_of_extension id :
  match lang_of id with
  | Some ext =>
      CssRe.isCSSRequest id = true /\ ext ∈ style_extensions /\
      (exists pre post,
         id = pre +:+ "." +:+ ext +:+ post /\
         (post = "" \/ Js.startsWith post "?" = true)) /\
      match preprocessor_of id with
      | Some l => lang_name l = ext
      | None => ext ∈ ["css"; "pcss"; "postcss"]
      end
  | None => CssRe.isCSSRequest id = false /\ preprocessor_of id = None
  end.
Proof.
  unfold preprocessor_of, lang_of, CssRe.isCSSRequest, test.
  destruct (exec CssRe.cssLangRE id) as [m |] eqn:He; [| split; reflexivity].
  apply exec_found in He as (gap & a & Hid & _ & Hm).
  apply match_here_exact in Hm as (e & Hm & Hcaps & _).
  apply matches_cssLangs in Hm as (ext & post & Hext & Hrest & Hpost & Hfind).
  cbn [rest] in Hrest. subst a.
  cbn [mbind option_bind]. unfold group. rewrite Hcaps, Hfind.
  cbn [fmap option_fmap option_map snd].
  split; [reflexivity |]. split; [exact Hext |]. split.
  - exists (Js.to_string gap), (Js.to_string post). split.
    + rewrite <- (to_of_string id), Hid.
      change ("."%char :: Js.of_string ext ++ post)
        with (Js.of_string "." ++ Js.of_string ext ++ post).
      rewrite !to_string_app, !to_of_string. reflexivity.
    + destruct Hpost as [-> | [q ->]]; [left; reflexivity | right; reflexivity].
  - unfold style_extensions in Hext.
    repeat (apply elem_of_cons in Hext as [-> | Hext]);
      try (apply elem_of_nil in Hext; contradiction);
      vm_compute; try reflexivity; repeat constructor.
Qed.

(** X3. A request that [cssModuleRE] accepts is one that
    [isCSSRequest] accepts: [.module] stands right before the dot of
    a style extension. *)
Theorem css_module_is_css_request id :
  Re.test CssRe.cssModuleRE id = true ->
  CssRe.isCSSRequest id = true /\
  exists pre ext post,
    id = pre +:+ ".module." +:+ ext +:+ post /\ ext ∈ style_extensions /\
    (post = "" \/ Js.startsWith post "?" = true).
Proof.
  intros H. apply test_true in H as (gap & m & a & Hid & _ & Hm).
  apply match_here_exact in Hm as (e & Hm & _).
  unfold CssRe.cssModuleRE in Hm.
  inversion Hm as [| | ? ? ? s1 ? H1 H2 | | | | | | | | | |]; subst.
  apply matches_lit in H1 as (R1 & _ & _). cbn [rest] in R1.
  apply matches_cssLangs in H2 as (ext & post & Hext & Hrest & Hpost & _).
  rewrite Hrest in R1. subst a.
  assert (id = Js.to_string gap +:+ ".module." +:+ ext +:+ Js.to_string post) as Hd.
  { rewrite <- (to_of_string id), Hid.
    change (Js.of_string ".module" ++ "."%char :: Js.of_string ext ++ post)
      with (Js.of_string ".module." ++ Js.of_string ext ++ post).
    rewrite !to_string_app, !to_of_string. reflexivity. }
  assert (Js.to_string post = "" \/ Js.startsWith (Js.to_string post) "?" = true) as Hp.
  { destruct Hpost as [-> | [q ->]]; [left; reflexivity | right; reflexivity]. }
  split.
  - apply css_request_shape.
    exists (Js.to_string (gap ++ Js.of_string ".module")), ext, (Js.to_string post).
    split; [| split; assumption].
    rewrite <- (to_of_string id), Hid.
    change (Js.of_string ".module" ++ "."%char :: Js.of_string ext ++ post)
      with (Js.of_string ".module" ++ Js.of_string "." ++ Js.of_string ext ++ post).
    rewrite (app_assoc gap), !to_string_app, !to_of_string. reflexivity.
  - exists (Js.to_string gap), ext, (Js.to_string post). repeat split; assumption.
Qed.

Lemma mt_lit_chars l :
  forall k s post,
    rest s = l ++ post ->
    mt (lit_chars l) true k s = k (mk_mstate (rev l ++ prev s) post (caps s)).
Proof.
  induction l as [| c l IH]; intros k s post Hr.
  - destruct s as [p r cs]. simpl in *. subst r. reflexivity.
  - assert (mt (chr c) true (mt (lit_chars l) true k) s =
            k (mk_mstate (rev (c :: l) ++ prev s) post (caps s))) as Hc.
    { cbn [mt chr]. unfold step_chr. rewrite Hr. cbn [app].
      rewrite Ascii.eqb_refl. rewrite (IH _ _ post) by reflexivity.
      cbn [prev caps rev]. rewrite <- app_assoc. reflexivity. }
    destruct l as [| c' l]; [| exact Hc].
    cbn [lit_chars]. cbn [lit_chars mt] in Hc. exact Hc.
Qed.

Lemma matches_query_flag name s e :
  matches (CssRe.query_flag name) true s e ->
  exists sep post,
    (sep = "?"%char \/ sep = "&"%char) /\
    rest s = sep :: Js.of_string name ++ post /\
    xorb (head_is_word (rev (Js.of_string name) ++ sep :: prev s))
         (head_is_word post) = true.
Proof.
  unfold CssRe.query_flag, CssRe.seqs. intros H.
  inversion H as [| | ? ? ? s1 ? H1 H2 | | | | | | | | | |]; subst.
  inversion H2 as [| | ? ? ? s2 ? H3 H4 | | | | | | | | | |]; subst.
  inversion H1 as [| | | | | | | | ? ? ? ? s0 Hx | | | |]; subst.
  apply matches_lit in H3 as (R3 & P3 & _). cbn [set_cap rest prev] in R3, P3.
  inversion H4 as [| | | | | | | | | | | ? ? Hw |]; subst.
  assert (exists sep, (sep = "?"%char \/ sep = "&"%char) /\ moves s s0 [sep])
    as (sep & Hsep & R0 & P0 & _).
  { inversion Hx as [| | | | ? ? ? ? ? Hl | ? ? ? ? ? Hr | | | | | | |]; subst.
    - apply matches_the_chr in Hl. exists "?"%char. split; [left; reflexivity | exact Hl].
    - apply matches_the_chr in Hr. exists "&"%char. split; [right; reflexivity | exact Hr]. }
  exists sep, (rest e). split; [exact Hsep |]. split.
  - rewrite R0, R3. reflexivity.
  - rewrite P3, P0 in Hw. exact Hw.
Qed.

Lemma query_flag_here name b sep post :
  sep = "?"%char \/ sep = "&"%char ->
  xorb (head_is_word (rev (Js.of_string name) ++ sep :: b)) (head_is_word post) = true ->
  match_here (CssRe.query_flag name) b (sep :: Js.of_string name ++ post) <> None.
Proof.
  intros Hsep Hw. unfold match_here, CssRe.query_flag, CssRe.seqs.
  assert (forall s1,
            prev s1 = sep :: b -> rest s1 = Js.of_string name ++ post ->
            mt (Seq (lit name) WordB) true Some s1 <> None) as Htail.
  { intros s1 P1 R1. cbn [mt]. unfold lit.
    rewrite (mt_lit_chars _ _ _ post R1). cbn [mt prev rest].
    rewrite P1, Hw. discriminate. }
  cbn [mt]. destruct Hsep as [-> | ->]; unfold chr, step_chr; cbn [rest prev caps].
  - cbn [Ascii.eqb Bool.eqb].
    match goal with
    | |- match match ?x with _ => _ end with _ => _ end <> None =>
        destruct x eqn:Hx; [discriminate |]
    end.
    exfalso. revert Hx. apply Htail; reflexivity.
  - cbn [Ascii.eqb Bool.eqb].
    match goal with
    | |- match ?x with _ => _ end <> None => destruct x eqn:Hx; [discriminate |]
    end.
    exfalso. revert Hx. apply Htail; reflexivity.
Qed.

Lemma request_flag_last re name :
  (re, name) ∈ request_flags ->
  re = CssRe.query_flag name /\
  forall t, head_is_word (rev (Js.of_string name) ++ t) = true.
Proof.
  unfold request_flags. intros Hin.
  repeat (apply elem_of_cons in Hin as [[= -> ->] | Hin]);
    try (apply elem_of_nil in Hin; contradiction);
    split; try reflexivity; intros t; reflexivity.
Qed.

Lemma request_flag_shape re name id :
  (re, name) ∈ request_flags ->
  Re.test re id = true <->
  exists pre sep post,
    id = pre +:+ sep +:+ name +:+ post /\ (sep = "?" \/ sep = "&") /\
    Re.head_is_word (Js.of_string post) = false.
Proof.
  intros Hin. apply request_flag_last in Hin as [-> Hlast]. split.
  - intros H. apply test_true in H as (gap & m & a & Hid & _ & Hm).
    apply match_here_exact in Hm as (e & Hm & _).
    apply matches_query_flag in Hm as (sep & post & Hsep & Hrest & Hw).
    cbn [rest] in Hrest. subst a. rewrite Hlast in Hw. cbn [xorb] in Hw.
    apply negb_true_iff in Hw.
    exists (Js.to_string gap), (String sep EmptyString), (Js.to_string post).
    split; [| split].
    + rewrite <- (to_of_string id), Hid.
      change (sep :: Js.of_string name ++ post)
        with (Js.of_string (String sep EmptyString) ++ Js.of_string name ++ post).
      rewrite !to_string_app, !to_of_string. reflexivity.
    + destruct Hsep as [-> | ->]; [left | right]; reflexivity.
    + rewrite of_to_string. exact Hw.
  - intros (pre & sep & post & -> & Hsep & Hw).
    assert (exists c, (c = "?"%char \/ c = "&"%char) /\ Js.of_string sep = [c])
      as (c & Hc & Hs).
    { destruct Hsep as [-> | ->]; eexists; (split; [| reflexivity]); auto. }
    apply (test_intro _ _ (Js.of_string pre)
             (c :: Js.of_string name ++ Js.of_string post)).
    + rewrite !of_string_app, Hs. reflexivity.
    + apply query_flag_here; [exact Hc |]. rewrite Hlast, Hw. reflexivity.
Qed.

(** X4. Each query flag of the plugins ([direct], [html-proxy],
    [inline], [inline-css], [used]) is found exactly in the requests
    that hold the flag's name right after a [?] or a [&] and not
    followed by a letter, a digit or an underscore. *)
Theorem request_flag_iff re name id :
  (re, name) ∈ request_flags ->
  Re.test re id = true <->
  exists pre sep post,
    id = pre +:+ sep +:+ name +:+ post /\ (sep = "?" \/ sep = "&") /\
    Re.head_is_word (Js.of_string post) = false.
Proof. apply request_flag_shape. Qed.

Lemma request_flag_iff_witness :
  Re.test CssRe.inlineRE "/src/a.css?inline" = true <->
  exists pre sep post,
    "/src/a.css?inline" = pre +:+ sep +:+ "inline" +:+ post /\
    (sep = "?" \/ sep = "&") /\
    Re.head_is_word (Js.of_string post) = false.
Proof.
  apply (request_flag_iff CssRe.inlineRE "inline" "/src/a.css?inline").
  unfold request_flags. do 2 right. left.
Defined.

Lemma inline_css_tests_inline id :
  Re.test CssRe.inlineCSSRE id = true -> Re.test CssRe.inlineRE id = true.
Proof.
  intros H.
  assert ((CssRe.inlineCSSRE, "inline-css") ∈ request_flags) as Hcss
    by (unfold request_flags; do 3 right; left).
  assert ((CssRe.inlineRE, "inline") ∈ request_flags) as Hinl
    by (unfold request_flags; do 2 right; left).
  apply (proj1 (request_flag_shape _ _ id Hcss)) in H
    as (pre & sep & post & -> & Hsep & _).
  apply (proj2 (request_flag_shape _ _ _ Hinl)).
  exists pre, sep, ("-css" +:+ post).
  split; [| split; [exact Hsep | reflexivity]].
  clear. induction pre as [| c pre IH]; simpl; [| f_equal; exact IH].
  induction sep as [| c sep IH]; simpl; [reflexivity | f_equal; exact IH].
Qed.

(** X5. A request flagged [inline-css] also tests as [inline]: the
    word boundary of [inlineRE] holds between [inline] and the
    hyphen. *)
Theorem inline_css_is_inline id :
  Re.test CssRe.inlineCSSRE id = true -> Re.test CssRe.inlineRE id = true.
Proof. apply inline_css_tests_inline. Qed.

Lemma inline_css_is_inline_witness :
  Re.test CssRe.inlineRE "/index.html?html-proxy&inline-css&index=0.css" = true.
Proof.
  apply (inline_css_is_inline "/index.html?html-proxy&inline-css&index=0.css").
  vm_compute. reflexivity.
Defined.

Lemma css_module_is_css_request_witness :
  CssRe.isCSSRequest "/src/a.module.scss?used" = true /\
  exists pre ext post,
    "/src/a.module.scss?used" = pre +:+ ".module." +:+ ext +:+ post /\
    ext ∈ style_extensions /\
    (post = "" \/ Js.startsWith post "?" = true).
Proof.
  apply (css_module_is_css_request "/src/a.module.scss?used").
  vm_compute. reflexivity.
Defined.

Lemma matches_span r fwd s s' :
  matches r fwd s s' ->
  if fwd then exists t, rest s = t ++ rest s' /\ prev s' = rev t ++ prev s
  else exists t, prev s = t ++ prev s' /\ rest s' = rev t ++ rest s.
Proof.
  induction 1 as [fwd s | p fwd s s' Hs | r1 r2 s s1 s' _ IH1 _ IH2
                 | r1 r2 s s1 s' _ IH1 _ IH2 | r1 r2 fwd s s' _ IH
                 | r1 r2 fwd s s' _ IH | r fwd s | r fwd s s1 s' _ IH1 _ IH2
                 | i r fwd s s1 _ IH | fwd s _ | fwd s _ | fwd s _ | r fwd s e _ _].
  - destruct fwd; exists []; split; reflexivity.
  - unfold step_chr in Hs. destruct fwd.
    + destruct (rest s) as [| c r] eqn:Hr; [discriminate |].
      destruct (p c); [| discriminate]. injection Hs as <-.
      exists [c]. split; reflexivity.
    + destruct (prev s) as [| c r] eqn:Hr; [discriminate |].
      destruct (p c); [| discriminate]. injection Hs as <-.
      exists [c]. split; reflexivity.
  - destruct IH1 as (t1 & R1 & P1), IH2 as (t2 & R2 & P2).
    exists (t1 ++ t2). split.
    + rewrite R1, R2, app_assoc. reflexivity.
    + rewrite P2, P1, rev_app_distr, app_assoc. reflexivity.
  - destruct IH1 as (t1 & R1 & P1), IH2 as (t2 & R2 & P2).
    exists (t1 ++ t2). split.
    + rewrite R1, R2, app_assoc. reflexivity.
    + rewrite P2, P1, rev_app_distr, app_assoc. reflexivity.
  - exact IH.
  - exact IH.
  - destruct fwd; exists []; split; reflexivity.
  - destruct fwd; destruct IH1 as (t1 & R1 & P1), IH2 as (t2 & R2 & P2);
      exists (t1 ++ t2); (split;
        [rewrite R1, R2, app_assoc; reflexivity
        | rewrite P2, P1, rev_app_distr, app_assoc; reflexivity]).
  - exact IH.
  - destruct fwd; exists []; split; reflexivity.
  - destruct fwd; exists []; split; reflexivity.
  - destruct fwd; exists []; split; reflexivity.
  - destruct fwd; exists []; split; reflexivity.
Qed.

(** X6. A match of [cssUrlRE] begins with [url(] and never directly
    follows a letter, a digit, an underscore, a hyphen or a code unit
    from 128 on: [url(] at the end of a longer name is passed over. *)
Theorem cssUrlRE_not_in_identifier css m :
  Re.exec CssRe.cssUrlRE css = Some m ->
  Js.of_string css = rev (Re.m_before m) ++ Re.m_text m ++ Re.m_after m /\
  (exists t, Re.m_text m = Js.of_string "url(" ++ t) /\
  match Re.m_before m with
  | [] => True
  | c :: _ => Re.is_word c = false /\ c <> "-"%char /\ (Js.code c < 128)%nat
  end.
Proof.
  intros He. apply exec_found in He as (gap & a & Hid & Hb & Hm).
  pose proof (match_here_split _ _ _ _ Hm) as Hsplit.
  split; [rewrite Hb, rev_involutive, Hsplit; exact Hid |].
  pose proof Hm as Hm'. apply match_here_exact in Hm' as (e & Hx & _ & Hafter & _).
  unfold CssRe.cssUrlRE, CssRe.seqs in Hx.
  inversion Hx as [| | ? ? ? s1 ? H1 H2 | | | | | | | | | |]; subst.
  inversion H2 as [| | ? ? ? s2 ? H3 H4 | | | | | | | | | |]; subst.
  inversion H1 as [| | | | | | | | | | | | ? ? ? e1 Hlb]; subst.
  apply matches_lit in H3 as (R3 & _ & _). cbn [rest] in R3.
  apply matches_span in H4 as (t4 & R4 & _).
  split.
  - exists t4. rewrite R4, <- Hafter, app_assoc in R3.
    apply app_inv_tail in R3. exact R3.
  - rewrite Hb.
    inversion Hlb as [| | | | ? ? ? ? ? Hl | ? ? ? ? ? Hr | | | | | | |]; subst.
    + inversion Hl as [| | | | | | | | | ? ? Hp | | |]; subst.
      cbn [prev] in Hp. rewrite Hp. exact I.
    + inversion Hr as [| ? ? ? ? Hs | | | | | | | | | | |]; subst.
      unfold step_chr in Hs. cbn [prev] in Hs.
      destruct (rev gap) as [| c r]; [exact I |].
      destruct (CssRe.not_ident c) eqn:Hc; [| discriminate].
      unfold CssRe.not_ident in Hc.
      rewrite negb_true_iff, !orb_false_iff in Hc. destruct Hc as [[Hw Hh] Hn].
      split; [exact Hw |]. split.
      * intros ->. discriminate.
      * apply Nat.leb_gt in Hn. exact Hn.
Qed.

Lemma cssUrlRE_not_in_identifier_witness :
  Js.of_string Sample.logo_value =
    rev (Re.m_before Sample.logo_match) ++ Re.m_text Sample.logo_match ++
    Re.m_after Sample.logo_match /\
  (exists t, Re.m_text Sample.logo_match = Js.of_string "url(" ++ t) /\
  match Re.m_before Sample.logo_match with
  | [] => True
  | c :: _ => Re.is_word c = false /\ c <> "-"%char /\ (Js.code c < 128)%nat
  end.
Proof.
  apply (cssUrlRE_not_in_identifier Sample.logo_value Sample.logo_match).
  vm_compute. reflexivity.
Defined.

Lemma exec_split r s m :
  exec r s = Some m ->
  Js.of_string s = rev (m_before m) ++ m_text m ++ m_after m.
Proof.
  intros He. apply exec_found in He as (gap & a & Hid & Hb & Hm).
  pose proof (match_here_split _ _ _ _ Hm) as Hsplit.
  rewrite Hb, rev_involutive, Hsplit. exact Hid.
Qed.

Lemma cssUrlRE_text css m :
  exec CssRe.cssUrlRE css = Some m ->
  exists t, m_text m = Js.of_string "url(" ++ t.
Proof.
  intros He. apply exec_found in He as (gap & a & Hid & Hb & Hm).
  pose proof (match_here_split _ _ _ _ Hm) as Hsplit.
  apply match_here_exact in Hm as (e & Hx & _ & Hafter & _).
  unfold CssRe.cssUrlRE, CssRe.seqs in Hx.
  inversion Hx as [| | ? ? ? s1 ? H1 H2 | | | | | | | | | |]; subst.
  inversion H2 as [| | ? ? ? s2 ? H3 H4 | | | | | | | | | |]; subst.
  inversion H1 as [| | | | | | | | | | | | ? ? ? e1 Hlb]; subst.
  apply matches_lit in H3 as (R3 & _ & _). cbn [rest] in R3.
  apply matches_span in H4 as (t4 & R4 & _).
  exists t4. rewrite R4, <- Hafter, app_assoc in R3.
  apply app_inv_tail in R3. exact R3.
Qed.

End RequestFacts.

(* ================================================================== *)
(** * The inline rewrite of [url()] values *)
(* ================================================================== *)

Section AsyncReplaceFacts.

Context (re : Re.regex) (replacer : Re.rmatch -> result string).

(** What was rewritten so far stands in front of what the scan gives. *)
Lemma asyncReplace_from_rewritten fuel :
  forall remaining rewritten,
    asyncReplace_from fuel re replacer remaining rewritten =
    match asyncReplace_from fuel re replacer remaining "" with
    | Ok out => Ok (rewritten +:+ out)
    | Throw e => Throw e
    end.
Proof.
  induction fuel as [| fuel IH]; intros remaining rewritten; cbn [asyncReplace_from].
  - destruct (Re.exec re remaining); reflexivity.
  - destruct (Re.exec re remaining) as [m |]; [| reflexivity].
    destruct (replacer m) as [answer | e]; [| reflexivity].
    rewrite IH. rewrite (IH _ ("" +:+ _)).
    destruct (asyncReplace_from fuel re replacer _ "") as [out |]; [| reflexivity].
    change ("" +:+ (Js.to_string (rev (Re.m_before m)) +:+ answer))
      with (Js.to_string (rev (Re.m_before m)) +:+ answer).
    rewrite !append_assoc. reflexivity.
Qed.

Hypothesis some_text : forall s m, Re.exec re s = Some m -> Re.m_text m <> [].

Lemma after_is_shorter s m :
  Re.exec re s = Some m ->
  (String.length (Js.to_string (Re.m_after m)) < String.length s)%nat.
Proof.
  intros He. pose proof (some_text s m He) as Hne.
  apply exec_split in He. rewrite !string_length_chars, of_to_string, He.
  rewrite !length_app. destruct (Re.m_text m); [contradiction | cbn; lia].
Qed.

(** With fuel for every code unit of the text, the scan does not
    depend on the fuel. *)
Lemma asyncReplace_from_fuel fuel :
  forall fuel' remaining rewritten,
    (String.length remaining <= fuel)%nat ->
    (String.length remaining <= fuel')%nat ->
    asyncReplace_from fuel re replacer remaining rewritten =
    asyncReplace_from fuel' re replacer remaining rewritten.
Proof.
  induction fuel as [| fuel IH]; intros fuel' remaining rewritten H1 H2.
  - destruct fuel' as [| fuel']; [reflexivity |]. cbn [asyncReplace_from].
    destruct (Re.exec re remaining) as [m |] eqn:He; [| reflexivity].
    apply after_is_shorter in He. lia.
  - destruct fuel' as [| fuel']; cbn [asyncReplace_from].
    + destruct (Re.exec re remaining) as [m |] eqn:He; [| reflexivity].
      apply after_is_shorter in He. lia.
    + destruct (Re.exec re remaining) as [m |] eqn:He; [| reflexivity].
      destruct (replacer m) as [answer | e]; [| reflexivity].
      apply after_is_shorter in He. apply IH; lia.
Qed.

(** One round of the scan. *)
Lemma asyncReplace_step input :
  asyncReplace input re replacer =
  match Re.exec re input with
  | None => Ok input
  | Some m =>
      match replacer m with
      | Ok answer =>
          match asyncReplace (Js.to_string (Re.m_after m)) re replacer with
          | Ok rest =>
              Ok (Js.to_string (rev (Re.m_before m)) +:+ answer +:+ rest)
          | Throw e => Throw e
          end
      | Throw e => Throw e
      end
  end.
Proof.
  unfold asyncReplace.
  destruct (Re.exec re input) as [m |] eqn:He.
  - pose proof (after_is_shorter _ _ He) as Hlt.
    destruct (String.length input) as [| n] eqn:Hn; [lia |].
    cbn [asyncReplace_from]. rewrite He.
    destruct (replacer m) as [answer | e]; [| reflexivity].
    rewrite asyncReplace_from_rewritten.
    rewrite (asyncReplace_from_fuel n (String.length (Js.to_string (Re.m_after m))))
      by lia.
    destruct (asyncReplace_from _ re replacer _ ""); [| reflexivity].
    change ("" +:+ (Js.to_string (rev (Re.m_before m)) +:+ answer))
      with (Js.to_string (rev (Re.m_before m)) +:+ answer).
    rewrite append_assoc. reflexivity.
  - destruct (String.length input); cbn [asyncReplace_from]; rewrite He; reflexivity.
Qed.

End AsyncReplaceFacts.

Section RewriteCssUrlsFacts.

Context {Any : Type} (E : Env Any).

Lemma cssUrlRE_some_text s m : Re.exec CssRe.cssUrlRE s = Some m -> Re.m_text m <> [].
Proof. intros He. apply cssUrlRE_text in He as [t ->]. discriminate. Qed.

(** One round of the inline rewrite. *)
Lemma rewriteCssUrls_step css (replacer : CssUrlReplacer) :
  match Re.exec CssRe.cssUrlRE css with
  | None => rewriteCssUrls E css replacer = Ok css
  | Some m =>
      let before := Js.to_string (rev (Re.m_before m)) in
      let after := Js.to_string (Re.m_after m) in
      let put text :=
        match rewriteCssUrls E after replacer with
        | Ok rest => Ok (before +:+ text +:+ rest)
        | Throw e => Throw e
        end in
      css = before +:+ Re.matched m +:+ after /\
      exists wrap url,
        url_value (group1 m) wrap url /\
        (isExternalUrl E url = true \/ isDataUrl E url = true \/
         Js.startsWith url "#" = true ->
         rewriteCssUrls E css replacer = put (Re.matched m)) /\
        (isExternalUrl E url = false -> isDataUrl E url = false ->
         Js.startsWith url "#" = false ->
         match replacer url with
         | Ok answer =>
             rewriteCssUrls E css replacer =
             put ("url(" +:+ wrap +:+ answer +:+ wrap +:+ ")")
         | Throw e => rewriteCssUrls E css replacer = Throw e
         end)
  end.
Proof.
  destruct (Re.exec CssRe.cssUrlRE css) as [m |] eqn:He.
  - intros before after put.
    split.
    { subst before after. unfold Re.matched. rewrite <- !to_string_app.
      rewrite <- (exec_split _ _ _ He). symmetry. apply to_of_string. }
    destruct (cssUrlRE_value css m He) as (raw & wrap & url & Hg & Hv).
    exists wrap, url.
    split; [unfold group1; rewrite Hg; exact Hv |].
    assert (Hstep := asyncReplace_step CssRe.cssUrlRE
                       (fun m => doUrlReplace E (group1 m) (Re.matched m) replacer)
                       cssUrlRE_some_text css).
    rewrite He in Hstep. cbn beta in Hstep.
    fold (rewriteCssUrls E css replacer) in Hstep.
    fold (rewriteCssUrls E (Js.to_string (Re.m_after m)) replacer) in Hstep.
    fold after in Hstep. fold before in Hstep.
    assert (Hraw : group1 m = raw) by (unfold group1; rewrite Hg; reflexivity).
    rewrite Hraw in Hstep.
    destruct (doUrlReplace_value E raw wrap url (Re.matched m) replacer Hv) as [Hskip Hput].
    split.
    + intros Hs. rewrite Hstep, (Hskip Hs). reflexivity.
    + intros H1 H2 H3. destruct (replacer url) as [answer | e] eqn:Hr.
      * rewrite Hstep, (Hput H1 H2 H3 answer eq_refl). reflexivity.
      * rewrite Hstep. unfold doUrlReplace. rewrite (unwrap_value _ _ _ Hv).
        unfold skipped_url. rewrite H1, H2, H3, Hr. reflexivity.
  - unfold rewriteCssUrls. rewrite asyncReplace_step by apply cssUrlRE_some_text.
    rewrite He. reflexivity.
Qed.

(** The rewrite of a text ends with a text when the replacer answers
    every URL. *)
Lemma rewriteCssUrls_total (replacer : CssUrlReplacer) :
  (forall url, exists answer, replacer url = Ok answer) ->
  forall css, exists text, rewriteCssUrls E css replacer = Ok text.
Proof.
  intros Hr css.
  assert (Hgen : forall n css, (String.length css <= n)%nat ->
                   exists text, rewriteCssUrls E css replacer = Ok text).
  { clear css. induction n as [| n IH]; intros css Hn.
    - unfold rewriteCssUrls. rewrite asyncReplace_step by apply cssUrlRE_some_text.
      destruct (Re.exec CssRe.cssUrlRE css) as [m |] eqn:He; [| eauto].
      pose proof (after_is_shorter _ cssUrlRE_some_text _ _ He). lia.
    - unfold rewriteCssUrls. rewrite asyncReplace_step by apply cssUrlRE_some_text.
      destruct (Re.exec CssRe.cssUrlRE css) as [m |] eqn:He; [| eauto].
      pose proof (after_is_shorter _ cssUrlRE_some_text _ _ He) as Hlt.
      destruct (IH (Js.to_string (Re.m_after m)) ltac:(lia)) as [rest Hrest].
      unfold rewriteCssUrls in Hrest. rewrite Hrest.
      unfold doUrlReplace. destruct (unwrap (group1 m)) as [wrap url].
      destruct (skipped_url E url); [eauto |].
      destruct (Hr url) as [answer ->]. eauto. }
  exact (Hgen (String.length css) css (Nat.le_refl _)).
Qed.

(** C6. The inline rewrite of a text, match by match. When the text
    holds no [url()], it is returned as it is. Otherwise the first
    match splits the text; its value is a URL in single quotes, in
    double quotes or bare; and the rewrite gives the text before the
    match, then, when the URL is external, a data URI or begins with
    [#], the matched text as it is, and otherwise [url(...)] around the
    replacer's answer for the URL inside the same quotes as the
    original value, then the rewrite of the text behind the match. An
    answer that throws makes the rewrite throw. *)
Theorem rewriteCssUrls_value css (replacer : CssUrlReplacer) :
  match Re.exec CssRe.cssUrlRE css with
  | None => rewriteCssUrls E css replacer = Ok css
  | Some m =>
      let before := Js.to_string (rev (Re.m_before m)) in
      let after := Js.to_string (Re.m_after m) in
      let put text :=
        match rewriteCssUrls E after replacer with
        | Ok rest => Ok (before +:+ text +:+ rest)
        | Throw e => Throw e
        end in
      css = before +:+ Re.matched m +:+ after /\
      exists wrap url,
        url_value (group1 m) wrap url /\
        (isExternalUrl E url = true \/ isDataUrl E url = true \/
         Js.startsWith url "#" = true ->
         rewriteCssUrls E css replacer = put (Re.matched m)) /\
        (isExternalUrl E url = false -> isDataUrl E url = false ->
         Js.startsWith url "#" = false ->
         match replacer url with
         | Ok answer =>
             rewriteCssUrls E css replacer =
             put ("url(" +:+ wrap +:+ answer +:+ wrap +:+ ")")
         | Throw e => rewriteCssUrls E css replacer = Throw e
         end)
  end.
Proof. exact (rewriteCssUrls_step css replacer). Qed.

End RewriteCssUrlsFacts.

(** The examples of the specification, and a value in quotes next to a
    bare one. *)
Lemma rewriteCssUrls_value_witness :
  (forall replacer : CssUrlReplacer,
     rewriteCssUrls Sample.env "a{color:red}" replacer = Ok "a{color:red}") /\
  rewriteCssUrls Sample.env "a{background:url(./logo.png)}"
    (fun url => Ok ("/assets/" +:+ Js.to_string (drop 2 (Js.of_string url)))) =
  Ok "a{background:url(/assets/logo.png)}" /\
  rewriteCssUrls Sample.env "a{background:url(data:image/png;base64,AAAA)}"
    (fun _ => Ok "?") = Ok "a{background:url(data:image/png;base64,AAAA)}" /\
  rewriteCssUrls Sample.env "a{clip-path:url(#clip)}" (fun _ => Ok "?") =
  Ok "a{clip-path:url(#clip)}" /\
  rewriteCssUrls Sample.env "a{background:url(https://example.com/x.png)}"
    (fun _ => Ok "?") = Ok "a{background:url(https://example.com/x.png)}" /\
  rewriteCssUrls Sample.env "a{background:url('a.png'),url(b.png)}"
    (fun url => Ok ("/" +:+ url)) = Ok "a{background:url('/a.png'),url(/b.png)}".
Proof.
  split.
  - intros replacer.
    exact (rewriteCssUrls_value Sample.env "a{color:red}" replacer).
  - repeat split; vm_compute; reflexivity.
Defined.

(* ================================================================== *)
(** * Further properties of the compiler *)
(* ================================================================== *)

Section CompilerMore.

Context {Any : Type} (E : Env Any).

Lemma resolvePostcssConfig_hit (config : ResolvedConfig Any) s r :
  postcssConfigCache s = Some r -> resolvePostcssConfig E config s = (Ok r, s).
Proof.
  intros Hc. unfold resolvePostcssConfig, bind, get, ret. rewrite Hc. reflexivity.
Qed.

Lemma resolvePostcssConfig_ok (config : ResolvedConfig Any) s r s' :
  resolvePostcssConfig E config s = (Ok r, s') ->
  (postcssConfigCache s = Some r /\ s' = s) \/
  (postcssConfigCache s = None /\
   s' = mkSession (Some r) (globImporters s) (warnings s)).
Proof.
  unfold resolvePostcssConfig, bind, get, try_catch, lift, modify, ret, throw.
  destruct (postcssConfigCache s) as [cached |] eqn:Hc.
  - intros [= <- <-]. left. split; reflexivity.
  - intros H. right. split; [reflexivity |].
    destruct (config_css config) as [css |];
      [destruct (css_postcss css) as [[p | o ps] |] |];
      repeat match type of H with
             | context [postcssrc E ?p] => destruct (postcssrc E p)
             | context [negb ?b] => destruct (negb b)
             end;
      try discriminate; injection H as <- <-; reflexivity.
Qed.

(** X7. A PostCSS configuration that has been resolved once, be it a
    configuration or the answer that there is none, is kept: every
    later resolution in the session gives the same answer without
    searching again, and the rest of the session is not touched. *)
Theorem resolvePostcssConfig_cached (config : ResolvedConfig Any) s r s' :
  resolvePostcssConfig E config s = (Ok r, s') ->
  postcssConfigCache s' = Some r /\
  globImporters s' = globImporters s /\ warnings s' = warnings s /\
  forall E' : Env Any, resolvePostcssConfig E' config s' = (Ok r, s').
Proof.
  intros H. apply resolvePostcssConfig_ok in H as [[Hc ->] | [Hc ->]].
  - repeat split; [exact Hc |]. intros E'.
    unfold resolvePostcssConfig, bind, get, ret. rewrite Hc. reflexivity.
  - repeat split.
Qed.

(** X8. The search for a PostCSS configuration: an inline options
    object is taken as it is, without a search; otherwise the search
    starts from [css.postcss] when that is a path and from the root
    when not. A search that fails with "No PostCSS Config found" is
    remembered as "no configuration"; any other failure is thrown
    again and nothing is remembered, so that the next call searches
    again. *)
Theorem resolvePostcssConfig_search (config : ResolvedConfig Any) s :
  postcssConfigCache s = None ->
  match postcss_search_path config with
  | Some path =>
      resolvePostcssConfig E config s =
      match postcssrc E path with
      | Ok r =>
          (Ok (Some r), mkSession (Some (Some r)) (globImporters s) (warnings s))
      | Throw e =>
          if Js.includes (err_message e) "No PostCSS Config found"
          then (Ok None, mkSession (Some None) (globImporters s) (warnings s))
          else (Throw e, s)
      end
  | None =>
      exists r,
        forall E' : Env Any,
          resolvePostcssConfig E' config s =
          (Ok (Some r), mkSession (Some (Some r)) (globImporters s) (warnings s))
  end.
Proof.
  intros Hc.
  unfold postcss_search_path, resolvePostcssConfig, bind, get, try_catch, lift,
    modify, ret, throw.
  rewrite Hc.
  destruct (config_css config) as [css |]; cbn [mbind option_bind];
    [destruct (css_postcss css) as [[p | o ps] |] |].
  - destruct (postcssrc E p) as [r | e]; [reflexivity |].
    destruct (Js.includes _ _); reflexivity.
  - eexists. intros E'. reflexivity.
  - destruct (postcssrc E (config_root config)) as [r | e]; [reflexivity |].
    destruct (Js.includes _ _); reflexivity.
  - destruct (postcssrc E (config_root config)) as [r | e]; [reflexivity |].
    destruct (Js.includes _ _); reflexivity.
Qed.

Lemma postcss_plugins_last (config : ResolvedConfig Any) pc id code :
  exists front,
    postcss_plugins config pc id code = front ++ [UrlRewritePostcssPlugin].
Proof.
  unfold postcss_plugins.
  destruct (isModule_of config id); destruct (Js.includes code "@import");
    eexists; try reflexivity;
    match goal with
    | |- ?a :: ?l ++ ?t = _ => apply (app_comm_cons l t a)
    end.
Qed.

(** What a compilation that returns has done. *)
Lemma compileCSS_ok id code (config : ResolvedConfig Any) server s res s' :
  compileCSS E id code config server s = (Ok res, s') ->
  exists pc s1,
    resolvePostcssConfig E config s = (Ok pc, s1) /\
    ((res = mkResult code MapNull None None None /\ s' = s1 /\
      is_css (lang_of id) = true /\ pc = None) \/
     (exists code1 pmap deps0 pr deps',
        match preprocessor_of id with
        | Some l =>
            exists pre,
              preprocess E config l id code = Ok pre /\ pre_errors pre = [] /\
              code1 = pre_code pre /\
              pmap = combineSourcemapsIfExists E (cleanUrl E id) (pre_map pre)
                       (pre_additionalMap pre) /\
              deps0 = preprocessor_deps E (cleanUrl E id) (pre_deps pre)
        | None => code1 = code /\ pmap = None /\ deps0 = []
        end /\
        postcss_process E (postcss_plugins config pc id code) code1
          (pc_options <$> pc) (cleanUrl E id) = Ok pr /\
        record_messages E id code1 config server (pr_messages pr) deps0 s1 =
          (Ok deps', s') /\
        res =
          mkResult (pr_css pr)
            (map_input
               (combineSourcemapsIfExists E (cleanUrl E id)
                  (Some (formatPostcssSourceMap E (pr_map pr) (cleanUrl E id)))
                  pmap))
            (Some pr) (if isModule_of config id then pr_json pr else None)
            (Some deps'))).
Proof.
  unfold compileCSS, bind.
  destruct (resolvePostcssConfig E config s) as [[pc | e] s1] eqn:Hcfg;
    [| discriminate].
  intros H. exists pc, s1. split; [reflexivity |].
  match type of H with
  | (if ?c then _ else _) _ = _ => destruct c eqn:Hfast
  end.
  - left. injection H as <- <-.
    rewrite !andb_true_iff in Hfast. destruct Hfast as [[[[Hcss Hpc] _] _] _].
    repeat split; [exact Hcss |].
    destruct pc as [c |]; [| reflexivity].
    rewrite bool_decide_eq_true_2 in Hpc by eauto. discriminate.
  - right.
    destruct (postcss_plugins_last config pc id code) as [front Hlast].
    destruct (preprocessor_of id) as [l |].
    + unfold lift in H.
      destruct (preprocess E config l id code) as [pre | e] eqn:Hpre;
        [| discriminate].
      destruct (pre_errors pre) as [| e es] eqn:Herr; [| discriminate].
      unfold ret in H.
      destruct (postcss_plugins config pc id code) as [| p ps] eqn:Hp.
      { destruct front; discriminate. }
      destruct (postcss_process E (p :: ps) _ _ _) as [pr | e] eqn:Hpost;
        [| discriminate].
      destruct (record_messages E id _ config server (pr_messages pr) _ s1)
        as [[deps' | e] s2] eqn:Hrec; [| discriminate].
      injection H as <- <-.
      eexists _, _, _, pr, deps'. split; [| split; [| split]].
      * exists pre. repeat split; assumption.
      * exact Hpost.
      * exact Hrec.
      * reflexivity.
    + unfold ret in H.
      destruct (postcss_plugins config pc id code) as [| p ps] eqn:Hp.
      { destruct front; discriminate. }
      unfold lift in H.
      destruct (postcss_process E (p :: ps) _ _ _) as [pr | e] eqn:Hpost;
        [| discriminate].
      destruct (record_messages E id _ config server (pr_messages pr) _ s1)
        as [[deps' | e] s2] eqn:Hrec; [| discriminate].
      injection H as <- <-.
      eexists _, _, _, pr, deps'. split; [| split; [| split]].
      * repeat split.
      * exact Hpost.
      * exact Hrec.
      * reflexivity.
Qed.

(** X9. Past the shortcut for plain stylesheets, PostCSS always runs:
    the URL rewriter is the last plugin of every chain, so the chain
    is never empty. A compilation that returns has either taken the
    shortcut (language [css]; code unchanged, [null] map, nothing
    else), or it returns what PostCSS printed, with the PostCSS
    result, a source map and a dependency set. *)
Theorem compileCSS_always_postcss id code (config : ResolvedConfig Any) server s :
  (forall pc, exists front,
     postcss_plugins config pc id code = front ++ [UrlRewritePostcssPlugin]) /\
  forall res s',
    compileCSS E id code config server s = (Ok res, s') ->
    (res = mkResult code MapNull None None None /\ lang_of id = Some "css") \/
    (exists pr deps m,
       cr_ast res = Some pr /\ cr_code res = pr_css pr /\
       cr_deps res = Some deps /\ cr_map res = MapOf m).
Proof.
  split; [intros pc; apply postcss_plugins_last |].
  intros res s' H.
  apply compileCSS_ok in H as (pc & s1 & _ & [(-> & _ & Hcss & _) | H]).
  - left. split; [reflexivity |].
    unfold is_css in Hcss. destruct (lang_of id) as [l |]; [| discriminate].
    apply String.eqb_eq in Hcss. subst l. reflexivity.
  - right. destruct H as (code1 & pmap & deps0 & pr & deps' & _ & _ & _ & ->).
    cbn [cr_ast cr_code cr_deps cr_map].
    destruct pmap as [pm |]; eexists pr, deps', _; repeat split.
Qed.

Lemma set_add_NoDup x (s : list string) : NoDup s -> NoDup (Js.set_add x s).
Proof.
  intros H. unfold Js.set_add. destruct (Js.set_has x s) eqn:Hx; [exact H |].
  apply set_has_false in Hx. apply NoDup_app. split; [exact H |].
  split; [| apply NoDup_singleton].
  intros y Hy Hy'. apply list_elem_of_singleton in Hy'. subst y. contradiction.
Qed.

Lemma set_add_all_NoDup xs :
  forall s : list string, NoDup s -> NoDup (Js.set_add_all xs s).
Proof.
  unfold Js.set_add_all.
  induction xs as [| x xs IH]; intros s H; simpl; [exact H |].
  apply IH. apply set_add_NoDup. exact H.
Qed.

(** X10. The dependency set of a compilation holds no file twice, and
    holds exactly: the files the adapter reported whose normalized
    path is not that of the stylesheet, and the files that the
    messages of the PostCSS result name. *)
Theorem compileCSS_deps_exact id code (config : ResolvedConfig Any) server s res s' deps :
  compileCSS E id code config server s = (Ok res, s') ->
  cr_deps res = Some deps ->
  NoDup deps /\
  exists pr,
    cr_ast res = Some pr /\
    forall d,
      d ∈ deps <->
      (exists l pre,
         preprocessor_of id = Some l /\ preprocess E config l id code = Ok pre /\
         d ∈ pre_deps pre /\
         normalizePath E d <> normalizePath E (cleanUrl E id)) \/
      d ∈ flat_map (message_files E id) (pr_messages pr).
Proof.
  intros H Hdeps.
  apply compileCSS_ok in H as (pc & s1 & _ & [(-> & _) | H]); [discriminate |].
  destruct H as (code1 & pmap & deps0 & pr & deps' & Hpre & _ & Hrec & ->).
  injection Hdeps as ->.
  destruct (record_messages_deps E id code1 config server (pr_messages pr) deps0 s1)
    as [s2 Hrec'].
  rewrite Hrec in Hrec'. injection Hrec' as -> _.
  assert (NoDup deps0 /\
          forall d, d ∈ deps0 <->
            exists l pre,
              preprocessor_of id = Some l /\ preprocess E config l id code = Ok pre /\
              d ∈ pre_deps pre /\
              normalizePath E d <> normalizePath E (cleanUrl E id)) as [Hnd H0].
  { destruct (preprocessor_of id) as [l |].
    - destruct Hpre as (pre & Hp & _ & _ & _ & ->). split.
      + apply set_add_all_NoDup. constructor.
      + intros d. rewrite preprocessor_deps_elem. split.
        * intros [? ?]. exists l, pre. repeat split; assumption.
        * intros (l' & pre' & [= <-] & Hp' & ? & ?).
          rewrite Hp in Hp'. injection Hp' as <-. split; assumption.
    - destruct Hpre as (_ & _ & ->). split; [constructor |].
      intros d. split.
      + intros Hd. apply elem_of_nil in Hd. contradiction.
      + intros (l' & pre' & [=] & _). }
  split; [apply set_add_all_NoDup; exact Hnd |].
  exists pr. split; [reflexivity |].
  intros d. rewrite set_add_all_elem, H0. reflexivity.
Qed.

Lemma session_step_refl id server (s : Session Any) : session_step id server s s.
Proof.
  repeat split; try reflexivity; auto. exists []. rewrite app_nil_r. reflexivity.
Qed.

Lemma session_step_trans id server (s1 s2 s3 : Session Any) :
  session_step id server s1 s2 -> session_step id server s2 s3 ->
  session_step id server s1 s3.
Proof.
  intros (G1 & I1 & [w1 W1] & C1) (G2 & I2 & [w2 W2] & C2). repeat split.
  - intros Hs. rewrite (G2 Hs), (G1 Hs). reflexivity.
  - intros id' Hne. rewrite (I2 _ Hne), (I1 _ Hne). reflexivity.
  - exists (w1 ++ w2). rewrite W2, W1, app_assoc. reflexivity.
  - intros r Hr. apply C2, C1, Hr.
Qed.

Lemma resolvePostcssConfig_step id server (config : ResolvedConfig Any) :
  keeps (session_step id server) (resolvePostcssConfig E config).
Proof.
  intros s.
  destruct (resolvePostcssConfig E config s) as [[r | e] s'] eqn:H.
  - apply resolvePostcssConfig_ok in H as [[_ ->] | [Hc ->]]; cbn [snd].
    + apply session_step_refl.
    + repeat split; cbn; try reflexivity.
      * exists []. rewrite app_nil_r. reflexivity.
      * intros r0 Hr. congruence.
  - cbn [snd]. revert H.
    unfold resolvePostcssConfig, bind, get, try_catch, lift, modify, ret, throw.
    destruct (postcssConfigCache s); [discriminate |].
    intros H.
    assert (s' = s) as ->; [| apply session_step_refl].
    destruct (config_css config) as [css |];
      [destruct (css_postcss css) as [[p | o ps] |] |];
      repeat match type of H with
             | context [postcssrc E ?p] => destruct (postcssrc E p)
             | context [negb ?b] => destruct (negb b)
             end;
      try discriminate; injection H as _ <-; reflexivity.
Qed.

Lemma record_message_step id code (config : ResolvedConfig Any) server m deps :
  keeps (session_step id server) (record_message E id code config server m deps).
Proof.
  intros s. destruct m as [file | dir g | text line column |]; cbn.
  - apply session_step_refl.
  - destruct server; cbn; [| apply session_step_refl].
    repeat split; cbn; try reflexivity; try discriminate; auto.
    + intros id' Hne. apply lookup_insert_ne. congruence.
    + exists []. rewrite app_nil_r. reflexivity.
  - repeat split; cbn; try reflexivity; auto. eexists. reflexivity.
  - apply session_step_refl.
Qed.

Lemma record_messages_step id code (config : ResolvedConfig Any) server ms :
  forall deps,
    keeps (session_step id server) (record_messages E id code config server ms deps).
Proof.
  induction ms as [| m ms IH]; intros deps.
  - apply keeps_ret, session_step_refl.
  - cbn [record_messages]. apply keeps_bind.
    + apply session_step_trans.
    + apply record_message_step.
    + intros deps'. apply IH.
Qed.

Lemma compileCSS_step id code (config : ResolvedConfig Any) server s :
  session_step id server s (snd (compileCSS E id code config server s)).
Proof.
  revert s. change (keeps (session_step id server) (compileCSS E id code config server)).
  pose proof (session_step_refl id server) as Hrefl.
  pose proof (session_step_trans id server) as Htrans.
  unfold compileCSS.
  apply keeps_bind; [exact Htrans | apply resolvePostcssConfig_step |].
  intros pc. destruct (_ && _); [apply keeps_ret; exact Hrefl |].
  apply keeps_bind; [exact Htrans | |].
  - destruct (preprocessor_of id) as [l |]; [| apply keeps_ret; exact Hrefl].
    apply keeps_bind; [exact Htrans | apply keeps_lift; exact Hrefl |].
    intros pre. destruct (pre_errors pre);
      [apply keeps_ret | apply keeps_throw]; exact Hrefl.
  - intros [[code1 pmap] deps].
    destruct (postcss_plugins config pc id code); [apply keeps_ret; exact Hrefl |].
    apply keeps_bind; [exact Htrans | apply keeps_lift; exact Hrefl |].
    intros pr. apply keeps_bind; [exact Htrans | apply record_messages_step |].
    intros deps'. apply keeps_ret. exact Hrefl.
Qed.

(** X11. Whatever a compilation of [id] comes to, whether it returns
    or throws, it treats its session with care: without a dev server
    no glob importer is registered, with one only the entry of [id]
    can change; warnings are only appended; and a PostCSS
    configuration that was resolved before stays as it was. *)
Theorem compileCSS_session id code (config : ResolvedConfig Any) server s :
  session_step id server s (snd (compileCSS E id code config server s)).
Proof. apply compileCSS_step. Qed.

End CompilerMore.

Lemma resolvePostcssConfig_search_witness :
  match postcss_search_path Sample.config with
  | Some path =>
      resolvePostcssConfig Sample.env Sample.config Sample.session =
      match postcssrc Sample.env path with
      | Ok r =>
          (Ok (Some r),
           mkSession (Some (Some r)) (globImporters Sample.session)
             (warnings Sample.session))
      | Throw e =>
          if Js.includes (err_message e) "No PostCSS Config found"
          then (Ok None,
                mkSession (Some None) (globImporters Sample.session)
                  (warnings Sample.session))
          else (Throw e, Sample.session)
      end
  | None =>
      exists r,
        forall E' : Env unit,
          resolvePostcssConfig E' Sample.config Sample.session =
          (Ok (Some r),
           mkSession (Some (Some r)) (globImporters Sample.session)
             (warnings Sample.session))
  end.
Proof.
  apply (resolvePostcssConfig_search Sample.env Sample.config Sample.session). reflexivity.
Defined.


(* ================================================================== *)
(** * Further properties of [vite:css] *)
(* ================================================================== *)

Section CssPluginMore.

Context {Any : Type} (E : Env Any).







(** X13. With a dev server that knows the module, a transform that
    compiles marks the module as self-accepting exactly when it has
    no export map and is not requested inline; when the compilation
    gives a dependency set, the module's imports become one entry per
    dependency (a file-only entry for a stylesheet) and every
    dependency is among the watch files. *)
Theorem css_transform_dev (config : ResolvedConfig Any) ssr raw id st r se' thisModule :
  CssRe.isCSSRequest id = true ->
  Re.test CssRe.commonjsProxyRE id = false ->
  compileCSS E id raw config true (session st) = (Ok r, se') ->
  moduleGraph st !! id = Some thisModule ->
  exists st',
    css_transform E config true ssr raw id st = (Ok (Some (cr_code r, cr_map r)), st') /\
    moduleGraph st' !! id =
      Some (mkModuleNode
              (match cr_deps r with
               | Some deps => map (dep_entry E) deps
               | None => importedModules thisModule
               end)
              (negb (bool_decide (is_Some (cr_modules r)))
               && negb (Re.test CssRe.inlineRE id))) /\
    (forall deps d, cr_deps r = Some deps -> d ∈ deps -> d ∈ watchFiles st').
Proof.
  intros Hcss Hproxy Hrun Hg.
  unfold css_transform. rewrite Hcss, Hproxy. cbn [negb orb].
  unfold bind at 1. unfold lift_session. rewrite Hrun.
  set (st1 := mkCssState (moduleCache st) (watchFiles st) (moduleGraph st) se').
  assert (exists st2,
            (match cr_modules r with
             | Some modules =>
                 modify (fun s : CssState Any =>
                   mkCssState (<[id := modules]> (moduleCache s)) (watchFiles s)
                     (moduleGraph s) (session s))
             | None => ret tt
             end) st1 = (Ok tt, st2) /\
            moduleGraph st2 = moduleGraph st) as (st2 & H2 & G2).
  { destruct (cr_modules r); eexists; split; reflexivity. }
  unfold bind at 1. rewrite H2.
  assert (exists st3,
            (match config_command config, watch (config_build config), cr_deps r with
             | Build, true, Some deps => addWatchFiles deps
             | _, _, _ => ret tt
             end) st2 = (Ok tt, st3) /\
            moduleGraph st3 = moduleGraph st) as (st3 & H3 & G3).
  { destruct (config_command config), (watch (config_build config)), (cr_deps r);
      eexists; (split; [reflexivity | exact G2]). }
  unfold bind at 1. rewrite H3.
  unfold bind at 1. unfold bind at 1. unfold get. rewrite G3, Hg.
  destruct (cr_deps r) as [deps |].
  - unfold bind at 1.
    destruct (register_deps_run E ssr deps st3) as (g' & -> & _). cbn.
    eexists. split; [reflexivity |]. split; cbn.
    + apply lookup_insert_eq.
    + intros deps0 d [= <-] Hd. apply elem_of_app. right. exact Hd.
  - cbn. eexists. split; [reflexivity |]. split; cbn.
    + apply lookup_insert_eq.
    + intros deps0 d [=].
Qed.

End CssPluginMore.

(* ================================================================== *)
(** * Further properties of [vite:css-post] *)
(* ================================================================== *)

Section PostPluginMore.

Context {Any : Type} (E : Env Any) (host : Host).

Lemma told_only_refl s : told_only s s.
Proof. repeat split. exists []. rewrite app_nil_r. reflexivity. Qed.

Lemma told_only_trans s1 s2 s3 : told_only s1 s2 -> told_only s2 s3 -> told_only s1 s3.
Proof.
  intros (A1 & B1 & C1 & D1 & E1 & F1 & [m1 G1]) (A2 & B2 & C2 & D2 & E2 & F2 & [m2 G2]).
  repeat split; try congruence.
  exists (m1 ++ m2). rewrite G2, G1, app_assoc. reflexivity.
Qed.

Lemma warn_told msg : keeps told_only (warn msg).
Proof. intros s. cbn. repeat split. eexists. reflexivity. Qed.

Lemma minifyCSS_told css : keeps told_only (minifyCSS E css).
Proof.
  unfold minifyCSS.
  apply keeps_bind; [exact told_only_trans | apply keeps_lift; exact told_only_refl |].
  intros [code ws].
  apply keeps_bind; [exact told_only_trans | | intros _; apply keeps_ret; exact told_only_refl].
  destruct ws; [apply keeps_ret; exact told_only_refl | apply warn_told].
Qed.

Lemma hoistAtImports_told css : keeps told_only (hoistAtImports E css).
Proof.
  unfold hoistAtImports.
  apply keeps_bind; [exact told_only_trans | apply keeps_lift; exact told_only_refl |].
  intros root. apply keeps_ret. exact told_only_refl.
Qed.

Lemma processChunkCSS_told (config : ResolvedConfig Any) chunk css inlined minify_ :
  keeps told_only (processChunkCSS E config chunk css inlined minify_).
Proof.
  unfold processChunkCSS.
  apply keeps_bind; [exact told_only_trans | |].
  { destruct (Js.includes _ _); [apply hoistAtImports_told | apply keeps_ret; exact told_only_refl]. }
  intros css1. apply keeps_bind; [exact told_only_trans | |].
  { destruct (_ && _); [apply minifyCSS_told | apply keeps_ret; exact told_only_refl]. }
  intros css2. apply keeps_ret. exact told_only_refl.
Qed.

(** The chunk that [processChunkCSS] gives back. *)
Lemma processChunkCSS_chunk (config : ResolvedConfig Any) chunk css inlined minify_ st css' chunk' st' :
  processChunkCSS E config chunk css inlined minify_ st = (Ok (css', chunk'), st') ->
  fileName chunk' = fileName chunk /\ name chunk' = name chunk /\
  modules chunk' = modules chunk /\ imports chunk' = imports chunk /\
  code chunk' = code chunk /\
  importedCss (viteMetadata chunk') = importedCss (viteMetadata chunk) /\
  importedAssets (viteMetadata chunk) ⊆ importedAssets (viteMetadata chunk').
Proof.
  unfold processChunkCSS, bind.
  match goal with
  | |- context [?m st] =>
      match type of m with M PostState string => destruct (m st) as [[c1 | e] s1] end
  end; [| discriminate].
  match goal with
  | |- context [?m s1] =>
      match type of m with M PostState string => destruct (m s1) as [[c2 | e] s2] end
  end; [| discriminate].
  intros [= <- <- <-]. cbn. repeat split.
  apply set_add_all_incl.
Qed.


Lemma tr_told_refl a : tr_told a a.
Proof. split; [apply told_only_refl | reflexivity]. Qed.

Lemma tr_told_trans a b c : tr_told a b -> tr_told b c -> tr_told a c.
Proof.
  intros [T1 S1] [T2 S2]. split; [eapply told_only_trans; eassumption | congruence].
Qed.

Lemma in_post_told {A} (m : M PostState A) :
  keeps told_only m -> keeps tr_told (in_post m).
Proof.
  intros Hk [s h]. unfold in_post. specialize (Hk s).
  destruct (m s) as [r s']. split; [exact Hk | reflexivity].
Qed.

Lemma post_transform_build_state (config : ResolvedConfig Any) cache ssr css id
    (st : TrState) :
  config_command config = Build ->
  let st' := snd (post_transform E host config cache ssr css id st) in
  styles (fst st') =
    (if CssRe.isCSSRequest id && negb (Re.test CssRe.commonjsProxyRE id)
        && negb (Re.test CssRe.inlineRE id)
     then <[id := css]> (styles (fst st)) else styles (fst st)) /\
  pureCssChunks (fst st') = pureCssChunks (fst st) /\
  outputToExtractedCSSMap (fst st') = outputToExtractedCSSMap (fst st) /\
  hasEmitted (fst st') = hasEmitted (fst st) /\
  emitted (fst st') = emitted (fst st) /\
  (snd st' = snd st \/
   Re.test CssRe.inlineCSSRE id = true /\ Re.test CssRe.htmlProxyRE id = true /\
   exists key, snd st' = snd st ++ [(key, css)]).
Proof.
  intros Hb. unfold post_transform. rewrite Hb.
  destruct (CssRe.isCSSRequest id); cbn [negb orb andb];
    [| repeat split; left; reflexivity].
  destruct (Re.test CssRe.commonjsProxyRE id); cbn [negb orb andb];
    [repeat split; left; reflexivity |].
  assert (forall (inlined : bool) (s1 : TrState),
            let m : M TrState (option Transformed) :=
              (let otherwise : M TrState string :=
                 if Re.test CssRe.usedRE id then
                   let* text := if inlined then in_post (minifyCSS E css) else ret css in
                   ret (export_default (json_stringify E text))
                 else ret "export default ''" in
               let* code :=
                 match dataToEsm host <$> cache !! id with
                 | Some c => if Js.truthy c then ret c else otherwise
                 | None => otherwise
                 end in
               ret (Some (TModule code (if inlined then SideEffectsFalse else NoTreeshake)))) in
            tr_told s1 (snd (m s1))) as Hrest.
  { intros inlined. cbv zeta.
    assert (keeps tr_told
              (if Re.test CssRe.usedRE id
               then
                 let* text := if inlined then in_post (minifyCSS E css) else ret css in
                 ret (export_default (json_stringify E text))
               else ret "export default ''")) as Hother.
    { destruct (Re.test CssRe.usedRE id); [| apply keeps_ret; exact tr_told_refl].
      apply keeps_bind; [exact tr_told_trans | | intros t; apply keeps_ret; exact tr_told_refl].
      destruct inlined; [apply in_post_told, minifyCSS_told | apply keeps_ret; exact tr_told_refl]. }
    apply keeps_bind; [exact tr_told_trans | | intros c; apply keeps_ret; exact tr_told_refl].
    destruct (dataToEsm host <$> cache !! id) as [c |]; [| exact Hother].
    destruct (Js.truthy c); [apply keeps_ret; exact tr_told_refl | exact Hother]. }
  assert (forall s1 s2 : TrState,
            tr_told s1 s2 ->
            styles (fst s2) = styles (fst s1) /\
            pureCssChunks (fst s2) = pureCssChunks (fst s1) /\
            outputToExtractedCSSMap (fst s2) = outputToExtractedCSSMap (fst s1) /\
            hasEmitted (fst s2) = hasEmitted (fst s1) /\
            emitted (fst s2) = emitted (fst s1) /\ snd s2 = snd s1) as Hread.
  { intros s1 s2 [(A & B & C & D & F & _) S]. repeat split; assumption. }
  destruct (Re.test CssRe.inlineCSSRE id) eqn:Hic; cbn [andb].
  - rewrite (inline_css_tests_inline _ Hic). cbn [negb].
    destruct (Re.test CssRe.htmlProxyRE id).
    + destruct (parseRequest host id) as [q |]; destruct st as [s h]; cbn.
      * repeat split. right. repeat split. eexists. reflexivity.
      * repeat split. left. reflexivity.
    + unfold bind at 1. cbn [ret].
      destruct (Hread _ _ (Hrest true st)) as (A & B & C & D & F & S).
      cbv zeta in A, B, C, D, F, S.
      repeat split; try assumption. left. exact S.
  - destruct (Re.test CssRe.inlineRE id) eqn:Hin; cbn [negb andb].
    + unfold bind at 1. cbn [ret].
      destruct (Hread _ _ (Hrest true st)) as (A & B & C & D & F & S).
      cbv zeta in A, B, C, D, F, S.
      repeat split; try assumption. left. exact S.
    + unfold bind at 1. destruct st as [s h]. cbn [styles_set modify].
      match goal with
      | |- context [snd (?m ?s1)] =>
          destruct (Hread _ _ (Hrest false s1)) as (A & B & C & D & F & S)
      end.
      cbv zeta in A, B, C, D, F, S.
      repeat split; try assumption. left. exact S.
Qed.

(** X14. In a build, the transform of [vite:css-post] records the
    CSS of a module under its id exactly when the request is a
    stylesheet request, not a CommonJS proxy and not flagged
    [inline]; whatever it comes to, it touches nothing else of the
    plugin's state, and hands the CSS to the HTML plugin at most
    once, and only for a request flagged both [inline-css] and
    [html-proxy]. *)
Theorem post_transform_build_records (config : ResolvedConfig Any) cache ssr css id
    (st : TrState) :
  config_command config = Build ->
  let st' := snd (post_transform E host config cache ssr css id st) in
  styles (fst st') =
    (if CssRe.isCSSRequest id && negb (Re.test CssRe.commonjsProxyRE id)
        && negb (Re.test CssRe.inlineRE id)
     then <[id := css]> (styles (fst st)) else styles (fst st)) /\
  pureCssChunks (fst st') = pureCssChunks (fst st) /\
  outputToExtractedCSSMap (fst st') = outputToExtractedCSSMap (fst st) /\
  hasEmitted (fst st') = hasEmitted (fst st) /\
  emitted (fst st') = emitted (fst st) /\
  (snd st' = snd st \/
   Re.test CssRe.inlineCSSRE id = true /\ Re.test CssRe.htmlProxyRE id = true /\
   exists key, snd st' = snd st ++ [(key, css)]).
Proof. apply post_transform_build_state. Qed.

(** X15. While serving, the transform of [vite:css-post] records
    nothing: it only talks to the logger. A direct stylesheet request
    gets the CSS back as it came. *)
Theorem post_transform_serve (config : ResolvedConfig Any) cache ssr css id (st : TrState) :
  config_command config = Serve ->
  tr_told st (snd (post_transform E host config cache ssr css id st)) /\
  (CssRe.isDirectCSSRequest id = true ->
   Re.test CssRe.commonjsProxyRE id = false ->
   post_transform E host config cache ssr css id st = (Ok (Some (TCode css)), st)).
Proof.
  intros Hs. unfold post_transform. rewrite Hs. split.
  - revert st.
    change (keeps tr_told
              (if negb (CssRe.isCSSRequest id) || Re.test CssRe.commonjsProxyRE id
               then ret None
               else
                 if CssRe.isDirectCSSRequest id then ret (Some (TCode css))
                 else if ssr then
                   ret (Some (TCode (or_else (dataToEsm host <$> cache !! id)
                                       (export_default (json_stringify E css)))))
                 else if Re.test CssRe.inlineRE id then
                   ret (Some (TCode (export_default (json_stringify E css))))
                 else
                   let* injected :=
                     lift (injectSourcesContent host (getCombinedSourcemap host id) (cleanUrl E id)) in
                   let '(sourcemap, told) := injected in
                   in_post (for_each told warn) ;;
                   ret (Some (TCode (dev_module E host config (dataToEsm host <$> cache !! id) id
                                       (getCodeWithSourcemap host css sourcemap)))))).
    pose proof tr_told_refl as Hrefl. pose proof tr_told_trans as Htrans.
    destruct (_ || _); [apply keeps_ret; exact Hrefl |].
    destruct (CssRe.isDirectCSSRequest id); [apply keeps_ret; exact Hrefl |].
    destruct ssr; [apply keeps_ret; exact Hrefl |].
    destruct (Re.test CssRe.inlineRE id); [apply keeps_ret; exact Hrefl |].
    apply keeps_bind; [exact Htrans | apply keeps_lift; exact Hrefl |].
    intros [sm told].
    apply keeps_bind; [exact Htrans | | intros _; apply keeps_ret; exact Hrefl].
    apply in_post_told. apply keeps_for_each;
      [exact told_only_refl | exact told_only_trans | intros x; apply warn_told].
  - intros Hd Hp. unfold CssRe.isDirectCSSRequest in Hd.
    apply andb_true_iff in Hd as [Hc Hdir].
    unfold CssRe.isCSSRequest, CssRe.isDirectCSSRequest. rewrite Hc, Hdir, Hp. reflexivity.
Qed.

Lemma collect_chunk_css (recorded : gmap string string) ids css0 pure0 :
  fst (foldl (fun '(chunkCSS, isPureCssChunk) id =>
                (match recorded !! id with
                 | Some css => chunkCSS +:+ css
                 | None => chunkCSS
                 end,
                 if not_pure_module id then false else isPureCssChunk))
         (css0, pure0) ids) =
  css0 +:+ foldr (fun id acc => default "" (recorded !! id) +:+ acc) "" ids.
Proof.
  revert css0 pure0. induction ids as [| id ids IH]; intros css0 pure0; simpl.
  - rewrite append_empty_r. reflexivity.
  - rewrite IH. destruct (recorded !! id) as [css |]; simpl.
    + apply append_assoc.
    + reflexivity.
Qed.

(** X16. The CSS of a chunk is the recorded CSS of its modules, put
    together in the order of the chunk's modules, a module without a
    record adding nothing; and the chunk counts as pure exactly when
    none of its modules is excluded. *)
Theorem collect_chunk_concat (recorded : gmap string string) ids :
  fst (collect_chunk recorded ids) =
    foldr (fun id acc => default "" (recorded !! id) +:+ acc) "" ids /\
  snd (collect_chunk recorded ids) =
    forallb (fun id => negb (not_pure_module id)) ids.
Proof.
  split; [apply (collect_chunk_css recorded ids "" true) | apply collect_chunk_pure].
Qed.


Lemma said_nil s : said s [] = s.
Proof. destruct s. unfold said. cbn. rewrite app_nil_r. reflexivity. Qed.

Lemma said_said s a b : said (said s a) b = said s (a ++ b).
Proof. unfold said. cbn. rewrite app_assoc. reflexivity. Qed.

Lemma tells_ret {A} (a : A) : tells (ret a) (Ok a) [].
Proof. intros s. rewrite said_nil. reflexivity. Qed.

Lemma tells_lift {A} (r : result A) : tells (lift r) r [].
Proof. intros s. rewrite said_nil. reflexivity. Qed.

Lemma tells_bind {A B} (m : M PostState A) (f : A -> M PostState B) :
  (exists r ms, tells m r ms) ->
  (forall a, exists r' ms', tells (f a) r' ms') ->
  exists r' ms', tells (bind m f) r' ms'.
Proof.
  intros (r & ms & Hm) Hf. destruct r as [a | e].
  - destruct (Hf a) as (r' & ms' & Hfa).
    exists r', (ms ++ ms'). intros s. unfold bind. rewrite Hm, Hfa, said_said. reflexivity.
  - exists (Throw e), ms. intros s. unfold bind. rewrite Hm. reflexivity.
Qed.

Lemma minifyCSS_tells css : exists r ms, tells (minifyCSS E css) r ms.
Proof.
  unfold minifyCSS. apply tells_bind; [eexists _, _; apply tells_lift |].
  intros [code ws]. apply tells_bind.
  - destruct ws as [| w ws].
    + eexists _, _. apply tells_ret.
    + eexists _, _. intros s. unfold warn, modify. reflexivity.
  - intros _. eexists _, _. apply tells_ret.
Qed.

Lemma hoistAtImports_tells css : exists r ms, tells (hoistAtImports E css) r ms.
Proof.
  unfold hoistAtImports. apply tells_bind; [eexists _, _; apply tells_lift |].
  intros root. eexists _, _. apply tells_ret.
Qed.

Lemma processChunkCSS_tells (config : ResolvedConfig Any) chunk css inlined minify_ :
  exists r ms, tells (processChunkCSS E config chunk css inlined minify_) r ms.
Proof.
  unfold processChunkCSS. apply tells_bind.
  { destruct (Js.includes _ _); [apply hoistAtImports_tells | eexists _, _; apply tells_ret]. }
  intros css1. apply tells_bind.
  { destruct (_ && _); [apply minifyCSS_tells | eexists _, _; apply tells_ret]. }
  intros css2. eexists _, _. apply tells_ret.
Qed.

Lemma processChunkCSS_at (config : ResolvedConfig Any) chunk css inlined minify_ st r :
  fst (processChunkCSS E config chunk css inlined minify_ st) = r ->
  exists ms, tells (processChunkCSS E config chunk css inlined minify_) r ms.
Proof.
  destruct (processChunkCSS_tells config chunk css inlined minify_) as (r' & ms & Ht).
  rewrite Ht. cbn. intros <-. eauto.
Qed.

Lemma renderChunk_appends (config : ResolvedConfig Any) code_ chunk opts st css' chunk' :
  let chunkCSS := fst (collect_chunk (styles st) (modules chunk)) in
  cssCodeSplit (config_build config) = false ->
  Js.truthy chunkCSS = true ->
  fst (processChunkCSS E config chunk chunkCSS false false st) = Ok (css', chunk') ->
  exists st',
    renderChunk E config code_ chunk opts st = (Ok (None, chunk'), st') /\
    outputToExtractedCSSMap st' =
      <[out_id opts := default "" (outputToExtractedCSSMap st !! out_id opts) +:+ css']>
        (outputToExtractedCSSMap st) /\
    emitted st' = emitted st /\ hasEmitted st' = hasEmitted st /\
    pureCssChunks st' = pureCssChunks st /\ styles st' = styles st.
Proof.
  intros chunkCSS Hsplit Htruthy Hp. apply processChunkCSS_at in Hp as [ms Hp].
  unfold renderChunk, bind at 1, get.
  destruct (collect_chunk (styles st) (modules chunk)) as [css isPure] eqn:Hc.
  subst chunkCSS. cbn [fst] in *. rewrite Htruthy, Hsplit. cbn [negb].
  unfold bind at 1. rewrite Hp. unfold bind, modify, ret.
  eexists. split; [reflexivity |]. cbn. repeat split.
Qed.

(** X17. Without code splitting, rendering a chunk that has CSS
    appends the processed CSS to the buffer of the chunk's output
    target and to no other buffer; it emits no file, flags no chunk
    and returns [null]. *)
Theorem renderChunk_extracted (config : ResolvedConfig Any) code_ chunk opts st css' chunk' :
  let chunkCSS := fst (collect_chunk (styles st) (modules chunk)) in
  cssCodeSplit (config_build config) = false ->
  Js.truthy chunkCSS = true ->
  fst (processChunkCSS E config chunk chunkCSS false false st) = Ok (css', chunk') ->
  exists st',
    renderChunk E config code_ chunk opts st = (Ok (None, chunk'), st') /\
    outputToExtractedCSSMap st' =
      <[out_id opts := default "" (outputToExtractedCSSMap st !! out_id opts) +:+ css']>
        (outputToExtractedCSSMap st) /\
    emitted st' = emitted st /\ hasEmitted st' = hasEmitted st /\
    pureCssChunks st' = pureCssChunks st /\ styles st' = styles st.
Proof. apply renderChunk_appends. Qed.


(** X18. With code splitting and the format [es] or [cjs], rendering
    a chunk that has CSS emits one asset, named after the chunk with
    [.css] appended and holding the processed CSS; the name the host
    gives the asset is added to the chunk's [importedCss]; nothing is
    put into the buffers of the aggregated stylesheet. *)
Theorem renderChunk_split_emits (config : ResolvedConfig Any) code_ chunk opts st css' chunk' :
  let chunkCSS := fst (collect_chunk (styles st) (modules chunk)) in
  cssCodeSplit (config_build config) = true ->
  Js.truthy chunkCSS = true ->
  format opts = "es" \/ format opts = "cjs" ->
  fst (processChunkCSS E config chunk chunkCSS false true st) = Ok (css', chunk') ->
  let file := emitted_fileName E (name chunk +:+ ".css") css' in
  exists st',
    renderChunk E config code_ chunk opts st =
      (Ok (None, add_importedCss file chunk'), st') /\
    emitted st' = emitted st ++ [(name chunk +:+ ".css", css')] /\
    importedCss (viteMetadata (add_importedCss file chunk')) =
      Js.set_add file (importedCss (viteMetadata chunk)) /\
    outputToExtractedCSSMap st' = outputToExtractedCSSMap st /\
    hasEmitted st' = hasEmitted st /\ styles st' = styles st.
Proof.
  intros chunkCSS Hsplit Htruthy Hfmt Hp file.
  pose proof Hp as Hq. apply processChunkCSS_at in Hp as [ms Hp].
  assert (name chunk' = name chunk /\
          importedCss (viteMetadata chunk') = importedCss (viteMetadata chunk))
    as [Hname Hcss].
  { destruct (processChunkCSS E config chunk chunkCSS false true st) as [r s1] eqn:Hrun.
    cbn [fst] in Hq. subst r.
    apply processChunkCSS_chunk in Hrun as (_ & Hn & _ & _ & _ & Hc & _).
    split; assumption. }
  unfold renderChunk, bind at 1, get.
  destruct (collect_chunk (styles st) (modules chunk)) as [css isPure] eqn:Hc.
  subst chunkCSS. cbn [fst] in *. rewrite Htruthy, Hsplit. cbn [negb].
  assert (String.eqb (format opts) "es" || String.eqb (format opts) "cjs" = true) as ->.
  { destruct Hfmt as [-> | ->]; reflexivity. }
  subst file. rewrite <- Hname.
  destruct isPure; unfold bind, modify, ret, emitFile; rewrite Hp; cbn;
    (eexists; split; [reflexivity |]); cbn; rewrite Hcss; repeat split.
Qed.

Lemma starts_with_app (p t : Js.chars) : Js.starts_with p (p ++ t) = true.
Proof.
  induction p as [| c p IH]; [reflexivity |].
  cbn. rewrite Ascii.eqb_refl. exact IH.
Qed.

Lemma includes_chars_app (a p b : Js.chars) : Js.includes_chars p (a ++ p ++ b) = true.
Proof.
  induction a as [| c a IH].
  - cbn [app]. destruct (p ++ b) as [| c t] eqn:Hpb.
    + destruct p; [reflexivity | discriminate].
    + cbn [Js.includes_chars]. rewrite <- Hpb, starts_with_app. reflexivity.
  - cbn [app Js.includes_chars]. rewrite IH. apply orb_true_r.
Qed.

Lemma includes_middle (a x b : string) : Js.includes (a +:+ x +:+ b) x = true.
Proof.
  unfold Js.includes. rewrite !of_string_app. apply includes_chars_app.
Qed.

(** X19. With code splitting and a format other than [es] and [cjs],
    rendering a chunk that has CSS emits no file and fills no buffer.
    In an SSR build the hook returns [null] and the chunk is as it
    was. Otherwise the hook returns the chunk's code with three
    statements in front of it: one creates a [style] element, one
    sets its [innerHTML] to the JSON text of the processed CSS, one
    appends it to [document.head]; a source map of the prefixed code
    comes with it exactly when the build asks for source maps. *)
Theorem renderChunk_legacy (config : ResolvedConfig Any) code_ chunk opts st :
  let chunkCSS := fst (collect_chunk (styles st) (modules chunk)) in
  cssCodeSplit (config_build config) = true ->
  Js.truthy chunkCSS = true ->
  format opts <> "es" -> format opts <> "cjs" ->
  let out := renderChunk E config code_ chunk opts st in
  emitted (snd out) = emitted st /\
  outputToExtractedCSSMap (snd out) = outputToExtractedCSSMap st /\
  hasEmitted (snd out) = hasEmitted st /\ styles (snd out) = styles st /\
  if build_ssr (config_build config) then fst out = Ok (None, chunk)
  else
    forall css' chunk',
      fst (processChunkCSS E config chunk chunkCSS true true st) = Ok (css', chunk') ->
      let inject :=
        "var __vite_style__ = document.createElement('style');" +:+
        "__vite_style__.innerHTML = " +:+ json_stringify E css' +:+ ";" +:+
        "document.head.appendChild(__vite_style__);" in
      fst out =
        Ok (Some (inject +:+ code_,
                  if sourcemap (config_build config)
                  then Some (generateMap E inject code_) else None),
            chunk').
Proof.
  intros chunkCSS Hsplit Htruthy Hes Hcjs out.
  assert (out = renderChunk E config code_ chunk opts st) as Hout by reflexivity.
  clearbody out.
  destruct (processChunkCSS_tells config chunk chunkCSS true true) as (r & ms & Hp).
  unfold renderChunk, bind at 1, get in Hout.
  destruct (collect_chunk (styles st) (modules chunk)) as [css isPure] eqn:Hc.
  subst chunkCSS. cbn [fst] in *. rewrite Htruthy, Hsplit in Hout. cbn [negb] in Hout.
  apply String.eqb_neq in Hes, Hcjs. rewrite Hes, Hcjs in Hout. cbn [orb] in Hout.
  destruct (build_ssr (config_build config)); cbn [negb] in Hout.
  - destruct isPure; unfold bind, modify, ret in Hout; subst out; cbn; repeat split.
  - assert (exists s1,
              emitted s1 = emitted st /\ outputToExtractedCSSMap s1 = outputToExtractedCSSMap st /\
              hasEmitted s1 = hasEmitted st /\ styles s1 = styles st /\
              out =
                (let* r := processChunkCSS E config chunk css true true in
                 let '(chunkCSS, chunk0) := r in
                 let style := "__vite_style__" in
                 let injectCode :=
                   "var " +:+ style +:+ " = document.createElement('style');" +:+
                   style +:+ ".innerHTML = " +:+ json_stringify E chunkCSS +:+ ";" +:+
                   "document.head.appendChild(" +:+ style +:+ ");" in
                 if sourcemap (config_build config)
                 then ret (Some (injectCode +:+ code_, Some (generateMap E injectCode code_)), chunk0)
                 else ret (Some (injectCode +:+ code_, None), chunk0)) s1)
      as (s1 & He & Ho & Hh & Hs & ->).
    { destruct isPure; unfold bind at 1, modify, ret in Hout;
        refine (ex_intro _ _ (conj _ (conj _ (conj _ (conj _ Hout))))); reflexivity. }
    cbv zeta. unfold bind. rewrite !Hp.
    destruct r as [[css1 chunk1] | e]; cbn.
    + destruct (sourcemap (config_build config)); cbn;
        (split; [exact He |]); (split; [exact Ho |]); (split; [exact Hh |]);
        (split; [exact Hs |]); intros css' chunk' [= <- <-]; reflexivity.
    + repeat split; try assumption. intros css' chunk' [=].
Qed.

Lemma emits_refl s : emits_at_most_once s s.
Proof. repeat split; auto. Qed.

Lemma emits_trans s1 s2 s3 :
  emits_at_most_once s1 s2 -> emits_at_most_once s2 s3 -> emits_at_most_once s1 s3.
Proof.
  intros (A1 & B1 & C1 & D1 & F1) (A2 & B2 & C2 & D2 & F2).
  split; [congruence |]. split; [congruence |]. split; [congruence |]. split.
  - intros H1. destruct (D1 H1) as [H2 E1]. destruct (D2 H2) as [H3 E2].
    split; [exact H3 | congruence].
  - destruct F1 as [E1 | [H2 [css E1]]].
    + destruct F2 as [E2 | [H3 [css E2]]].
      * left. congruence.
      * right. split; [exact H3 |]. exists css. congruence.
    + destruct (D2 H2) as [H3 E2]. right. split; [exact H3 |].
      exists css. congruence.
Qed.

Lemma fin_emits_refl a : fin_emits a a.
Proof. apply emits_refl. Qed.

Lemma fin_emits_trans a b c : fin_emits a b -> fin_emits b c -> fin_emits a c.
Proof. apply emits_trans. Qed.

Lemma get_bundle_emits : keeps fin_emits get_bundle.
Proof. intros [s b]. apply emits_refl. Qed.

Lemma set_output_emits file v : keeps fin_emits (set_output file v).
Proof. intros [s b]. apply emits_refl. Qed.

Lemma relink_import_emits pure importer file :
  keeps fin_emits (relink_import E pure importer file).
Proof.
  unfold relink_import. destruct (Js.set_has file pure); [| apply keeps_ret, fin_emits_refl].
  apply keeps_bind; [exact fin_emits_trans | apply get_bundle_emits |].
  intros bundle. destruct (bundle_get file bundle) as [[removed | ? ?] |];
    try (apply keeps_throw, fin_emits_refl).
  destruct (bundle_get importer bundle) as [[chunk | ? ?] |];
    try (apply keeps_ret, fin_emits_refl).
  apply keeps_bind; [exact fin_emits_trans | apply set_output_emits |].
  intros _. apply keeps_ret, fin_emits_refl.
Qed.

Lemma relink_imports_emits pure importer files :
  keeps fin_emits (relink_imports E pure importer files).
Proof.
  induction files as [| f files IH]; [apply keeps_ret, fin_emits_refl |].
  cbn [relink_imports].
  apply keeps_bind; [exact fin_emits_trans | apply relink_import_emits |].
  intros keep. apply keeps_bind; [exact fin_emits_trans | exact IH |].
  intros kept. apply keeps_ret, fin_emits_refl.
Qed.

Lemma relink_chunk_emits pure re file : keeps fin_emits (relink_chunk E pure re file).
Proof.
  unfold relink_chunk.
  apply keeps_bind; [exact fin_emits_trans | apply get_bundle_emits |].
  intros bundle. destruct (bundle_get file bundle) as [[chunk0 | ? ?] |];
    try (apply keeps_ret, fin_emits_refl).
  apply keeps_bind; [exact fin_emits_trans | apply relink_imports_emits |].
  intros kept. apply keeps_bind; [exact fin_emits_trans | apply get_bundle_emits |].
  intros bundle'. destruct (bundle_get file bundle') as [[chunk | ? ?] |];
    try (apply keeps_ret, fin_emits_refl).
  apply set_output_emits.
Qed.

Lemma remove_pure_emits file : keeps fin_emits (remove_pure file).
Proof. intros [s b]. cbn. repeat split; auto. Qed.

Lemma prune_pure_chunks_emits opts : keeps fin_emits (prune_pure_chunks E opts).
Proof.
  unfold prune_pure_chunks.
  apply keeps_bind; [exact fin_emits_trans | apply keeps_get, fin_emits_refl |].
  intros st. destruct (pureCssChunks (fst st)); [apply keeps_ret, fin_emits_refl |].
  apply keeps_bind; [exact fin_emits_trans | apply keeps_lift, fin_emits_refl |].
  intros emptyChunkRE_.
  apply keeps_bind; [exact fin_emits_trans | |].
  - apply keeps_for_each; [exact fin_emits_refl | exact fin_emits_trans |].
    intros k. apply relink_chunk_emits.
  - intros _. apply keeps_for_each; [exact fin_emits_refl | exact fin_emits_trans |].
    intros k. apply remove_pure_emits.
Qed.

Lemma emit_extracted_emits (config : ResolvedConfig Any) opts :
  keeps fin_emits (emit_extracted E config opts).
Proof.
  intros [s b]. unfold emit_extracted, bind, get. cbn [fst snd].
  destruct (outputToExtractedCSSMap s !! out_id opts) as [css |]; [| apply emits_refl].
  destruct (Js.truthy css); cbn [andb]; [| apply emits_refl].
  destruct (hasEmitted s) eqn:Hh; cbn [negb]; [apply emits_refl |].
  unfold on_post, set_hasEmitted, modify, emitFile, ret.
  destruct (minify (config_build config)).
  - destruct (minifyCSS_tells css) as (r & ms & Ht). rewrite Ht.
    destruct r as [css' | e]; cbn.
    + unfold fin_emits, emits_at_most_once. cbn. rewrite Hh.
      repeat split; try discriminate. right. split; [reflexivity | eauto].
    + unfold fin_emits, emits_at_most_once. cbn. rewrite Hh.
      repeat split; try discriminate. left. reflexivity.
  - cbn. unfold fin_emits, emits_at_most_once. cbn. rewrite Hh.
    repeat split; try discriminate. right. split; [reflexivity | eauto].
Qed.

Lemma generateBundle_emits (config : ResolvedConfig Any) opts :
  keeps fin_emits (generateBundle E config opts).
Proof.
  unfold generateBundle. destruct (skip_asset_emit opts); [apply keeps_ret, fin_emits_refl |].
  apply keeps_bind; [exact fin_emits_trans | apply prune_pure_chunks_emits |].
  intros _. apply emit_extracted_emits.
Qed.

Lemma finalize_pass_emits_once (config : ResolvedConfig Any) pass :
  keeps emits_at_most_once (finalize_pass E config pass).
Proof.
  intros s. unfold finalize_pass.
  pose proof (generateBundle_emits config (fst pass) (s, snd pass)) as Hk.
  destruct (generateBundle E config (fst pass) (s, snd pass)) as [r [s' b']].
  exact Hk.
Qed.

(** X20. Over the finalize passes of a build, however many and
    whatever they come to, the aggregated stylesheet [style.css] is
    emitted at most once, and not at all when it had been emitted
    before; the passes emit nothing else, and they leave the recorded
    styles, the pure-chunk registry and the buffers as they were. *)
Theorem style_css_emitted_at_most_once (config : ResolvedConfig Any) passes st :
  emits_at_most_once st (snd (finalize_passes E config passes st)).
Proof.
  revert st. change (keeps emits_at_most_once (finalize_passes E config passes)).
  induction passes as [| pass passes IH]; [apply keeps_ret, emits_refl |].
  cbn [finalize_passes].
  apply keeps_bind; [exact emits_trans | apply finalize_pass_emits_once |].
  intros b. apply keeps_bind; [exact emits_trans | exact IH |].
  intros bs. apply keeps_ret, emits_refl.
Qed.




Lemma replace_all_no_hits r (f : Re.rmatch -> string) s :
  Re.hits (Re.pieces r s) = [] -> Re.replace_all r f s = s.
Proof.
  intros Hh. unfold Re.replace_all.
  rewrite <- (to_of_string s) at 2. rewrite <- (pieces_concat r s). f_equal. f_equal.
  revert Hh. generalize (Re.pieces r s). intros ps.
  induction ps as [| p ps IH]; intros Hh; [reflexivity |].
  destruct p as [t | m]; [| discriminate].
  cbn in *. rewrite (IH Hh). reflexivity.
Qed.

Lemma processChunkCSS_plain (config : ResolvedConfig Any) chunk css inlined st :
  Re.hits (Re.pieces (assetUrlRE E) css) = [] ->
  Js.includes css "@import" = false ->
  processChunkCSS E config chunk css inlined false st = (Ok (css, chunk), st).
Proof.
  intros Hh Hi. unfold processChunkCSS. rewrite Hh, replace_all_no_hits by exact Hh.
  rewrite Hi. cbn. destruct chunk as [? ? ? ? ? [? ?]]. reflexivity.
Qed.

(** X22. In a build without code splitting and without minification,
    the CSS that the transform records for a module comes out as the
    aggregated stylesheet: after [buildStart], the transform of a
    stylesheet request that is not inlined, the rendering of a chunk
    made of that module, and a finalize pass that is not skipped,
    exactly one more asset has been emitted, [style.css], holding the
    module's CSS as it was given to the transform. This holds for
    CSS that is not empty and has no asset placeholder and no
    [@import]. *)
Theorem extracted_css_round_trip (config : ResolvedConfig Any) cache ssr css id code_
    chunk opts (bundle : Bundle) st0 h0 :
  config_command config = Build ->
  cssCodeSplit (config_build config) = false ->
  minify (config_build config) = false ->
  CssRe.isCSSRequest id = true ->
  Re.test CssRe.commonjsProxyRE id = false ->
  Re.test CssRe.inlineRE id = false ->
  modules chunk = [id] ->
  Js.truthy css = true ->
  Re.hits (Re.pieces (assetUrlRE E) css) = [] ->
  Js.includes css "@import" = false ->
  skip_asset_emit opts = false ->
  let s1 := snd (post_buildStart st0) in
  let s2 := fst (snd (post_transform E host config cache ssr css id (s1, h0))) in
  let s3 := snd (renderChunk E config code_ chunk opts s2) in
  let s4 := fst (snd (generateBundle E config opts (s3, bundle))) in
  emitted s4 = emitted st0 ++ [("style.css", css)].
Proof.
  intros Hb Hsplit Hmin Hcss Hproxy Hinl Hmods Htruthy Hh Hi Hskip s1 s2 s3 s4.
  destruct (post_transform_build_state config cache ssr css id (s1, h0) Hb)
    as (Hst & Hpure & Hmap & Hhas & Hem & _).
  fold s2 in Hst, Hpure, Hmap, Hhas, Hem.
  rewrite Hcss, Hproxy, Hinl in Hst. cbn in Hst, Hpure, Hmap, Hhas, Hem.
  assert (fst (collect_chunk (styles s2) (modules chunk)) = css) as Hc.
  { rewrite Hmods, Hst. unfold collect_chunk. cbn [foldl].
    rewrite lookup_insert_eq. reflexivity. }
  destruct (renderChunk_appends config code_ chunk opts s2 css chunk Hsplit)
    as (s3' & Hrun & Hmap3 & Hem3 & Hhas3 & Hpure3 & _).
  { rewrite Hc. exact Htruthy. }
  { rewrite Hc, processChunkCSS_plain by assumption. reflexivity. }
  assert (s3 = s3') as Hs3 by (subst s3; rewrite Hrun; reflexivity).
  rewrite <- Hs3 in *. clear Hs3 Hrun s3'.
  destruct (finalize_pass_emits E config opts bundle s3 css css) as (s4' & Hfin & _ & _ & Hem4).
  { rewrite Hpure3. exact Hpure. }
  { rewrite Hhas3. exact Hhas. }
  { exact Hskip. }
  { rewrite Hmap3, Hmap. rewrite lookup_insert_eq. cbn. reflexivity. }
  { exact Htruthy. }
  { rewrite Hmin. reflexivity. }
  assert (s4 = s4') as ->.
  { subst s4. unfold finalize_pass in Hfin. cbn [fst snd] in Hfin.
    destruct (generateBundle E config opts (s3, bundle)) as [r [sa ba]].
    injection Hfin as _ <-. reflexivity. }
  rewrite Hem4, Hem3, Hem. reflexivity.
Qed.

End PostPluginMore.

(* ================================================================== *)
(** * Further properties of the hoist *)
(* ================================================================== *)

Section HoistMore.

Import Postcss.

Lemma imports_of_app A B : imports_of (A ++ B) = imports_of A ++ imports_of B.
Proof. unfold imports_of. rewrite walk_nodes_app, filter_app. reflexivity. Qed.

Lemma imports_of_clean F :
  Forall (fun n => is_import n = false) (walk_nodes F) -> imports_of F = [].
Proof.
  unfold imports_of. generalize (walk_nodes F). intros l Hl.
  induction Hl as [| n l Hn _ IH]; [reflexivity |].
  rewrite filter_cons, decide_False by congruence. exact IH.
Qed.

Lemma strip_forest_fixed F :
  Forall (fun n => is_import n = false) (walk_nodes F) -> strip_forest F = F.
Proof.
  induction F as [| i k ch F IHch IHF] using forest_ind; intros Hc; [reflexivity |].
  rewrite walk_nodes_cons, walk_node in Hc.
  apply Forall_cons in Hc as [Hn Hc]. apply Forall_app in Hc as [Hch HF].
  rewrite strip_forest_cons, Hn, (IHch Hch), (IHF HF). reflexivity.
Qed.

Lemma strip_forest_idem F : strip_forest (strip_forest F) = strip_forest F.
Proof. apply strip_forest_fixed, strip_forest_clean. Qed.

Lemma strip_idem n : strip (strip n) = strip n.
Proof. destruct n as [i k ch]. rewrite !strip_eq, strip_forest_idem. reflexivity. Qed.

Lemma imports_of_stripped l :
  Forall (fun n => is_import n = true) l ->
  imports_of (map strip l) = map strip l /\ strip_forest (map strip l) = [].
Proof.
  induction 1 as [| n l Hn _ [IH1 IH2]]; [split; reflexivity |].
  destruct n as [i k ch]. cbn [map]. rewrite strip_eq.
  assert (is_import (Node i k (strip_forest ch)) = true) as Hn' by exact Hn.
  split.
  - rewrite imps_cons, Hn', IH1, (imports_of_clean _ (strip_forest_clean ch)).
    reflexivity.
  - rewrite strip_forest_cons, Hn'. exact IH2.
Qed.

Lemma imports_of_are_imports F : Forall (fun n => is_import n = true) (imports_of F).
Proof.
  apply Forall_forall. intros n Hn. apply list_elem_of_filter in Hn as [Hn _]. exact Hn.
Qed.

Lemma hoisted_wf root : wf root -> wf (map strip (imports_of root) ++ strip_forest root).
Proof.
  unfold wf. intros Hwf. rewrite ids_app, ids_strip. exact Hwf.
Qed.

Lemma hoist_without_imports root :
  imports_of root = [] -> AtImportHoistPlugin_Once root = root.
Proof.
  intros Hn. unfold AtImportHoistPlugin_Once. rewrite collect_imports_rev, Hn. reflexivity.
Qed.

(** X23. The hoist of [AtImportHoistPlugin] does nothing to a tree it
    has made: hoisting twice gives what hoisting once gives. And a
    tree without any rule named [import] is left as it is. *)
Theorem hoist_idempotent root :
  wf root ->
  AtImportHoistPlugin_Once (AtImportHoistPlugin_Once root) =
    AtImportHoistPlugin_Once root /\
  (imports_of root = [] -> AtImportHoistPlugin_Once root = root).
Proof.
  intros Hwf. split; [| apply hoist_without_imports].
  destruct (hoist_tree root Hwf) as (Hroot & _).
  cbv zeta in Hroot. rewrite Hroot.
  destruct (hoist_tree _ (hoisted_wf root Hwf)) as (Hagain & _).
  cbv zeta in Hagain. rewrite Hagain.
  destruct (imports_of_stripped _ (imports_of_are_imports root)) as [Hi Hs].
  rewrite imports_of_app, strip_forest_app, Hi, Hs.
  rewrite (imports_of_clean _ (strip_forest_clean root)), strip_forest_idem, app_nil_r.
  cbn [app]. f_equal. rewrite map_map. apply map_ext. intros n. apply strip_idem.
Qed.

Lemma labels_app A B : node_labels (A ++ B) = node_labels A ++ node_labels B.
Proof. unfold node_labels. rewrite walk_nodes_app, map_app. reflexivity. Qed.

Lemma labels_cons i k ch F :
  node_labels (Node i k ch :: F) = (i, k) :: node_labels ch ++ node_labels F.
Proof.
  unfold node_labels. rewrite walk_nodes_cons, walk_node. simpl. rewrite map_app. reflexivity.
Qed.

Lemma labels_strip F :
  node_labels (map strip (imports_of F)) ++ node_labels (strip_forest F) ≡ₚ node_labels F.
Proof.
  induction F as [| i k ch F IHch IHF] using forest_ind; [reflexivity |].
  rewrite imps_cons, strip_forest_cons, labels_cons.
  destruct (is_import (Node i k ch)).
  - rewrite !map_app. cbn [map]. rewrite strip_eq, !labels_app, labels_cons.
    change (node_labels []) with (@nil (nat * kind)). rewrite app_nil_r. cbn [app].
    constructor. rewrite <- IHch, <- IHF. solve_Permutation.
  - rewrite !map_app, !labels_app, labels_cons. cbn [app].
    rewrite <- IHch, <- IHF. solve_Permutation.
Qed.

(** X24. The hoist loses no node and makes none twice: the tree it
    leaves holds exactly the nodes of the tree it was given, each
    with its kind, and their identities are still pairwise
    distinct. *)
Theorem hoist_keeps_nodes root :
  wf root ->
  wf (AtImportHoistPlugin_Once root) /\
  node_labels (AtImportHoistPlugin_Once root) ≡ₚ node_labels root.
Proof.
  intros Hwf. destruct (hoist_tree root Hwf) as (Hroot & _).
  cbv zeta in Hroot. rewrite Hroot. split.
  - apply hoisted_wf, Hwf.
  - rewrite labels_app. apply labels_strip.
Qed.

End HoistMore.

Lemma hoist_idempotent_witness :
  Postcss.AtImportHoistPlugin_Once (Postcss.AtImportHoistPlugin_Once Sample.stylesheet) =
    Postcss.AtImportHoistPlugin_Once Sample.stylesheet /\
  (Postcss.imports_of Sample.stylesheet = [] ->
   Postcss.AtImportHoistPlugin_Once Sample.stylesheet = Sample.stylesheet).
Proof. exact (hoist_idempotent Sample.stylesheet sample_stylesheet_wf). Defined.

Lemma hoist_keeps_nodes_witness :
  Postcss.wf (Postcss.AtImportHoistPlugin_Once Sample.stylesheet) /\
  node_labels (Postcss.AtImportHoistPlugin_Once Sample.stylesheet) ≡ₚ
    node_labels Sample.stylesheet.
Proof. exact (hoist_keeps_nodes Sample.stylesheet sample_stylesheet_wf). Defined.

(* ================================================================== *)
(** * Properties of the URL rewriter as a plugin *)
(* ================================================================== *)

Section UrlPluginMore.

Context {Any : Type} (E : Env Any).

Import Postcss.

Lemma rewrite_urls_eq replacer input_file i k ch :
  rewrite_urls E replacer input_file (Node i k ch) =
  match rewrite_kind E replacer (input_file i) k with
  | Throw e => Throw e
  | Ok k' =>
      match rewrite_urls_forest E replacer input_file ch with
      | Throw e => Throw e
      | Ok ch' => Ok (Node i k' ch')
      end
  end.
Proof.
  cbn [rewrite_urls]. destruct (rewrite_kind E replacer (input_file i) k); [| reflexivity].
  assert ((fix rewrite_in (l : list node) : result (list node) :=
             match l with
             | [] => Ok []
             | c :: l' =>
                 match rewrite_urls E replacer input_file c with
                 | Ok c' =>
                     match rewrite_in l' with
                     | Ok l'' => Ok (c' :: l'')
                     | Throw e => Throw e
                     end
                 | Throw e => Throw e
                 end
             end) ch = rewrite_urls_forest E replacer input_file ch) as ->; [| reflexivity].
  induction ch as [| c ch IH]; [reflexivity |].
  cbn [rewrite_urls_forest]. rewrite IH. reflexivity.
Qed.

Lemma shapes_cons i k ch F :
  node_shapes (Node i k ch :: F) = (i, kind_shape k) :: node_shapes ch ++ node_shapes F.
Proof.
  unfold node_shapes. rewrite walk_nodes_cons, walk_node. simpl. rewrite map_app. reflexivity.
Qed.

Lemma rewrite_kind_shape replacer importer k k' :
  rewrite_kind E replacer importer k = Ok k' -> kind_shape k' = kind_shape k.
Proof.
  destruct k as [? ? | ? | prop value | ?]; cbn; try (intros [= <-]; reflexivity).
  destruct (rewrite_declaration E value _); [| discriminate].
  intros [= <-]. reflexivity.
Qed.

Lemma rewrite_forest_shape replacer input_file :
  forall root root',
    rewrite_urls_forest E replacer input_file root = Ok root' ->
    node_shapes root' = node_shapes root.
Proof.
  induction root as [| i k ch F IHch IHF] using forest_ind; intros root' Hr.
  - injection Hr as <-. reflexivity.
  - cbn [rewrite_urls_forest] in Hr. rewrite rewrite_urls_eq in Hr.
    destruct (rewrite_kind E replacer (input_file i) k) as [k' |] eqn:Hk; [| discriminate].
    destruct (rewrite_urls_forest E replacer input_file ch) as [ch' |] eqn:Hch; [| discriminate].
    destruct (rewrite_urls_forest E replacer input_file F) as [F' |] eqn:HF; [| discriminate].
    injection Hr as <-.
    rewrite !shapes_cons, (IHch _ eq_refl), (IHF _ eq_refl), (rewrite_kind_shape _ _ _ _ Hk).
    reflexivity.
Qed.

Lemma rewrite_forest_idle replacer input_file :
  forall root,
    Forall (fun n => holds_url n = false) (walk_nodes root) ->
    rewrite_urls_forest E replacer input_file root = Ok root.
Proof.
  induction root as [| i k ch F IHch IHF] using forest_ind; intros Hc; [reflexivity |].
  rewrite walk_nodes_cons, walk_node in Hc.
  apply Forall_cons in Hc as [Hn Hc]. apply Forall_app in Hc as [Hch HF].
  cbn [rewrite_urls_forest]. rewrite rewrite_urls_eq, (IHch Hch), (IHF HF).
  assert (rewrite_kind E replacer (input_file i) k = Ok k) as ->; [| reflexivity].
  unfold holds_url in Hn. cbn [node_kind] in Hn.
  destruct k as [? ? | ? | prop value | ?]; try reflexivity.
  cbn. unfold rewrite_declaration.
  apply orb_false_iff in Hn as [-> ->]. reflexivity.
Qed.

(** X25. The URL rewriter, as a PostCSS plugin, cannot be made without
    options: it throws. With options, the tree it returns has the
    nodes of the tree it was given, in the same places, and differs
    from it at most in the values of declarations; and a tree in
    which no declaration holds a [url()] or an [image-set()] is
    returned as it is, whatever the replacer would answer. *)
Theorem UrlRewrite_Once_shape opts input_file root :
  match opts with
  | None =>
      exists e,
        UrlRewritePostcssPlugin_Once E opts input_file root = Throw e /\
        err_message e = "base or replace is required"
  | Some replacer =>
      (forall root',
         UrlRewritePostcssPlugin_Once E opts input_file root = Ok root' ->
         node_shapes root' = node_shapes root) /\
      (Forall (fun n => holds_url n = false) (walk_nodes root) ->
       UrlRewritePostcssPlugin_Once E opts input_file root = Ok root)
  end.
Proof.
  destruct opts as [replacer |]; cbn.
  - split; [apply rewrite_forest_shape | apply rewrite_forest_idle].
  - eexists. split; reflexivity.
Qed.

End UrlPluginMore.

(* ================================================================== *)
(** * Properties of the rebasing *)
(* ================================================================== *)

Section RebaseMore.

Context {Any : Type} (E : Env Any) (fs : Fs).

(** X26. [rebaseUrls] always answers with the resolved path of the
    file. A file in the directory of the root file is not even read.
    The answer holds contents exactly when the file lies in another
    directory and its text holds a [url()] or an [@import] of a [.css]
    file; the contents are then the text after the rewrite of its
    [.css] imports and the rewrite of its [url()] values, both with
    the rebasing function as the replacer. So the first [url()] of a
    text without [.css] imports comes back with its URL rebased,
    inside the quotes it had, unless the URL is external, a data URI
    or begins with [#]. The rebasing function leaves alone a URL that
    starts with a slash or that an alias matches, and gives for any
    other the normalized path from the directory of the root file to
    the URL resolved in the directory of the file. *)
Theorem rebaseUrls_outcome file rootFile alias :
  let resolved := path_resolve1 fs file in
  let fileDir := path_dirname E resolved in
  let rootDir := path_dirname E rootFile in
  let replacer : CssUrlReplacer :=
    fun url => Ok (rebaseFn E fs alias fileDir rootDir url) in
  (fileDir = rootDir ->
   rebaseUrls E fs file rootFile alias = Ok (mkImporterReturn resolved None)) /\
  (forall r,
     rebaseUrls E fs file rootFile alias = Ok r ->
     ir_file r = resolved /\
     (is_Some (ir_contents r) <->
      fileDir <> rootDir /\
      exists content,
        readFileSync fs resolved = Ok content /\
        Re.test CssRe.cssUrlRE content || Re.test CssRe.importCssRE content = true)) /\
  (forall r content text,
     rebaseUrls E fs file rootFile alias = Ok r ->
     readFileSync fs resolved = Ok content ->
     ir_contents r = Some text ->
     exists imports_done,
       (if Re.test CssRe.importCssRE content
        then rewriteImportCss E content replacer = Ok imports_done
        else imports_done = content) /\
       (if Re.test CssRe.cssUrlRE content
        then rewriteCssUrls E
               (if Js.truthy imports_done then imports_done else content)
               replacer = Ok text
        else text = imports_done)) /\
  (forall content m,
     fileDir <> rootDir ->
     readFileSync fs resolved = Ok content ->
     Re.test CssRe.importCssRE content = false ->
     Re.exec CssRe.cssUrlRE content = Some m ->
     exists wrap url rest,
       url_value (group1 m) wrap url /\
       rewriteCssUrls E (Js.to_string (Re.m_after m)) replacer = Ok rest /\
       rebaseUrls E fs file rootFile alias =
       Ok (mkImporterReturn resolved
             (Some (Js.to_string (rev (Re.m_before m)) +:+
                    (if isExternalUrl E url || isDataUrl E url
                        || Js.startsWith url "#"
                     then Re.matched m
                     else "url(" +:+ wrap +:+
                          rebaseFn E fs alias fileDir rootDir url +:+ wrap +:+ ")")
                    +:+ rest)))) /\
  (forall url,
     rebaseFn E fs alias fileDir rootDir url =
     if Js.startsWith url "/" || existsb (alias_matches url) alias then url
     else normalizePath E (path_relative fs rootDir (path_resolve E fileDir url))).
Proof.
  intros resolved fileDir rootDir replacer.
  unfold rebaseUrls. fold resolved. fold fileDir. fold rootDir. fold replacer.
  split; [| split; [| split; [| split]]].
  - intros Hd. rewrite Hd, String.eqb_refl. reflexivity.
  - intros r.
    destruct (String.eqb_spec fileDir rootDir) as [Hd | Hd].
    + intros [= <-]. cbn [ir_file ir_contents]. split; [reflexivity |]. split.
      * intros [? [=]].
      * intros [Hne _]. contradiction.
    + destruct (readFileSync fs resolved) as [content | e]; [| discriminate].
      destruct (Re.test CssRe.cssUrlRE content) eqn:Hu;
        destruct (Re.test CssRe.importCssRE content) eqn:Hi; cbn [negb andb orb].
      * destruct (rewriteImportCss E content _) as [t1 |]; [| discriminate].
        destruct (rewriteCssUrls E _ _) as [t2 |]; [| discriminate].
        intros [= <-]. cbn [ir_file ir_contents]. split; [reflexivity |]. split; [| eauto].
        intros _. split; [exact Hd |]. exists content. split; [reflexivity |]. rewrite ?Hu, ?Hi. reflexivity.
      * destruct (rewriteCssUrls E _ _) as [t2 |]; [| discriminate].
        intros [= <-]. cbn [ir_file ir_contents]. split; [reflexivity |]. split; [| eauto].
        intros _. split; [exact Hd |]. exists content. split; [reflexivity |]. rewrite ?Hu, ?Hi. reflexivity.
      * destruct (rewriteImportCss E content _) as [t1 |]; [| discriminate].
        intros [= <-]. cbn [ir_file ir_contents]. split; [reflexivity |]. split; [| eauto].
        intros _. split; [exact Hd |]. exists content. split; [reflexivity |]. rewrite ?Hu, ?Hi. reflexivity.
      * intros [= <-]. cbn [ir_file ir_contents]. split; [reflexivity |]. split.
        -- intros [? [=]].
        -- intros (_ & content' & [= <-] & Hc). rewrite Hu, Hi in Hc. discriminate Hc.
  - intros r content text Hrun Hread Htext. rewrite Hread in Hrun.
    destruct (String.eqb fileDir rootDir).
    { injection Hrun as <-. discriminate Htext. }
    destruct (Re.test CssRe.cssUrlRE content) eqn:Hu;
      destruct (Re.test CssRe.importCssRE content) eqn:Hi; cbn [negb andb orb] in Hrun.
    + destruct (rewriteImportCss E content replacer) as [t1 |] eqn:H1; [| discriminate].
      destruct (rewriteCssUrls E _ replacer) as [t2 |] eqn:H2; [| discriminate].
      injection Hrun as <-. cbn [ir_contents] in Htext. injection Htext as <-.
      exists t1. split; [reflexivity | exact H2].
    + destruct (rewriteCssUrls E content replacer) as [t2 |] eqn:H2; [| discriminate].
      injection Hrun as <-. cbn [ir_contents] in Htext. injection Htext as <-.
      exists content. split; [reflexivity |]. destruct (Js.truthy content); exact H2.
    + destruct (rewriteImportCss E content replacer) as [t1 |] eqn:H1; [| discriminate].
      injection Hrun as <-. cbn [ir_contents] in Htext. injection Htext as <-.
      exists t1. split; reflexivity.
    + injection Hrun as <-. discriminate Htext.
  - intros content m Hd Hread Hi He. rewrite Hread, Hi.
    apply String.eqb_neq in Hd. rewrite Hd.
    assert (Hu : Re.test CssRe.cssUrlRE content = true)
      by (unfold Re.test; rewrite He; reflexivity).
    rewrite Hu. cbn [negb andb].
    pose proof (rewriteCssUrls_step E content replacer) as Hstep.
    rewrite He in Hstep. cbv zeta in Hstep.
    destruct Hstep as (_ & wrap & url & Hv & Hskip & Hput).
    destruct (rewriteCssUrls_total E replacer ltac:(intros u; eexists; reflexivity)
                (Js.to_string (Re.m_after m))) as [rest Hrest].
    exists wrap, url, rest. split; [exact Hv |]. split; [exact Hrest |].
    rewrite Hrest in Hskip, Hput.
    destruct (isExternalUrl E url) eqn:H1; cbn [orb].
    { rewrite Hskip by (left; reflexivity). reflexivity. }
    destruct (isDataUrl E url) eqn:H2; cbn [orb].
    { rewrite Hskip by (right; left; reflexivity). reflexivity. }
    destruct (Js.startsWith url "#") eqn:H3.
    { rewrite Hskip by (right; right; reflexivity). reflexivity. }
    specialize (Hput eq_refl eq_refl eq_refl). unfold replacer at 1 in Hput.
    rewrite Hput. reflexivity.
  - intros url. unfold rebaseFn.
    destruct (Js.startsWith url "/"); [reflexivity |].
    destruct (existsb (alias_matches url) alias); reflexivity.
Qed.

End RebaseMore.

(* ================================================================== *)
(** * Further properties of the loader *)
(* ================================================================== *)

Section LoaderMore.

Context {Any : Type} (E : Env Any).

(** X27. The table of loaded engines only grows: a load of one
    dialect leaves the entries of the other dialects as they were,
    an engine that is in the table is returned as it is, without a
    new attempt to load it and whatever the root, and a failed load
    leaves the table as it was. *)
Theorem loadPreprocessor_table lang root (t : Loaded Any) :
  let out := loadPreprocessor E lang root t in
  (forall l, l <> lang -> snd out l = t l) /\
  (forall engine,
     t lang = Some engine ->
     forall (E' : Env Any) root', loadPreprocessor E' lang root' t = (Ok engine, t)) /\
  (forall e, fst out = Throw e -> snd out = t) /\
  (forall engine, fst out = Ok engine -> snd out lang = Some engine).
Proof.
  intros out. subst out. split; [| split; [| split]].
  - intros l Hne. unfold loadPreprocessor, bind, get, try_catch, lift, modify, ret, throw.
    destruct (t lang); [reflexivity |].
    destruct (load_attempt E lang root); [| reflexivity].
    cbn. unfold loaded_set. rewrite decide_False by exact Hne. reflexivity.
  - intros engine Ht E' root'. unfold loadPreprocessor, bind, get, ret.
    rewrite Ht. reflexivity.
  - intros e. unfold loadPreprocessor, bind, get, try_catch, lift, modify, ret, throw.
    destruct (t lang); [discriminate |].
    destruct (load_attempt E lang root); [discriminate | reflexivity].
  - intros engine. unfold loadPreprocessor, bind, get, try_catch, lift, modify, ret, throw.
    destruct (t lang) eqn:Ht; [intros [= <-]; exact Ht |].
    destruct (load_attempt E lang root); [| discriminate].
    cbn. intros [= <-]. unfold loaded_set. rewrite decide_True by reflexivity. reflexivity.
Qed.

End LoaderMore.

(* ================================================================== *)
(** * Properties of the dialect adapters *)
(* ================================================================== *)

Section AdaptersMore.

Context {Any : Type} (E : Env Any) (fs : Fs) (G : Adapters.Engines (Any := Any)).

Lemma load_missing lang root (t : Loaded Any) e :
  t lang = None -> load_attempt E lang root = Throw e ->
  loadPreprocessor E lang root t = (Throw (load_failure E lang e), t).
Proof.
  intros Ht Hl. unfold loadPreprocessor, bind, get, try_catch, lift, throw.
  rewrite Ht, Hl. reflexivity.
Qed.

Lemma load_hit lang root (t : Loaded Any) engine :
  t lang = Some engine -> loadPreprocessor E lang root t = (Ok engine, t).
Proof.
  intros Ht. unfold loadPreprocessor, bind, get, ret. rewrite Ht. reflexivity.
Qed.

Lemma load_failure_names lang e :
  Js.includes (err_message (load_failure E lang e)) (lang_name lang) = true.
Proof.
  unfold load_failure. destruct (is_module_not_found e); cbn.
  - apply not_found_names_dialect.
  - apply failed_names_dialect.
Qed.

(** X28. Every adapter begins by loading its engine, and the engine
    is that of the package [less] for Less, of [sass] for both Sass
    and SCSS, and of [stylus] for both extensions of Stylus. When the
    engine is not yet loaded and cannot be loaded, the adapter throws
    the loader's error, which names that package, and hands back no
    result. *)
Theorem adapter_loads_engine lang source root options resolvers (t : Loaded Any) e :
  t (Adapters.engine_package lang) = None ->
  load_attempt E (Adapters.engine_package lang) root = Throw e ->
  Adapters.preProcessors E fs G lang source root options resolvers t =
    (Throw (load_failure E (Adapters.engine_package lang) e), t) /\
  Js.includes (err_message (load_failure E (Adapters.engine_package lang) e))
    (lang_name (Adapters.engine_package lang)) = true.
Proof.
  intros Ht Hl. split; [| apply load_failure_names].
  destruct lang; cbn [Adapters.engine_package Adapters.preProcessors] in *;
    unfold Adapters.sass, Adapters.scss, Adapters.less, Adapters.styl, bind at 1;
    rewrite (load_missing _ _ _ _ Ht Hl); reflexivity.
Qed.

Lemma loadPreprocessor_grows lang root (t : Loaded Any) r t' :
  loadPreprocessor E lang root t = (r, t') ->
  (forall l, l <> lang -> t' l = t l) /\
  (forall engine, r = Ok engine -> t' lang = Some engine).
Proof.
  unfold loadPreprocessor, bind, get, try_catch, lift, modify, ret, throw.
  destruct (t lang) as [engine |] eqn:Ht.
  - intros [= <- <-]. split; [reflexivity |]. intros engine' [= <-]. exact Ht.
  - destruct (load_attempt E lang root) as [engine | e]; cbn; intros [= <- <-].
    + split.
      * intros l Hne. unfold loaded_set. rewrite decide_False by exact Hne. reflexivity.
      * intros engine' [= <-]. unfold loaded_set. rewrite decide_True by reflexivity.
        reflexivity.
    + split; [reflexivity | discriminate].
Qed.

(** X29. An adapter that returns has its engine in the table of loaded
    engines and has touched no other entry of it; and it reports
    either no error, or exactly one error and then no code, no source
    map and no dependency: a failure of the engine is handed back,
    not thrown. *)
Theorem adapter_results lang source root options resolvers (t : Loaded Any) r t' :
  Adapters.preProcessors E fs G lang source root options resolvers t = (Ok r, t') ->
  (pre_errors r = [] \/ exists e, r = Adapters.failed e) /\
  is_Some (t' (Adapters.engine_package lang)) /\
  (forall l, l <> Adapters.engine_package lang -> t' l = t l).
Proof.
  assert (forall pkg (k : Any -> M (Loaded Any) StylePreprocessorResults),
            (forall engine s r s',
               k engine s = (Ok r, s') ->
               s' = s /\ (pre_errors r = [] \/ exists e, r = Adapters.failed e)) ->
            bind (loadPreprocessor E pkg root) k t = (Ok r, t') ->
            (pre_errors r = [] \/ exists e, r = Adapters.failed e) /\
            is_Some (t' pkg) /\ (forall l, l <> pkg -> t' l = t l)) as Hgen.
  { intros pkg k Hk. unfold bind at 1.
    destruct (loadPreprocessor E pkg root t) as [[engine | e] t1] eqn:Hload; [| discriminate].
    intros Hrun. apply Hk in Hrun as [-> Hr].
    apply loadPreprocessor_grows in Hload as [Hother Hthis].
    split; [exact Hr |]. split; [rewrite (Hthis engine eq_refl); eauto | exact Hother]. }
  destruct lang; cbn [Adapters.engine_package Adapters.preProcessors]; unfold Adapters.sass, Adapters.scss, Adapters.less, Adapters.styl;
    apply Hgen; intros engine s r0 s'; unfold bind, lift, ret.
  - (* less *)
    destruct (Adapters.getSource G _ _ _ _) as [[content additionalMap] | e]; [| discriminate].
    destruct (Adapters.less_render G _ _ _ _) as [err | out].
    + intros [= <- <-]. split; [reflexivity | right; eauto].
    + destruct (Adapters.JSON_parse G _) as [m | e]; [| discriminate].
      intros [= <- <-]. split; [reflexivity | left; reflexivity].
  - (* sass *)
    destruct (Adapters.getSource G _ _ _ _) as [[content additionalMap] | e]; [| discriminate].
    destruct (Adapters.sass_render G _ _) as [res | e].
    + destruct (Adapters.sass_map res) as [text |].
      * destruct (Adapters.JSON_parse G text) as [m | e]; intros [= <- <-];
          (split; [reflexivity |]); [left; reflexivity | right; eauto].
      * intros [= <- <-]. split; [reflexivity | left; reflexivity].
    + intros [= <- <-]. split; [reflexivity | right; eauto].
  - (* scss *)
    destruct (Adapters.getSource G _ _ _ _) as [[content additionalMap] | e]; [| discriminate].
    destruct (Adapters.sass_render G _ _) as [res | e].
    + destruct (Adapters.sass_map res) as [text |].
      * destruct (Adapters.JSON_parse G text) as [m | e]; intros [= <- <-];
          (split; [reflexivity |]); [left; reflexivity | right; eauto].
      * intros [= <- <-]. split; [reflexivity | left; reflexivity].
    + intros [= <- <-]. split; [reflexivity | right; eauto].
  - (* styl *)
    destruct (Adapters.getSource G _ _ _ _) as [[content additionalMap] | e]; [| discriminate].
    destruct (Adapters.stylus_run G _ _ _ _) as [run | e]; intros [= <- <-];
      (split; [reflexivity |]); [left; reflexivity | right; eauto].
  - (* stylus *)
    destruct (Adapters.getSource G _ _ _ _) as [[content additionalMap] | e]; [| discriminate].
    destruct (Adapters.stylus_run G _ _ _ _) as [run | e]; intros [= <- <-];
      (split; [reflexivity |]); [left; reflexivity | right; eauto].
Qed.

(** X30. With the adapters of css.ts, compiling a stylesheet of a
    dialect whose engine is not loaded and cannot be loaded throws
    the loader's error for the package of that dialect ([sass] for a
    [.scss] file), after the PostCSS configuration has been
    resolved; no code is returned. *)
Theorem compileCSS_missing_engine resolvers (t : Loaded Any) id code
    (config : ResolvedConfig Any) server s pc s1 lang e :
  Adapters.adapters_of_css_ts E fs G resolvers t ->
  resolvePostcssConfig E config s = (Ok pc, s1) ->
  preprocessor_of id = Some lang ->
  t (Adapters.engine_package lang) = None ->
  load_attempt E (Adapters.engine_package lang) (config_root config) = Throw e ->
  compileCSS E id code config server s =
    (Throw (load_failure E (Adapters.engine_package lang) e), s1) /\
  Js.includes (err_message (load_failure E (Adapters.engine_package lang) e))
    (lang_name (Adapters.engine_package lang)) = true.
Proof.
  intros (Hscss & Hless & Hstyl) Hcfg Hlang Ht Hl.
  split; [| apply load_failure_names].
  unfold compileCSS, bind. rewrite Hcfg.
  destruct (is_css (lang_of id)) eqn:Hcss.
  { apply css_is_no_preprocessor in Hcss. unfold preprocessor_of in Hlang. congruence. }
  cbn [andb]. rewrite Hlang. unfold lift, bind.
  assert (preprocess E config lang id code =
          Throw (load_failure E (Adapters.engine_package lang) e)) as ->; [| reflexivity].
  unfold preprocess, preProcessors, sass_adapter.
  destruct lang; cbn [Adapters.engine_package] in *; rewrite ?Hscss, ?Hless, ?Hstyl;
    unfold Adapters.scss, Adapters.less, Adapters.styl, bind at 1;
    rewrite (load_missing _ _ _ _ Ht Hl); reflexivity.
Qed.

End AdaptersMore.

(* ================================================================== *)
(** * The further properties on the samples *)
(* ================================================================== *)

Lemma resolvePostcssConfig_cached_witness :
  postcssConfigCache (mkSession (Some None) ∅ [] : Session unit) = Some None /\
  globImporters (mkSession (Some None) ∅ [] : Session unit) = globImporters Sample.session /\
  warnings (mkSession (Some None) ∅ [] : Session unit) = warnings Sample.session /\
  forall E' : Env unit,
    resolvePostcssConfig E' Sample.config (mkSession (Some None) ∅ []) =
    (Ok None, mkSession (Some None) ∅ []).
Proof.
  apply (resolvePostcssConfig_cached Sample.env Sample.config Sample.session None
           (mkSession (Some None) ∅ [])).
  vm_compute. reflexivity.
Defined.

Lemma compileCSS_deps_exact_witness :
  exists res s' deps,
    compileCSS Sample.env "/src/a.scss" "a { color: red }" Sample.config_with_plugin
      false Sample.session = (Ok res, s') /\
    cr_deps res = Some deps /\ NoDup deps.
Proof.
  eexists _, _, _. split; [vm_compute; reflexivity |]. split; [reflexivity |].
  eapply (compileCSS_deps_exact Sample.env "/src/a.scss" "a { color: red }"
            Sample.config_with_plugin false Sample.session);
    [vm_compute; reflexivity | reflexivity].
Defined.

Lemma css_transform_dev_witness :
  exists r se' st',
    compileCSS Sample.env "/src/a.scss" "a { color: red }" Sample.config true
      Sample.session = (Ok r, se') /\
    css_transform Sample.env Sample.config true false "a { color: red }" "/src/a.scss"
      Fixture.dev_state = (Ok (Some (cr_code r, cr_map r)), st') /\
    "/src/_vars.scss" ∈ watchFiles st'.
Proof.
  destruct (css_transform_dev Sample.env Sample.config false "a { color: red }" "/src/a.scss"
              Fixture.dev_state _ _ (mkModuleNode [] true)
              ltac:(vm_compute; reflexivity) ltac:(vm_compute; reflexivity)
              ltac:(vm_compute; reflexivity) ltac:(vm_compute; reflexivity))
    as (st' & Hrun & _ & Hwatch).
  eexists _, _, st'. split; [vm_compute; reflexivity |]. split; [exact Hrun |].
  eapply Hwatch; [reflexivity |]. left.
Defined.


Lemma post_transform_build_records_witness :
  styles (fst (snd (post_transform Sample.env Fixture.host Sample.config ∅ false ".b{}"
                      "/src/b.css" Fixture.tr_state))) =
  <["/src/b.css" := ".b{}"]> ∅.
Proof.
  destruct (post_transform_build_records Sample.env Fixture.host Sample.config ∅ false
              ".b{}" "/src/b.css" Fixture.tr_state eq_refl) as (Hstyles & _).
  rewrite Hstyles. vm_compute. reflexivity.
Defined.

Lemma post_transform_serve_witness :
  post_transform Sample.env Fixture.host Fixture.serve_config ∅ false ".b{}"
    "/src/b.css?direct" Fixture.tr_state =
  (Ok (Some (TCode ".b{}")), Fixture.tr_state).
Proof.
  apply (proj2 (post_transform_serve Sample.env Fixture.host Fixture.serve_config ∅ false
                  ".b{}" "/src/b.css?direct" Fixture.tr_state eq_refl));
    vm_compute; reflexivity.
Defined.

Lemma renderChunk_extracted_witness :
  exists st',
    renderChunk Sample.env Sample.config_single "" Sample.plain_chunk Sample.es
      Fixture.single_state = (Ok (None, Sample.plain_chunk), st') /\
    outputToExtractedCSSMap st' !! 1 = Some ".b{}" /\ emitted st' = [].
Proof.
  destruct (renderChunk_extracted Sample.env Sample.config_single "" Sample.plain_chunk
              Sample.es Fixture.single_state ".b{}" Sample.plain_chunk eq_refl
              ltac:(vm_compute; reflexivity) ltac:(vm_compute; reflexivity))
    as (st' & Hrun & Hmap & Hemitted & _).
  exists st'. split; [exact Hrun |]. split; [| exact Hemitted].
  rewrite Hmap. vm_compute. reflexivity.
Defined.

Lemma renderChunk_split_emits_witness :
  exists chunk' st',
    renderChunk Sample.env Sample.config "" Sample.plain_chunk Sample.es
      Fixture.single_state = (Ok (None, chunk'), st') /\
    emitted st' = [("b.js.css", ".b{}")].
Proof.
  destruct (renderChunk_split_emits Sample.env Sample.config "" Sample.plain_chunk
              Sample.es Fixture.single_state ".b{}" Sample.plain_chunk eq_refl
              ltac:(vm_compute; reflexivity) ltac:(left; reflexivity)
              ltac:(vm_compute; reflexivity))
    as (st' & Hrun & Hemitted & _).
  eexists _, st'. split; [exact Hrun | exact Hemitted].
Defined.

Lemma renderChunk_legacy_witness :
  emitted (snd (renderChunk Sample.env Sample.config "" Sample.plain_chunk Fixture.system
                  Fixture.single_state)) = [].
Proof.
  destruct (renderChunk_legacy Sample.env Sample.config "" Sample.plain_chunk
              Fixture.system Fixture.single_state eq_refl
              ltac:(vm_compute; reflexivity) ltac:(discriminate) ltac:(discriminate))
    as (Hemitted & _).
  exact Hemitted.
Defined.


Lemma extracted_css_round_trip_witness :
  let s1 := snd (post_buildStart Sample.post_state) in
  let s2 :=
    fst (snd (post_transform Sample.env Fixture.host Sample.config_single ∅ false ".b{}"
                "/src/b.css" (s1, []))) in
  let s3 := snd (renderChunk Sample.env Sample.config_single "" Sample.plain_chunk
                   Sample.es s2) in
  let s4 := fst (snd (generateBundle Sample.env Sample.config_single Sample.es (s3, []))) in
  emitted s4 = emitted Sample.post_state ++ [("style.css", ".b{}")].
Proof.
  exact (extracted_css_round_trip Sample.env Fixture.host Sample.config_single ∅ false
           ".b{}" "/src/b.css" "" Sample.plain_chunk Sample.es [] Sample.post_state []
           eq_refl eq_refl eq_refl ltac:(vm_compute; reflexivity)
           ltac:(vm_compute; reflexivity) ltac:(vm_compute; reflexivity) eq_refl
           eq_refl ltac:(vm_compute; reflexivity) ltac:(vm_compute; reflexivity) eq_refl).
Defined.

Lemma adapter_loads_engine_witness :
  Adapters.preProcessors Sample.env Fixture.fs Fixture.engines Scss "a { color: red }" "/"
    (mkOpts IncludePaths tt None "/src/a.scss" false) Fixture.resolvers Fixture.loaded =
  (Throw (load_failure Sample.env Sass (Sample.failure "Unexpected token" None)),
   Fixture.loaded) /\
  Js.includes
    (err_message (load_failure Sample.env Sass (Sample.failure "Unexpected token" None)))
    "sass" = true.
Proof.
  exact (adapter_loads_engine Sample.env Fixture.fs Fixture.engines Scss "a { color: red }"
           "/" (mkOpts IncludePaths tt None "/src/a.scss" false) Fixture.resolvers
           Fixture.loaded (Sample.failure "Unexpected token" None) eq_refl
           ltac:(vm_compute; reflexivity)).
Defined.

Lemma adapter_results_witness :
  exists r t',
    Adapters.preProcessors Sample.env Fixture.fs Fixture.engines Less "a { @error }" "/"
      (mkOpts Paths tt None "/src/a.less" false) Fixture.resolvers Fixture.loaded =
    (Ok r, t') /\
    (pre_errors r = [] \/ exists e, r = Adapters.failed e) /\
    is_Some (t' Less).
Proof.
  eexists _, _. split; [vm_compute; reflexivity |].
  destruct (adapter_results Sample.env Fixture.fs Fixture.engines Less "a { @error }" "/"
              (mkOpts Paths tt None "/src/a.less" false) Fixture.resolvers Fixture.loaded
              _ _ ltac:(vm_compute; reflexivity)) as (Hr & Ht & _).
  split; [exact Hr | exact Ht].
Defined.

Lemma compileCSS_missing_engine_witness :
  compileCSS Fixture.env "/src/a.scss" "a { color: red }" Sample.config false
    Sample.session =
  (Throw (load_failure Fixture.env Sass (Sample.failure "Unexpected token" None)),
   mkSession (Some None) ∅ []) /\
  Js.includes
    (err_message (load_failure Fixture.env Sass (Sample.failure "Unexpected token" None)))
    "sass" = true.
Proof.
  exact (compileCSS_missing_engine Fixture.env Fixture.fs Fixture.engines
           Fixture.resolvers Fixture.loaded "/src/a.scss" "a { color: red }"
           Sample.config false Sample.session None (mkSession (Some None) ∅ []) Scss
           (Sample.failure "Unexpected token" None)
           ltac:(repeat split; reflexivity) ltac:(vm_compute; reflexivity)
           ltac:(vm_compute; reflexivity) eq_refl ltac:(vm_compute; reflexivity)).
Defined.
